(** * my-cache: a shallow embedding of the cache core and its properties

    The development follows the TypeScript sources:
    - [JsMap]        the built-in [Map] (insertion ordered, live iterators)
    - [Dictionary]   src/core/Dictionary.ts   (incremental rehash)
    - [TTLManager]   src/expiration/TTLManager.ts
    - [UsageTracker] src/eviction/UsageTracker.ts
    - [IntSet]       src/encodings/IntSet.ts
    - [ListPackNode] src/encodings/ListPackNode.ts
    - [QuickList]    src/encodings/QuickList.ts
    - [SkipList]     src/zset/SkipList.ts, src/zset/utils.ts
    - [ZSet]         src/zset/ZSet.ts
    - [Cache]        src/core/Cache.ts

    Conventions.  A JavaScript [number] that holds a count, an index or
    a time stamp is an integer here ([Z] or [nat]); a score is a
    [number], which is an integer, an infinity or [NaN]; strings are
    [string]; [Date.now()] is the argument [now] of every operation;
    the values returned by [Math.random()] are read from a tape of
    rationals in [0,1), and a run that asks for more draws than the tape
    holds has no result ([None]). *)

From Stdlib Require Import ZArith QArith Qround String Ascii.
From stdpp Require Import base tactics option list sorting gmap strings.

Set Default Proof Using "Type".
Local Open Scope Z_scope.

(* ================================================================== *)
(** * Part I: the program *)
(* ================================================================== *)

(** ** The built-in [Map]

    A [Map] keeps its entries in insertion order.  [delete] empties the
    record of the key and leaves the slot in place; an iterator is an
    index into the slots and skips the empty ones, so that it stays
    valid across insertions and deletions. *)
Module JsMap.
Section defs.
Context {K V : Type} `{EqDecision K}.

(** The slots of a map, in insertion order. *)
Local Abbreviation t := (list (option (K * V))).

Definition empty : t := [].

Fixpoint get (m : t) (k : K) : option V :=
  match m with
  | [] => None
  | Some (k', v) :: m' => if decide (k' = k) then Some v else get m' k
  | None :: m' => get m' k
  end.

Definition has (m : t) (k : K) : bool :=
  match get m k with Some _ => true | None => false end.

(** [set] overwrites the value of a present key where it stands and
    appends a new key. *)
Fixpoint set (m : t) (k : K) (v : V) : t :=
  match m with
  | [] => [Some (k, v)]
  | Some (k', v') :: m' =>
      if decide (k' = k) then Some (k, v) :: m'
      else Some (k', v') :: set m' k v
  | None :: m' => None :: set m' k v
  end.

Definition clear_slot (k : K) (s : option (K * V)) : option (K * V) :=
  match s with
  | Some (k', v) => if decide (k' = k) then None else Some (k', v)
  | None => None
  end.

(** [delete] returns the map and whether the key was present. *)
Definition delete (m : t) (k : K) : t * bool :=
  (clear_slot k <$> m, has m k).

Definition entries (m : t) : list (K * V) := omap id m.

Definition keys (m : t) : list K := (entries m).*1.

Definition size (m : t) : nat := length (entries m).

(** [next m i]: the first live entry at slot [i] or later, with the
    position of the iterator after it; [None] when the iterator is
    done. *)
Fixpoint next (m : t) (i : nat) : option ((K * V) * nat) :=
  match m with
  | [] => None
  | s :: m' =>
      match i with
      | S i' => prod_map id S <$> next m' i'
      | O =>
          match s with
          | Some e => Some (e, 1%nat)
          | None => prod_map id S <$> next m' 0%nat
          end
      end
  end.

(** In-place change of the object stored under [k] (the map holds a
    reference; the caller mutates the object it points to). *)
Fixpoint modify (m : t) (k : K) (f : V → V) : t :=
  match m with
  | [] => []
  | Some (k', v) :: m' =>
      if decide (k' = k) then Some (k', f v) :: m'
      else Some (k', v) :: modify m' k f
  | None :: m' => None :: modify m' k f
  end.
End defs.
Abbreviation t K V := (list (option (K * V))).
End JsMap.

(** ** Dictionary with incremental rehash (src/core/Dictionary.ts) *)
Module Dictionary.
Section defs.
Context {K V : Type} `{EqDecision K}.

Record t : Type := mk {
  ht0 : JsMap.t K V;
  ht1 : option (JsMap.t K V);
  rehashidx : Z;
  rehashStepSize : nat;
  (** iterator over [ht0.entries()] *)
  rehashIterator : option nat;
}.

Definition new (rehashStepSize : nat) : t :=
  {| ht0 := JsMap.empty; ht1 := None; rehashidx := -1;
     rehashStepSize := rehashStepSize; rehashIterator := None |}.

Definition isRehashing (d : t) : bool := bool_decide (0 ≤ rehashidx d).

Definition _startRehash (d : t) : t :=
  if isRehashing d then d
  else {| ht0 := ht0 d; ht1 := Some JsMap.empty; rehashidx := 0;
          rehashStepSize := rehashStepSize d;
          rehashIterator := Some 0%nat |}.

(** The loop [while (moved < stepSize)] of [_rehashStep]; [n] is
    [stepSize - moved]. *)
Fixpoint _rehashLoop (n : nat) (h0 h1 : JsMap.t K V) (idx : Z) (it : nat)
    (step : nat) : t * bool :=
  match n with
  | O => ({| ht0 := h0; ht1 := Some h1; rehashidx := idx;
             rehashStepSize := step; rehashIterator := Some it |}, false)
  | S n' =>
      match JsMap.next h0 it with
      | None =>
          ({| ht0 := h1; ht1 := None; rehashidx := -1;
              rehashStepSize := step; rehashIterator := None |}, true)
      | Some ((key, value), it') =>
          _rehashLoop n' (JsMap.delete h0 key).1 (JsMap.set h1 key value)
            (idx + 1) it' step
      end
  end.

Definition _rehashStep (d : t) (stepSize : nat) : t * bool :=
  if negb (isRehashing d) then (d, true)
  else
    match rehashIterator d, ht1 d with
    | Some it, Some h1 =>
        _rehashLoop stepSize (ht0 d) h1 (rehashidx d) it (rehashStepSize d)
    | _, _ => (d, true)
    end.

Definition step (d : t) : t := (_rehashStep d (rehashStepSize d)).1.

(** The table [ht1] when a rehash is under way. *)
Definition rehashing_ht1 (d : t) : option (JsMap.t K V) :=
  if isRehashing d then ht1 d else None.

Definition get (d : t) (key : K) : t * option V :=
  let d := step d in
  match rehashing_ht1 d with
  | Some h1 =>
      match JsMap.get h1 key with
      | Some val => (d, Some val)
      | None => (d, JsMap.get (ht0 d) key)
      end
  | None => (d, JsMap.get (ht0 d) key)
  end.

Definition set (d : t) (key : K) (value : V) : t :=
  let d := step d in
  match rehashing_ht1 d with
  | Some h1 =>
      let h0 := if JsMap.has (ht0 d) key
                then (JsMap.delete (ht0 d) key).1 else ht0 d in
      {| ht0 := h0; ht1 := Some (JsMap.set h1 key value);
         rehashidx := rehashidx d; rehashStepSize := rehashStepSize d;
         rehashIterator := rehashIterator d |}
  | None =>
      let d' := {| ht0 := JsMap.set (ht0 d) key value; ht1 := ht1 d;
                   rehashidx := rehashidx d;
                   rehashStepSize := rehashStepSize d;
                   rehashIterator := rehashIterator d |} in
      if bool_decide (1000 < JsMap.size (ht0 d'))%nat && negb (isRehashing d')
      then _startRehash d' else d'
  end.

Definition delete (d : t) (key : K) : t * bool :=
  let d := step d in
  match rehashing_ht1 d with
  | Some h1 =>
      let '(h1', deleted1) := JsMap.delete h1 key in
      let '(h0', deleted0) := JsMap.delete (ht0 d) key in
      ({| ht0 := h0'; ht1 := Some h1'; rehashidx := rehashidx d;
          rehashStepSize := rehashStepSize d;
          rehashIterator := rehashIterator d |}, deleted0 || deleted1)
  | None =>
      let '(h0', deleted0) := JsMap.delete (ht0 d) key in
      ({| ht0 := h0'; ht1 := ht1 d; rehashidx := rehashidx d;
          rehashStepSize := rehashStepSize d;
          rehashIterator := rehashIterator d |}, deleted0)
  end.

Definition has (d : t) (key : K) : t * bool :=
  let d := step d in
  match rehashing_ht1 d with
  | Some h1 =>
      if JsMap.has h1 key then (d, true) else (d, JsMap.has (ht0 d) key)
  | None => (d, JsMap.has (ht0 d) key)
  end.

Definition keys (d : t) : t * list K :=
  let d := step d in
  match rehashing_ht1 d with
  | Some h1 => (d, JsMap.keys (ht0 d) ++ JsMap.keys h1)
  | None => (d, JsMap.keys (ht0 d))
  end.

Definition size (d : t) : nat :=
  match rehashing_ht1 d with
  | Some h1 => (JsMap.size (ht0 d) + JsMap.size h1)%nat
  | None => JsMap.size (ht0 d)
  end.

(** [_forceRehashComplete()]: the loop [while (this.isRehashing())].
    Every turn but the last moves 100 entries of [ht0], so that the
    number of its slots bounds the turns. *)
Fixpoint _forceRehashLoop (fuel : nat) (d : t) : option t :=
  if isRehashing d then
    match fuel with
    | O => None
    | S fuel' => _forceRehashLoop fuel' (_rehashStep d 100).1
    end
  else Some d.

Definition _forceRehashComplete (d : t) : option t :=
  _forceRehashLoop (S (length (ht0 d))) d.

(** In-place change of the entry object stored under [key]: the
    caller holds the reference that [get] returned and assigns to its
    fields; no method of the dictionary runs. *)
Definition modify (d : t) (key : K) (f : V → V) : t :=
  match ht1 d with
  | Some h1 =>
      {| ht0 := JsMap.modify (ht0 d) key f;
         ht1 := Some (JsMap.modify h1 key f);
         rehashidx := rehashidx d; rehashStepSize := rehashStepSize d;
         rehashIterator := rehashIterator d |}
  | None =>
      {| ht0 := JsMap.modify (ht0 d) key f; ht1 := None;
         rehashidx := rehashidx d; rehashStepSize := rehashStepSize d;
         rehashIterator := rehashIterator d |}
  end.
End defs.
Global Arguments t : clear implicits.
End Dictionary.

(** ** Time and randomness *)

(** The successive values of [Math.random()], each in [0,1). *)
Definition tape : Type := list Q.

Definition Math_random (t : tape) : option (Q * tape) :=
  match t with
  | [] => None
  | r :: t' => Some (r, t')
  end.

Definition Qltb (x y : Q) : bool :=
  (Qnum x * Zpos (Qden y) <? Qnum y * Zpos (Qden x))%Z.

(** [String.length] as a [number]. *)
Definition strlen (s : string) : Z := Z.of_nat (String.length s).

(** ** TTL manager (src/expiration/TTLManager.ts)

    The callback [onExpire] belongs to the owner of the manager and
    changes the owner (and, through it, the manager).  The operations
    that take it are therefore written over the state [W] of the owner,
    with the manager as a component of it. *)
Module TTLManager.

(** What [setInterval] was given: the period and the parameters that
    the closure captured. *)
Record Timer : Type := mkTimer {
  intervalMs : Z;
  sampleSize : Z;
  maxRounds : Z;
}.

Record t : Type := mk {
  expirations : JsMap.t string Z;
  interval : option Timer;
  (** iterator over [expirations.keys()] *)
  keyIterator : option nat;
  pendingDeletes : list string;
}.

Definition new : t :=
  {| expirations := JsMap.empty; interval := None; keyIterator := None;
     pendingDeletes := [] |}.

Definition set (m : t) (key : string) (expiresAtMs : Z) : t :=
  {| expirations := JsMap.set (expirations m) key expiresAtMs;
     interval := interval m; keyIterator := keyIterator m;
     pendingDeletes := pendingDeletes m |}.

Definition delete (m : t) (key : string) : t :=
  {| expirations := (JsMap.delete (expirations m) key).1;
     interval := interval m; keyIterator := keyIterator m;
     pendingDeletes := pendingDeletes m |}.

Definition isExpired (m : t) (now : Z) (key : string) : bool :=
  match JsMap.get (expirations m) key with
  | None => false
  | Some expiresAt => bool_decide (expiresAt ≤ now)
  end.

Definition getExpiration (m : t) (key : string) : option Z :=
  JsMap.get (expirations m) key.

Definition size (m : t) : nat := JsMap.size (expirations m).

(** [expiresAt && now >= expiresAt]: a deadline of 0 is falsy. *)
Definition sampled_expired (m : t) (now : Z) (key : string) : bool :=
  match JsMap.get (expirations m) key with
  | None => false
  | Some expiresAt => bool_decide (expiresAt ≠ 0) && bool_decide (expiresAt ≤ now)
  end.

Definition push_pending (m : t) (key : string) : t :=
  {| expirations := expirations m; interval := interval m;
     keyIterator := keyIterator m;
     pendingDeletes := pendingDeletes m ++ [key] |}.

Definition with_keyIterator (m : t) (it : nat) : t :=
  {| expirations := expirations m; interval := interval m;
     keyIterator := Some it; pendingDeletes := pendingDeletes m |}.

Definition visit (m : t) (now : Z) (key : string) (expiredCount : Z) : t * Z :=
  if sampled_expired m now key
  then (push_pending m key, expiredCount + 1)
  else (m, expiredCount).

(** The loop [for (let i = 0; i < k; i++)] of [sampleAndPurge]; [n]
    is [k - i] and [it] the position of [keyIterator].  The [break]
    is dead code: the loop runs on a map that is not empty. *)
Fixpoint sampleLoop (n : nat) (m : t) (now : Z) (it : nat)
    (expiredCount : Z) : t * Z :=
  match n with
  | O => (with_keyIterator m it, expiredCount)
  | S n' =>
      match JsMap.next (expirations m) it with
      | None =>
          (* wrap around to the beginning *)
          match JsMap.next (expirations m) 0%nat with
          | None =>
              (with_keyIterator m (length (expirations m)), expiredCount)
          | Some ((key, _), it') =>
              let '(m', c) := visit m now key expiredCount in
              sampleLoop n' m' now it' c
          end
      | Some ((key, _), it') =>
          let '(m', c) := visit m now key expiredCount in
          sampleLoop n' m' now it' c
      end
  end.

Section owner.
Context {W : Type} (ttl : W → t) (with_ttl : t → W → W).

Definition _flushPendingDeletes (onExpire : string → W → W) (w : W) : W :=
  let w' := foldl (λ w key, onExpire key w) w (pendingDeletes (ttl w)) in
  let m := ttl w' in
  with_ttl {| expirations := expirations m; interval := interval m;
              keyIterator := keyIterator m; pendingDeletes := [] |} w'.

Definition flushPendingDeletes (onExpire : string → W → W) (w : W) : W :=
  if bool_decide (0 < length (pendingDeletes (ttl w)))%nat
  then _flushPendingDeletes onExpire w else w.

Definition sampleAndPurge (k : Z) (onExpire : string → W → W) (now : Z)
    (w : W) : W * Z :=
  let m := ttl w in
  if bool_decide (JsMap.size (expirations m) = 0%nat) then (w, 0)
  else
    let it := default 0%nat (keyIterator m) in
    let '(m', expiredCount) := sampleLoop (Z.to_nat k) m now it 0 in
    let w' := with_ttl m' w in
    if bool_decide (100 ≤ length (pendingDeletes m'))%nat
    then (_flushPendingDeletes onExpire w', expiredCount)
    else (w', expiredCount).

(** [startActiveExpiration(onExpire, intervalMs = 100,
    sampleSize = 20, maxRounds = 4)] *)
Definition startActiveExpiration (intervalMs sampleSize maxRounds : option Z)
    (w : W) : W :=
  let m := ttl w in
  match interval m with
  | Some _ => w
  | None =>
      with_ttl {| expirations := expirations m;
                  interval := Some {| intervalMs := default 100 intervalMs;
                                      sampleSize := default 20 sampleSize;
                                      maxRounds := default 4 maxRounds |};
                  keyIterator := keyIterator m;
                  pendingDeletes := pendingDeletes m |} w
  end.

(** One round of the [do ... while] of the timer callback.  The
    result is the state and, when the round ran, the pair
    [(sampledCount, expiredCount)]. *)
Definition round (sampleSize : Z) (onExpire : string → W → W) (now : Z)
    (w : W) : W * option (Z * Z) :=
  let sampled := Z.min sampleSize (Z.of_nat (JsMap.size (expirations (ttl w)))) in
  if bool_decide (sampled = 0) then (w, None)
  else
    let '(w', expiredCount) := sampleAndPurge sampled onExpire now w in
    (w', Some (sampled, expiredCount)).

(** [expiredCount > sampledCount * 0.25 && rounds < maxRounds] *)
Definition continue (maxRounds : Z) (rounds : Z) (r : Z * Z) : bool :=
  bool_decide (r.1 < 4 * r.2) && bool_decide (rounds < maxRounds).

(** The callback of the timer: [fuel] bounds the rounds that can
    follow the first one; the result carries [rounds]. *)
Fixpoint tickLoop (fuel : nat) (sampleSize maxRounds : Z)
    (onExpire : string → W → W) (now : Z) (rounds : Z) (w : W) : W * Z :=
  match round sampleSize onExpire now w with
  | (w', None) => (w', rounds)
  | (w', Some r) =>
      if continue maxRounds (rounds + 1) r then
        match fuel with
        | O => (w', rounds + 1)
        | S fuel' =>
            tickLoop fuel' sampleSize maxRounds onExpire now (rounds + 1) w'
        end
      else (w', rounds + 1)
  end.

Definition tick (onExpire : string → W → W) (now : Z) (w : W) : W * Z :=
  match interval (ttl w) with
  | None => (w, 0)
  | Some tm =>
      tickLoop (Z.to_nat (maxRounds tm)) (sampleSize tm) (maxRounds tm)
        onExpire now 0 w
  end.

Definition stopActiveExpiration (w : W) : W :=
  let m := ttl w in
  with_ttl {| expirations := expirations m; interval := None;
              keyIterator := keyIterator m;
              pendingDeletes := pendingDeletes m |} w.
End owner.
End TTLManager.

(** ** Usage tracker (src/eviction/UsageTracker.ts) *)
Inductive EvictionPolicy : Type := lru | lfu.

Global Instance EvictionPolicy_eq_dec : EqDecision EvictionPolicy.
Proof. solve_decision. Defined.

Record UsageMetadata : Type := mkMeta {
  lastAccess : Z;
  freq : Z;
  lastDecay : Z;
}.

Module UsageTracker.

Record t : Type := mk {
  policy : EvictionPolicy;
  metadata : gmap string UsageMetadata;
  decayInterval : Z;
  decayAmount : Z;
  (** whether the decay timer is set *)
  decayTimer : bool;
}.

Definition startDecay (u : t) : t :=
  {| policy := policy u; metadata := metadata u;
     decayInterval := decayInterval u; decayAmount := decayAmount u;
     decayTimer := true |}.

Definition stopDecay (u : t) : t :=
  {| policy := policy u; metadata := metadata u;
     decayInterval := decayInterval u; decayAmount := decayAmount u;
     decayTimer := false |}.

(** [constructor(evictionPolicy = 'lru', decayInterval = 60000,
    decayAmount = 1)] *)
Definition new (evictionPolicy : option EvictionPolicy)
    (decayInterval decayAmount : option Z) : t :=
  let u := {| policy := default lru evictionPolicy; metadata := ∅;
              decayInterval := default 60000 decayInterval;
              decayAmount := default 1 decayAmount;
              decayTimer := false |} in
  if decide (policy u = lfu) then startDecay u else u.

Definition with_metadata (u : t) (md : gmap string UsageMetadata) : t :=
  {| policy := policy u; metadata := md;
     decayInterval := decayInterval u; decayAmount := decayAmount u;
     decayTimer := decayTimer u |}.

Definition touch (u : t) (now : Z) (tp : tape) (key : string)
    : option (t * tape) :=
  let meta := default {| lastAccess := now; freq := 0; lastDecay := now |}
                (metadata u !! key) in
  let meta := {| lastAccess := now; freq := freq meta;
                 lastDecay := lastDecay meta |} in
  match policy u with
  | lru => Some (with_metadata u (<[key := meta]> (metadata u)), tp)
  | lfu =>
      '(r, tp') ← Math_random tp;
      let probability := (1 / inject_Z (1 + freq meta))%Q in
      let meta :=
        if Qltb r probability && bool_decide (freq meta < 255)
        then {| lastAccess := lastAccess meta; freq := freq meta + 1;
                lastDecay := lastDecay meta |}
        else meta in
      Some (with_metadata u (<[key := meta]> (metadata u)), tp')
  end.

Definition delete (u : t) (key : string) : t :=
  with_metadata u (base.delete key (metadata u)).

(** The callback of the decay timer. *)
Definition decay (u : t) (now : Z) : t :=
  with_metadata u
    ((λ meta,
        if bool_decide (decayInterval u ≤ now - lastDecay meta)
        then {| lastAccess := lastAccess meta;
                freq := Z.max 0 (freq meta - decayAmount u);
                lastDecay := now |}
        else meta) <$> metadata u).

Definition getMetadata (u : t) (key : string) : option UsageMetadata :=
  metadata u !! key.
End UsageTracker.

(** ** Compact integer set (src/encodings/IntSet.ts) *)

(** A member handed to [sadd]: an integer number, or any other value. *)
Inductive SetMember : Type :=
  | MInt (n : Z)
  | MOther (s : string).

Global Instance SetMember_eq_dec : EqDecision SetMember.
Proof. solve_decision. Defined.

(** The built-in [Set]: members in insertion order. *)
Module JsSet.
Definition t : Type := list SetMember.
Definition has (s : t) (v : SetMember) : bool := bool_decide (v ∈ s).
Definition add (s : t) (v : SetMember) : t := if has s v then s else s ++ [v].
Definition size (s : t) : nat := length s.
Definition of_list (l : list SetMember) : t := foldl add [] l.
End JsSet.

Module IntSet.

Record t : Type := mk {
  data : list Z;
  maxSize : nat;
  isIntSet : bool;
}.

(** [constructor(maxSize = 512)] *)
Definition new (maxSize : option nat) : t :=
  {| data := []; maxSize := default 512%nat maxSize; isIntSet := true |}.

Inductive add_result : Type :=
  | upgrade
  | done (added : bool).

(** The binary search of [add]: [Some None] when the value is in the
    array, [Some (Some low)] with the insertion point otherwise.  The
    interval halves at every turn, so [length data] turns are
    enough. *)
Fixpoint search (fuel : nat) (data : list Z) (value : Z) (low high : nat)
    : option (option nat) :=
  if bool_decide (low < high)%nat then
    match fuel with
    | O => None
    | S fuel' =>
        let mid := ((low + high) / 2)%nat in
        x ← data !! mid;
        if bool_decide (x = value) then Some None
        else if bool_decide (x < value)
             then search fuel' data value (mid + 1)%nat high
             else search fuel' data value low mid
    end
  else Some (Some low).

Definition add (s : t) (value : SetMember) : option (t * add_result) :=
  match value with
  | MOther _ => Some (s, upgrade)
  | MInt v =>
      r ← search (length (data s)) (data s) v 0%nat (length (data s));
      match r with
      | None => Some (s, done false)
      | Some low =>
          if bool_decide (maxSize s ≤ length (data s))%nat
          then Some (s, upgrade)
          else Some ({| data := take low (data s) ++ v :: drop low (data s);
                        maxSize := maxSize s; isIntSet := isIntSet s |},
                     done true)
      end
  end.

Definition has (s : t) (value : SetMember) : bool :=
  match value with
  | MInt v => bool_decide (v ∈ data s)
  | MOther _ => false
  end.

(** [delete(value)]: [indexOf] finds the first index that holds the
    value and [splice(idx, 1)] takes it out. *)
Definition delete (s : t) (value : SetMember) : t * bool :=
  match value with
  | MInt v =>
      match list_find (λ x, x = v) (data s) with
      | Some (idx, _) =>
          ({| data := base.delete idx (data s);
              maxSize := maxSize s; isIntSet := isIntSet s |}, true)
      | None => (s, false)
      end
  | MOther _ => (s, false)
  end.

Definition size (s : t) : nat := length (data s).

Definition values (s : t) : list SetMember := MInt <$> data s.

Definition upgradeToSet (s : t) : JsSet.t := JsSet.of_list (MInt <$> data s).
End IntSet.

(** ** Packed list and quick list (src/encodings/ListPackNode.ts,
    src/encodings/QuickList.ts)

    The elements are strings, so that [String(value)] is the value. *)
Module ListPackNode.

Record t : Type := mk {
  elements : list string;
  bytes : Z;
  maxBytes : Z;
}.

(** [constructor(maxBytes = 4096)] *)
Definition new (maxBytes : option Z) : t :=
  {| elements := []; bytes := 0; maxBytes := default 4096 maxBytes |}.

Definition tryAppend (n : t) (value : string) : t * bool :=
  let size := strlen value + 4 in
  if bool_decide (maxBytes n < bytes n + size)
     && bool_decide (0 < List.length (elements n))%nat
  then (n, false)
  else ({| elements := elements n ++ [value]; bytes := bytes n + size;
           maxBytes := maxBytes n |}, true).

(** [None] is [undefined]. *)
Definition get (n : t) (index : Z) : option string :=
  if bool_decide (0 ≤ index) then elements n !! Z.to_nat index else None.

Definition length (n : t) : nat := List.length (elements n).

Definition toArray (n : t) : list string := elements n.
End ListPackNode.

(** The nodes of a quick list live in a heap; a pointer is an index
    into it, and [None] is [null]. *)
Module QuickList.

Record QuickListNode : Type := mkNode {
  data : ListPackNode.t;
  next : option nat;
  prev : option nat;
}.

Record t : Type := mk {
  heap : list QuickListNode;
  head : option nat;
  tail : option nat;
  length : Z;
}.

Definition new : t := {| heap := []; head := None; tail := None; length := 0 |}.

(** The node that [rpush] and [lpush] make for a value: a new packed
    list takes its first element whatever its size. *)
Definition newNode (value : string) (next prev : option nat) : QuickListNode :=
  {| data := (ListPackNode.tryAppend (ListPackNode.new None) value).1;
     next := next; prev := prev |}.

(** The branch of [rpush] that makes a new node at the tail. *)
Definition rpush_node (q : t) (value : string) : option t :=
  let id := List.length (heap q) in
  let h := heap q ++ [newNode value None (tail q)] in
  match tail q with
  | Some tl =>
      n ← h !! tl;
      Some {| heap := <[tl := {| data := data n; next := Some id;
                                 prev := prev n |}]> h;
              head := head q; tail := Some id; length := length q + 1 |}
  | None =>
      Some {| heap := h; head := Some id; tail := Some id;
              length := length q + 1 |}
  end.

Definition rpush (q : t) (value : string) : option t :=
  match tail q with
  | None => rpush_node q value
  | Some tl =>
      n ← heap q !! tl;
      let '(d, appended) := ListPackNode.tryAppend (data n) value in
      if appended then
        Some {| heap := <[tl := {| data := d; next := next n;
                                   prev := prev n |}]> (heap q);
                head := head q; tail := tail q; length := length q + 1 |}
      else rpush_node q value
  end.

Definition lpush (q : t) (value : string) : option t :=
  let id := List.length (heap q) in
  let h := heap q ++ [newNode value (head q) None] in
  match head q with
  | Some hd =>
      n ← h !! hd;
      Some {| heap := <[hd := {| data := data n; next := next n;
                                 prev := Some id |}]> h;
              head := Some id; tail := tail q; length := length q + 1 |}
  | None =>
      Some {| heap := h; head := Some id; tail := Some id;
              length := length q + 1 |}
  end.

(** The loop of [get]; the inner [None] is [undefined].  Every turn
    moves to another node, so [length heap] turns are enough. *)
Fixpoint get_loop (fuel : nat) (h : list QuickListNode) (current : option nat)
    (offset index : Z) : option (option string) :=
  match current with
  | None => Some None
  | Some x =>
      n ← h !! x;
      if bool_decide (index < offset + Z.of_nat (ListPackNode.length (data n)))
      then Some (ListPackNode.get (data n) (index - offset))
      else
        match fuel with
        | O => None
        | S fuel' =>
            get_loop fuel' h (next n)
              (offset + Z.of_nat (ListPackNode.length (data n))) index
        end
  end.

Definition get (q : t) (index : Z) : option (option string) :=
  if bool_decide (index < 0) || bool_decide (length q ≤ index) then Some None
  else get_loop (List.length (heap q)) (heap q) (head q) 0 index.

Fixpoint toArray_loop (fuel : nat) (h : list QuickListNode)
    (current : option nat) (result : list string) : option (list string) :=
  match current with
  | None => Some result
  | Some x =>
      n ← h !! x;
      match fuel with
      | O => None
      | S fuel' =>
          toArray_loop fuel' h (next n) (result ++ ListPackNode.toArray (data n))
      end
  end.

Definition toArray (q : t) : option (list string) :=
  toArray_loop (List.length (heap q)) (heap q) (head q) [].

Definition size (q : t) : Z := length q.

(** [createList(_sizeHint = 0)] *)
Definition createList (_sizeHint : option Z) : t := new.
End QuickList.

(** ** Numbers

    A score, a bound of a range of scores and the limit of a range
    query are JavaScript numbers: integers here, the two infinities and
    [NaN].  [NaN] is not equal to itself, every comparison with it is
    false, and a difference with it is [NaN]. *)
Inductive number : Type :=
  | Num (z : Z)
  | PosInf
  | NegInf
  | NaN.

Global Instance number_eq_dec : EqDecision number.
Proof. solve_decision. Defined.

(** An integer is a number. *)
Coercion Num : Z >-> number.

(** [a === b] *)
Definition num_eqb (a b : number) : bool :=
  match a, b with
  | Num x, Num y => bool_decide (x = y)
  | PosInf, PosInf => true
  | NegInf, NegInf => true
  | _, _ => false
  end.

(** [a < b] *)
Definition num_ltb (a b : number) : bool :=
  match a, b with
  | Num x, Num y => bool_decide (x < y)
  | Num _, PosInf => true
  | NegInf, Num _ => true
  | NegInf, PosInf => true
  | _, _ => false
  end.

(** [a <= b] *)
Definition num_leb (a b : number) : bool := num_ltb a b || num_eqb a b.

(** [a - b] *)
Definition num_sub (a b : number) : number :=
  match a, b with
  | NaN, _ => NaN
  | _, NaN => NaN
  | Num x, Num y => Num (x - y)
  | Num _, PosInf => NegInf
  | Num _, NegInf => PosInf
  | PosInf, PosInf => NaN
  | PosInf, _ => PosInf
  | NegInf, NegInf => NaN
  | NegInf, _ => NegInf
  end.

(** ** Skip list (src/zset/SkipListNode.ts, SkipList.ts, utils.ts)

    Nodes live in an arena; a reference to a node is its index, and the
    header is node 0.  A node that [delete] unlinks stays in the arena,
    unreachable.  The while loops that follow forward pointers take a
    fuel, the number of nodes of the arena; [None] is a run that gets
    stuck (out of fuel or of draws, an index outside an array).

    Members are compared as strings of bytes. *)
Module SkipList.

Record SkipListNode : Type := mkNode {
  score : number;
  member : string;
  level : nat;
  forward : list (option nat);
  span : list Z;
  backward : option nat;
}.

Definition newNode (score : number) (member : string) (level : nat)
    : SkipListNode :=
  {| score := score; member := member; level := level;
     forward := replicate level None; span := replicate level 0;
     backward := None |}.

(** [randomLevel(maxLevel = 32, probability = 0.25)]: the loop
    [while (Math.random() < probability && level < maxLevel)]. *)
Fixpoint randomLevel_loop (tp : tape) (maxLevel : nat) (probability : Q)
    (level : nat) : option (nat * tape) :=
  match tp with
  | [] => None
  | r :: tp' =>
      if Qltb r probability && bool_decide (level < maxLevel)%nat
      then randomLevel_loop tp' maxLevel probability (S level)
      else Some (level, tp')
  end.

Definition randomLevel (tp : tape) (maxLevel : nat) : option (nat * tape) :=
  randomLevel_loop tp maxLevel (1 # 4)%Q 1%nat.

Definition compareScoreMember (score1 : number) (member1 : string)
    (score2 : number) (member2 : string) : number :=
  if negb (num_eqb score1 score2) then num_sub score1 score2
  else if String.ltb member1 member2 then Num (-1)
  else if String.ltb member2 member1 then Num 1
  else Num 0.

Record t : Type := mk {
  nodes : list SkipListNode;
  maxLevel : nat;
  lvl : nat;               (* this.level *)
  tail : option nat;
  length : Z;
}.

Definition header : nat := 0%nat.

Definition new : t :=
  {| nodes := [newNode NegInf "" 32]; maxLevel := 32%nat; lvl := 1%nat;
     tail := None; length := 0 |}.

(** *** Access to the arena *)
Definition fwd (h : list SkipListNode) (x i : nat) : option nat :=
  n ← h !! x; mjoin (forward n !! i).

Definition spn (h : list SkipListNode) (x i : nat) : option Z :=
  n ← h !! x; span n !! i.

Definition set_fwd (h : list SkipListNode) (x i : nat) (v : option nat)
    : option (list SkipListNode) :=
  n ← h !! x;
  if bool_decide (i < List.length (forward n))%nat then
    Some (<[x := {| score := score n; member := member n; level := level n;
                    forward := <[i := v]> (forward n); span := span n;
                    backward := backward n |}]> h)
  else None.

Definition set_spn (h : list SkipListNode) (x i : nat) (v : Z)
    : option (list SkipListNode) :=
  n ← h !! x;
  if bool_decide (i < List.length (span n))%nat then
    Some (<[x := {| score := score n; member := member n; level := level n;
                    forward := forward n; span := <[i := v]> (span n);
                    backward := backward n |}]> h)
  else None.

Definition set_backward (h : list SkipListNode) (x : nat) (v : option nat)
    : option (list SkipListNode) :=
  n ← h !! x;
  Some (<[x := {| score := score n; member := member n; level := level n;
                  forward := forward n; span := span n;
                  backward := v |}]> h).

(** [compareScoreMember(x.score, x.member, score, member)] *)
Definition cmp_node (h : list SkipListNode) (x : nat) (score : number)
    (member : string) : option number :=
  n ← h !! x; Some (compareScoreMember (SkipList.score n) (SkipList.member n) score member).

(** *** insert *)

(** The while loop of [insert] at level [i], from node [x] with
    [rank[i] = r]. *)
Fixpoint insert_walk (fuel : nat) (h : list SkipListNode) (i : nat)
    (score : number) (member : string) (x : nat) (r : Z) : option (nat * Z) :=
  match fwd h x i with
  | None => Some (x, r)
  | Some y =>
      c ← cmp_node h y score member;
      if num_ltb c (Num 0) then
        match fuel with
        | O => None
        | S fuel' =>
            s ← spn h x i;
            insert_walk fuel' h i score member y (r + s)
        end
      else Some (x, r)
  end.

(** [for (let i = this.level - 1; i >= 0; i--)]; [n] is [i + 1] and
    [r] is [rank[i + 1]] (0 at the top). *)
Fixpoint insert_descend (n : nat) (h : list SkipListNode)
    (score : number) (member : string) (x : nat) (r : Z)
    (update : list (option nat)) (rank : list Z)
    : option (list (option nat) * list Z) :=
  match n with
  | O => Some (update, rank)
  | S i =>
      '(x', r') ← insert_walk (List.length h) h i score member x r;
      insert_descend i h score member x' r'
        (<[i := Some x']> update) (<[i := r']> rank)
  end.

(** [for (let i = this.level; i < newLevel; i++)]; [i] runs over
    [levels]. *)
Fixpoint insert_raise (levels : list nat) (h : list SkipListNode) (len : Z)
    (update : list (option nat)) (rank : list Z)
    : option (list SkipListNode * list (option nat) * list Z) :=
  match levels with
  | [] => Some (h, update, rank)
  | i :: levels' =>
      h' ← set_spn h header i len;
      insert_raise levels' h' len (<[i := Some header]> update) (<[i := 0]> rank)
  end.

(** [for (let i = 0; i < newLevel; i++)]: splice the node [nw] in. *)
Fixpoint insert_splice (levels : list nat) (h : list SkipListNode) (nw : nat)
    (update : list (option nat)) (rank : list Z)
    : option (list SkipListNode) :=
  match levels with
  | [] => Some h
  | i :: levels' =>
      u ← mjoin (update !! i);
      rank0 ← rank !! 0%nat;
      ranki ← rank !! i;
      h ← set_fwd h nw i (fwd h u i);
      h ← set_fwd h u i (Some nw);
      s ← spn h u i;
      h ← set_spn h nw i (s - (rank0 - ranki));
      h ← set_spn h u i ((rank0 - ranki) + 1);
      insert_splice levels' h nw update rank
  end.

(** [for (let i = newLevel; i < this.level; i++) update[i].span[i]++] *)
Fixpoint insert_bump (levels : list nat) (h : list SkipListNode)
    (update : list (option nat)) : option (list SkipListNode) :=
  match levels with
  | [] => Some h
  | i :: levels' =>
      u ← mjoin (update !! i);
      s ← spn h u i;
      h ← set_spn h u i (s + 1);
      insert_bump levels' h update
  end.

Definition insert (sl : t) (tp : tape) (score : number) (member : string)
    : option (t * nat * tape) :=
  let update := replicate (maxLevel sl) None in
  let rank := replicate (maxLevel sl) 0 in
  '(update, rank) ← insert_descend (lvl sl) (nodes sl) score member header 0
                      update rank;
  '(newLevel, tp) ← randomLevel tp (maxLevel sl);
  '(h, update, rank, level') ←
    (if bool_decide (lvl sl < newLevel)%nat then
       '(h, update, rank) ← insert_raise (seq (lvl sl) (newLevel - lvl sl))
                               (nodes sl) (length sl) update rank;
       Some (h, update, rank, newLevel)
     else Some (nodes sl, update, rank, lvl sl));
  let nw := List.length h in
  let h := h ++ [newNode score member newLevel] in
  h ← insert_splice (seq 0 newLevel) h nw update rank;
  h ← insert_bump (seq newLevel (level' - newLevel)) h update;
  u0 ← mjoin (update !! 0%nat);
  h ← set_backward h nw (if bool_decide (u0 = header) then None else Some u0);
  '(h, tail') ←
    match fwd h nw 0 with
    | Some y => h ← set_backward h y (Some nw); Some (h, tail sl)
    | None => Some (h, Some nw)
    end;
  Some ({| nodes := h; maxLevel := maxLevel sl; lvl := level';
           tail := tail'; length := length sl + 1 |}, nw, tp).

(** *** delete *)
Fixpoint delete_walk (fuel : nat) (h : list SkipListNode) (i : nat)
    (score : number) (member : string) (x : nat) : option nat :=
  match fwd h x i with
  | None => Some x
  | Some y =>
      c ← cmp_node h y score member;
      if num_ltb c (Num 0) then
        match fuel with
        | O => None
        | S fuel' => delete_walk fuel' h i score member y
        end
      else Some x
  end.

Fixpoint delete_descend (n : nat) (h : list SkipListNode)
    (score : number) (member : string) (x : nat) (update : list (option nat))
    : option (nat * list (option nat)) :=
  match n with
  | O => Some (x, update)
  | S i =>
      x' ← delete_walk (List.length h) h i score member x;
      delete_descend i h score member x' (<[i := Some x']> update)
  end.

(** [for (let i = 0; i < this.level; i++)]: unlink the node [x]. *)
Fixpoint delete_unlink (levels : list nat) (h : list SkipListNode) (x : nat)
    (update : list (option nat)) : option (list SkipListNode) :=
  match levels with
  | [] => Some h
  | i :: levels' =>
      u ← mjoin (update !! i);
      s ← spn h u i;
      h ←
        (if bool_decide (fwd h u i = Some x) then
           sx ← spn h x i;
           h ← set_spn h u i (s + (sx - 1));
           set_fwd h u i (fwd h x i)
         else set_spn h u i (s - 1));
      delete_unlink levels' h x update
  end.

(** [while (this.level > 1 && !this.header.forward[this.level - 1])] *)
Fixpoint delete_trim (h : list SkipListNode) (level : nat) : nat :=
  match level with
  | S (S l as level') =>
      match fwd h header level' with
      | None => delete_trim h level'
      | Some _ => level
      end
  | _ => level
  end.

Definition delete (sl : t) (score : number) (member : string)
    : option (t * bool) :=
  let update := replicate (maxLevel sl) None in
  '(x, update) ← delete_descend (lvl sl) (nodes sl) score member header update;
  match fwd (nodes sl) x 0 with
  | None => Some (sl, false)
  | Some x =>
      n ← nodes sl !! x;
      if negb (num_eqb (SkipList.score n) score)
         || bool_decide (SkipList.member n ≠ member)
      then Some (sl, false)
      else
        h ← delete_unlink (seq 0 (lvl sl)) (nodes sl) x update;
        '(h, tail') ←
          match fwd h x 0 with
          | Some y => h ← set_backward h y (backward n); Some (h, tail sl)
          | None => Some (h, backward n)
          end;
        Some ({| nodes := h; maxLevel := maxLevel sl;
                 lvl := delete_trim h (lvl sl);
                 tail := tail'; length := length sl - 1 |}, true)
  end.

(** *** getRank *)

(** The while loop of [getRank] at level [i]: [inl rank] is the
    [return rank - 1] inside the loop, [inr (x, rank)] the end of the
    loop. *)
Fixpoint getRank_walk (fuel : nat) (h : list SkipListNode) (i : nat)
    (score : number) (member : string) (x : nat) (rank : Z)
    : option (Z + nat * Z) :=
  match fwd h x i with
  | None => Some (inr (x, rank))
  | Some y =>
      c ← cmp_node h y score member;
      if num_leb c (Num 0) then
        match fuel with
        | O => None
        | S fuel' =>
            s ← spn h x i;
            n ← h !! y;
            if num_eqb (SkipList.score n) score
               && bool_decide (SkipList.member n = member)
            then Some (inl (rank + s - 1))
            else getRank_walk fuel' h i score member y (rank + s)
        end
      else Some (inr (x, rank))
  end.

Fixpoint getRank_descend (n : nat) (h : list SkipListNode)
    (score : number) (member : string) (x : nat) (rank : Z) : option Z :=
  match n with
  | O => Some (-1)
  | S i =>
      r ← getRank_walk (List.length h) h i score member x rank;
      match r with
      | inl found => Some found
      | inr (x', rank') => getRank_descend i h score member x' rank'
      end
  end.

Definition getRank (sl : t) (score : number) (member : string) : option Z :=
  getRank_descend (lvl sl) (nodes sl) score member header 0.

(** *** getByScoreRange *)
Fixpoint skip_below (fuel : nat) (h : list SkipListNode) (min : number)
    (x : option nat) : option (option nat) :=
  match x with
  | None => Some None
  | Some y =>
      n ← h !! y;
      if num_ltb (SkipList.score n) min then
        match fuel with
        | O => None
        | S fuel' => skip_below fuel' h min (fwd h y 0)
        end
      else Some (Some y)
  end.

Fixpoint collect (fuel : nat) (h : list SkipListNode) (max : number)
    (limit : number) (x : option nat) (result : list (string * number))
    : option (list (string * number)) :=
  match x with
  | None => Some result
  | Some y =>
      n ← h !! y;
      if num_leb (SkipList.score n) max
         && num_ltb (Num (Z.of_nat (List.length result))) limit
      then
        match fuel with
        | O => None
        | S fuel' =>
            collect fuel' h max limit (fwd h y 0)
              (result ++ [(SkipList.member n, SkipList.score n)])
        end
      else Some result
  end.

(** [limit: number = Infinity]; [None] is [undefined]. *)
Definition getByScoreRange (sl : t) (min max : number) (limit : option number)
    : option (list (string * number)) :=
  x ← skip_below (List.length (nodes sl)) (nodes sl) min (fwd (nodes sl) header 0);
  collect (List.length (nodes sl)) (nodes sl) max (default PosInf limit) x [].
End SkipList.

(** ** Sorted set (src/zset/ZSet.ts) *)
Module ZSet.

Record t : Type := mk {
  dict : gmap string number;
  skiplist : SkipList.t;
}.

Definition new : t := {| dict := ∅; skiplist := SkipList.new |}.

Definition zadd (z : t) (tp : tape) (member : string) (score : number)
    : option (t * bool * tape) :=
  match dict z !! member with
  | Some existing =>
      if num_eqb existing score then Some (z, false, tp)
      else
        '(sl, _) ← SkipList.delete (skiplist z) existing member;
        '(sl, _, tp) ← SkipList.insert sl tp score member;
        Some ({| dict := <[member := score]> (dict z); skiplist := sl |},
              false, tp)
  | None =>
      '(sl, _, tp) ← SkipList.insert (skiplist z) tp score member;
      Some ({| dict := <[member := score]> (dict z); skiplist := sl |},
            true, tp)
  end.

Definition zrem (z : t) (member : string) : option (t * bool) :=
  match dict z !! member with
  | None => Some (z, false)
  | Some score =>
      '(sl, _) ← SkipList.delete (skiplist z) score member;
      Some ({| dict := base.delete member (dict z); skiplist := sl |}, true)
  end.

Definition zscore (z : t) (member : string) : option number := dict z !! member.

(** [Some None] is [null]. *)
Definition zrank (z : t) (member : string) : option (option Z) :=
  match dict z !! member with
  | None => Some None
  | Some score => Some <$> SkipList.getRank (skiplist z) score member
  end.

Definition zrangeByScore (z : t) (min max : number) (limit : option number)
    : option (list (string * number)) :=
  SkipList.getByScoreRange (skiplist z) min max limit.

Definition zcard (z : t) : nat := size (dict z).
End ZSet.

(** ** Cache entries (src/types/index.ts)

    The tags [type] and [encoding] of an entry always match the object
    in [value]; they are read off the value here. *)
Inductive DataType : Type := type_string | type_zset | type_set.
Inductive Encoding : Type := intset | hashtable.

Global Instance DataType_eq_dec : EqDecision DataType.
Proof. solve_decision. Defined.

Inductive Value : Type :=
  | VString (s : string)
  | VZSet (z : ZSet.t)
  | VIntSet (s : IntSet.t)
  | VHashSet (s : JsSet.t).

Record CacheEntry : Type := mkEntry {
  value : Value;
  memoryUsed : Z;
}.

Definition entry_type (e : CacheEntry) : DataType :=
  match value e with
  | VString _ => type_string
  | VZSet _ => type_zset
  | VIntSet _ | VHashSet _ => type_set
  end.

Definition entry_encoding (e : CacheEntry) : option Encoding :=
  match value e with
  | VIntSet _ => Some intset
  | VHashSet _ => Some hashtable
  | _ => None
  end.

Record CacheOptions : Type := mkOptions {
  opt_maxmemory : option Z;
  opt_evictionPolicy : option EvictionPolicy;
  opt_evictionSampleSize : option Z;
}.

(** The result of an operation that can throw [Error('WRONGTYPE')]. *)
Inductive outcome (A : Type) : Type :=
  | Ok (a : A)
  | WRONGTYPE.
Global Arguments Ok {A} a.
Global Arguments WRONGTYPE {A}.

(** ** Cache (src/core/Cache.ts) *)
Module Cache.

Record Stats : Type := mkStats {
  hits : Z;
  misses : Z;
  evictions : Z;
  expirations : Z;
  operations : Z;
}.

Record t : Type := mk {
  maxmemory : Z;
  evictionPolicy : EvictionPolicy;
  evictionSampleSize : Z;
  store : Dictionary.t string CacheEntry;
  ttl : TTLManager.t;
  usage : UsageTracker.t;
  currentMemoryUsed : Z;
  evictionPool : list string;
  operationCount : Z;
  stats : Stats;
}.

Definition LAZY_EXPIRE_FREQ : Z := 100.

(** *** Field updates *)
Definition with_store (d : Dictionary.t string CacheEntry) (c : t) : t :=
  mk (maxmemory c) (evictionPolicy c) (evictionSampleSize c) d (ttl c)
     (usage c) (currentMemoryUsed c) (evictionPool c) (operationCount c)
     (stats c).
Definition with_ttl (m : TTLManager.t) (c : t) : t :=
  mk (maxmemory c) (evictionPolicy c) (evictionSampleSize c) (store c) m
     (usage c) (currentMemoryUsed c) (evictionPool c) (operationCount c)
     (stats c).
Definition with_usage (u : UsageTracker.t) (c : t) : t :=
  mk (maxmemory c) (evictionPolicy c) (evictionSampleSize c) (store c) (ttl c)
     u (currentMemoryUsed c) (evictionPool c) (operationCount c) (stats c).
Definition with_memory (n : Z) (c : t) : t :=
  mk (maxmemory c) (evictionPolicy c) (evictionSampleSize c) (store c) (ttl c)
     (usage c) n (evictionPool c) (operationCount c) (stats c).
Definition with_pool (p : list string) (c : t) : t :=
  mk (maxmemory c) (evictionPolicy c) (evictionSampleSize c) (store c) (ttl c)
     (usage c) (currentMemoryUsed c) p (operationCount c) (stats c).
Definition with_operationCount (n : Z) (c : t) : t :=
  mk (maxmemory c) (evictionPolicy c) (evictionSampleSize c) (store c) (ttl c)
     (usage c) (currentMemoryUsed c) (evictionPool c) n (stats c).
Definition with_stats (s : Stats) (c : t) : t :=
  mk (maxmemory c) (evictionPolicy c) (evictionSampleSize c) (store c) (ttl c)
     (usage c) (currentMemoryUsed c) (evictionPool c) (operationCount c) s.

Definition count_operation (c : t) : t :=
  let s := stats c in
  with_stats (mkStats (hits s) (misses s) (evictions s) (expirations s)
                (operations s + 1)) c.
Definition count_hit (c : t) : t :=
  let s := stats c in
  with_stats (mkStats (hits s + 1) (misses s) (evictions s) (expirations s)
                (operations s)) c.
Definition count_miss (c : t) : t :=
  let s := stats c in
  with_stats (mkStats (hits s) (misses s + 1) (evictions s) (expirations s)
                (operations s)) c.
Definition count_eviction (c : t) : t :=
  let s := stats c in
  with_stats (mkStats (hits s) (misses s) (evictions s + 1) (expirations s)
                (operations s)) c.
Definition count_expiration (c : t) : t :=
  let s := stats c in
  with_stats (mkStats (hits s) (misses s) (evictions s) (expirations s + 1)
                (operations s)) c.

(** [x || d] on numbers: 0 is falsy. *)
Definition or_default (x : option Z) (d : Z) : Z :=
  match x with
  | Some v => if bool_decide (v = 0) then d else v
  | None => d
  end.

(** *** Internal delete *)
Definition _deleteKey (key : string) (c : t) : t :=
  let '(d, entry) := Dictionary.get (store c) key in
  let mem :=
    match entry with
    | Some e => if bool_decide (memoryUsed e ≠ 0)
                then currentMemoryUsed c - memoryUsed e
                else currentMemoryUsed c
    | None => currentMemoryUsed c
    end in
  let d := (Dictionary.delete d key).1 in
  with_usage (UsageTracker.delete (usage c) key)
    (with_ttl (TTLManager.delete (ttl c) key)
       (with_store d (with_memory mem c))).

(** The callback given to the TTL manager. *)
Definition onExpire (key : string) (c : t) : t :=
  count_expiration (_deleteKey key c).

Definition new (options : CacheOptions) : t :=
  let policy := default lru (opt_evictionPolicy options) in
  let c :=
    {| maxmemory := or_default (opt_maxmemory options) 100000000;
       evictionPolicy := policy;
       evictionSampleSize := or_default (opt_evictionSampleSize options) 8;
       store := Dictionary.new 1;
       ttl := TTLManager.new;
       usage := UsageTracker.new (Some policy) None None;
       currentMemoryUsed := 0;
       evictionPool := [];
       operationCount := 0;
       stats := mkStats 0 0 0 0 0 |} in
  TTLManager.startActiveExpiration ttl with_ttl (Some 200) (Some 10) (Some 2) c.

(** The callbacks of the two timers. *)
Definition activeExpirationTick (now : Z) (c : t) : t * Z :=
  TTLManager.tick ttl with_ttl onExpire now c.

Definition decayTick (now : Z) (c : t) : t :=
  if UsageTracker.decayTimer (usage c)
  then with_usage (UsageTracker.decay (usage c) now) c else c.

Definition dynamicPoolSize (c : t) : nat :=
  let size := Z.of_nat (Dictionary.size (store c)) in
  if bool_decide (size < 1000) then 8%nat
  else if bool_decide (size < 10000) then 16%nat
  else if bool_decide (size < 100000) then 32%nat
  else 64%nat.

Definition _estimateMemberSize (member : string) : Z :=
  strlen member * 2 + 80.

Definition _calculateMemoryUsed (key : string) (v : Value) : Z :=
  let size := strlen key * 2 in
  match v with
  | VString s => size + strlen s * 2 + 48
  | VZSet z => size + Z.of_nat (ZSet.zcard z) * 80
  | VIntSet s => size + Z.of_nat (IntSet.size s) * 8
  | VHashSet s => size + Z.of_nat (JsSet.size s) * 40
  end.

Definition approxMemoryUsed (c : t) : Z := currentMemoryUsed c.

(** *** Passive expiration *)
Definition _checkExpired (now : Z) (key : string) (c : t) : t * bool :=
  let c := with_operationCount (operationCount c + 1) c in
  let c :=
    if bool_decide (operationCount c `mod` LAZY_EXPIRE_FREQ = 0)
    then (TTLManager.sampleAndPurge ttl with_ttl 5 onExpire now c).1
    else c in
  if TTLManager.isExpired (ttl c) now key
  then (count_expiration (_deleteKey key c), true)
  else (c, false).

Definition _getEntry (now : Z) (tp : tape) (key : string) (c : t)
    : option (t * tape * option CacheEntry) :=
  let '(c, expired) := _checkExpired now key c in
  if expired then Some (c, tp, None)
  else
    let '(d, entry) := Dictionary.get (store c) key in
    let c := with_store d c in
    match entry with
    | None => Some (c, tp, None)
    | Some e =>
        '(u, tp) ← UsageTracker.touch (usage c) now tp key;
        Some (with_usage u c, tp, Some e)
    end.

(** *** Eviction *)

(** The comparison function given to [samples.sort]. *)
Definition evictionOrder (c : t) (a b : string) : Z :=
  match UsageTracker.getMetadata (usage c) a,
        UsageTracker.getMetadata (usage c) b with
  | None, _ => -1
  | Some _, None => 1
  | Some metaA, Some metaB =>
      match evictionPolicy c with
      | lru => lastAccess metaA - lastAccess metaB
      | lfu =>
          if bool_decide (freq metaA ≠ freq metaB)
          then freq metaA - freq metaB
          else lastAccess metaA - lastAccess metaB
      end
  end.

(** [Array.prototype.sort] is stable; it is taken to insert the
    elements one after the other. *)
Fixpoint sort_insert (cmp : string → string → Z) (x : string)
    (l : list string) : list string :=
  match l with
  | [] => [x]
  | y :: l' => if bool_decide (cmp x y < 0) then x :: y :: l'
               else y :: sort_insert cmp x l'
  end.

Definition sort (cmp : string → string → Z) (l : list string) : list string :=
  foldl (λ acc x, sort_insert cmp x acc) [] l.

(** [while (sampled.size < sampleSize)]: draw indices into [allKeys];
    [sampled] is the [Set] in insertion order. *)
Fixpoint sampleKeys (tp : tape) (allKeys : list string) (sampleSize : Z)
    (sampled : list string) : option (list string * tape) :=
  if bool_decide (Z.of_nat (List.length sampled) < sampleSize) then
    match tp with
    | [] => None
    | r :: tp' =>
        let idx := Qfloor (r * inject_Z (Z.of_nat (List.length allKeys))) in
        k ← (if bool_decide (0 ≤ idx) then allKeys !! Z.to_nat idx else None);
        sampleKeys tp' allKeys sampleSize
          (if bool_decide (k ∈ sampled) then sampled else sampled ++ [k])
    end
  else Some (sampled, tp).

(** What one turn of the loop of [_evictIfNeeded] asks for next. *)
Inductive flow : Type := Continue | Break.

(** The refill of an empty pool. *)
Definition refillPool (tp : tape) (c : t) : option (t * tape * flow) :=
  let '(d, allKeys) := Dictionary.keys (store c) in
  let c := with_store d c in
  if bool_decide (List.length allKeys = 0%nat) then Some (c, tp, Break)
  else
    let sampleSize := Z.min (evictionSampleSize c * 2)
                            (Z.of_nat (List.length allKeys)) in
    '(sampled, tp) ← sampleKeys tp allKeys sampleSize [];
    let samples := sort (evictionOrder c) sampled in
    Some (with_pool (take (dynamicPoolSize c) samples) c, tp, Continue).

(** [this.evictionPool.shift()] and what follows; the empty string is
    falsy, like [undefined]. *)
Definition evictVictim (c : t) : t * flow :=
  match evictionPool c with
  | [] => (c, Break)
  | victim :: pool =>
      let c := with_pool pool c in
      if bool_decide (victim ≠ "") then
        let '(d, exists_) := Dictionary.has (store c) victim in
        let c := with_store d c in
        if exists_ then (count_eviction (_deleteKey victim c), Continue)
        else (c, Continue)
      else (c, Break)
  end.

Definition overBudget (c : t) : bool :=
  bool_decide (maxmemory c < currentMemoryUsed c)
  && bool_decide (0 < Dictionary.size (store c))%nat.

Fixpoint evictLoop (fuel : nat) (tp : tape) (c : t) : option (t * tape) :=
  if overBudget c then
    match fuel with
    | O => None
    | S fuel' =>
        '(c, tp, fl) ←
          (if bool_decide (List.length (evictionPool c) = 0%nat)
           then refillPool tp c else Some (c, tp, Continue));
        match fl with
        | Break => Some (c, tp)
        | Continue =>
            let '(c, fl) := evictVictim c in
            match fl with
            | Break => Some (c, tp)
            | Continue => evictLoop fuel' tp c
            end
        end
    end
  else Some (c, tp).

(** Every turn of the loop that does not leave it removes a key from
    the pool it started with or an entry from the store. *)
Definition _evictIfNeeded (tp : tape) (c : t) : option (t * tape) :=
  if bool_decide (currentMemoryUsed c ≤ maxmemory c) then Some (c, tp)
  else evictLoop (List.length (evictionPool c) + Dictionary.size (store c)) tp c.

(** *** Public operations *)

(** [set(key, value, px?)] *)
Definition set (now : Z) (tp : tape) (key : string) (val : string)
    (px : option Z) (c : t) : option (t * tape) :=
  let c := count_operation c in
  '(c, tp) ← _evictIfNeeded tp c;
  let '(d, oldEntry) := Dictionary.get (store c) key in
  let c := with_store d c in
  let c :=
    match oldEntry with
    | Some e => if bool_decide (memoryUsed e ≠ 0)
                then with_memory (currentMemoryUsed c - memoryUsed e) c
                else c
    | None => c
    end in
  let entry := {| value := VString val;
                  memoryUsed := _calculateMemoryUsed key (VString val) |} in
  let c := with_memory (currentMemoryUsed c + memoryUsed entry) c in
  let c := with_store (Dictionary.set (store c) key entry) c in
  '(u, tp) ← UsageTracker.touch (usage c) now tp key;
  let c := with_usage u c in
  match px with
  | Some p =>
      if bool_decide (0 < p)
      then Some (with_ttl (TTLManager.set (ttl c) key (now + p)) c, tp)
      else Some (with_ttl (TTLManager.delete (ttl c) key) c, tp)
  | None => Some (with_ttl (TTLManager.delete (ttl c) key) c, tp)
  end.

(** [get(key)]; [Ok None] is [null]. *)
Definition get (now : Z) (tp : tape) (key : string) (c : t)
    : option (t * tape * outcome (option string)) :=
  let c := count_operation c in
  '(c, tp, entry) ← _getEntry now tp key c;
  match entry with
  | None => Some (count_miss c, tp, Ok None)
  | Some e =>
      match value e with
      | VString s => Some (count_hit c, tp, Ok (Some s))
      | _ => Some (c, tp, WRONGTYPE)
      end
  end.

(** [del(key)] *)
Definition del (key : string) (c : t) : t * Z :=
  let c := count_operation c in
  let '(d, existed) := Dictionary.has (store c) key in
  let c := with_store d c in
  if existed then (_deleteKey key c, 1) else (c, 0).

Definition bool_to_Z (b : bool) : Z := if b then 1 else 0.

(** [zadd(key, score, member)] *)
Definition zadd (now : Z) (tp : tape) (key : string) (score : number)
    (member : string) (c : t) : option (t * tape * outcome Z) :=
  let c := count_operation c in
  let '(c, _) := _checkExpired now key c in
  '(c, tp) ← _evictIfNeeded tp c;
  let '(d, entry) := Dictionary.get (store c) key in
  let c := with_store d c in
  match entry with
  | None =>
      '(zset, added, tp) ← ZSet.zadd ZSet.new tp member score;
      let entry := {| value := VZSet zset;
                      memoryUsed := _calculateMemoryUsed key (VZSet zset) |} in
      let c := with_memory (currentMemoryUsed c + memoryUsed entry) c in
      let c := with_store (Dictionary.set (store c) key entry) c in
      '(u, tp) ← UsageTracker.touch (usage c) now tp key;
      Some (with_usage u c, tp, Ok (bool_to_Z added))
  | Some e =>
      match value e with
      | VZSet z =>
          '(z', added, tp) ← ZSet.zadd z tp member score;
          let delta := if (added : bool) then _estimateMemberSize member else 0 in
          let c := with_store
                     (Dictionary.modify (store c) key
                        (λ e, {| value := VZSet z';
                                 memoryUsed := memoryUsed e + delta |})) c in
          let c := with_memory (currentMemoryUsed c + delta) c in
          '(u, tp) ← UsageTracker.touch (usage c) now tp key;
          Some (with_usage u c, tp, Ok (bool_to_Z added))
      | _ => Some (c, tp, WRONGTYPE)
      end
  end.

(** [zrem(key, member)] *)
Definition zrem (now : Z) (tp : tape) (key : string) (member : string)
    (c : t) : option (t * tape * outcome Z) :=
  let c := count_operation c in
  '(c, tp, entry) ← _getEntry now tp key c;
  match entry with
  | None => Some (c, tp, Ok 0)
  | Some e =>
      match value e with
      | VZSet z =>
          '(z', removed) ← ZSet.zrem z member;
          if removed && bool_decide (memoryUsed e ≠ 0) then
            let delta := _estimateMemberSize member in
            let c := with_store
                       (Dictionary.modify (store c) key
                          (λ e, {| value := VZSet z';
                                   memoryUsed := Z.max 0 (memoryUsed e - delta) |})) c in
            Some (with_memory (Z.max 0 (currentMemoryUsed c - delta)) c, tp,
                  Ok (bool_to_Z removed))
          else
            let c := with_store
                       (Dictionary.modify (store c) key
                          (λ e, {| value := VZSet z';
                                   memoryUsed := memoryUsed e |})) c in
            Some (c, tp, Ok (bool_to_Z removed))
      | _ => Some (c, tp, WRONGTYPE)
      end
  end.

(** [zscore(key, member)] *)
Definition zscore (now : Z) (tp : tape) (key : string) (member : string)
    (c : t) : option (t * tape * outcome (option number)) :=
  let c := count_operation c in
  '(c, tp, entry) ← _getEntry now tp key c;
  match entry with
  | None => Some (count_miss c, tp, Ok None)
  | Some e =>
      match value e with
      | VZSet z => Some (count_hit c, tp, Ok (ZSet.zscore z member))
      | _ => Some (c, tp, WRONGTYPE)
      end
  end.

(** [zrank(key, member)] *)
Definition zrank (now : Z) (tp : tape) (key : string) (member : string)
    (c : t) : option (t * tape * outcome (option Z)) :=
  let c := count_operation c in
  '(c, tp, entry) ← _getEntry now tp key c;
  match entry with
  | None => Some (count_miss c, tp, Ok None)
  | Some e =>
      match value e with
      | VZSet z =>
          r ← ZSet.zrank z member;
          Some (count_hit c, tp, Ok r)
      | _ => Some (c, tp, WRONGTYPE)
      end
  end.

(** [zrangeByScore(key, min, max, limit?)] *)
Definition zrangeByScore (now : Z) (tp : tape) (key : string)
    (min max : number) (limit : option number) (c : t)
    : option (t * tape * outcome (list (string * number))) :=
  let c := count_operation c in
  '(c, tp, entry) ← _getEntry now tp key c;
  match entry with
  | None => Some (count_miss c, tp, Ok [])
  | Some e =>
      match value e with
      | VZSet z =>
          items ← ZSet.zrangeByScore z min max limit;
          Some (count_hit c, tp, Ok items)
      | _ => Some (c, tp, WRONGTYPE)
      end
  end.

(** The body of [for (const member of members)] in [sadd]. *)
Definition sadd_member (v : Value) (addedCount : Z) (member : SetMember)
    : option (Value * Z) :=
  match v with
  | VIntSet s =>
      '(s', result) ← IntSet.add s member;
      match result with
      | IntSet.upgrade =>
          let hs := IntSet.upgradeToSet s' in
          if negb (JsSet.has hs member)
          then Some (VHashSet (JsSet.add hs member), addedCount + 1)
          else Some (VHashSet hs, addedCount)
      | IntSet.done true => Some (VIntSet s', addedCount + 1)
      | IntSet.done false => Some (VIntSet s', addedCount)
      end
  | VHashSet hs =>
      if negb (JsSet.has hs member)
      then Some (VHashSet (JsSet.add hs member), addedCount + 1)
      else Some (VHashSet hs, addedCount)
  | _ => None
  end.

Fixpoint sadd_members (v : Value) (addedCount : Z) (members : list SetMember)
    : option (Value * Z) :=
  match members with
  | [] => Some (v, addedCount)
  | member :: members' =>
      '(v, addedCount) ← sadd_member v addedCount member;
      sadd_members v addedCount members'
  end.

Definition set_size (v : Value) : Z :=
  match v with
  | VIntSet s => Z.of_nat (IntSet.size s)
  | VHashSet hs => Z.of_nat (JsSet.size hs)
  | _ => 0
  end.

(** [sadd(key, ...members)] *)
Definition sadd (now : Z) (tp : tape) (key : string)
    (members : list SetMember) (c : t) : option (t * tape * outcome Z) :=
  let c := count_operation c in
  let '(c, _) := _checkExpired now key c in
  '(c, tp) ← _evictIfNeeded tp c;
  let '(d, entry) := Dictionary.get (store c) key in
  let c := with_store d c in
  let '(c, e) :=
    match entry with
    | None =>
        let v := VIntSet (IntSet.new None) in
        let e := {| value := v; memoryUsed := _calculateMemoryUsed key v |} in
        let c := with_memory (currentMemoryUsed c + memoryUsed e) c in
        (with_store (Dictionary.set (store c) key e) c, e)
    | Some e => (c, e)
    end in
  if decide (entry_type e = type_set) then
    let oldSize := set_size (value e) in
    '(v, addedCount) ← sadd_members (value e) 0 members;
    let memoryDelta :=
      if bool_decide (0 < addedCount)
      then (set_size v - oldSize)
           * (match v with VIntSet _ => 8 | _ => 40 end)
      else 0 in
    let c := with_store
               (Dictionary.modify (store c) key
                  (λ e, {| value := v;
                           memoryUsed := memoryUsed e + memoryDelta |})) c in
    let c := with_memory (currentMemoryUsed c + memoryDelta) c in
    '(u, tp) ← UsageTracker.touch (usage c) now tp key;
    Some (with_usage u c, tp, Ok addedCount)
  else Some (c, tp, WRONGTYPE).

(** [smembers(key)] *)
Definition smembers (now : Z) (tp : tape) (key : string) (c : t)
    : option (t * tape * outcome (list SetMember)) :=
  let c := count_operation c in
  '(c, tp, entry) ← _getEntry now tp key c;
  match entry with
  | None => Some (count_miss c, tp, Ok [])
  | Some e =>
      match value e with
      | VIntSet s => Some (count_hit c, tp, Ok (IntSet.values s))
      | VHashSet hs => Some (count_hit c, tp, Ok hs)
      | _ => Some (c, tp, WRONGTYPE)
      end
  end.

(** [shutdown()] *)
Definition shutdown (c : t) : t :=
  let c := TTLManager.flushPendingDeletes ttl with_ttl onExpire c in
  let c := TTLManager.stopActiveExpiration ttl with_ttl c in
  with_usage (UsageTracker.stopDecay (usage c)) c.
End Cache.

(* ================================================================== *)
(** * Part II: invariants and reference models *)
(* ================================================================== *)

(** ** The dictionary *)
Section Dictionary_defs.
Context {K V : Type} `{EqDecision K}.

(** What a dictionary holds under a key: [ht1] first, then [ht0]. *)
Definition dict_lookup (d : Dictionary.t K V) (k : K) : option V :=
  match Dictionary.rehashing_ht1 d with
  | Some h1 =>
      match JsMap.get h1 k with
      | Some v => Some v
      | None => JsMap.get (Dictionary.ht0 d) k
      end
  | None => JsMap.get (Dictionary.ht0 d) k
  end.

Definition dict_keys (d : Dictionary.t K V) : list K :=
  match Dictionary.rehashing_ht1 d with
  | Some h1 => JsMap.keys (Dictionary.ht0 d) ++ JsMap.keys h1
  | None => JsMap.keys (Dictionary.ht0 d)
  end.

(** The slots of [m] before position [i] are empty. *)
Definition dead_before (m : JsMap.t K V) (i : nat) : Prop :=
  Forall (λ s, s = None) (take i m).

(** The invariant of the dictionary: no key is held twice, and the
    migration has emptied every slot of [ht0] that the iterator has
    passed. *)
Definition dict_wf (d : Dictionary.t K V) : Prop :=
  match Dictionary.ht1 d, Dictionary.rehashIterator d with
  | None, None =>
      Dictionary.rehashidx d = -1 ∧ NoDup (JsMap.keys (Dictionary.ht0 d))
  | Some h1, Some it =>
      0 ≤ Dictionary.rehashidx d ∧
      NoDup (JsMap.keys (Dictionary.ht0 d) ++ JsMap.keys h1) ∧
      dead_before (Dictionary.ht0 d) it
  | _, _ => False
  end.

Global Instance dict_wf_dec (d : Dictionary.t K V) : Decision (dict_wf d).
Proof using All.
  unfold dict_wf, dead_before.
  destruct (Dictionary.ht1 d), (Dictionary.rehashIterator d); apply _.
Defined.
End Dictionary_defs.


Section Refinement_defs.
Context {K V : Type} `{EqDecision K}.

(** The calls on a dictionary and their results. *)
Inductive dict_call : Type :=
  | CallSet (k : K) (v : V)
  | CallGet (k : K)
  | CallDelete (k : K)
  | CallHas (k : K)
  | CallKeys
  | CallSize.

Inductive dict_result : Type :=
  | ResVoid
  | ResValue (o : option V)
  | ResBool (b : bool)
  | ResKeys (l : list K)
  | ResSize (n : nat).

Definition Dictionary_call (d : Dictionary.t K V) (c : dict_call)
    : Dictionary.t K V * dict_result :=
  match c with
  | CallSet k v => (Dictionary.set d k v, ResVoid)
  | CallGet k => let '(d, r) := Dictionary.get d k in (d, ResValue r)
  | CallDelete k => let '(d, r) := Dictionary.delete d k in (d, ResBool r)
  | CallHas k => let '(d, r) := Dictionary.has d k in (d, ResBool r)
  | CallKeys => let '(d, r) := Dictionary.keys d in (d, ResKeys r)
  | CallSize => (d, ResSize (Dictionary.size d))
  end.

(** The same calls on one ordinary map, the built-in [Map]. *)
Definition PlainMap_call (m : JsMap.t K V) (c : dict_call)
    : JsMap.t K V * dict_result :=
  match c with
  | CallSet k v => (JsMap.set m k v, ResVoid)
  | CallGet k => (m, ResValue (JsMap.get m k))
  | CallDelete k => let '(m, r) := JsMap.delete m k in (m, ResBool r)
  | CallHas k => (m, ResBool (JsMap.has m k))
  | CallKeys => (m, ResKeys (JsMap.keys m))
  | CallSize => (m, ResSize (JsMap.size m))
  end.

Fixpoint Dictionary_calls (d : Dictionary.t K V) (cs : list dict_call)
    : list dict_result :=
  match cs with
  | [] => []
  | c :: cs' => let '(d', r) := Dictionary_call d c in r :: Dictionary_calls d' cs'
  end.

Fixpoint PlainMap_calls (m : JsMap.t K V) (cs : list dict_call)
    : list dict_result :=
  match cs with
  | [] => []
  | c :: cs' => let '(m', r) := PlainMap_call m c in r :: PlainMap_calls m' cs'
  end.

(** The size of the map after each of the calls. *)
Fixpoint PlainMap_sizes (m : JsMap.t K V) (cs : list dict_call) : list nat :=
  match cs with
  | [] => []
  | c :: cs' =>
      let '(m', _) := PlainMap_call m c in JsMap.size m' :: PlainMap_sizes m' cs'
  end.

(** The dictionary that a sequence of calls leaves. *)
Definition Dictionary_run (d : Dictionary.t K V) (cs : list dict_call)
    : Dictionary.t K V :=
  foldl (λ d c, (Dictionary_call d c).1) d cs.

(** Two results agree when they are equal, the keys up to their
    order. *)
Definition result_agrees (r1 r2 : dict_result) : Prop :=
  match r1, r2 with
  | ResKeys l1, ResKeys l2 => l1 ≡ₚ l2
  | _, _ => r1 = r2
  end.

(** The dictionary [d] holds what the map [m] holds. *)
Definition dict_refines (d : Dictionary.t K V) (m : JsMap.t K V) : Prop :=
  dict_wf d ∧ NoDup (JsMap.keys m) ∧ ∀ k, dict_lookup d k = JsMap.get m k.
End Refinement_defs.
Global Arguments dict_call : clear implicits.
Global Arguments dict_result : clear implicits.

(** 1001 insertions start a rehash; [keys] then lists the keys that
    are still in [ht0] before the migrated one. *)
Definition calls_1001 : list (dict_call N N) :=
  ((λ i, CallSet (N.of_nat i) 0%N) <$> seq 0 1001) ++ [CallKeys].

(** Calls on a map that stays small: no rehash starts. *)
Definition calls_small : list (dict_call N N) :=
  [CallSet 2 20; CallSet 1 10; CallSet 3 30; CallDelete 1; CallSet 1 11;
   CallKeys; CallGet 1; CallHas 2; CallSize]%N.

(** 1001 insertions, an insertion during the rehash, 1002 reads, which
    finish the rehash, and [keys]. *)
Definition calls_rehashed : list (dict_call N N) :=
  ((λ i, CallSet (N.of_nat i) 0%N) <$> seq 0 1001)
  ++ [CallSet 2000%N 0%N] ++ replicate 1002 (CallGet 0%N) ++ [CallKeys].

(** The first three keys of the last result. *)
Definition first_keys_of_last (rs : list (dict_result N N)) : list N :=
  match last rs with
  | Some (ResKeys l) => take 3 l
  | _ => []
  end.

(** 1001 insertions, which start a rehash, and 1002 reads. *)
Definition sets_1001 : list (dict_call N N) :=
  (λ i, CallSet (N.of_nat i) 0%N) <$> seq 0 1001.

Definition keys_1002 : list N := replicate 1002 0%N.

(** The first key of the last result. *)
Definition first_key_of_last (rs : list (dict_result N N)) : option N :=
  match last rs with
  | Some (ResKeys (k :: _)) => Some k
  | _ => None
  end.


(** ** The skip list *)

(** The order of the numbers; [NaN] is below and above nothing. *)
Definition num_lt (a b : number) : Prop := num_ltb a b = true.
Definition num_le (a b : number) : Prop := num_leb a b = true.

Global Instance num_lt_dec (a b : number) : Decision (num_lt a b).
Proof. unfold num_lt. apply _. Defined.

Global Instance num_le_dec (a b : number) : Decision (num_le a b).
Proof. unfold num_le. apply _. Defined.

(** The score and the member of a node. *)
Definition key_of (h : list SkipList.SkipListNode) (x : nat) : number * string :=
  match h !! x with
  | Some n => (SkipList.score n, SkipList.member n)
  | None => (Num 0, EmptyString)
  end.

(** The lexicographic order on (score, member): a strict total order on
    the pairs whose score is not [NaN]; a pair with the score [NaN]
    comes before no pair and after none. *)
Definition key_ltb (a b : number * string) : bool :=
  num_ltb a.1 b.1 || (num_eqb a.1 b.1 && String.ltb a.2 b.2).

Definition key_lt (a b : number * string) : Prop := key_ltb a b = true.

Global Instance key_lt_dec (a b : number * string) : Decision (key_lt a b).
Proof. unfold key_lt. apply _. Defined.

(** What the writes to the cells never change: the key of a node, its
    level and the lengths of its arrays. *)
Definition shape (n : SkipList.SkipListNode)
    : number * string * nat * nat * nat :=
  (SkipList.score n, SkipList.member n, SkipList.level n,
   length (SkipList.forward n), length (SkipList.span n)).

Definition same_shape (h h' : list SkipList.SkipListNode) : Prop :=
  length h' = length h ∧ ∀ x, shape <$> h' !! x = shape <$> h !! x.

(** A node is tall at level [i] when it has a forward pointer there. *)
Definition tallb (h : list SkipList.SkipListNode) (i x : nat) : bool :=
  match h !! x with
  | Some n => bool_decide (i < SkipList.level n)%nat
  | None => false
  end.

(** The first node of [l] that is tall at level [i], with its distance
    from the node before [l]. *)
Fixpoint next_tall (h : list SkipList.SkipListNode) (i : nat) (l : list nat)
    : option (nat * nat) :=
  match l with
  | [] => None
  | y :: l' =>
      if tallb h i y then Some (y, 1%nat)
      else prod_map id S <$> next_tall h i l'
  end.

(** The forward pointer of [x] at level [i] leads to the next tall node
    of the nodes [post] that follow [x], and its span is the distance. *)
Definition link_ok (h : list SkipList.SkipListNode) (i x : nat)
    (post : list nat) : Prop :=
  match next_tall h i post with
  | Some (y, d) =>
      SkipList.fwd h x i = Some y ∧ SkipList.spn h x i = Some (Z.of_nat d)
  | None => SkipList.fwd h x i = None
  end.

Fixpoint level_ok (h : list SkipList.SkipListNode) (i : nat) (l : list nat)
    : Prop :=
  match l with
  | [] => True
  | x :: post => (tallb h i x = true → link_ok h i x post) ∧ level_ok h i post
  end.

(** [u] is the last node of [pre] that is tall at level [i]; [p] nodes
    come before it. *)
Definition last_tall (h : list SkipList.SkipListNode) (i : nat)
    (pre : list nat) (u p : nat) : Prop :=
  ∃ a b, pre = a ++ u :: b ∧ Forall (λ y, tallb h i y = false) b ∧
         tallb h i u = true ∧ p = length a.

(** The node [x] has cells at level [i]. *)
Definition has_cell (h : list SkipList.SkipListNode) (x i : nat) : Prop :=
  ∃ n, h !! x = Some n ∧ (i < length (SkipList.forward n))%nat ∧
       (i < length (SkipList.span n))%nat.

(** How the cells of level [i] change from [h] to [h']: not at all; by
    the splice of the node [nw] after [u], [d] nodes further; by the
    growth of the span of [u]; by the removal of the node [t] that
    follows [u]; by the shrinking of the span of [u]. *)
Definition cells_same (h h' : list SkipList.SkipListNode) (i : nat) : Prop :=
  ∀ x, SkipList.fwd h' x i = SkipList.fwd h x i ∧
       SkipList.spn h' x i = SkipList.spn h x i.

Definition cells_spliced (h h' : list SkipList.SkipListNode) (i u nw : nat)
    (d : Z) : Prop :=
  SkipList.fwd h' u i = Some nw ∧
  SkipList.fwd h' nw i = SkipList.fwd h u i ∧
  SkipList.spn h' u i = Some (d + 1) ∧
  (∀ sp, SkipList.spn h u i = Some sp → SkipList.spn h' nw i = Some (sp - d)) ∧
  ∀ x, x ≠ u → x ≠ nw →
       SkipList.fwd h' x i = SkipList.fwd h x i ∧
       SkipList.spn h' x i = SkipList.spn h x i.

Definition cells_bumped (h h' : list SkipList.SkipListNode) (i u : nat) : Prop :=
  (∀ x, SkipList.fwd h' x i = SkipList.fwd h x i) ∧
  (∀ sp, SkipList.spn h u i = Some sp → SkipList.spn h' u i = Some (sp + 1)) ∧
  ∀ x, x ≠ u → SkipList.spn h' x i = SkipList.spn h x i.

Definition cells_unlinked (h h' : list SkipList.SkipListNode) (i u t : nat)
    : Prop :=
  SkipList.fwd h' u i = SkipList.fwd h t i ∧
  (∀ su st, SkipList.spn h u i = Some su → SkipList.spn h t i = Some st →
            SkipList.spn h' u i = Some (su + (st - 1))) ∧
  ∀ x, x ≠ u →
       SkipList.fwd h' x i = SkipList.fwd h x i ∧
       SkipList.spn h' x i = SkipList.spn h x i.

Definition cells_shrunk (h h' : list SkipList.SkipListNode) (i u : nat) : Prop :=
  (∀ x, SkipList.fwd h' x i = SkipList.fwd h x i) ∧
  (∀ sp, SkipList.spn h u i = Some sp → SkipList.spn h' u i = Some (sp - 1)) ∧
  ∀ x, x ≠ u → SkipList.spn h' x i = SkipList.spn h x i.

(** A node of the list: its level is between 1 and the level of the
    list and its arrays have that length. *)
Definition node_ok (h : list SkipList.SkipListNode) (lvl : nat) (x : nat) : Prop :=
  ∃ n, h !! x = Some n ∧ (1 ≤ SkipList.level n ≤ lvl)%nat ∧
       length (SkipList.forward n) = SkipList.level n ∧
       length (SkipList.span n) = SkipList.level n.

(** The invariant of a skip list whose nodes are, in order, [ids]; no
    node has the score [NaN]. *)
Record sl_inv (sl : SkipList.t) (ids : list nat) : Prop := mk_sl_inv {
  inv_maxLevel : SkipList.maxLevel sl = 32%nat;
  inv_lvl : (1 ≤ SkipList.lvl sl ≤ 32)%nat;
  inv_header : ∃ hd, SkipList.nodes sl !! 0%nat = Some hd ∧
                     SkipList.level hd = 32%nat ∧
                     length (SkipList.forward hd) = 32%nat ∧
                     length (SkipList.span hd) = 32%nat;
  inv_nodup : NoDup (0%nat :: ids);
  inv_nodes : Forall (node_ok (SkipList.nodes sl) (SkipList.lvl sl)) ids;
  inv_levels : ∀ i, (i < 32)%nat → level_ok (SkipList.nodes sl) i (0%nat :: ids);
  inv_sorted : StronglySorted key_lt (key_of (SkipList.nodes sl) <$> ids);
  inv_numeric : Forall (λ x, (key_of (SkipList.nodes sl) x).1 ≠ NaN) ids;
  inv_length : SkipList.length sl = Z.of_nat (length ids);
  inv_heap : (S (length ids) ≤ length (SkipList.nodes sl))%nat;
}.

(** The nodes of a skip list in the order of the pointers of level 0,
    and their (score, member) pairs. *)
Fixpoint chain (fuel : nat) (h : list SkipList.SkipListNode) (x : option nat)
    : list nat :=
  match fuel, x with
  | S fuel', Some y => y :: chain fuel' h (SkipList.fwd h y 0)
  | _, _ => []
  end.

Definition sl_nodes (sl : SkipList.t) : list nat :=
  chain (length (SkipList.nodes sl)) (SkipList.nodes sl)
    (SkipList.fwd (SkipList.nodes sl) SkipList.header 0).

Definition sl_pairs (sl : SkipList.t) : list (number * string) :=
  key_of (SkipList.nodes sl) <$> sl_nodes sl.

(** ** Sorted sets *)

(** The (score, member) pairs of the member→score map. *)
Definition zset_pairs (z : ZSet.t) : list (number * string) :=
  (λ ms, (ms.2, ms.1)) <$> map_to_list (ZSet.dict z).

(** The invariant of a sorted set: the skip list is well formed and
    holds the pairs of the map. *)
Definition zset_inv (z : ZSet.t) : Prop :=
  ∃ ids, sl_inv (ZSet.skiplist z) ids ∧
         ∀ m s, ZSet.dict z !! m = Some s ↔
                (s, m) ∈ key_of (SkipList.nodes (ZSet.skiplist z)) <$> ids.

(** The sorted sets that calls of [zadd] and [zrem] make from a new
    one when no score is [NaN]. *)
Inductive zset_reachable : ZSet.t → Prop :=
  | reachable_new : zset_reachable ZSet.new
  | reachable_zadd z tp member score z' added tp' :
      zset_reachable z → score ≠ NaN →
      ZSet.zadd z tp member score = Some (z', added, tp') →
      zset_reachable z'
  | reachable_zrem z member z' removed :
      zset_reachable z →
      ZSet.zrem z member = Some (z', removed) →
      zset_reachable z'.

(** The rank that the order on (score, member) gives to a pair: the
    number of pairs of the set that come before it. *)
Definition rank_of (z : ZSet.t) (score : number) (member : string) : nat :=
  length (filter (λ p, key_lt p (score, member)) (zset_pairs z)).

(** What a range query returns of the sorted pairs [ps]: those whose
    score is not below [min] and is at most [max], as (member, score)
    pairs, and of them the first [limit]: all without a limit and for
    the limit [Infinity], none for a limit that is [NaN]. *)
Definition score_range (min max : number) (ps : list (number * string))
    : list (string * number) :=
  (λ p, (p.2, p.1)) <$> filter (λ p, ¬ num_lt p.1 min ∧ num_le p.1 max) ps.

Definition take_limit {A} (limit : option number) (l : list A) : list A :=
  match limit with
  | None | Some PosInf => l
  | Some (Num n) => take (Z.to_nat n) l
  | Some NegInf | Some NaN => []
  end.

(** 1 when the pair [a] comes before the pair [b] in the order of the
    set, 0 when it does not. *)
Definition pair_before (a b : number * string) : Z :=
  if decide (key_lt a b) then 1 else 0.

(** A sequence of calls on a sorted set. *)
Inductive zset_call : Type :=
  | Zadd (member : string) (score : number)
  | Zrem (member : string).

(** The calls of [zadd] whose score is not [NaN], and all calls of
    [zrem]. *)
Definition zset_call_numeric (c : zset_call) : bool :=
  match c with
  | Zadd _ NaN => false
  | _ => true
  end.

Fixpoint zset_calls (z : ZSet.t) (tp : tape) (cs : list zset_call)
    : option (ZSet.t * tape) :=
  match cs with
  | [] => Some (z, tp)
  | Zadd member score :: cs' =>
      '(z', _, tp') ← ZSet.zadd z tp member score;
      zset_calls z' tp' cs'
  | Zrem member :: cs' =>
      '(z', _) ← ZSet.zrem z member;
      zset_calls z' tp cs'
  end.

(** ** Sets *)

(** The array of an integer set is strictly increasing and within the
    maximal size. *)
Definition intset_ok (s : IntSet.t) : Prop :=
  StronglySorted Z.lt (IntSet.data s) ∧
  (length (IntSet.data s) ≤ IntSet.maxSize s)%nat.

(** The integer sets that calls of [add] and [delete] make from a new
    one. *)
Inductive intset_reachable : IntSet.t → Prop :=
  | intset_new maxSize : intset_reachable (IntSet.new maxSize)
  | intset_add s value s' result :
      intset_reachable s →
      IntSet.add s value = Some (s', result) →
      intset_reachable s'
  | intset_delete s value :
      intset_reachable s →
      intset_reachable (IntSet.delete s value).1.

(** The members of the value of a set entry, as [smembers] lists
    them. *)
Definition set_members (v : Value) : list SetMember :=
  match v with
  | VIntSet s => IntSet.values s
  | VHashSet hs => hs
  | _ => []
  end.

Definition is_intset (v : Value) : bool :=
  match v with
  | VIntSet _ => true
  | _ => false
  end.

Definition is_int (member : SetMember) : bool :=
  match member with
  | MInt _ => true
  | MOther _ => false
  end.

(** The value of a set entry as [sadd] makes it: an integer set with
    the default maximal size, or a hash set. *)
Definition set_ok (v : Value) : Prop :=
  match v with
  | VIntSet s => intset_ok s ∧ IntSet.maxSize s = 512%nat
  | VHashSet hs => NoDup hs
  | _ => False
  end.

(** The values of the set entries: [sadd] makes a new integer set and
    runs its loop over the members. *)
Inductive set_reachable : Value → Prop :=
  | set_reachable_new : set_reachable (VIntSet (IntSet.new None))
  | set_reachable_sadd v addedCount members v' addedCount' :
      set_reachable v →
      Cache.sadd_members v addedCount members = Some (v', addedCount') →
      set_reachable v'.

(** ** Packed lists and quick lists *)

(** The bytes that a packed list counts for its elements: the length of
    each and 4 for its prefix. *)
Definition lp_bytes (l : list string) : Z :=
  foldr (λ e acc, strlen e + 4 + acc) 0 l.

(** The packed lists that calls of [tryAppend] make from a new one. *)
Inductive lp_reachable : ListPackNode.t → Prop :=
  | lp_new maxBytes : lp_reachable (ListPackNode.new maxBytes)
  | lp_tryAppend n value :
      lp_reachable n → lp_reachable (ListPackNode.tryAppend n value).1.

(** The elements of the node [x] of the heap, and of the nodes [ids]
    one after the other. *)
Definition ql_node_elements (h : list QuickList.QuickListNode) (x : nat)
    : list string :=
  match h !! x with
  | Some n => ListPackNode.elements (QuickList.data n)
  | None => []
  end.

Definition ql_elements (h : list QuickList.QuickListNode) (ids : list nat)
    : list string :=
  concat (ql_node_elements h <$> ids).

(** The node [x] is the [i]-th of the nodes [ids]: its pointers lead to
    its neighbours, and it holds an element. *)
Definition ql_node_at (h : list QuickList.QuickListNode) (ids : list nat)
    (i x : nat) : Prop :=
  ∃ n, h !! x = Some n ∧
       QuickList.next n = ids !! S i ∧
       QuickList.prev n = match i with
                          | O => None
                          | S j => ids !! j
                          end ∧
       ListPackNode.elements (QuickList.data n) ≠ [].

(** The invariant of a quick list whose nodes are, from the head to
    the tail, [ids]. *)
Record ql_inv (q : QuickList.t) (ids : list nat) : Prop := mk_ql_inv {
  ql_head : QuickList.head q = ids !! 0%nat;
  ql_tail : QuickList.tail q = last ids;
  ql_nodes : ∀ i x, ids !! i = Some x → ql_node_at (QuickList.heap q) ids i x;
  ql_nodup : NoDup ids;
  ql_bound : (length ids ≤ length (QuickList.heap q))%nat;
  ql_length : QuickList.length q
              = Z.of_nat (length (ql_elements (QuickList.heap q) ids));
}.

(** The quick lists that calls of [rpush] and [lpush] make from a new
    one. *)
Inductive ql_reachable : QuickList.t → Prop :=
  | ql_new : ql_reachable QuickList.new
  | ql_rpush q value q' :
      ql_reachable q → QuickList.rpush q value = Some q' → ql_reachable q'
  | ql_lpush q value q' :
      ql_reachable q → QuickList.lpush q value = Some q' → ql_reachable q'.

(** ** Usage metadata *)

(** The trackers that the calls make from a new one whose decay amount
    is not negative. *)
Inductive usage_reachable : UsageTracker.t → Prop :=
  | usage_new policy decayInterval decayAmount :
      0 ≤ default 1 decayAmount →
      usage_reachable (UsageTracker.new policy decayInterval decayAmount)
  | usage_touch u now tp key u' tp' :
      usage_reachable u →
      UsageTracker.touch u now tp key = Some (u', tp') →
      usage_reachable u'
  | usage_delete u key :
      usage_reachable u → usage_reachable (UsageTracker.delete u key)
  | usage_decay u now :
      usage_reachable u → usage_reachable (UsageTracker.decay u now)
  | usage_startDecay u :
      usage_reachable u → usage_reachable (UsageTracker.startDecay u)
  | usage_stopDecay u :
      usage_reachable u → usage_reachable (UsageTracker.stopDecay u).

(** The frequency counters are within 8 bits, and stay at 0 under
    LRU. *)
Definition usage_ok (u : UsageTracker.t) : Prop :=
  0 ≤ UsageTracker.decayAmount u ∧
  ∀ key meta, UsageTracker.metadata u !! key = Some meta →
              0 ≤ freq meta ≤ 255 ∧ (UsageTracker.policy u = lru → freq meta = 0).

(** ** The cache *)

(** The entry, the TTL record and the usage metadata that a cache holds
    for a key. *)
Definition store_lookup (c : Cache.t) (key : string) : option CacheEntry :=
  dict_lookup (Cache.store c) key.

Definition ttl_lookup (c : Cache.t) (key : string) : option Z :=
  JsMap.get (TTLManager.expirations (Cache.ttl c)) key.

Definition usage_lookup (c : Cache.t) (key : string) : option UsageMetadata :=
  UsageTracker.metadata (Cache.usage c) !! key.

(** A key of which the cache holds nothing. *)
Definition purged (c : Cache.t) (key : string) : Prop :=
  store_lookup c key = None ∧ ttl_lookup c key = None ∧ usage_lookup c key = None.

(** What the purge of other keys leaves of a key with a TTL record:
    the record as it was, or nothing at all. *)
Definition record_or_purged (key : string) (deadline : Z) (c : Cache.t) : Prop :=
  dict_wf (Cache.store c) ∧ (ttl_lookup c key = Some deadline ∨ purged c key).


(** What a failing call leaves as it was: the entries, the TTL
    manager, the memory counter, the eviction pool and the counters of
    hits, misses, evictions and expirations; the call itself is
    counted. *)
Definition contents_kept (c c' : Cache.t) : Prop :=
  (∀ k, store_lookup c' k = store_lookup c k) ∧
  Cache.ttl c' = Cache.ttl c ∧
  Cache.currentMemoryUsed c' = Cache.currentMemoryUsed c ∧
  Cache.evictionPool c' = Cache.evictionPool c ∧
  Cache.hits (Cache.stats c') = Cache.hits (Cache.stats c) ∧
  Cache.misses (Cache.stats c') = Cache.misses (Cache.stats c) ∧
  Cache.evictions (Cache.stats c') = Cache.evictions (Cache.stats c) ∧
  Cache.expirations (Cache.stats c') = Cache.expirations (Cache.stats c) ∧
  Cache.operations (Cache.stats c') = Cache.operations (Cache.stats c) + 1.

(** The state in which the type check of a read fails: the call is
    counted, the dictionary has made a migration step and the key has
    been touched. *)
Definition after_read_prelude (c : Cache.t) (u : UsageTracker.t) : Cache.t :=
  Cache.with_usage u
    (Cache.with_store (Dictionary.step (Cache.store c))
       (Cache.with_operationCount (Cache.operationCount c + 1)
          (Cache.count_operation c))).

(** The same for [zadd] and [sadd], which touch the key after the
    check. *)
Definition after_write_prelude (c : Cache.t) : Cache.t :=
  Cache.with_store (Dictionary.step (Cache.store c))
    (Cache.with_operationCount (Cache.operationCount c + 1)
       (Cache.count_operation c)).

(** The state in which [zadd] and [sadd] look the key up: the call has
    been counted, the key has gone if it had expired, and entries have
    been evicted if the cache was over its budget. *)
Definition before_write (now : Z) (tp : tape) (key : string) (c : Cache.t)
    : option (Cache.t * tape) :=
  Cache._evictIfNeeded tp (Cache._checkExpired now key (Cache.count_operation c)).1.

(** ** The states of the cache *)

(** The entries that the operations make: a sorted set is made by
    [zadd] and [zrem] from a new one, the value of a set by the loop of
    [sadd]. *)
Definition entry_ok (e : CacheEntry) : Prop :=
  match value e with
  | VString _ => True
  | VZSet z => zset_reachable z
  | VIntSet _ | VHashSet _ => set_reachable (value e)
  end.

(** The calls on a cache: the public operations and the callbacks of
    the two timers.  The score of [zadd] is an integer; the bounds and
    the limit of a range query are any numbers. *)
Inductive cache_call : Type :=
  | CallSetKey (key val : string) (px : option Z)
  | CallGetKey (key : string)
  | CallDel (key : string)
  | CallZadd (key : string) (score : Z) (member : string)
  | CallZrem (key member : string)
  | CallZscore (key member : string)
  | CallZrank (key member : string)
  | CallZrangeByScore (key : string) (min max : number) (limit : option number)
  | CallSadd (key : string) (members : list SetMember)
  | CallSmembers (key : string)
  | CallShutdown
  | CallExpirationTick
  | CallDecayTick.

(** A call at the time [now], with the draws of [tp]; the result of the
    call is dropped. *)
Definition cache_step (now : Z) (tp : tape) (call : cache_call) (c : Cache.t)
    : option (Cache.t * tape) :=
  match call with
  | CallSetKey key val px => Cache.set now tp key val px c
  | CallGetKey key => fst <$> Cache.get now tp key c
  | CallDel key => Some ((Cache.del key c).1, tp)
  | CallZadd key score member => fst <$> Cache.zadd now tp key score member c
  | CallZrem key member => fst <$> Cache.zrem now tp key member c
  | CallZscore key member => fst <$> Cache.zscore now tp key member c
  | CallZrank key member => fst <$> Cache.zrank now tp key member c
  | CallZrangeByScore key min max limit =>
      fst <$> Cache.zrangeByScore now tp key min max limit c
  | CallSadd key members => fst <$> Cache.sadd now tp key members c
  | CallSmembers key => fst <$> Cache.smembers now tp key c
  | CallShutdown => Some (Cache.shutdown c, tp)
  | CallExpirationTick => Some ((Cache.activeExpirationTick now c).1, tp)
  | CallDecayTick => Some (Cache.decayTick now c, tp)
  end.

(** The states that the calls in [allowed] make from a new cache. *)
Inductive cache_reachable_by (allowed : cache_call → Prop) : Cache.t → Prop :=
  | reachable_cache_new options :
      cache_reachable_by allowed (Cache.new options)
  | reachable_cache_step c now tp call c' tp' :
      cache_reachable_by allowed c → allowed call →
      cache_step now tp call c = Some (c', tp') →
      cache_reachable_by allowed c'.

Definition cache_reachable : Cache.t → Prop := cache_reachable_by (λ _, True).

(** What the bookkeeping leaves as it is: the entries, the TTL
    records, the usage metadata, the memory counter and the options.
    Of the statistics the purges change the counters of evictions and
    expirations only, and these do not shrink.  The keys that come new
    into the eviction pool are keys of the store. *)
Definition stats_le (s s' : Cache.Stats) : Prop :=
  Cache.hits s' = Cache.hits s ∧ Cache.misses s' = Cache.misses s ∧
  Cache.operations s' = Cache.operations s ∧
  Cache.evictions s ≤ Cache.evictions s' ∧
  Cache.expirations s ≤ Cache.expirations s'.

Definition same_usage (u u' : UsageTracker.t) : Prop :=
  UsageTracker.metadata u' = UsageTracker.metadata u ∧
  UsageTracker.policy u' = UsageTracker.policy u ∧
  UsageTracker.decayInterval u' = UsageTracker.decayInterval u ∧
  UsageTracker.decayAmount u' = UsageTracker.decayAmount u.

Definition same_contents (c c' : Cache.t) : Prop :=
  Cache.store c' = Cache.store c ∧
  TTLManager.expirations (Cache.ttl c') = TTLManager.expirations (Cache.ttl c) ∧
  same_usage (Cache.usage c) (Cache.usage c') ∧
  Cache.currentMemoryUsed c' = Cache.currentMemoryUsed c ∧
  Cache.maxmemory c' = Cache.maxmemory c ∧
  Cache.evictionPolicy c' = Cache.evictionPolicy c ∧
  Cache.evictionSampleSize c' = Cache.evictionSampleSize c ∧
  (∀ k, k ∈ Cache.evictionPool c' →
        k ∈ Cache.evictionPool c ∨ is_Some (store_lookup c k)) ∧
  stats_le (Cache.stats c) (Cache.stats c').

(** The steps of the code that purges: the internal delete of a key,
    a migration step of the dictionary, and bookkeeping. *)
Inductive purge_step : Cache.t → Cache.t → Prop :=
  | purge_delete key c : purge_step c (Cache._deleteKey key c)
  | purge_rehash c :
      purge_step c (Cache.with_store (Dictionary.step (Cache.store c)) c)
  | purge_book c c' : same_contents c c' → purge_step c c'.

Definition purge_steps : Cache.t → Cache.t → Prop := rtc purge_step.

(** What the purges do to a key: nothing, or they take away its entry,
    its TTL record and its usage metadata. *)
Definition key_kept (c c' : Cache.t) (key : string) : Prop :=
  store_lookup c' key = store_lookup c key ∧
  ttl_lookup c' key = ttl_lookup c key ∧
  usage_lookup c' key = usage_lookup c key.

Definition kept_or_purged (c c' : Cache.t) (key : string) : Prop :=
  key_kept c c' key ∨ purged c' key.

(** The options of a cache and the parameters of its tracker. *)
Definition same_options (c c' : Cache.t) : Prop :=
  Cache.maxmemory c' = Cache.maxmemory c ∧
  Cache.evictionPolicy c' = Cache.evictionPolicy c ∧
  Cache.evictionSampleSize c' = Cache.evictionSampleSize c ∧
  UsageTracker.policy (Cache.usage c') = UsageTracker.policy (Cache.usage c) ∧
  UsageTracker.decayInterval (Cache.usage c')
  = UsageTracker.decayInterval (Cache.usage c) ∧
  UsageTracker.decayAmount (Cache.usage c')
  = UsageTracker.decayAmount (Cache.usage c).

(** The invariant of the store: the dictionary is well formed and its
    entries are made by the operations. *)
Definition cache_inv (c : Cache.t) : Prop :=
  dict_wf (Cache.store c) ∧
  ∀ key e, store_lookup c key = Some e → entry_ok e.





(** ** The memory counter and the statistics *)

(** The [memoryUsed] of the entry of a key, 0 when there is none. *)
Definition entry_memory (c : Cache.t) (key : string) : Z :=
  match store_lookup c key with
  | Some e => memoryUsed e
  | None => 0
  end.

Definition sum_over (g : string → Z) (keys : list string) : Z :=
  foldr (λ key acc, g key + acc) 0 keys.

(** The sum of the [memoryUsed] of the entries of the store. *)
Definition mem_sum (c : Cache.t) : Z :=
  sum_over (entry_memory c) (dict_keys (Cache.store c)).

Definition is_zrem (call : cache_call) : bool :=
  match call with
  | CallZrem _ _ => true
  | _ => false
  end.

(** The calls that count an operation: the public operations other
    than [shutdown]. *)
Definition counted (call : cache_call) : bool :=
  match call with
  | CallShutdown | CallExpirationTick | CallDecayTick => false
  | _ => true
  end.

(** The reads, which count hits and misses. *)
Definition is_read (call : cache_call) : bool :=
  match call with
  | CallGetKey _ | CallZscore _ _ | CallZrank _ _ | CallZrangeByScore _ _ _ _
  | CallSmembers _ => true
  | _ => false
  end.

(** What a call does once its purges are done.  A read counts a hit,
    a miss or neither, and the other calls neither, *)
Definition stats_counted (call : cache_call) (c c' : Cache.t) : Prop :=
  Cache.stats c' = Cache.stats c ∨
  (is_read call = true ∧
   (Cache.stats c' = Cache.stats (Cache.count_hit c) ∨
    Cache.stats c' = Cache.stats (Cache.count_miss c))).

(** it changes the counter of the memory by what it changes the
    [memoryUsed] of the entry of its key by, *)
Definition mem_balanced (key : string) (c c' : Cache.t) : Prop :=
  Cache.currentMemoryUsed c' - entry_memory c' key
  = Cache.currentMemoryUsed c - entry_memory c key.

(** or, in [zrem], takes the size of the member from both and stops
    each of them at 0, *)
Definition mem_clamped (key : string) (c c' : Cache.t) : Prop :=
  ∃ delta, 0 ≤ delta ∧
    entry_memory c' key = Z.max 0 (entry_memory c key - delta) ∧
    Cache.currentMemoryUsed c' = Z.max 0 (Cache.currentMemoryUsed c - delta).

(** The side tables agree with the store on a key: the key has usage
    metadata exactly when it has an entry, and a deadline only when it
    has an entry. *)
Definition key_consistent (c : Cache.t) (key : string) : Prop :=
  (is_Some (usage_lookup c key) ↔ is_Some (store_lookup c key)) ∧
  (is_Some (ttl_lookup c key) → is_Some (store_lookup c key)).

(** A call keeps this agreement on its key, and leaves the deadlines
    of the other keys and the set of the other keys with usage metadata
    as they are. *)
Definition side_frame (key : string) (c c' : Cache.t) : Prop :=
  (∀ k, k ≠ key →
        (is_Some (usage_lookup c' k) ↔ is_Some (usage_lookup c k)) ∧
        ttl_lookup c' k = ttl_lookup c k) ∧
  (key_consistent c key → key_consistent c' key).

(** The rank of a key in the order of the eviction: the time of its
    last access, and under LFU its frequency before that. *)
Definition usage_rank (c : Cache.t) (key : string) : Z * Z :=
  match usage_lookup c key with
  | Some meta =>
      (match Cache.evictionPolicy c with lru => 0 | lfu => freq meta end,
       lastAccess meta)
  | None => (0, 0)
  end.

Definition rank_le (a b : Z * Z) : Prop :=
  a.1 < b.1 ∨ (a.1 = b.1 ∧ a.2 ≤ b.2).

(** It leaves the entries of the other keys, the eviction pool and the
    options as they are. *)
Definition same_settings (c c' : Cache.t) : Prop :=
  Cache.evictionPool c' = Cache.evictionPool c ∧
  Cache.maxmemory c' = Cache.maxmemory c ∧
  Cache.evictionSampleSize c' = Cache.evictionSampleSize c.

Definition call_frame (call : cache_call) (key : string) (c c' : Cache.t) : Prop :=
  (∀ k, k ≠ key → store_lookup c' k = store_lookup c k) ∧
  stats_counted call c c' ∧
  (0 ≤ entry_memory c key → 0 ≤ entry_memory c' key) ∧
  (mem_balanced key c c' ∨ (is_zrem call = true ∧ mem_clamped key c c')) ∧
  same_settings c c' ∧
  side_frame key c c'.

(** The key of a call. *)
Definition call_key (call : cache_call) : option string :=
  match call with
  | CallSetKey key _ _ | CallGetKey key | CallDel key | CallZadd key _ _
  | CallZrem key _ | CallZscore key _ | CallZrank key _
  | CallZrangeByScore key _ _ _ | CallSadd key _ | CallSmembers key => Some key
  | CallShutdown | CallExpirationTick | CallDecayTick => None
  end.

(** The calls that evict before they write. *)
Definition is_write (call : cache_call) : bool :=
  match call with
  | CallSetKey _ _ _ | CallZadd _ _ _ | CallSadd _ _ => true
  | _ => false
  end.

(** The empty string is no key of the store and is not in the
    eviction pool. *)
Definition no_empty_key (c : Cache.t) : Prop :=
  ("" ∉ Cache.evictionPool c) ∧ store_lookup c "" = None.

(** No entry has a negative [memoryUsed]. *)
Definition mem_nonneg (c : Cache.t) : Prop :=
  ∀ key e, store_lookup c key = Some e → 0 ≤ memoryUsed e.

(** A run of calls, each at its time, on the draws of one tape. *)
Fixpoint cache_run (calls : list (Z * cache_call)) (tp : tape) (c : Cache.t)
    : option (Cache.t * tape) :=
  match calls with
  | [] => Some (c, tp)
  | (now, call) :: calls' =>
      '(c', tp') ← cache_step now tp call c;
      cache_run calls' tp' c'
  end.

(** ** Example states *)

(** A cache with default options. *)
Definition cache0 : Cache.t := Cache.new (mkOptions None None None).

(** [cache0] after [set("k", "v", 10)] at time 0. *)
Definition cache_k : Cache.t :=
  match Cache.set 0 [] "k" "v" (Some 10) cache0 with
  | Some (c, _) => c
  | None => cache0
  end.

(** [set("a","b")], [zadd("z",1,"mmmm")], [zrem("z","mmmm")] and
    [del("a")] on a new cache; the draw 1/2 gives the node level 1. *)
Definition cache_after_zrem_del : option Cache.t :=
  '(c, tp) ← Cache.set 0 [(1 # 2)%Q] "a" "b" None cache0;
  '(c, tp, _) ← Cache.zadd 0 tp "z" 1 "mmmm" c;
  '(c, tp, _) ← Cache.zrem 0 tp "z" "mmmm" c;
  Some (Cache.del "a" c).1.

(** A cache with [maxmemory = 10] after [set("", "x")]: 50 bytes are
    in use and the only key is the empty string. *)
Definition cache_empty_key : Cache.t :=
  match Cache.set 0 [] "" "x" None (Cache.new (mkOptions (Some 10) None None)) with
  | Some (c, _) => c
  | None => cache0
  end.

(** [cache0] after [zadd("z", 1, "m")] at time 0. *)
Definition cache_z : Cache.t :=
  match Cache.zadd 0 [(1 # 2)%Q] "z" 1 "m" cache0 with
  | Some (c, _, _) => c
  | None => cache0
  end.

Definition cache_z_entry : CacheEntry :=
  default (mkEntry (VString "") 0) (store_lookup cache_z "z").

(** A sorted set after [zadd("a", 2)], [zadd("b", 1)], [zadd("c", 3)],
    [zadd("d", 3)], [zadd("a", 5)] and [zrem("b")]; the draws give the
    nodes the levels 2, 1, 3, 1 and 1. *)
Definition tape_ex : tape :=
  [(1 # 8); (1 # 2); (1 # 2); (1 # 8); (1 # 8); (1 # 2); (1 # 2); (1 # 2)]%Q.

Definition calls_ex : list zset_call :=
  [Zadd "a" 2; Zadd "b" 1; Zadd "c" 3; Zadd "d" 3; Zadd "a" 5; Zrem "b"].

Definition zset_ex : ZSet.t :=
  default ZSet.new (fst <$> zset_calls ZSet.new tape_ex calls_ex).


(** An integer set after [add(3)], [add(7)] and [add(5)]. *)
Definition intset_s1 : IntSet.t :=
  default (IntSet.new None) (fst <$> IntSet.add (IntSet.new None) (MInt 3)).

Definition intset_s2 : IntSet.t :=
  default intset_s1 (fst <$> IntSet.add intset_s1 (MInt 7)).

Definition intset_ex : IntSet.t :=
  default intset_s2 (fst <$> IntSet.add intset_s2 (MInt 5)).

(** A packed list of at most 10 bytes after [tryAppend("hello")]: the
    element takes 9 bytes. *)
Definition listpack_ex : ListPackNode.t :=
  (ListPackNode.tryAppend (ListPackNode.new (Some 10)) "hello").1.

(** A quick list after [rpush("a")], [rpush("b")] and [lpush("c")]. *)
Definition quicklist_q1 : QuickList.t :=
  default QuickList.new (QuickList.rpush QuickList.new "a").

Definition quicklist_q2 : QuickList.t :=
  default quicklist_q1 (QuickList.rpush quicklist_q1 "b").

Definition quicklist_ex : QuickList.t :=
  default quicklist_q2 (QuickList.lpush quicklist_q2 "c").

(** A new sorted set after [zadd("m", NaN)], and after the same call
    once more; the draws give the nodes the level 1. *)
Definition zset_nan1 : ZSet.t :=
  default ZSet.new ((λ r, r.1.1) <$> ZSet.zadd ZSet.new [(1 # 2)%Q] "m" NaN).

Definition zset_nan2 : ZSet.t :=
  default zset_nan1 ((λ r, r.1.1) <$> ZSet.zadd zset_nan1 [(1 # 2)%Q] "m" NaN).

(** A new sorted set after [zadd("a", 1)] and [zadd("b", NaN)], and
    then after [zrem("a")]. *)
Definition calls_nan : list zset_call := [Zadd "a" 1; Zadd "b" NaN].

Definition zset_nan_ab : ZSet.t :=
  default ZSet.new (fst <$> zset_calls ZSet.new [(1 # 2); (1 # 2)]%Q calls_nan).

Definition zset_nan_b : ZSet.t :=
  default zset_nan_ab (fst <$> ZSet.zrem zset_nan_ab "a").

(** 33 draws that give every new node the level 1. *)
Definition tape_33 : tape := replicate 33 (1 # 2)%Q.

(** An LFU tracker after [touch("k")] at time 0 with the draw 1/2. *)
Definition usage_ex : UsageTracker.t :=
  let u := UsageTracker.new (Some lfu) None None in
  default u (fst <$> UsageTracker.touch u 0 [(1 # 2)%Q] "k").

(** [cache_k] after a tick of the expiration timer at time 20, which
    finds "k" expired and queues it, and [set("k", "w")] at time 21:
    the key is in the queue, and it has a new value and no deadline. *)
Definition cache_pending : Cache.t :=
  match Cache.set 21 [] "k" "w" None (Cache.activeExpirationTick 20 cache_k).1 with
  | Some (c, _) => c
  | None => cache0
  end.

(** [set("a","b")], [zadd("z",1,"mmmm")], [zrem("z","mmmm")] and
    [del("a")] on a new cache: no entry counts any memory, and the
    counter is at -6. *)
Definition calls_zrem_del : list (Z * cache_call) :=
  [(0, CallSetKey "a" "b" None); (0, CallZadd "z" 1 "mmmm");
   (0, CallZrem "z" "mmmm"); (0, CallDel "a")].

Definition cache_zrem_del : Cache.t :=
  default cache0 (fst <$> cache_run calls_zrem_del [(1 # 2)%Q] cache0).

(** [set("k","v")], [get("k")], [get("x")] and [zscore("k","m")] on a
    new cache: a hit, a miss and a read that throws. *)
Definition calls_reads : list (Z * cache_call) :=
  [(0, CallSetKey "k" "v" None); (1, CallGetKey "k"); (2, CallGetKey "x");
   (3, CallZscore "k" "m")].

Definition cache_reads : Cache.t :=
  default cache0 (fst <$> cache_run calls_reads [] cache0).

(** [cache_k] after [get("k")] at time 5, before the deadline. *)
Definition cache_k_read : Cache.t :=
  default cache0 (fst <$> cache_step 5 [] (CallGetKey "k") cache_k).

(** A cache with [maxmemory = 100] after [set("a","x")] and
    [set("b","y")]: 104 bytes are counted. *)
Definition cache_small : Cache.t := Cache.new (mkOptions (Some 100) None None).

Definition calls_fill : list (Z * cache_call) :=
  [(0, CallSetKey "a" "x" None); (1, CallSetKey "b" "y" None)].

Definition cache_full : Cache.t :=
  default cache_small (fst <$> cache_run calls_fill [] cache_small).



(** [cache_full] after [set("c","z")] at time 2; the draws 1/4 and 3/4
    sample both keys, and "a" is evicted. *)
Definition tape_sample : tape := [(1 # 4); (3 # 4)]%Q.

Definition cache_evicted : Cache.t :=
  default cache_small
    (fst <$> cache_step 2 tape_sample (CallSetKey "c" "z" None) cache_full).

(** [cache_full] after a refill of its eviction pool with the draws of
    [tape_sample]. *)
Definition cache_refilled : Cache.t :=
  match Cache.refillPool tape_sample cache_full with
  | Some (c, _, _) => c
  | None => cache_full
  end.

(** [cache_full] after the eviction that [set] runs first, with the
    draws of [tape_sample]: "a" has gone. *)
Definition cache_after_evict : Cache.t :=
  match Cache._evictIfNeeded tape_sample cache_full with
  | Some (c, _) => c
  | None => cache_full
  end.

(* ================================================================== *)
(** * Part III: properties *)
(* ================================================================== *)

(** ** Facts about the built-in [Map] *)
Section JsMap_facts.
Context {K V : Type} `{EqDecision K}.
Implicit Types (m : JsMap.t K V) (k : K) (v : V).

Lemma JsMap_get_set_eq m k v : JsMap.get (JsMap.set m k v) k = Some v.
Proof.
  induction m as [|[[k' v']|] m IH]; simpl.
  - by rewrite decide_True.
  - destruct (decide (k' = k)); simpl; [by rewrite decide_True|].
    by rewrite decide_False.
  - done.
Qed.

Lemma JsMap_get_set_ne m k k' v :
  k ≠ k' → JsMap.get (JsMap.set m k v) k' = JsMap.get m k'.
Proof.
  intros Hne. induction m as [|[[k0 v0]|] m IH]; simpl.
  - by rewrite decide_False.
  - destruct (decide (k0 = k)) as [->|]; simpl.
    + by rewrite !decide_False.
    + by rewrite IH.
  - done.
Qed.

Lemma JsMap_get_delete_eq m k : JsMap.get (JsMap.delete m k).1 k = None.
Proof.
  induction m as [|[[k' v']|] m IH]; simpl; [done| |done].
  destruct (decide (k' = k)); simpl; [done|]. by rewrite decide_False.
Qed.

Lemma JsMap_get_delete_ne m k k' :
  k ≠ k' → JsMap.get (JsMap.delete m k).1 k' = JsMap.get m k'.
Proof.
  intros Hne. induction m as [|[[k0 v0]|] m IH]; simpl; [done| |done].
  destruct (decide (k0 = k)) as [->|]; simpl.
  - by rewrite decide_False.
  - destruct (decide (k0 = k')); [done|]. apply IH.
Qed.

Lemma JsMap_get_modify_eq m k f :
  JsMap.get (JsMap.modify m k f) k = f <$> JsMap.get m k.
Proof.
  induction m as [|[[k' v']|] m IH]; simpl; [done| |done].
  destruct (decide (k' = k)); simpl; [by rewrite decide_True|].
  by rewrite decide_False.
Qed.

Lemma JsMap_get_modify_ne m k k' f :
  k ≠ k' → JsMap.get (JsMap.modify m k f) k' = JsMap.get m k'.
Proof.
  intros Hne. induction m as [|[[k0 v0]|] m IH]; simpl; [done| |done].
  destruct (decide (k0 = k)) as [->|]; simpl.
  - by rewrite !decide_False.
  - by rewrite IH.
Qed.

Lemma JsMap_has_get m k : JsMap.has m k = true ↔ is_Some (JsMap.get m k).
Proof.
  unfold JsMap.has. destruct (JsMap.get m k); split; done.
Qed.

Lemma JsMap_has_false m k : JsMap.has m k = false ↔ JsMap.get m k = None.
Proof. unfold JsMap.has. by destruct (JsMap.get m k). Qed.

Lemma JsMap_elem_of_keys m k : k ∈ JsMap.keys m ↔ is_Some (JsMap.get m k).
Proof.
  unfold JsMap.keys, JsMap.entries.
  induction m as [|[[k' v']|] m IH]; csimpl.
  - split.
    + by intros ?%elem_of_nil.
    + by intros [? ?].
  - rewrite elem_of_cons, IH. csimpl.
    destruct (decide (k' = k)) as [->|].
    + split; [by eauto|by left].
    + split; [intros [?|?]; [congruence|done] | by right].
  - done.
Qed.

Lemma JsMap_not_elem_of_keys m k : k ∉ JsMap.keys m ↔ JsMap.get m k = None.
Proof. rewrite JsMap_elem_of_keys, <- eq_None_not_Some. done. Qed.

Lemma JsMap_keys_set m k v :
  JsMap.keys (JsMap.set m k v) =
  if JsMap.has m k then JsMap.keys m else JsMap.keys m ++ [k].
Proof.
  unfold JsMap.keys, JsMap.entries, JsMap.has.
  induction m as [|[[k' v']|] m IH]; csimpl; [done| |done].
  destruct (decide (k' = k)) as [->|]; csimpl; [done|].
  rewrite IH. by destruct (JsMap.get m k).
Qed.

Lemma JsMap_keys_delete m k :
  JsMap.keys (JsMap.delete m k).1 = filter (λ k', k' ≠ k) (JsMap.keys m).
Proof.
  unfold JsMap.keys, JsMap.entries.
  induction m as [|[[k' v']|] m IH]; csimpl; [done| |done].
  destruct (decide (k' = k)) as [->|]; csimpl.
  - rewrite filter_cons_False; [|naive_solver]. done.
  - rewrite filter_cons_True; [|done]. by rewrite <- IH.
Qed.

Lemma JsMap_keys_modify m k f : JsMap.keys (JsMap.modify m k f) = JsMap.keys m.
Proof.
  unfold JsMap.keys, JsMap.entries.
  induction m as [|[[k' v']|] m IH]; csimpl; [done| |done].
  destruct (decide (k' = k)) as [->|]; csimpl; [done|]. by rewrite IH.
Qed.

Lemma JsMap_size_keys m : JsMap.size m = length (JsMap.keys m).
Proof. unfold JsMap.size, JsMap.keys. by rewrite length_fmap. Qed.

Lemma JsMap_delete_absent m k :
  JsMap.get m k = None → (JsMap.delete m k).1 = m.
Proof.
  induction m as [|[[k' v']|] m IH]; simpl; [done| |].
  - destruct (decide (k' = k)); [done|]. intros ?. f_equal. by apply IH.
  - intros ?. f_equal. by apply IH.
Qed.

(** The iterator. *)
Lemma JsMap_next_Some m i e j :
  JsMap.next m i = Some (e, j) →
  (i < j ≤ length m)%nat ∧ m !! (j - 1)%nat = Some (Some e) ∧
  ∀ p, (i ≤ p < j - 1)%nat → m !! p = Some None.
Proof.
  revert i j. induction m as [|s m IH]; intros i j; simpl; [done|].
  destruct i as [|i].
  - destruct s as [e'|].
    + intros [= <- <-]. simpl. split; [lia|]. split; [done|]. intros; lia.
    + destruct (JsMap.next m 0) as [[e' j']|] eqn:Hn; simpl; [|done].
      intros [= <- <-]. apply IH in Hn as (Hj & Hl & Hd).
      split; [lia|]. split.
      * replace (S j' - 1)%nat with (S (j' - 1)) by lia. done.
      * intros [|p] Hp; [done|]. simpl. apply Hd. lia.
  - destruct (JsMap.next m i) as [[e' j']|] eqn:Hn; simpl; [|done].
    intros [= <- <-]. apply IH in Hn as (Hj & Hl & Hd).
    split; [lia|]. split.
    + replace (S j' - 1)%nat with (S (j' - 1)) by lia. done.
    + intros [|p] Hp; [lia|]. simpl. apply Hd. lia.
Qed.

Lemma JsMap_next_None m i p :
  JsMap.next m i = None → (i ≤ p < length m)%nat → m !! p = Some None.
Proof.
  revert i p. induction m as [|s m IH]; intros i p; simpl; [lia|].
  destruct i as [|i].
  - destruct s as [e'|]; [done|].
    destruct (JsMap.next m 0) as [[e' j']|] eqn:Hn; simpl; [done|].
    intros _ Hp. destruct p as [|p]; [done|]. simpl. eapply IH; [done|lia].
  - destruct (JsMap.next m i) as [[e' j']|] eqn:Hn; simpl; [done|].
    intros _ Hp. destruct p as [|p]; [lia|]. simpl. eapply IH; [done|lia].
Qed.

Lemma JsMap_lookup_entries m p e :
  m !! p = Some (Some e) → e ∈ JsMap.entries m.
Proof.
  intros Hp. unfold JsMap.entries. apply list_elem_of_omap.
  exists (Some e). split; [|done]. by eapply list_elem_of_lookup_2.
Qed.

Lemma JsMap_entries_get m k v :
  NoDup (JsMap.keys m) → (k, v) ∈ JsMap.entries m → JsMap.get m k = Some v.
Proof.
  unfold JsMap.keys, JsMap.entries.
  induction m as [|[[k' v']|] m IH]; csimpl.
  - by intros _ ?%elem_of_nil.
  - intros [Hnin Hnd]%NoDup_cons [[= -> ->]|Hin]%elem_of_cons.
    + by rewrite decide_True.
    + destruct (decide (k' = k)) as [->|]; [|by apply IH].
      exfalso. apply Hnin. apply list_elem_of_fmap. by exists (k, v).
  - done.
Qed.

Lemma JsMap_all_dead_entries m :
  (∀ p, (p < length m)%nat → m !! p = Some None) → JsMap.entries m = [].
Proof.
  unfold JsMap.entries. induction m as [|s m IH]; csimpl; [done|].
  intros Hd. pose proof (Hd 0%nat ltac:(lia)) as H0. csimpl in H0.
  injection H0 as ->. csimpl. apply IH. intros p Hp.
  apply (Hd (S p)). lia.
Qed.

Lemma JsMap_lookup_delete m k p :
  (JsMap.delete m k).1 !! p = JsMap.clear_slot k <$> m !! p.
Proof. apply list_lookup_fmap. Qed.

Lemma JsMap_length_delete m k : length (JsMap.delete m k).1 = length m.
Proof. apply length_fmap. Qed.
End JsMap_facts.

(** ** The dictionary keeps its invariant and its contents *)
Section Dictionary_facts.
Context {K V : Type} `{EqDecision K}.
Implicit Types (d : Dictionary.t K V) (m : JsMap.t K V) (k : K) (v : V).

Lemma JsMap_get_dead m k :
  (∀ p, (p < length m)%nat → m !! p = Some None) → JsMap.get m k = None.
Proof.
  intros Hd. apply JsMap_not_elem_of_keys. unfold JsMap.keys.
  rewrite (JsMap_all_dead_entries m Hd). apply not_elem_of_nil.
Qed.

Lemma dead_before_alt m i :
  dead_before m i ↔ ∀ p, (p < i)%nat → (p < length m)%nat → m !! p = Some None.
Proof.
  unfold dead_before. rewrite Forall_lookup. split.
  - intros Hd p Hp Hl. destruct (lookup_lt_is_Some_2 m p Hl) as [s Hs].
    rewrite Hs. f_equal. apply (Hd p). by rewrite lookup_take_lt.
  - intros Hd p s Hs. pose proof (lookup_lt_Some _ _ _ Hs) as Hl.
    rewrite length_take in Hl. rewrite lookup_take_lt in Hs by lia.
    rewrite Hd in Hs by lia. congruence.
Qed.

Lemma dead_before_delete m i k :
  dead_before m i → dead_before (JsMap.delete m k).1 i.
Proof.
  rewrite !dead_before_alt.
  intros Hd p Hp Hl. rewrite JsMap_length_delete in Hl.
  rewrite JsMap_lookup_delete, (Hd p Hp Hl). done.
Qed.

Lemma JsMap_lookup_modify_dead m k f p :
  m !! p = Some None → JsMap.modify m k f !! p = Some None.
Proof.
  revert p. induction m as [|[[k' v']|] m IH]; intros p; simpl; [done| |].
  - destruct (decide (k' = k)); destruct p; simpl; try done. apply IH.
  - destruct p; simpl; [done|]. apply IH.
Qed.

Lemma JsMap_length_modify m k f : length (JsMap.modify m k f) = length m.
Proof.
  induction m as [|[[k' v']|] m IH]; simpl; [done| |].
  - destruct (decide (k' = k)); simpl; [done|]. by rewrite IH.
  - by rewrite IH.
Qed.

Lemma dead_before_modify m i k f :
  dead_before m i → dead_before (JsMap.modify m k f) i.
Proof.
  rewrite !dead_before_alt.
  intros Hd p Hp Hl. rewrite JsMap_length_modify in Hl.
  apply JsMap_lookup_modify_dead. by apply Hd.
Qed.

Lemma NoDup_keys_delete_set (h0 h1 : JsMap.t K V) k v :
  NoDup (JsMap.keys h0 ++ JsMap.keys h1) →
  NoDup (JsMap.keys (JsMap.delete h0 k).1 ++ JsMap.keys (JsMap.set h1 k v)).
Proof.
  intros [Hn0 [Hdisj Hn1]]%NoDup_app.
  rewrite JsMap_keys_delete, JsMap_keys_set. apply NoDup_app.
  split; [by apply NoDup_filter|]. split.
  - intros x [Hne Hx]%list_elem_of_filter.
    destruct (JsMap.has h1 k); [by apply Hdisj|].
    rewrite elem_of_app, list_elem_of_singleton.
    intros [?|?]; [by apply (Hdisj x)|done].
  - destruct (JsMap.has h1 k) eqn:Hh; [done|].
    apply NoDup_app. split; [done|]. split; [|apply NoDup_singleton].
    intros x Hx ->%list_elem_of_singleton.
    apply JsMap_has_false in Hh. apply JsMap_elem_of_keys in Hx.
    rewrite Hh in Hx. by destruct Hx.
Qed.

Lemma NoDup_keys_delete_l (h0 h1 : JsMap.t K V) k :
  NoDup (JsMap.keys h0 ++ JsMap.keys h1) →
  NoDup (JsMap.keys (JsMap.delete h0 k).1 ++ JsMap.keys h1).
Proof.
  intros [Hn0 [Hdisj Hn1]]%NoDup_app. rewrite JsMap_keys_delete.
  apply NoDup_app. split; [by apply NoDup_filter|]. split; [|done].
  intros x [Hne Hx]%list_elem_of_filter. by apply Hdisj.
Qed.

Lemma NoDup_keys_delete_both (h0 h1 : JsMap.t K V) k :
  NoDup (JsMap.keys h0 ++ JsMap.keys h1) →
  NoDup (JsMap.keys (JsMap.delete h0 k).1 ++ JsMap.keys (JsMap.delete h1 k).1).
Proof.
  intros [Hn0 [Hdisj Hn1]]%NoDup_app. rewrite !JsMap_keys_delete.
  apply NoDup_app. split; [by apply NoDup_filter|].
  split; [|by apply NoDup_filter].
  intros x [Hne Hx]%list_elem_of_filter [_ Hx']%list_elem_of_filter.
  by apply (Hdisj x).
Qed.

(** The migration loop keeps the invariant and the contents. *)
Lemma rehashLoop_spec n (h0 h1 : JsMap.t K V) idx it stp :
  0 ≤ idx → NoDup (JsMap.keys h0 ++ JsMap.keys h1) → dead_before h0 it →
  let d' := (Dictionary._rehashLoop n h0 h1 idx it stp).1 in
  dict_wf d' ∧ Dictionary.rehashStepSize d' = stp ∧
  ∀ k, dict_lookup d' k =
       match JsMap.get h1 k with Some v => Some v | None => JsMap.get h0 k end.
Proof.
  revert h0 h1 idx it. induction n as [|n IH]; intros h0 h1 idx it Hidx Hnd Hdead0.
  all: pose proof (proj1 (dead_before_alt _ _) Hdead0) as Hdead.
  - simpl. split; [done|]. split; [done|]. intros k.
    unfold dict_lookup, Dictionary.rehashing_ht1, Dictionary.isRehashing. simpl.
    by rewrite bool_decide_true.
  - simpl. destruct (JsMap.next h0 it) as [[[key val] it']|] eqn:Hnext.
    + apply JsMap_next_Some in Hnext as (Hit & Hslot & Hgap).
      assert (Hk0 : JsMap.get h0 key = Some val).
      { apply JsMap_entries_get; [by apply NoDup_app in Hnd as [? _]|].
        by eapply JsMap_lookup_entries. }
      assert (Hk1 : JsMap.get h1 key = None).
      { apply JsMap_not_elem_of_keys. apply NoDup_app in Hnd as (_ & Hdisj & _).
        apply Hdisj. apply JsMap_elem_of_keys. by rewrite Hk0. }
      destruct (IH (JsMap.delete h0 key).1 (JsMap.set h1 key val) (idx + 1) it')
        as (Hwf & Hst & Hlk); [lia|by apply NoDup_keys_delete_set| |].
      { apply dead_before_alt.
        intros p Hp Hl. rewrite JsMap_length_delete in Hl.
        rewrite JsMap_lookup_delete.
        destruct (decide (p < it)%nat) as [Hlt|Hge].
        - by rewrite (Hdead p Hlt Hl).
        - destruct (decide (p = it' - 1)%nat) as [->|Hne].
          + rewrite Hslot. simpl. by rewrite decide_True.
          + rewrite Hgap; [done|lia]. }
      split; [done|]. split; [done|]. intros k. rewrite Hlk.
      destruct (decide (key = k)) as [<-|Hne].
      * by rewrite JsMap_get_set_eq, Hk1, Hk0.
      * by rewrite JsMap_get_set_ne, JsMap_get_delete_ne.
    + simpl. split; [|split; [done|]].
      * split; [done|]. by apply NoDup_app in Hnd as (_ & _ & ?).
      * intros k. unfold dict_lookup, Dictionary.rehashing_ht1,
          Dictionary.isRehashing. simpl.
        assert (JsMap.get h0 k = None) as ->.
        { apply JsMap_get_dead. intros p Hp.
          destruct (decide (p < it)%nat); [by apply Hdead|].
          eapply JsMap_next_None; [done|lia]. }
        by destruct (JsMap.get h1 k).
Qed.

Lemma rehashing_ht1_wf d :
  dict_wf d →
  match Dictionary.rehashing_ht1 d with
  | Some h1 => Dictionary.ht1 d = Some h1 ∧ is_Some (Dictionary.rehashIterator d)
               ∧ 0 ≤ Dictionary.rehashidx d
  | None => Dictionary.ht1 d = None ∧ Dictionary.rehashIterator d = None
            ∧ Dictionary.rehashidx d = -1
  end.
Proof.
  unfold dict_wf, Dictionary.rehashing_ht1, Dictionary.isRehashing.
  destruct (Dictionary.ht1 d) as [h1|], (Dictionary.rehashIterator d) as [it|];
    try done.
  - intros (Hidx & _). rewrite bool_decide_true; [|done]. by eauto.
  - intros (Hidx & _). rewrite bool_decide_false; [|lia]. done.
Qed.

Lemma step_spec d :
  dict_wf d →
  dict_wf (Dictionary.step d) ∧
  Dictionary.rehashStepSize (Dictionary.step d) = Dictionary.rehashStepSize d ∧
  ∀ k, dict_lookup (Dictionary.step d) k = dict_lookup d k.
Proof.
  intros Hwf. pose proof (rehashing_ht1_wf d Hwf) as Hr.
  unfold Dictionary.step, Dictionary._rehashStep.
  unfold dict_lookup at 2. unfold Dictionary.rehashing_ht1 in *.
  destruct (Dictionary.isRehashing d) eqn:Hre; simpl.
  2:{ split; [done|]. split; [done|]. intros k.
      unfold dict_lookup, Dictionary.rehashing_ht1. by rewrite Hre. }
  destruct (Dictionary.ht1 d) as [h1|] eqn:E1.
  2:{ destruct Hr as (_ & _ & Hidx). unfold Dictionary.isRehashing in Hre.
      rewrite Hidx in Hre. done. }
  destruct Hr as (_ & [it Hit] & Hidx).
  rewrite Hit. unfold dict_wf in Hwf. rewrite E1, Hit in Hwf.
  destruct Hwf as (_ & Hnd & Hdead).
  by apply rehashLoop_spec.
Qed.
End Dictionary_facts.

Section Dictionary_ops.
Context {K V : Type} `{EqDecision K}.
Implicit Types (d : Dictionary.t K V) (m : JsMap.t K V) (k : K) (v : V).

Lemma Dictionary_get_fst d k : (Dictionary.get d k).1 = Dictionary.step d.
Proof.
  unfold Dictionary.get. destruct (Dictionary.rehashing_ht1 _); [|done].
  by destruct (JsMap.get _ _).
Qed.

Lemma Dictionary_get_snd d k :
  (Dictionary.get d k).2 = dict_lookup (Dictionary.step d) k.
Proof.
  unfold Dictionary.get, dict_lookup.
  destruct (Dictionary.rehashing_ht1 _); [|done]. by destruct (JsMap.get _ _).
Qed.

Lemma Dictionary_has_fst d k : (Dictionary.has d k).1 = Dictionary.step d.
Proof.
  unfold Dictionary.has. destruct (Dictionary.rehashing_ht1 _); [|done].
  by destruct (JsMap.has _ _).
Qed.

Lemma Dictionary_has_snd d k :
  (Dictionary.has d k).2 =
  match dict_lookup (Dictionary.step d) k with Some _ => true | None => false end.
Proof.
  unfold Dictionary.has, dict_lookup, JsMap.has.
  destruct (Dictionary.rehashing_ht1 _); [|done]. by destruct (JsMap.get _ _).
Qed.

Lemma Dictionary_keys_fst d : (Dictionary.keys d).1 = Dictionary.step d.
Proof. unfold Dictionary.keys. by destruct (Dictionary.rehashing_ht1 _). Qed.

Lemma Dictionary_keys_snd d : (Dictionary.keys d).2 = dict_keys (Dictionary.step d).
Proof.
  unfold Dictionary.keys, dict_keys. by destruct (Dictionary.rehashing_ht1 _).
Qed.

Lemma Dictionary_size_keys d : Dictionary.size d = length (dict_keys d).
Proof.
  unfold Dictionary.size, dict_keys. destruct (Dictionary.rehashing_ht1 _).
  - by rewrite length_app, !JsMap_size_keys.
  - by rewrite JsMap_size_keys.
Qed.

Lemma NoDup_keys_set m k v :
  NoDup (JsMap.keys m) → NoDup (JsMap.keys (JsMap.set m k v)).
Proof.
  intros Hnd. rewrite JsMap_keys_set. destruct (JsMap.has m k) eqn:Hh; [done|].
  apply NoDup_app. split; [done|]. split; [|apply NoDup_singleton].
  intros x Hx ->%list_elem_of_singleton.
  apply JsMap_has_false in Hh. apply JsMap_elem_of_keys in Hx.
  rewrite Hh in Hx. by destruct Hx.
Qed.

Lemma dict_keys_spec d k :
  dict_wf d → k ∈ dict_keys d ↔ is_Some (dict_lookup d k).
Proof.
  intros Hwf. unfold dict_keys, dict_lookup.
  destruct (Dictionary.rehashing_ht1 d) as [h1|]; [|apply JsMap_elem_of_keys].
  rewrite elem_of_app, !JsMap_elem_of_keys.
  destruct (JsMap.get h1 k).
  - split; [by eauto|]. by right.
  - split; [by intros [?|[? ?]]|by left].
Qed.

Lemma dict_keys_lookup d k : k ∈ dict_keys d → is_Some (dict_lookup d k).
Proof.
  unfold dict_keys, dict_lookup.
  destruct (Dictionary.rehashing_ht1 d) as [h1|]; [|apply JsMap_elem_of_keys].
  rewrite elem_of_app, !JsMap_elem_of_keys.
  destruct (JsMap.get h1 k); [by eauto|]. by intros [?|[? ?]].
Qed.

Lemma dict_keys_NoDup d : dict_wf d → NoDup (dict_keys d).
Proof.
  intros Hwf. pose proof (rehashing_ht1_wf d Hwf) as Hr.
  unfold dict_keys, dict_wf in *.
  destruct (Dictionary.rehashing_ht1 d) as [h1|].
  - destruct Hr as (E1 & [it Hit] & _). rewrite E1, Hit in Hwf.
    by destruct Hwf as (_ & ? & _).
  - destruct Hr as (E1 & Hit & _). rewrite E1, Hit in Hwf. by destruct Hwf.
Qed.

Lemma Dictionary_set_spec d k v :
  dict_wf d →
  dict_wf (Dictionary.set d k v) ∧
  ∀ k', dict_lookup (Dictionary.set d k v) k' =
        if decide (k = k') then Some v else dict_lookup d k'.
Proof.
  intros Hwf. destruct (step_spec d Hwf) as (Hwf1 & _ & Hlk).
  cut (dict_wf (Dictionary.set d k v) ∧
       ∀ k', dict_lookup (Dictionary.set d k v) k' =
             if decide (k = k') then Some v
             else dict_lookup (Dictionary.step d) k').
  { intros [? HH]. split; [done|]. intros k'. by rewrite HH, Hlk. }
  unfold Dictionary.set. cbv zeta. clear Hlk. revert Hwf1.
  generalize (Dictionary.step d). clear Hwf d. intros d1 Hwf1.
  pose proof (rehashing_ht1_wf d1 Hwf1) as Hr.
  unfold dict_lookup at 2.
  destruct (Dictionary.rehashing_ht1 d1) as [h1|] eqn:Hre.
  - destruct Hr as (E1 & [it Hit] & Hidx).
    unfold dict_wf in Hwf1. rewrite E1, Hit in Hwf1.
    destruct Hwf1 as (_ & Hnd & Hdead).
    assert ((if JsMap.has (Dictionary.ht0 d1) k
             then (JsMap.delete (Dictionary.ht0 d1) k).1
             else Dictionary.ht0 d1) = (JsMap.delete (Dictionary.ht0 d1) k).1)
      as ->.
    { destruct (JsMap.has _ k) eqn:Hh; [done|].
      symmetry. apply JsMap_delete_absent. by apply JsMap_has_false. }
    split.
    + unfold dict_wf. cbn [Dictionary.ht1 Dictionary.rehashIterator
        Dictionary.ht0 Dictionary.rehashidx]. rewrite Hit.
      split; [done|]. split; [by apply NoDup_keys_delete_set|].
      by apply dead_before_delete.
    + intros k'. unfold dict_lookup, Dictionary.rehashing_ht1,
        Dictionary.isRehashing.
      cbn [Dictionary.ht1 Dictionary.ht0 Dictionary.rehashidx].
      rewrite bool_decide_true; [|done].
      destruct (decide (k = k')) as [<-|Hne].
      * by rewrite JsMap_get_set_eq.
      * by rewrite JsMap_get_set_ne, JsMap_get_delete_ne.
  - destruct Hr as (E1 & Hit & Hidx).
    unfold dict_wf in Hwf1. rewrite E1, Hit in Hwf1. destruct Hwf1 as (_ & Hnd).
    assert (Hlk : ∀ k', JsMap.get (JsMap.set (Dictionary.ht0 d1) k v) k' =
              if decide (k = k') then Some v else JsMap.get (Dictionary.ht0 d1) k').
    { intros k'. destruct (decide (k = k')) as [<-|Hne].
      - by rewrite JsMap_get_set_eq.
      - by rewrite JsMap_get_set_ne. }
    unfold Dictionary.isRehashing, Dictionary._startRehash, Dictionary.isRehashing.
    cbn [Dictionary.ht1 Dictionary.ht0 Dictionary.rehashidx].
    rewrite Hidx, E1, Hit. rewrite (bool_decide_false (0 ≤ -1)); [|lia].
    cbn [negb]. rewrite andb_true_r.
    destruct (bool_decide _).
    + split.
      * unfold dict_wf. cbn. split; [done|]. rewrite app_nil_r.
        split; [by apply NoDup_keys_set|]. apply Forall_nil_2.
      * intros k'. unfold dict_lookup, Dictionary.rehashing_ht1,
          Dictionary.isRehashing. cbn. apply Hlk.
    + split.
      * unfold dict_wf. cbn. split; [done|]. by apply NoDup_keys_set.
      * intros k'. unfold dict_lookup, Dictionary.rehashing_ht1,
          Dictionary.isRehashing. cbn. apply Hlk.
Qed.

Lemma Dictionary_delete_spec d k :
  dict_wf d →
  dict_wf (Dictionary.delete d k).1 ∧
  (∀ k', dict_lookup (Dictionary.delete d k).1 k' =
         if decide (k = k') then None else dict_lookup d k') ∧
  (Dictionary.delete d k).2 =
    match dict_lookup d k with Some _ => true | None => false end.
Proof.
  intros Hwf. destruct (step_spec d Hwf) as (Hwf1 & _ & Hlk).
  cut (dict_wf (Dictionary.delete d k).1 ∧
       (∀ k', dict_lookup (Dictionary.delete d k).1 k' =
              if decide (k = k') then None
              else dict_lookup (Dictionary.step d) k') ∧
       (Dictionary.delete d k).2 =
         match dict_lookup (Dictionary.step d) k with
         | Some _ => true | None => false end).
  { intros (? & HH & HH'). split; [done|]. split.
    - intros k'. by rewrite HH, Hlk.
    - by rewrite HH', Hlk. }
  unfold Dictionary.delete. cbv zeta. clear Hlk. revert Hwf1.
  generalize (Dictionary.step d). clear Hwf d. intros d1 Hwf1.
  pose proof (rehashing_ht1_wf d1 Hwf1) as Hr.
  unfold dict_lookup at 2 3.
  destruct (Dictionary.rehashing_ht1 d1) as [h1|] eqn:Hre.
  - destruct Hr as (E1 & [it Hit] & Hidx).
    unfold dict_wf in Hwf1. rewrite E1, Hit in Hwf1.
    destruct Hwf1 as (_ & Hnd & Hdead).
    rewrite (surjective_pairing (JsMap.delete h1 k)),
      (surjective_pairing (JsMap.delete (Dictionary.ht0 d1) k)).
    cbv beta iota. cbn [fst snd].
    split; [|split].
    + unfold dict_wf. cbn [Dictionary.ht1 Dictionary.rehashIterator
        Dictionary.ht0 Dictionary.rehashidx]. rewrite Hit.
      split; [done|]. split; [by apply (NoDup_keys_delete_both _ _ k)|].
      by apply (dead_before_delete _ _ k).
    + intros k'. unfold dict_lookup, Dictionary.rehashing_ht1,
        Dictionary.isRehashing.
      cbn [Dictionary.ht1 Dictionary.ht0 Dictionary.rehashidx].
      rewrite bool_decide_true; [|done].
      destruct (decide (k = k')) as [<-|Hne].
      * by rewrite !(JsMap_get_delete_eq _ k).
      * by rewrite !(JsMap_get_delete_ne _ k k').
    + change (JsMap.delete h1 k).2 with (JsMap.has h1 k).
      change (JsMap.delete (Dictionary.ht0 d1) k).2
        with (JsMap.has (Dictionary.ht0 d1) k).
      unfold JsMap.has.
      destruct (JsMap.get h1 k); [by rewrite orb_true_r|]. by rewrite orb_false_r.
  - destruct Hr as (E1 & Hit & Hidx).
    unfold dict_wf in Hwf1. rewrite E1, Hit in Hwf1. destruct Hwf1 as (_ & Hnd).
    rewrite (surjective_pairing (JsMap.delete (Dictionary.ht0 d1) k)).
    cbv beta iota. cbn [fst snd].
    split; [|split].
    + unfold dict_wf. cbn [Dictionary.ht1 Dictionary.rehashIterator
        Dictionary.ht0 Dictionary.rehashidx]. rewrite E1, Hit.
      split; [done|]. rewrite JsMap_keys_delete. by apply NoDup_filter.
    + intros k'. unfold dict_lookup, Dictionary.rehashing_ht1,
        Dictionary.isRehashing.
      cbn [Dictionary.ht1 Dictionary.ht0 Dictionary.rehashidx].
      rewrite Hidx, (bool_decide_false (0 ≤ -1)); [|lia].
      destruct (decide (k = k')) as [<-|Hne].
      * by rewrite (JsMap_get_delete_eq _ k).
      * by rewrite (JsMap_get_delete_ne _ k k').
    + done.
Qed.

Lemma Dictionary_modify_spec d k f :
  dict_wf d →
  dict_wf (Dictionary.modify d k f) ∧
  ∀ k', dict_lookup (Dictionary.modify d k f) k' =
        if decide (k = k') then f <$> dict_lookup d k' else dict_lookup d k'.
Proof.
  intros Hwf. pose proof (rehashing_ht1_wf d Hwf) as Hr.
  unfold Dictionary.modify. unfold dict_lookup at 2 3.
  destruct (Dictionary.rehashing_ht1 d) as [h1|] eqn:Hre.
  - destruct Hr as (E1 & [it Hit] & Hidx). rewrite E1.
    unfold dict_wf in Hwf. rewrite E1, Hit in Hwf.
    destruct Hwf as (_ & Hnd & Hdead). split.
    + unfold dict_wf. cbn [Dictionary.ht1 Dictionary.rehashIterator
        Dictionary.ht0 Dictionary.rehashidx]. rewrite Hit.
      split; [done|]. rewrite !JsMap_keys_modify. split; [done|].
      by apply dead_before_modify.
    + intros k'. unfold dict_lookup, Dictionary.rehashing_ht1,
        Dictionary.isRehashing.
      cbn [Dictionary.ht1 Dictionary.ht0 Dictionary.rehashidx].
      rewrite bool_decide_true; [|done].
      destruct (decide (k = k')) as [<-|Hne].
      * rewrite !JsMap_get_modify_eq.
        by destruct (JsMap.get h1 k).
      * by rewrite !JsMap_get_modify_ne.
  - destruct Hr as (E1 & Hit & Hidx). rewrite E1.
    unfold dict_wf in Hwf. rewrite E1, Hit in Hwf. destruct Hwf as (_ & Hnd).
    split.
    + unfold dict_wf. cbn [Dictionary.ht1 Dictionary.rehashIterator
        Dictionary.ht0 Dictionary.rehashidx]. rewrite Hit.
      split; [done|]. by rewrite JsMap_keys_modify.
    + intros k'. unfold dict_lookup, Dictionary.rehashing_ht1,
        Dictionary.isRehashing.
      cbn [Dictionary.ht1 Dictionary.ht0 Dictionary.rehashidx].
      rewrite Hidx, (bool_decide_false (0 ≤ -1)); [|lia].
      destruct (decide (k = k')) as [<-|Hne].
      * by rewrite JsMap_get_modify_eq.
      * by rewrite JsMap_get_modify_ne.
Qed.

Lemma dict_wf_new n : dict_wf (Dictionary.new (K:=K) (V:=V) n).
Proof. split; [done|]. apply NoDup_nil_2. Qed.
End Dictionary_ops.

Section Refinement_facts.
Context {K V : Type} `{EqDecision K}.
Implicit Types (d : Dictionary.t K V) (m : JsMap.t K V) (k : K) (v : V).

Lemma dict_refines_keys d m : dict_refines d m → dict_keys d ≡ₚ JsMap.keys m.
Proof.
  intros (Hwf & Hnd & Hlk). apply NoDup_Permutation; [by apply dict_keys_NoDup|done|].
  intros k. by rewrite dict_keys_spec, JsMap_elem_of_keys, Hlk.
Qed.

Lemma dict_refines_step d m : dict_refines d m → dict_refines (Dictionary.step d) m.
Proof.
  intros (Hwf & Hnd & Hlk). destruct (step_spec d Hwf) as (Hwf1 & _ & Hlk1).
  split; [done|]. split; [done|]. intros k. by rewrite Hlk1.
Qed.

Lemma dict_refines_call d m c :
  dict_refines d m →
  dict_refines (Dictionary_call d c).1 (PlainMap_call m c).1 ∧
  result_agrees (Dictionary_call d c).2 (PlainMap_call m c).2.
Proof.
  intros HR. pose proof HR as (Hwf & Hnd & Hlk).
  pose proof (dict_refines_step d m HR) as HR1.
  destruct (step_spec d Hwf) as (Hwf1 & _ & Hlk1).
  destruct c as [k v|k|k|k| |]; unfold Dictionary_call, PlainMap_call;
    cbn [fst snd].
  - destruct (Dictionary_set_spec d k v Hwf) as (Hwf' & Hlk').
    split; [|done]. split; [done|]. split; [by apply NoDup_keys_set|].
    intros k'. rewrite Hlk'. destruct (decide (k = k')) as [<-|Hne].
    + by rewrite JsMap_get_set_eq.
    + by rewrite JsMap_get_set_ne, Hlk.
  - rewrite (surjective_pairing (Dictionary.get d k)). cbn [fst snd].
    rewrite Dictionary_get_fst, Dictionary_get_snd. split; [done|].
    simpl. by rewrite Hlk1, Hlk.
  - rewrite (surjective_pairing (Dictionary.delete d k)),
      (surjective_pairing (JsMap.delete m k)). cbn [fst snd].
    change (JsMap.delete m k).2 with (JsMap.has m k).
    destruct (Dictionary_delete_spec d k Hwf) as (Hwf' & Hlk' & Hres).
    split.
    + split; [done|]. split.
      * rewrite JsMap_keys_delete. by apply NoDup_filter.
      * intros k'. rewrite Hlk'. destruct (decide (k = k')) as [<-|Hne].
        -- by rewrite JsMap_get_delete_eq.
        -- by rewrite JsMap_get_delete_ne, Hlk.
    + simpl. rewrite Hres, Hlk. done.
  - rewrite (surjective_pairing (Dictionary.has d k)). cbn [fst snd].
    rewrite Dictionary_has_fst, Dictionary_has_snd. split; [done|].
    simpl. by rewrite Hlk1, Hlk.
  - rewrite (surjective_pairing (Dictionary.keys d)). cbn [fst snd].
    rewrite Dictionary_keys_fst, Dictionary_keys_snd. split; [done|].
    simpl. by apply dict_refines_keys.
  - split; [done|]. simpl. f_equal.
    rewrite Dictionary_size_keys, JsMap_size_keys.
    apply Permutation_length. by apply dict_refines_keys.
Qed.

Lemma dict_refines_calls d m cs :
  dict_refines d m →
  Forall2 result_agrees (Dictionary_calls d cs) (PlainMap_calls m cs).
Proof.
  revert d m. induction cs as [|c cs IH]; intros d m HR; simpl; [constructor|].
  destruct (dict_refines_call d m c HR) as [HR' Hres].
  destruct (Dictionary_call d c) as [d' r1], (PlainMap_call m c) as [m' r2].
  constructor; [done|]. by apply IH.
Qed.

Lemma dict_refines_new n : dict_refines (Dictionary.new (K:=K) (V:=V) n) JsMap.empty.
Proof. split; [apply dict_wf_new|]. split; [apply NoDup_nil_2|done]. Qed.
End Refinement_facts.

(** A dictionary that has started no rehash is its table [ht0]. *)
Lemma Dictionary_call_plain {K V : Type} `{EqDecision K}
    (n : nat) (m : JsMap.t K V) (c : dict_call K V) :
  (JsMap.size (PlainMap_call m c).1 ≤ 1000)%nat →
  Dictionary_call (Dictionary.mk m None (-1) n None) c
  = (Dictionary.mk (PlainMap_call m c).1 None (-1) n None, (PlainMap_call m c).2).
Proof.
  intros Hsz. set (d0 := Dictionary.mk m None (-1) n None).
  assert (Hst : Dictionary.step d0 = d0) by reflexivity.
  assert (Hr : Dictionary.rehashing_ht1 d0 = None) by reflexivity.
  destruct c as [k v|k|k|k| |]; cbn [PlainMap_call fst snd] in Hsz |- *;
    unfold Dictionary_call, Dictionary.set, Dictionary.get, Dictionary.delete,
      Dictionary.has, Dictionary.keys, Dictionary.size; cbv zeta;
    rewrite ?Hst, ?Hr; try done.
  - cbn [Dictionary.ht0 d0]. unfold d0 at 1. cbn [Dictionary.ht0].
    by rewrite bool_decide_false by lia.
Qed.

Lemma Dictionary_calls_plain {K V : Type} `{EqDecision K}
    (n : nat) (m : JsMap.t K V) (cs : list (dict_call K V)) :
  Forall (λ s, (s ≤ 1000)%nat) (PlainMap_sizes m cs) →
  Dictionary_calls (Dictionary.mk m None (-1) n None) cs = PlainMap_calls m cs.
Proof.
  revert m. induction cs as [|c cs IH]; intros m Hs; [done|].
  cbn [PlainMap_sizes Dictionary_calls PlainMap_calls] in Hs |- *.
  pose proof (Dictionary_call_plain n m c) as Hc.
  destruct (PlainMap_call m c) as [m' r]. cbn [fst snd] in Hc.
  apply Forall_cons in Hs as [Hsz Hs]. rewrite (Hc Hsz). f_equal. by apply IH.
Qed.

(** C9 (amended): for every sequence of [set], [get], [delete], [has],
    [keys] and [size] calls on a new dictionary, each result equals the
    result of the same call on one ordinary [Map], except that [keys]
    returns the same keys, each once, in an order that may differ; in
    particular [size] is the number of distinct live keys.  The order
    of [keys] is that of the [Map] too as long as the map has never
    held more than 1000 keys, which is when the first rehash starts;
    from then on it may differ, during the rehash and after it. *)
Theorem C9_dictionary_refines_map {K V : Type} `{EqDecision K}
    (n : nat) (cs : list (dict_call K V)) :
  Forall2 result_agrees
    (Dictionary_calls (Dictionary.new n) cs) (PlainMap_calls JsMap.empty cs) ∧
  (Forall (λ s, (s ≤ 1000)%nat) (PlainMap_sizes JsMap.empty cs) →
   Dictionary_calls (Dictionary.new n) cs = PlainMap_calls JsMap.empty cs).
Proof.
  split; [apply dict_refines_calls, dict_refines_new|].
  apply Dictionary_calls_plain.
Qed.

Lemma C9_dictionary_refines_map_witness :
  Forall (λ s, (s ≤ 1000)%nat) (PlainMap_sizes JsMap.empty calls_small) ∧
  Dictionary_calls (Dictionary.new 1) calls_small
  = PlainMap_calls JsMap.empty calls_small ∧
  PlainMap_calls JsMap.empty calls_small
  = [ResVoid; ResVoid; ResVoid; ResBool true; ResVoid; ResKeys [2; 3; 1]%N;
     ResValue (Some 11%N); ResBool true; ResSize 3].
Proof.
  assert (H1 : Forall (λ s, (s ≤ 1000)%nat) (PlainMap_sizes JsMap.empty calls_small))
    by (vm_compute; repeat constructor).
  assert (H2 : PlainMap_calls JsMap.empty calls_small
               = [ResVoid; ResVoid; ResVoid; ResBool true; ResVoid;
                  ResKeys [2; 3; 1]%N; ResValue (Some 11%N); ResBool true;
                  ResSize 3]) by (vm_compute; reflexivity).
  exact (conj H1 (conj (proj2 (C9_dictionary_refines_map 1 calls_small) H1) H2)).
Defined.

(** After its rehash has finished the dictionary lists the keys in the
    order in which they came into the second table: the key set during
    the rehash stands before the keys migrated after it. *)
Lemma keys_order_after_rehash :
  Dictionary.isRehashing (Dictionary_run (Dictionary.new 1) calls_rehashed) = false ∧
  first_keys_of_last (Dictionary_calls (Dictionary.new 1) calls_rehashed)
  = [0; 2000; 1]%N ∧
  first_keys_of_last (PlainMap_calls JsMap.empty calls_rehashed) = [0; 1; 2]%N.
Proof. vm_compute. done. Qed.

Lemma Dictionary_calls_1001 :
  first_key_of_last (Dictionary_calls (Dictionary.new 1) calls_1001) = Some 1%N.
Proof. vm_compute. reflexivity. Qed.

Lemma PlainMap_calls_1001 :
  first_key_of_last (PlainMap_calls JsMap.empty calls_1001) = Some 0%N.
Proof. vm_compute. reflexivity. Qed.

(** C9 as stated fails: after 1001 insertions a rehash is under way
    and [keys] lists the migrated key last, where an ordinary [Map]
    lists it first. *)
Lemma C9_keys_order_counterexample :
  ¬ (∀ cs : list (dict_call N N),
       Dictionary_calls (Dictionary.new 1) cs = PlainMap_calls JsMap.empty cs).
Proof.
  intros Hall.
  pose proof (f_equal first_key_of_last (Hall calls_1001)) as Heq.
  pose proof (eq_trans (eq_sym Dictionary_calls_1001)
                (eq_trans Heq PlainMap_calls_1001)) as Hbad.
  discriminate Hbad.
Qed.

(** Projections of updated states. *)
Ltac cache_simpl :=
  cbn [Cache.maxmemory Cache.evictionPolicy Cache.evictionSampleSize Cache.store
       Cache.ttl Cache.usage Cache.currentMemoryUsed Cache.evictionPool
       Cache.operationCount Cache.stats Cache.with_store Cache.with_ttl
       Cache.with_usage Cache.with_memory Cache.with_pool
       Cache.with_operationCount Cache.with_stats Cache.count_operation
       Cache.count_hit Cache.count_miss Cache.count_eviction
       Cache.count_expiration Cache.hits Cache.misses Cache.evictions
       Cache.expirations Cache.operations fst snd].

(** ** The internal delete *)
Section Cache_delete.
Implicit Types (c : Cache.t) (key : string).

Lemma deleteKey_store key c :
  Cache.store (Cache._deleteKey key c) =
  (Dictionary.delete (Dictionary.step (Cache.store c)) key).1.
Proof.
  unfold Cache._deleteKey.
  rewrite (surjective_pairing (Dictionary.get (Cache.store c) key)).
  by rewrite Dictionary_get_fst.
Qed.

Lemma deleteKey_ttl key c :
  Cache.ttl (Cache._deleteKey key c) = TTLManager.delete (Cache.ttl c) key.
Proof.
  unfold Cache._deleteKey.
  by rewrite (surjective_pairing (Dictionary.get (Cache.store c) key)).
Qed.

Lemma deleteKey_usage key c :
  Cache.usage (Cache._deleteKey key c) = UsageTracker.delete (Cache.usage c) key.
Proof.
  unfold Cache._deleteKey.
  by rewrite (surjective_pairing (Dictionary.get (Cache.store c) key)).
Qed.

Lemma deleteKey_memory key c :
  Cache.currentMemoryUsed (Cache._deleteKey key c) =
  match (Dictionary.get (Cache.store c) key).2 with
  | Some e => Cache.currentMemoryUsed c - memoryUsed e
  | None => Cache.currentMemoryUsed c
  end.
Proof.
  unfold Cache._deleteKey.
  rewrite (surjective_pairing (Dictionary.get (Cache.store c) key)).
  cbn [fst snd]. destruct (Dictionary.get (Cache.store c) key).2 as [e|]; [|done].
  cbn. case_bool_decide; [done|]. lia.
Qed.

Lemma deleteKey_stats key c :
  Cache.stats (Cache._deleteKey key c) = Cache.stats c.
Proof.
  unfold Cache._deleteKey.
  by rewrite (surjective_pairing (Dictionary.get (Cache.store c) key)).
Qed.

Lemma deleteKey_wf key c :
  dict_wf (Cache.store c) → dict_wf (Cache.store (Cache._deleteKey key c)).
Proof.
  intros Hwf. rewrite deleteKey_store.
  by apply Dictionary_delete_spec, step_spec.
Qed.

Lemma deleteKey_store_lookup key c k :
  dict_wf (Cache.store c) →
  store_lookup (Cache._deleteKey key c) k =
  if decide (key = k) then None else store_lookup c k.
Proof.
  intros Hwf. unfold store_lookup. rewrite deleteKey_store.
  destruct (step_spec _ Hwf) as (Hwf1 & _ & Hlk).
  destruct (Dictionary_delete_spec _ key Hwf1) as (_ & Hlk' & _).
  rewrite Hlk'. by rewrite Hlk.
Qed.

Lemma deleteKey_ttl_lookup key c k :
  ttl_lookup (Cache._deleteKey key c) k =
  if decide (key = k) then None else ttl_lookup c k.
Proof.
  unfold ttl_lookup. rewrite deleteKey_ttl. unfold TTLManager.delete.
  cbn [TTLManager.expirations]. destruct (decide (key = k)) as [<-|Hne].
  - apply JsMap_get_delete_eq.
  - by apply JsMap_get_delete_ne.
Qed.

Lemma deleteKey_usage_lookup key c k :
  usage_lookup (Cache._deleteKey key c) k =
  if decide (key = k) then None else usage_lookup c k.
Proof.
  unfold usage_lookup. rewrite deleteKey_usage. unfold UsageTracker.delete.
  cbn [UsageTracker.metadata UsageTracker.with_metadata].
  destruct (decide (key = k)) as [<-|Hne].
  - apply lookup_delete_eq.
  - by apply lookup_delete_ne.
Qed.

Lemma deleteKey_purged key c :
  dict_wf (Cache.store c) → purged (Cache._deleteKey key c) key.
Proof.
  intros Hwf. unfold purged.
  rewrite deleteKey_store_lookup, deleteKey_ttl_lookup, deleteKey_usage_lookup
    by done.
  by rewrite !decide_True.
Qed.

Lemma deleteKey_purged_other key c k :
  dict_wf (Cache.store c) → purged c k → purged (Cache._deleteKey key c) k.
Proof.
  intros Hwf (H1 & H2 & H3). unfold purged.
  rewrite deleteKey_store_lookup, deleteKey_ttl_lookup, deleteKey_usage_lookup
    by done.
  by destruct (decide (key = k)).
Qed.
End Cache_delete.

(** C10: [del] does not look at the TTL record.  For a key that has an
    entry in the dictionary and a deadline that has passed, [del]
    returns 1, removes the entry (with its TTL record and its usage
    metadata) and counts one operation and no expiration. *)
Theorem C10_del_ignores_expiry (c : Cache.t) (now : Z) (key : string)
    (e : CacheEntry) (deadline : Z) :
  dict_wf (Cache.store c) →
  store_lookup c key = Some e →
  ttl_lookup c key = Some deadline → deadline ≤ now →
  TTLManager.isExpired (Cache.ttl c) now key = true ∧
  (Cache.del key c).2 = 1 ∧
  purged (Cache.del key c).1 key ∧
  Cache.expirations (Cache.stats (Cache.del key c).1)
    = Cache.expirations (Cache.stats c) ∧
  Cache.operations (Cache.stats (Cache.del key c).1)
    = Cache.operations (Cache.stats c) + 1.
Proof.
  intros Hwf He Ht Hd. split.
  { unfold TTLManager.isExpired. unfold ttl_lookup in Ht. rewrite Ht.
    by apply bool_decide_eq_true. }
  unfold Cache.del.
  rewrite (surjective_pairing (Dictionary.has _ key)).
  rewrite Dictionary_has_fst, Dictionary_has_snd.
  cbn [Cache.store Cache.count_operation Cache.with_stats].
  destruct (step_spec _ Hwf) as (Hwf1 & _ & Hlk).
  rewrite Hlk. unfold store_lookup in He. rewrite He. cbn [fst snd].
  split; [done|]. split; [by apply deleteKey_purged|].
  by rewrite deleteKey_stats.
Qed.

Lemma C10_del_ignores_expiry_witness :
  dict_wf (Cache.store cache_k) ∧
  store_lookup cache_k "k" = Some (mkEntry (VString "v") 52) ∧
  ttl_lookup cache_k "k" = Some 10 ∧ 10 ≤ 20 ∧
  (Cache.del "k" cache_k).2 = 1 ∧
  purged (Cache.del "k" cache_k).1 "k".
Proof.
  assert (H1 : dict_wf (Cache.store cache_k))
    by (apply (bool_decide_unpack (dict_wf _)); vm_compute; exact I).
  assert (H2 : store_lookup cache_k "k" = Some (mkEntry (VString "v") 52))
    by (vm_compute; reflexivity).
  assert (H3 : ttl_lookup cache_k "k" = Some 10) by (vm_compute; reflexivity).
  assert (H4 : 10 ≤ 20) by lia.
  pose proof (C10_del_ignores_expiry cache_k 20 "k" _ 10 H1 H2 H3 H4)
    as (_ & Hr & Hp & _).
  exact (conj H1 (conj H2 (conj H3 (conj H4 (conj Hr Hp))))).
Defined.

(** ** Passive expiration *)
Section Cache_expiry.
Implicit Types (c : Cache.t) (key : string).

Lemma visit_expirations m now key n :
  TTLManager.expirations (TTLManager.visit m now key n).1 = TTLManager.expirations m.
Proof. unfold TTLManager.visit. by destruct (TTLManager.sampled_expired _ _ _). Qed.

Lemma sampleLoop_expirations n m now it cnt :
  TTLManager.expirations (TTLManager.sampleLoop n m now it cnt).1
  = TTLManager.expirations m.
Proof.
  revert m it cnt. induction n as [|n IH]; intros m it cnt; [done|].
  cbn [TTLManager.sampleLoop].
  destruct (JsMap.next (TTLManager.expirations m) it) as [[[k ?] it']|].
  - pose proof (visit_expirations m now k cnt) as Hv.
    destruct (TTLManager.visit m now k cnt) as [m' c']. rewrite IH. apply Hv.
  - destruct (JsMap.next (TTLManager.expirations m) 0) as [[[k ?] it']|]; [|done].
    pose proof (visit_expirations m now k cnt) as Hv.
    destruct (TTLManager.visit m now k cnt) as [m' c']. rewrite IH. apply Hv.
Qed.

Lemma onExpire_record_or_purged key deadline k c :
  record_or_purged key deadline c →
  record_or_purged key deadline (Cache.onExpire k c).
Proof.
  intros [Hwf Hc]. unfold Cache.onExpire. split.
  { by apply (deleteKey_wf k c). }
  destruct (decide (k = key)) as [->|Hne].
  - right. by apply (deleteKey_purged key c).
  - destruct Hc as [Ht|Hp].
    + left. change (ttl_lookup (Cache._deleteKey k c) key = Some deadline).
      by rewrite deleteKey_ttl_lookup, decide_False.
    + right. by apply (deleteKey_purged_other k c key).
Qed.

Lemma flush_record_or_purged key deadline c :
  record_or_purged key deadline c →
  record_or_purged key deadline
    (TTLManager._flushPendingDeletes Cache.ttl Cache.with_ttl Cache.onExpire c).
Proof.
  intros Hc. unfold TTLManager._flushPendingDeletes.
  generalize (TTLManager.pendingDeletes (Cache.ttl c)). intros l.
  assert (Hf : record_or_purged key deadline
                 (foldl (λ w k, Cache.onExpire k w) c l)).
  { revert c Hc. induction l as [|k l IH]; intros c Hc; [done|].
    cbn [foldl]. by apply IH, onExpire_record_or_purged. }
  destruct Hf as [Hwf Hf]. split; [done|]. exact Hf.
Qed.

Lemma sampleAndPurge_record_or_purged key deadline k now c :
  record_or_purged key deadline c →
  record_or_purged key deadline
    (TTLManager.sampleAndPurge Cache.ttl Cache.with_ttl k Cache.onExpire now c).1.
Proof.
  intros Hc. unfold TTLManager.sampleAndPurge.
  case_bool_decide; [done|].
  pose proof (sampleLoop_expirations (Z.to_nat k) (Cache.ttl c) now
                (default 0%nat (TTLManager.keyIterator (Cache.ttl c))) 0) as He.
  destruct (TTLManager.sampleLoop _ _ _ _ _) as [m' cnt]. cbn [fst] in He.
  assert (Hc' : record_or_purged key deadline (Cache.with_ttl m' c)).
  { destruct Hc as [Hwf Hc]. split; [done|].
    unfold purged, ttl_lookup, store_lookup, usage_lookup in *.
    cbn [Cache.ttl Cache.with_ttl Cache.store Cache.usage]. by rewrite He. }
  case_bool_decide; cbn [fst]; [|done]. by apply flush_record_or_purged.
Qed.

Lemma checkExpired_spec now key deadline c :
  dict_wf (Cache.store c) → ttl_lookup c key = Some deadline → deadline ≤ now →
  dict_wf (Cache.store (Cache._checkExpired now key c).1) ∧
  purged (Cache._checkExpired now key c).1 key.
Proof.
  intros Hwf Ht Hd. unfold Cache._checkExpired.
  set (c1 := Cache.with_operationCount _ c).
  assert (H1 : record_or_purged key deadline c1) by (split; [done|by left]).
  set (c2 := if bool_decide _ then _ else c1).
  assert (H2 : record_or_purged key deadline c2).
  { unfold c2. case_bool_decide; [|done].
    by apply sampleAndPurge_record_or_purged. }
  clearbody c2. clear c1 H1. destruct H2 as [Hwf2 [Ht2|Hp2]].
  - unfold TTLManager.isExpired. unfold ttl_lookup in Ht2. rewrite Ht2.
    rewrite bool_decide_true by done. cbn [fst].
    split; [by apply (deleteKey_wf key c2)|by apply (deleteKey_purged key c2)].
  - unfold TTLManager.isExpired. destruct Hp2 as (Hs & Ht2 & Hu).
    unfold ttl_lookup in Ht2. rewrite Ht2. done.
Qed.

(** A key with a passed deadline: [_getEntry] finds nothing, asks for
    no draw, and leaves nothing of the key. *)
Lemma getEntry_expired now tp key deadline c :
  dict_wf (Cache.store c) → ttl_lookup c key = Some deadline → deadline ≤ now →
  ∃ c', Cache._getEntry now tp key c = Some (c', tp, None) ∧
        dict_wf (Cache.store c') ∧ purged c' key.
Proof.
  intros Hwf Ht Hd.
  destruct (checkExpired_spec now key deadline c Hwf Ht Hd) as [Hwf1 Hp].
  unfold Cache._getEntry.
  destruct (Cache._checkExpired now key c) as [c1 [|]]; cbn [fst] in *.
  { by exists c1. }
  rewrite (surjective_pairing (Dictionary.get (Cache.store c1) key)).
  rewrite Dictionary_get_fst, Dictionary_get_snd.
  destruct (step_spec _ Hwf1) as (Hwf2 & _ & Hlk).
  destruct Hp as (Hs & Ht1 & Hu). unfold store_lookup in Hs.
  rewrite Hlk, Hs. eexists. split; [done|]. split; [done|].
  unfold purged, store_lookup. cbn [Cache.store Cache.with_store].
  by rewrite Hlk.
Qed.
End Cache_expiry.

(** C1: a key whose TTL deadline has passed is not observed by any read.
    [get], [zscore], [zrank], [zrangeByScore] and [smembers] return the
    result of a missing key ([null] or the empty list), and when they
    return the entry, its TTL record and its usage metadata are gone. *)
Theorem C1_expired_key_not_observed (c : Cache.t) (now : Z) (tp : tape)
    (key : string) (deadline : Z) :
  dict_wf (Cache.store c) → ttl_lookup c key = Some deadline → deadline ≤ now →
  (∃ c', Cache.get now tp key c = Some (c', tp, Ok None) ∧ purged c' key) ∧
  (∀ member, ∃ c',
     Cache.zscore now tp key member c = Some (c', tp, Ok None) ∧ purged c' key) ∧
  (∀ member, ∃ c',
     Cache.zrank now tp key member c = Some (c', tp, Ok None) ∧ purged c' key) ∧
  (∀ min max limit, ∃ c',
     Cache.zrangeByScore now tp key min max limit c = Some (c', tp, Ok [])
     ∧ purged c' key) ∧
  (∃ c', Cache.smembers now tp key c = Some (c', tp, Ok []) ∧ purged c' key).
Proof.
  intros Hwf Ht Hd.
  destruct (getEntry_expired now tp key deadline (Cache.count_operation c))
    as (c' & Hg & _ & Hp); [done..|].
  unfold Cache.get, Cache.zscore, Cache.zrank, Cache.zrangeByScore, Cache.smembers.
  rewrite Hg. cbn [mbind option_bind].
  repeat split; intros; by exists (Cache.count_miss c').
Qed.

Lemma C1_expired_key_not_observed_witness :
  dict_wf (Cache.store cache_k) ∧ ttl_lookup cache_k "k" = Some 10 ∧ 10 ≤ 20 ∧
  ∃ c', Cache.get 20 [] "k" cache_k = Some (c', [], Ok None) ∧ purged c' "k".
Proof.
  assert (H1 : dict_wf (Cache.store cache_k))
    by (apply (bool_decide_unpack (dict_wf _)); vm_compute; exact I).
  assert (H3 : ttl_lookup cache_k "k" = Some 10) by (vm_compute; reflexivity).
  assert (H4 : 10 ≤ 20) by lia.
  pose proof (C1_expired_key_not_observed cache_k 20 [] "k" 10 H1 H3 H4)
    as (Hget & _).
  exact (conj H1 (conj H3 (conj H4 Hget))).
Defined.

(** ** The memory counter and the eviction loop on two inputs *)

(** C4 fails on the code: [zrem] lowers the counter by the size of the
    member, which can exceed what the creation of the collection added,
    and [_deleteKey] subtracts without the [Math.max(0, ...)] that
    [zrem] has.  After [set("a","b")], [zadd("z",1,"mmmm")],
    [zrem("z","mmmm")] and [del("a")] the counter is -6. *)
Theorem C4_memory_counter_negative :
  Cache.currentMemoryUsed <$> cache_after_zrem_del = Some (-6).
Proof. vm_compute. reflexivity. Qed.

(** C3 fails on the code: [if (victim)] takes the empty string for a
    missing victim.  With [maxmemory = 10], 50 bytes in use and the
    empty key as only entry, [set("b","y")] runs the eviction loop,
    leaves it at once and evicts nothing. *)
Theorem C3_empty_key_blocks_eviction :
  Cache.maxmemory cache_empty_key < Cache.currentMemoryUsed cache_empty_key ∧
  Dictionary.size (Cache.store cache_empty_key) = 1%nat ∧
  ∃ c', Cache.set 1 [(1 # 2)%Q] "b" "y" None cache_empty_key = Some (c', []) ∧
        Cache.evictions (Cache.stats c') = 0 ∧
        Dictionary.size (Cache.store c') = 2%nat ∧
        Cache.currentMemoryUsed c' = 102.
Proof.
  split; [by vm_compute|]. split; [by vm_compute|].
  eexists. split; [vm_compute; reflexivity|]. by vm_compute.
Qed.

(** ** Calls that fail with WRONGTYPE *)
Section Cache_wrongtype.
Implicit Types (c : Cache.t) (key : string) (e : CacheEntry).

Lemma checkExpired_live now key c :
  TTLManager.isExpired (Cache.ttl c) now key = false →
  (Cache.operationCount c + 1) `mod` 100 ≠ 0 →
  Cache._checkExpired now key c =
  (Cache.with_operationCount (Cache.operationCount c + 1) c, false).
Proof.
  intros Hex Hmod. unfold Cache._checkExpired, Cache.LAZY_EXPIRE_FREQ.
  cbn [Cache.operationCount Cache.with_operationCount].
  rewrite bool_decide_false by done.
  cbn [Cache.ttl Cache.with_operationCount]. by rewrite Hex.
Qed.

Lemma getEntry_live now tp key e c u tp' :
  dict_wf (Cache.store c) → store_lookup c key = Some e →
  TTLManager.isExpired (Cache.ttl c) now key = false →
  (Cache.operationCount c + 1) `mod` 100 ≠ 0 →
  UsageTracker.touch (Cache.usage c) now tp key = Some (u, tp') →
  Cache._getEntry now tp key (Cache.count_operation c) =
  Some (after_read_prelude c u, tp', Some e).
Proof.
  intros Hwf He Hex Hmod Htouch. unfold Cache._getEntry.
  rewrite (checkExpired_live now key (Cache.count_operation c)) by done.
  cbn [Cache.store Cache.with_operationCount Cache.count_operation
         Cache.with_stats Cache.operationCount].
  rewrite (surjective_pairing (Dictionary.get (Cache.store c) key)).
  rewrite Dictionary_get_fst, Dictionary_get_snd.
  destruct (step_spec _ Hwf) as (_ & _ & Hlk). unfold store_lookup in He.
  rewrite Hlk, He.
  cache_simpl. rewrite Htouch. done.
Qed.

Lemma contents_kept_read c u :
  dict_wf (Cache.store c) → contents_kept c (after_read_prelude c u).
Proof.
  intros Hwf. destruct (step_spec _ Hwf) as (_ & _ & Hlk).
  unfold contents_kept, store_lookup. by repeat split.
Qed.

Lemma contents_kept_write c :
  dict_wf (Cache.store c) → contents_kept c (after_write_prelude c).
Proof.
  intros Hwf. destruct (step_spec _ Hwf) as (_ & _ & Hlk).
  unfold contents_kept, store_lookup. by repeat split.
Qed.

Lemma write_prelude now tp key e c :
  dict_wf (Cache.store c) → store_lookup c key = Some e →
  TTLManager.isExpired (Cache.ttl c) now key = false →
  (Cache.operationCount c + 1) `mod` 100 ≠ 0 →
  Cache.currentMemoryUsed c ≤ Cache.maxmemory c →
  Cache._checkExpired now key (Cache.count_operation c)
    = (Cache.with_operationCount (Cache.operationCount c + 1)
         (Cache.count_operation c), false) ∧
  Cache._evictIfNeeded tp
    (Cache.with_operationCount (Cache.operationCount c + 1)
       (Cache.count_operation c))
    = Some (Cache.with_operationCount (Cache.operationCount c + 1)
              (Cache.count_operation c), tp) ∧
  Dictionary.get (Cache.store c) key = (Dictionary.step (Cache.store c), Some e).
Proof.
  intros Hwf He Hex Hmod Hmem.
  split; [exact (checkExpired_live now key (Cache.count_operation c) Hex Hmod)|].
  split.
  - unfold Cache._evictIfNeeded.
    cbn [Cache.currentMemoryUsed Cache.maxmemory Cache.with_operationCount
           Cache.count_operation Cache.with_stats].
    by rewrite bool_decide_true.
  - rewrite (surjective_pairing (Dictionary.get (Cache.store c) key)).
    rewrite Dictionary_get_fst, Dictionary_get_snd.
    destruct (step_spec _ Hwf) as (_ & _ & Hlk). unfold store_lookup in He.
    by rewrite Hlk, He.
Qed.
End Cache_wrongtype.

(** C2 (amended): on an existing, unexpired entry of another shape,
    when no lazy purge is due in the call and, for [zadd] and [sadd],
    the cache is within its budget, the call fails with WRONGTYPE and
    leaves the entries, the TTL records, the memory counter and the
    eviction pool as they were and evicts nothing; it is counted in
    [operations], and a failing read has touched the usage metadata of
    its key. *)
Theorem C2_wrongtype_keeps_contents (c : Cache.t) (now : Z) (tp : tape)
    (key : string) (e : CacheEntry) :
  dict_wf (Cache.store c) → store_lookup c key = Some e →
  TTLManager.isExpired (Cache.ttl c) now key = false →
  (Cache.operationCount c + 1) `mod` 100 ≠ 0 →
  (∀ u tp', UsageTracker.touch (Cache.usage c) now tp key = Some (u, tp') →
     let c' := after_read_prelude c u in
     contents_kept c c' ∧ Cache.usage c' = u ∧
     (entry_type e ≠ type_string →
        Cache.get now tp key c = Some (c', tp', WRONGTYPE)) ∧
     (entry_type e ≠ type_zset → ∀ member min max limit,
        Cache.zrem now tp key member c = Some (c', tp', WRONGTYPE) ∧
        Cache.zscore now tp key member c = Some (c', tp', WRONGTYPE) ∧
        Cache.zrank now tp key member c = Some (c', tp', WRONGTYPE) ∧
        Cache.zrangeByScore now tp key min max limit c = Some (c', tp', WRONGTYPE)) ∧
     (entry_type e ≠ type_set →
        Cache.smembers now tp key c = Some (c', tp', WRONGTYPE))) ∧
  (Cache.currentMemoryUsed c ≤ Cache.maxmemory c →
     let c' := after_write_prelude c in
     contents_kept c c' ∧ Cache.usage c' = Cache.usage c ∧
     (entry_type e ≠ type_zset → ∀ score member,
        Cache.zadd now tp key score member c = Some (c', tp, WRONGTYPE)) ∧
     (entry_type e ≠ type_set → ∀ members,
        Cache.sadd now tp key members c = Some (c', tp, WRONGTYPE))).
Proof.
  intros Hwf He Hex Hmod. split.
  - intros u tp' Htouch c'.
    pose proof (getEntry_live now tp key e c u tp' Hwf He Hex Hmod Htouch) as Hg.
    split; [by apply contents_kept_read|]. split; [done|].
    unfold Cache.get, Cache.zrem, Cache.zscore, Cache.zrank, Cache.zrangeByScore,
      Cache.smembers. rewrite Hg. cbn [mbind option_bind].
    unfold entry_type. destruct (value e); repeat split; intros; done.
  - intros Hmem c'.
    destruct (write_prelude now tp key e c Hwf He Hex Hmod Hmem) as (H1 & H2 & H3).
    split; [by apply contents_kept_write|]. split; [done|].
    unfold Cache.zadd, Cache.sadd. rewrite H1, H2. cbn [mbind option_bind].
    cbn [Cache.store Cache.with_operationCount Cache.count_operation
           Cache.with_stats].
    rewrite H3. unfold entry_type.
    split; intros Hty; intros.
    + by destruct (value e).
    + destruct (decide _) as [Hd|Hd]; [|done]. unfold entry_type in Hd.
      by destruct (value e).
Qed.

Lemma C2_wrongtype_keeps_contents_witness :
  dict_wf (Cache.store cache_z) ∧ store_lookup cache_z "z" = Some cache_z_entry ∧
  TTLManager.isExpired (Cache.ttl cache_z) 5 "z" = false ∧
  (Cache.operationCount cache_z + 1) `mod` 100 ≠ 0 ∧
  ∃ u, UsageTracker.touch (Cache.usage cache_z) 5 [] "z" = Some (u, []) ∧
       Cache.get 5 [] "z" cache_z = Some (after_read_prelude cache_z u, [], WRONGTYPE) ∧
       contents_kept cache_z (after_read_prelude cache_z u).
Proof.
  assert (H1 : dict_wf (Cache.store cache_z))
    by (apply (bool_decide_unpack (dict_wf _)); vm_compute; exact I).
  assert (H2 : store_lookup cache_z "z" = Some cache_z_entry)
    by (vm_compute; reflexivity).
  assert (H3 : TTLManager.isExpired (Cache.ttl cache_z) 5 "z" = false)
    by (vm_compute; reflexivity).
  assert (H4 : (Cache.operationCount cache_z + 1) `mod` 100 ≠ 0)
    by (vm_compute; discriminate).
  destruct (UsageTracker.touch (Cache.usage cache_z) 5 [] "z") as [[u tp']|] eqn:Ht;
    [|vm_compute in Ht; discriminate Ht].
  assert (tp' = []) as -> by (vm_compute in Ht; congruence).
  destruct (C2_wrongtype_keeps_contents cache_z 5 [] "z" cache_z_entry H1 H2 H3 H4)
    as [Hread _].
  destruct (Hread u [] Ht) as (Hk & _ & Hget & _).
  refine (conj H1 (conj H2 (conj H3 (conj H4 _)))).
  exists u. split; [done|]. split; [|done]. apply Hget. by vm_compute.
Defined.

(** C2 as stated fails: [get] on an ordered collection throws WRONGTYPE
    after [_getEntry] has touched the key, so the usage metadata of the
    key has changed. *)
Lemma C2_wrongtype_touches_usage :
  ∃ c', Cache.get 5 [] "z" cache_z = Some (c', [], WRONGTYPE) ∧
        usage_lookup cache_z "z" = Some (mkMeta 0 0 0) ∧
        usage_lookup c' "z" = Some (mkMeta 5 0 0).
Proof. eexists. split; [vm_compute; reflexivity|]. by vm_compute. Qed.

(** Why [zadd] and [sadd] need the cache within its budget: they evict
    before they look the key up.  [cache_full] is over its budget and
    holds the string "a"; [zadd("a", 1, "m")] evicts "a", makes a new
    sorted set and returns 1. *)
Lemma zadd_evicts_before_type_check :
  store_lookup cache_full "a" = Some (mkEntry (VString "x") 52) ∧
  TTLManager.isExpired (Cache.ttl cache_full) 2 "a" = false ∧
  Cache.maxmemory cache_full < Cache.currentMemoryUsed cache_full ∧
  ∃ c', Cache.zadd 2 (tape_sample ++ [(1 # 2)%Q]) "a" 1 "m" cache_full
        = Some (c', [], Ok 1) ∧
        Cache.evictions (Cache.stats c') = 1 ∧
        (entry_type <$> store_lookup c' "a") = Some type_zset.
Proof.
  split; [vm_compute; reflexivity|]. split; [vm_compute; reflexivity|].
  split; [vm_compute; reflexivity|].
  eexists. split; [vm_compute; reflexivity|]. by vm_compute.
Qed.

(** ** The active expiration loop *)
Section tick.
Context {W : Type} (ttl : W → TTLManager.t) (with_ttl : TTLManager.t → W → W).
Context (onExpire : string → W → W).

Lemma tickLoop_unfold fuel sampleSize maxRounds now rounds w :
  TTLManager.tickLoop ttl with_ttl fuel sampleSize maxRounds onExpire now rounds w
  = match TTLManager.round ttl with_ttl sampleSize onExpire now w with
    | (w', None) => (w', rounds)
    | (w', Some r) =>
        if TTLManager.continue maxRounds (rounds + 1) r then
          match fuel with
          | O => (w', rounds + 1)
          | S fuel' =>
              TTLManager.tickLoop ttl with_ttl fuel' sampleSize maxRounds
                onExpire now (rounds + 1) w'
          end
        else (w', rounds + 1)
    end.
Proof. by destruct fuel. Qed.

(** The fuel of [tickLoop] is never used up: a further round needs
    [rounds < maxRounds]. *)
Lemma tickLoop_fuel fuel1 fuel2 sampleSize maxRounds now rounds w :
  (Z.to_nat (maxRounds - rounds - 1) ≤ fuel1)%nat →
  (Z.to_nat (maxRounds - rounds - 1) ≤ fuel2)%nat →
  TTLManager.tickLoop ttl with_ttl fuel1 sampleSize maxRounds onExpire now rounds w
  = TTLManager.tickLoop ttl with_ttl fuel2 sampleSize maxRounds onExpire now rounds w.
Proof.
  revert fuel2 rounds w. induction fuel1 as [|fuel1 IH]; intros fuel2 rounds w H1 H2.
  all: rewrite (tickLoop_unfold fuel2), tickLoop_unfold.
  all: destruct (TTLManager.round _ _ _ _ _ _) as [w' [r|]]; [|done].
  all: destruct (TTLManager.continue maxRounds (rounds + 1) r) eqn:Hc; [|done].
  all: unfold TTLManager.continue in Hc; apply andb_true_iff in Hc as [_ Hc].
  all: apply bool_decide_eq_true in Hc.
  - lia.
  - destruct fuel2 as [|fuel2]; [lia|]. apply IH; lia.
Qed.

(** A tick runs at least one round when there is a key to sample, and
    no more than [maxRounds] rounds beyond that. *)
Lemma tickLoop_rounds fuel sampleSize maxRounds now rounds w :
  rounds ≤ (TTLManager.tickLoop ttl with_ttl fuel sampleSize maxRounds
              onExpire now rounds w).2
         ≤ Z.max (rounds + 1) maxRounds.
Proof.
  revert rounds w. induction fuel as [|fuel IH]; intros rounds w;
    cbn [TTLManager.tickLoop];
    destruct (TTLManager.round _ _ _ _ _ _) as [w' [r|]]; cbn [snd]; try lia.
  - destruct (TTLManager.continue _ _ _); cbn [snd]; lia.
  - destruct (TTLManager.continue maxRounds (rounds + 1) r) eqn:Hc; cbn [snd]; [|lia].
    unfold TTLManager.continue in Hc. apply andb_true_iff in Hc as [_ Hc].
    apply bool_decide_eq_true in Hc.
    specialize (IH (rounds + 1) w'). lia.
Qed.
End tick.

(** C8 (amended): the cache starts the loop with a period of 200 ms, a
    sample size of 10 and at most 2 rounds.  A tick samples
    [min(10, number of TTL records)] keys, and runs a second round only
    when the first found more than a quarter of its sample expired. *)
Theorem C8_cache_active_expiration (c : Cache.t) (now : Z) :
  TTLManager.interval (Cache.ttl c) = Some (TTLManager.mkTimer 200 10 2) →
  Cache.activeExpirationTick now c =
    let sampled1 := Z.min 10 (Z.of_nat (TTLManager.size (Cache.ttl c))) in
    if bool_decide (sampled1 = 0) then (c, 0)
    else
      let '(c1, expired1) :=
        TTLManager.sampleAndPurge Cache.ttl Cache.with_ttl sampled1
          Cache.onExpire now c in
      if bool_decide (sampled1 < 4 * expired1) then
        let sampled2 := Z.min 10 (Z.of_nat (TTLManager.size (Cache.ttl c1))) in
        if bool_decide (sampled2 = 0) then (c1, 1)
        else
          ((TTLManager.sampleAndPurge Cache.ttl Cache.with_ttl sampled2
              Cache.onExpire now c1).1, 2)
      else (c1, 1).
Proof.
  intros Hi. unfold Cache.activeExpirationTick, TTLManager.tick. rewrite Hi.
  cbn [TTLManager.maxRounds TTLManager.sampleSize].
  change (Z.to_nat 2) with 2%nat. cbn [TTLManager.tickLoop].
  unfold TTLManager.round, TTLManager.size. cbv zeta.
  case_bool_decide; [done|].
  destruct (TTLManager.sampleAndPurge _ _ _ _ _ c) as [c1 expired1].
  unfold TTLManager.continue. cbn [fst snd].
  case_bool_decide; cbn [andb]; [|done].
  rewrite bool_decide_true by lia.
  case_bool_decide; [done|].
  destruct (TTLManager.sampleAndPurge _ _ _ _ _ c1) as [c2 expired2].
  cbn [fst snd].
  rewrite (bool_decide_false (0 + 1 + 1 < 2)) by lia. by rewrite andb_false_r.
Qed.

Lemma C8_cache_active_expiration_witness :
  TTLManager.interval (Cache.ttl cache_k) = Some (TTLManager.mkTimer 200 10 2) ∧
  Cache.currentMemoryUsed (Cache.activeExpirationTick 20 cache_k).1 = 52 ∧
  (Cache.activeExpirationTick 20 cache_k).2 = 2.
Proof.
  assert (H1 : TTLManager.interval (Cache.ttl cache_k)
               = Some (TTLManager.mkTimer 200 10 2)) by (vm_compute; reflexivity).
  rewrite (C8_cache_active_expiration cache_k 20 H1).
  split; [done|]. by vm_compute.
Defined.

(** The timer of every cache. *)
Lemma Cache_new_timer (o : CacheOptions) :
  TTLManager.interval (Cache.ttl (Cache.new o))
  = Some (TTLManager.mkTimer 200 10 2).
Proof. done. Qed.

(** C8 as stated fails for the defaults: called without arguments, the
    TTL manager starts its loop with a period of 100 ms, a sample size
    of 20 and 4 rounds. *)
Lemma C8_ttl_manager_defaults :
  TTLManager.interval
    (TTLManager.startActiveExpiration id (λ m _, m) None None None TTLManager.new)
  = Some (TTLManager.mkTimer 100 20 4).
Proof. reflexivity. Qed.

(** ** The arena of the skip list: reads after writes *)
Section heap.
Implicit Types (h : list SkipList.SkipListNode) (x y i j : nat).

Lemma same_shape_refl h : same_shape h h.
Proof. by split. Qed.

Lemma same_shape_trans h1 h2 h3 :
  same_shape h1 h2 → same_shape h2 h3 → same_shape h1 h3.
Proof.
  intros [Hl1 Hs1] [Hl2 Hs2]. split; [congruence|].
  intros x. by rewrite Hs2, Hs1.
Qed.

Lemma same_shape_tallb h h' i x : same_shape h h' → tallb h' i x = tallb h i x.
Proof.
  intros [_ Hs]. unfold tallb. specialize (Hs x). unfold shape in Hs.
  destruct (h' !! x) as [n'|], (h !! x) as [n|]; cbn in Hs; try done.
  assert (Hl : SkipList.level n' = SkipList.level n) by congruence.
  by rewrite Hl.
Qed.

Lemma same_shape_key_of h h' x : same_shape h h' → key_of h' x = key_of h x.
Proof.
  intros [_ Hs]. unfold key_of. specialize (Hs x). unfold shape in Hs.
  destruct (h' !! x) as [n'|], (h !! x) as [n|]; cbn in Hs; try done.
  congruence.
Qed.

Lemma same_shape_node_ok h h' (lv : nat) x :
  same_shape h h' → node_ok h lv x → node_ok h' lv x.
Proof.
  intros [_ Hs] (n & Hn & Hl & Hf & Hp). specialize (Hs x). rewrite Hn in Hs.
  destruct (h' !! x) as [n'|] eqn:Hn'; [|done]. unfold shape in Hs. cbn in Hs.
  assert (SkipList.level n' = SkipList.level n) by congruence.
  assert (length (SkipList.forward n') = length (SkipList.forward n)) by congruence.
  assert (length (SkipList.span n') = length (SkipList.span n)) by congruence.
  exists n'. repeat split; congruence || lia.
Qed.

Lemma same_shape_next_tall h h' i l :
  same_shape h h' → next_tall h' i l = next_tall h i l.
Proof.
  intros Hs. induction l as [|y l IH]; [done|]. cbn [next_tall].
  by rewrite (same_shape_tallb h h'), IH.
Qed.

(** [set_fwd] *)
Lemma set_fwd_is_Some h x i v n :
  h !! x = Some n → (i < length (SkipList.forward n))%nat →
  is_Some (SkipList.set_fwd h x i v).
Proof.
  intros Hn Hi. unfold SkipList.set_fwd. rewrite Hn. cbn.
  rewrite bool_decide_true by done. by eexists.
Qed.

Lemma set_fwd_spec h x i v h' :
  SkipList.set_fwd h x i v = Some h' →
  same_shape h h' ∧
  (∀ y j, SkipList.fwd h' y j =
          if decide (y = x ∧ j = i) then v else SkipList.fwd h y j) ∧
  (∀ y j, SkipList.spn h' y j = SkipList.spn h y j).
Proof.
  unfold SkipList.set_fwd. destruct (h !! x) as [n|] eqn:Hn; [|done]. cbn.
  case_bool_decide as Hi; [|done]. intros [= <-].
  pose proof (lookup_lt_Some _ _ _ Hn) as Hx. split; [|split].
  - split; [by rewrite length_insert|]. intros y.
    destruct (decide (y = x)) as [->|Hne].
    + rewrite list_lookup_insert_eq by done. rewrite Hn. cbn. unfold shape. cbn.
      by rewrite length_insert.
    + by rewrite list_lookup_insert_ne.
  - intros y j. unfold SkipList.fwd. destruct (decide (y = x)) as [->|Hne].
    + rewrite list_lookup_insert_eq by done. rewrite Hn. cbn.
      destruct (decide (j = i)) as [->|Hne].
      * rewrite decide_True by done. by rewrite list_lookup_insert_eq.
      * rewrite decide_False by (intros [? ?]; done). by rewrite list_lookup_insert_ne.
    + rewrite list_lookup_insert_ne by done. by rewrite decide_False by (intros [? ?]; done).
  - intros y j. unfold SkipList.spn. destruct (decide (y = x)) as [->|Hne].
    + rewrite list_lookup_insert_eq by done. by rewrite Hn.
    + by rewrite list_lookup_insert_ne.
Qed.

(** [set_spn] *)
Lemma set_spn_is_Some h x i v n :
  h !! x = Some n → (i < length (SkipList.span n))%nat →
  is_Some (SkipList.set_spn h x i v).
Proof.
  intros Hn Hi. unfold SkipList.set_spn. rewrite Hn. cbn.
  rewrite bool_decide_true by done. by eexists.
Qed.

Lemma set_spn_spec h x i v h' :
  SkipList.set_spn h x i v = Some h' →
  same_shape h h' ∧
  (∀ y j, SkipList.fwd h' y j = SkipList.fwd h y j) ∧
  (∀ y j, SkipList.spn h' y j =
          if decide (y = x ∧ j = i) then Some v else SkipList.spn h y j).
Proof.
  unfold SkipList.set_spn. destruct (h !! x) as [n|] eqn:Hn; [|done]. cbn.
  case_bool_decide as Hi; [|done]. intros [= <-].
  pose proof (lookup_lt_Some _ _ _ Hn) as Hx. split; [|split].
  - split; [by rewrite length_insert|]. intros y.
    destruct (decide (y = x)) as [->|Hne].
    + rewrite list_lookup_insert_eq by done. rewrite Hn. cbn. unfold shape. cbn.
      by rewrite length_insert.
    + by rewrite list_lookup_insert_ne.
  - intros y j. unfold SkipList.fwd. destruct (decide (y = x)) as [->|Hne].
    + rewrite list_lookup_insert_eq by done. by rewrite Hn.
    + by rewrite list_lookup_insert_ne.
  - intros y j. unfold SkipList.spn. destruct (decide (y = x)) as [->|Hne].
    + rewrite list_lookup_insert_eq by done. rewrite Hn. cbn.
      destruct (decide (j = i)) as [->|Hne].
      * rewrite decide_True by done. by rewrite list_lookup_insert_eq.
      * rewrite decide_False by (intros [? ?]; done). by rewrite list_lookup_insert_ne.
    + rewrite list_lookup_insert_ne by done. by rewrite decide_False by (intros [? ?]; done).
Qed.

(** [set_backward] *)
Lemma set_backward_is_Some h x v n :
  h !! x = Some n → is_Some (SkipList.set_backward h x v).
Proof. intros Hn. unfold SkipList.set_backward. rewrite Hn. by eexists. Qed.

Lemma set_backward_spec h x v h' :
  SkipList.set_backward h x v = Some h' →
  same_shape h h' ∧
  (∀ y j, SkipList.fwd h' y j = SkipList.fwd h y j) ∧
  (∀ y j, SkipList.spn h' y j = SkipList.spn h y j).
Proof.
  unfold SkipList.set_backward. destruct (h !! x) as [n|] eqn:Hn; [|done]. cbn.
  intros [= <-]. pose proof (lookup_lt_Some _ _ _ Hn) as Hx. split; [|split].
  - split; [by rewrite length_insert|]. intros y.
    destruct (decide (y = x)) as [->|Hne].
    + rewrite list_lookup_insert_eq by done. by rewrite Hn.
    + by rewrite list_lookup_insert_ne.
  - intros y j. unfold SkipList.fwd. destruct (decide (y = x)) as [->|Hne].
    + rewrite list_lookup_insert_eq by done. by rewrite Hn.
    + by rewrite list_lookup_insert_ne.
  - intros y j. unfold SkipList.spn. destruct (decide (y = x)) as [->|Hne].
    + rewrite list_lookup_insert_eq by done. by rewrite Hn.
    + by rewrite list_lookup_insert_ne.
Qed.

(** A new node at the end of the arena. *)
Lemma alloc_lookup_old h n x : (x < length h)%nat → (h ++ [n]) !! x = h !! x.
Proof. intros. by rewrite lookup_app_l. Qed.

Lemma alloc_lookup_new h n : (h ++ [n]) !! length h = Some n.
Proof. by rewrite list_lookup_middle. Qed.

Lemma alloc_fwd_old h n x i :
  (x < length h)%nat → SkipList.fwd (h ++ [n]) x i = SkipList.fwd h x i.
Proof. intros. unfold SkipList.fwd. by rewrite alloc_lookup_old. Qed.

Lemma alloc_spn_old h n x i :
  (x < length h)%nat → SkipList.spn (h ++ [n]) x i = SkipList.spn h x i.
Proof. intros. unfold SkipList.spn. by rewrite alloc_lookup_old. Qed.

Lemma alloc_fwd_new h s m l i :
  SkipList.fwd (h ++ [SkipList.newNode s m l]) (length h) i = None.
Proof.
  unfold SkipList.fwd. rewrite alloc_lookup_new. cbn.
  destruct (replicate l None !! i) as [o|] eqn:Hr; [|done].
  apply lookup_replicate in Hr as [-> _]. done.
Qed.

Lemma alloc_tallb_old h n i x :
  (x < length h)%nat → tallb (h ++ [n]) i x = tallb h i x.
Proof. intros. unfold tallb. by rewrite alloc_lookup_old. Qed.

Lemma alloc_key_of_old h n x :
  (x < length h)%nat → key_of (h ++ [n]) x = key_of h x.
Proof. intros. unfold key_of. by rewrite alloc_lookup_old. Qed.
End heap.

(** ** The links of one level *)
Section levels.
Implicit Types (h : list SkipList.SkipListNode) (x y u i : nat) (l a b r : list nat).

Lemma next_tall_app h i a b :
  next_tall h i (a ++ b) =
  match next_tall h i a with
  | Some r => Some r
  | None => prod_map id (plus (length a)) <$> next_tall h i b
  end.
Proof.
  induction a as [|y a IH]; cbn [next_tall app length].
  - destruct (next_tall h i b) as [[? ?]|]; done.
  - destruct (tallb h i y); [done|]. rewrite IH.
    destruct (next_tall h i a) as [[? ?]|]; [done|].
    destruct (next_tall h i b) as [[? ?]|]; done.
Qed.

Lemma next_tall_None h i l :
  next_tall h i l = None ↔ Forall (λ y, tallb h i y = false) l.
Proof.
  induction l as [|y l IH]; cbn [next_tall].
  - split; [constructor|done].
  - destruct (tallb h i y) eqn:Hy.
    + split; [done|]. intros [Hy' _]%Forall_cons. congruence.
    + rewrite Forall_cons, <- IH. destruct (next_tall h i l) as [[? ?]|]; cbn.
      * split; [done|]. by intros [_ ?].
      * done.
Qed.

Lemma next_tall_Some h i l y d :
  next_tall h i l = Some (y, d) →
  ∃ a b, l = a ++ y :: b ∧ Forall (λ y, tallb h i y = false) a ∧
         tallb h i y = true ∧ d = S (length a).
Proof.
  revert d. induction l as [|z l IH]; intros d; cbn [next_tall]; [done|].
  destruct (tallb h i z) eqn:Hz.
  - intros [= <- <-]. by exists [], l.
  - destruct (next_tall h i l) as [[y' d']|]; [|done]. cbn. intros [= <- <-].
    destruct (IH d' eq_refl) as (a & b & -> & Ha & Hy & ->).
    exists (z :: a), b. split; [done|]. split; [by constructor|]. done.
Qed.

Lemma next_tall_first h i a y b :
  Forall (λ y, tallb h i y = false) a → tallb h i y = true →
  next_tall h i (a ++ y :: b) = Some (y, S (length a)).
Proof.
  intros Ha Hy. rewrite next_tall_app. apply next_tall_None in Ha. rewrite Ha.
  cbn [next_tall]. rewrite Hy. cbn. f_equal. f_equal. lia.
Qed.

(** A list has no tall node, or a first one. *)
Lemma tall_split h i l :
  Forall (λ y, tallb h i y = false) l ∨
  ∃ a y b, l = a ++ y :: b ∧ Forall (λ y, tallb h i y = false) a ∧
           tallb h i y = true.
Proof.
  destruct (next_tall h i l) as [[y d]|] eqn:Hn.
  - right. destruct (next_tall_Some _ _ _ _ _ Hn) as (a & b & ? & ? & ? & _).
    by exists a, y, b.
  - left. by apply next_tall_None.
Qed.

(** A list has no tall node, or a last one. *)
Lemma tall_split_last h i l :
  Forall (λ y, tallb h i y = false) l ∨
  ∃ a y b, l = a ++ y :: b ∧ Forall (λ y, tallb h i y = false) b ∧
           tallb h i y = true.
Proof.
  induction l as [|z l IH]; [by left|].
  destruct IH as [Hl|(a & y & b & -> & Hb & Hy)].
  - destruct (tallb h i z) eqn:Hz.
    + right. by exists [], z, l.
    + left. by constructor.
  - right. by exists (z :: a), y, b.
Qed.

Lemma level_ok_app h i a b : level_ok h i (a ++ b) → level_ok h i b.
Proof. induction a as [|x a IH]; [done|]. intros [_ ?]. by apply IH. Qed.

Lemma level_ok_elem h i a x b :
  level_ok h i (a ++ x :: b) → tallb h i x = true → link_ok h i x b.
Proof. intros Hl%level_ok_app Hx. destruct Hl as [Hl _]. by apply Hl. Qed.

Lemma level_ok_short h i a r :
  Forall (λ y, tallb h i y = false) a → level_ok h i r → level_ok h i (a ++ r).
Proof.
  induction a as [|x a IH]; [done|]. intros [Hx Ha]%Forall_cons Hr.
  split; [congruence|]. by apply IH.
Qed.

(** The cells of a level and the shapes are all that [level_ok] reads. *)
Lemma level_ok_frame h h' i l :
  same_shape h h' →
  (∀ x, x ∈ l → tallb h i x = true →
        SkipList.fwd h' x i = SkipList.fwd h x i ∧
        SkipList.spn h' x i = SkipList.spn h x i) →
  level_ok h i l → level_ok h' i l.
Proof.
  intros Hs. induction l as [|x l IH]; [done|]. intros Hc [Hx Hl]. split.
  - rewrite (same_shape_tallb h h') by done. intros Htx.
    unfold link_ok in *. rewrite (same_shape_next_tall h h') by done.
    destruct (Hc x) as [-> ->]; [by left|done|]. by apply Hx.
  - apply IH; [|done]. intros y Hy. apply Hc. by right.
Qed.

(** The links of the nodes before a tall node [u] do not depend on
    what follows [u]. *)
Lemma level_ok_before h h' i a u r r' :
  same_shape h h' → tallb h i u = true →
  (∀ x, x ∈ a → tallb h i x = true →
        SkipList.fwd h' x i = SkipList.fwd h x i ∧
        SkipList.spn h' x i = SkipList.spn h x i) →
  level_ok h i (a ++ u :: r) → level_ok h' i (u :: r') →
  level_ok h' i (a ++ u :: r').
Proof.
  intros Hs Hu. induction a as [|x a IH]; [done|]. intros Hc [Hx Hl] Hr. split.
  - rewrite (same_shape_tallb h h') by done. intros Htx.
    specialize (Hx Htx). unfold link_ok in *.
    destruct (Hc x) as [-> ->]; [by left|done|].
    rewrite next_tall_app in Hx |- *.
    rewrite (same_shape_next_tall h h') by done.
    destruct (next_tall h i a) as [[y d]|]; [done|].
    cbn [next_tall] in Hx |- *. rewrite (same_shape_tallb h h') by done.
    by rewrite Hu in Hx |- *.
  - apply IH; [|done..]. intros y Hy. apply Hc. by right.
Qed.

Lemma tallb_mono h i j x : (j ≤ i)%nat → tallb h i x = true → tallb h j x = true.
Proof.
  unfold tallb. destruct (h !! x) as [n|]; [|done]. intros Hji Hi.
  apply bool_decide_eq_true in Hi. apply bool_decide_eq_true. lia.
Qed.

Lemma tallb_node_ok h (lv : nat) i x :
  node_ok h lv x → (lv ≤ i)%nat → tallb h i x = false.
Proof.
  intros (n & Hn & Hl & _) Hi. unfold tallb. rewrite Hn.
  apply bool_decide_eq_false. lia.
Qed.

Lemma tallb_node_ok_0 h (lv : nat) x : node_ok h lv x → tallb h 0 x = true.
Proof.
  intros (n & Hn & Hl & _). unfold tallb. rewrite Hn.
  apply bool_decide_eq_true. lia.
Qed.
End levels.

(** ** The order on (score, member) *)
Section order.
Implicit Types (a b : number * string).

Lemma ltb_irrefl (s : string) : String.ltb s s = false.
Proof.
  unfold String.ltb. pose proof (String.compare_antisym s s) as Ha.
  by destruct (String.compare s s).
Qed.

Lemma ltb_asym (s t : string) : String.ltb s t = true → String.ltb t s = false.
Proof.
  unfold String.ltb. rewrite (String.compare_antisym s t).
  by destruct (String.compare t s).
Qed.

Lemma ltb_total (s t : string) :
  String.ltb s t = false → String.ltb t s = false → s = t.
Proof.
  unfold String.ltb. rewrite (String.compare_antisym s t).
  destruct (String.compare t s) eqn:Hc; cbn; try done.
  intros _ _. symmetry. by apply String.compare_eq_iff.
Qed.

Lemma key_lt_irrefl a : ¬ key_lt a a.
Proof.
  unfold key_lt, key_ltb. rewrite ltb_irrefl, andb_false_r, orb_false_r.
  destruct a as [[z| | |] m]; cbn; [|done..].
  intros H%bool_decide_eq_true. lia.
Qed.

Lemma num_ltb_asym (s t : number) : num_ltb s t = true → num_ltb t s = false.
Proof.
  destruct s, t; cbn; try done.
  intros H%bool_decide_eq_true. apply bool_decide_eq_false. lia.
Qed.

Lemma num_ltb_irrefl (s : number) : num_ltb s s = false.
Proof. destruct s; cbn; try done. apply bool_decide_eq_false. lia. Qed.

Lemma num_ltb_eqb (s t : number) : num_ltb s t = true → num_eqb s t = false.
Proof.
  destruct s, t; cbn; try done.
  intros H%bool_decide_eq_true. apply bool_decide_eq_false. lia.
Qed.

Lemma num_eqb_eq (s t : number) : num_eqb s t = true → s = t.
Proof. destruct s, t; cbn; try done. by intros ->%bool_decide_eq_true. Qed.

Lemma num_eqb_refl (s : number) : s ≠ NaN → num_eqb s s = true.
Proof. destruct s; cbn; try done. intros _. by apply bool_decide_eq_true. Qed.

Lemma num_eqb_sym (s t : number) : num_eqb s t = num_eqb t s.
Proof. destruct s, t; cbn; try done. apply bool_decide_ext. naive_solver. Qed.

Lemma num_ltb_trans (s t r : number) :
  num_ltb s t = true → num_ltb t r = true → num_ltb s r = true.
Proof.
  destruct s, t, r; cbn; try done.
  intros H1%bool_decide_eq_true H2%bool_decide_eq_true.
  apply bool_decide_eq_true. lia.
Qed.

Lemma num_ltb_total (s t : number) :
  s ≠ NaN → t ≠ NaN → num_ltb s t = false → num_ltb t s = false → s = t.
Proof.
  destruct s, t; cbn; try done.
  intros _ _ H1%bool_decide_eq_false H2%bool_decide_eq_false. f_equal. lia.
Qed.

Lemma num_ltb_NaN_l (s : number) : num_ltb NaN s = false.
Proof. done. Qed.

Lemma num_ltb_NaN_r (s : number) : num_ltb s NaN = false.
Proof. by destruct s. Qed.

Lemma num_eqb_NaN_r (s : number) : num_eqb s NaN = false.
Proof. by destruct s. Qed.

Lemma num_leb_refl (s : number) : s ≠ NaN → num_leb s s = true.
Proof. intros Hs. unfold num_leb. by rewrite num_eqb_refl, orb_true_r. Qed.

Lemma num_leb_ltb (s t : number) :
  s ≠ NaN → t ≠ NaN → num_leb s t = negb (num_ltb t s).
Proof.
  unfold num_leb. destruct s, t; cbn; try done.
  intros _ _. repeat case_bool_decide; (done || lia).
Qed.

Lemma num_leb_ltb_false (s t : number) : num_leb s t = true → num_ltb t s = false.
Proof.
  unfold num_leb. destruct s, t; cbn; try done.
  repeat case_bool_decide; (done || lia).
Qed.

Lemma num_leb_numeric (s t : number) : num_leb s t = true → s ≠ NaN ∧ t ≠ NaN.
Proof. unfold num_leb. by destruct s, t. Qed.

Lemma num_leb_numeric_false (s t : number) :
  num_leb s t = false ↔ (num_ltb t s = true ∨ s = NaN ∨ t = NaN).
Proof.
  unfold num_leb. destruct s, t; cbn; try (split; [auto|done]).
  all: try (split; [done|]; by intros [?|[?|?]]).
  repeat case_bool_decide; split; try done; try lia; intros [?|[?|?]]; done.
Qed.

Lemma num_leb_trans (s t r : number) :
  num_leb s t = true → num_leb t r = true → num_leb s r = true.
Proof.
  unfold num_leb. destruct s, t, r; cbn; try done.
  repeat case_bool_decide; (done || lia).
Qed.

Lemma num_ltb_leb_trans (s t r : number) :
  num_ltb s t = true → num_leb t r = true → num_ltb s r = true.
Proof.
  unfold num_leb. destruct s, t, r; cbn; try done.
  repeat case_bool_decide; (done || lia).
Qed.

Lemma num_leb_ltb_trans (s t r : number) :
  num_leb s t = true → num_ltb t r = true → num_ltb s r = true.
Proof.
  unfold num_leb. destruct s, t, r; cbn; try done.
  repeat case_bool_decide; (done || lia).
Qed.

Lemma num_ltb_leb (s t : number) : num_ltb s t = true → num_leb s t = true.
Proof. unfold num_leb. by intros ->. Qed.

(** A pair that stands in the order has a score. *)
Lemma key_lt_numeric a b : key_lt a b → a.1 ≠ NaN ∧ b.1 ≠ NaN.
Proof.
  unfold key_lt, key_ltb. destruct a as [s1 m1], b as [s2 m2]. cbn.
  intros H. split; intros ->; cbn in H;
    rewrite ?num_ltb_NaN_r, ?num_eqb_NaN_r in H; done.
Qed.

Lemma key_lt_asym a b : key_lt a b → ¬ key_lt b a.
Proof.
  unfold key_lt, key_ltb. intros H1 H2.
  apply orb_true_iff in H1 as [H1|H1], H2 as [H2|H2];
    repeat match goal with
      | H : _ && _ = true |- _ => apply andb_true_iff in H as [? ?]
      end.
  - apply num_ltb_asym in H1. congruence.
  - apply num_ltb_eqb in H1. rewrite num_eqb_sym in H1. congruence.
  - apply num_ltb_eqb in H2. rewrite num_eqb_sym in H2. congruence.
  - match goal with
    | H : String.ltb a.2 b.2 = true |- _ => apply ltb_asym in H
    end. congruence.
Qed.

Lemma key_lt_total a b :
  a.1 ≠ NaN → b.1 ≠ NaN → ¬ key_lt a b → ¬ key_lt b a → a = b.
Proof.
  unfold key_lt, key_ltb. destruct a as [s1 m1], b as [s2 m2]. cbn.
  intros Ha Hb H1 H2. apply not_true_is_false in H1, H2.
  apply orb_false_iff in H1 as [H1 H1'], H2 as [H2 H2'].
  assert (s1 = s2) as -> by (by apply num_ltb_total).
  rewrite num_eqb_refl in H1', H2' by done. cbn in H1', H2'.
  f_equal. by apply ltb_total.
Qed.

Lemma ascii_compare_refl (c : ascii) : Ascii.compare c c = Eq.
Proof. unfold Ascii.compare. apply N.compare_refl. Qed.

Lemma ascii_compare_lt_trans (c1 c2 c3 : ascii) :
  Ascii.compare c1 c2 = Lt → Ascii.compare c2 c3 = Lt → Ascii.compare c1 c3 = Lt.
Proof. unfold Ascii.compare. rewrite !N.compare_lt_iff. lia. Qed.

Lemma compare_lt_trans (s1 s2 s3 : string) :
  String.compare s1 s2 = Lt → String.compare s2 s3 = Lt →
  String.compare s1 s3 = Lt.
Proof.
  revert s2 s3. induction s1 as [|c1 s1 IH]; intros [|c2 s2] [|c3 s3]; cbn; try done.
  destruct (Ascii.compare c1 c2) eqn:H12; [|clear IH|done];
    (destruct (Ascii.compare c2 c3) eqn:H23; [| |done]).
  - apply Ascii.compare_eq_iff in H12 as ->. apply Ascii.compare_eq_iff in H23 as ->.
    rewrite ascii_compare_refl. apply IH.
  - apply Ascii.compare_eq_iff in H12 as ->. by rewrite H23.
  - apply Ascii.compare_eq_iff in H23 as <-. by rewrite H12.
  - by rewrite (ascii_compare_lt_trans _ _ _ H12 H23).
Qed.

Lemma ltb_trans (s t r : string) :
  String.ltb s t = true → String.ltb t r = true → String.ltb s r = true.
Proof.
  unfold String.ltb. intros H1 H2.
  rewrite (compare_lt_trans s t r); [done| |].
  - by destruct (String.compare s t).
  - by destruct (String.compare t r).
Qed.

Lemma num_eqb_trans (s t r : number) :
  num_eqb s t = true → num_eqb t r = true → num_eqb s r = true.
Proof. intros H1 H2. apply num_eqb_eq in H1 as E. by subst t. Qed.

Lemma key_lt_trans a b c : key_lt a b → key_lt b c → key_lt a c.
Proof.
  unfold key_lt, key_ltb. intros H1 H2. apply orb_true_iff.
  apply orb_true_iff in H1 as [H1|H1], H2 as [H2|H2];
    repeat match goal with
      | H : _ && _ = true |- _ => apply andb_true_iff in H as [? ?]
      end.
  - left. by apply (num_ltb_trans _ b.1).
  - left. match goal with H : num_eqb _ _ = true |- _ => apply num_eqb_eq in H end.
    congruence.
  - left. match goal with H : num_eqb _ _ = true |- _ => apply num_eqb_eq in H end.
    congruence.
  - right. apply andb_true_iff. split.
    + by apply (num_eqb_trans _ b.1).
    + by apply (ltb_trans _ b.2).
Qed.

Lemma num_sub_lt (s1 s2 : number) :
  num_eqb s1 s2 = false → num_ltb (num_sub s1 s2) 0 = num_ltb s1 s2.
Proof.
  destruct s1, s2; cbn; try done.
  intros H%bool_decide_eq_false. apply bool_decide_ext. lia.
Qed.

Lemma num_sub_eq (s1 s2 : number) :
  num_eqb s1 s2 = false → num_eqb (num_sub s1 s2) 0 = false.
Proof.
  destruct s1, s2; cbn; try done.
  intros H%bool_decide_eq_false. apply bool_decide_eq_false. lia.
Qed.

Lemma compare_lt (s1 : number) (m1 : string) (s2 : number) (m2 : string) :
  num_lt (SkipList.compareScoreMember s1 m1 s2 m2) 0 ↔ key_lt (s1, m1) (s2, m2).
Proof.
  unfold num_lt, SkipList.compareScoreMember, key_lt, key_ltb. cbn.
  destruct (num_eqb s1 s2) eqn:He; cbn.
  - apply num_eqb_eq in He as ->.
    rewrite num_ltb_irrefl.
    cbn. destruct (String.ltb m1 m2); [done|].
    destruct (String.ltb m2 m1); done.
  - rewrite orb_false_r. by rewrite num_sub_lt.
Qed.

Lemma compare_le (s1 : number) (m1 : string) (s2 : number) (m2 : string) :
  num_le (SkipList.compareScoreMember s1 m1 s2 m2) 0 ↔
  key_lt (s1, m1) (s2, m2) ∨ ((s1, m1) = (s2, m2) ∧ s2 ≠ NaN).
Proof.
  rewrite <- compare_lt. unfold num_le, num_lt, num_leb.
  rewrite orb_true_iff. apply or_iff_compat_l.
  unfold SkipList.compareScoreMember.
  destruct (num_eqb s1 s2) eqn:He; cbn.
  - apply num_eqb_eq in He as E. subst s1.
    assert (Hn : s2 ≠ NaN) by (intros ->; done).
    destruct (String.ltb m1 m2) eqn:H12.
    { split; [done|]. intros [[= ->] _]. by rewrite ltb_irrefl in H12. }
    destruct (String.ltb m2 m1) eqn:H21.
    { split; [done|]. intros [[= ->] _]. by rewrite ltb_irrefl in H21. }
    split; [|done]. intros _. split; [|done]. f_equal. by apply ltb_total.
  - rewrite num_sub_eq by done. split; [done|].
    intros [[= -> ->] Hn]. by rewrite num_eqb_refl in He.
Qed.
End order.

(** ** The walks along a level *)
Section walks.
Implicit Types (h : list SkipList.SkipListNode) (x y u i : nat).
Implicit Types (a b pre post : list nat) (s : number) (m : string).

Lemma bool_iff_true (b : bool) (P : Prop) : (b = true ↔ P) → P → b = true.
Proof. tauto. Qed.

Lemma bool_iff_false (b : bool) (P : Prop) : (b = true ↔ P) → ¬ P → b = false.
Proof. intros Hb HP. apply not_true_is_false. tauto. Qed.

Lemma cmp_node_key h y n s m :
  h !! y = Some n →
  ∃ c, SkipList.cmp_node h y s m = Some c ∧
       (num_ltb c 0 = true ↔ key_lt (key_of h y) (s, m)) ∧
       (num_leb c 0 = true
        ↔ key_lt (key_of h y) (s, m) ∨ (key_of h y = (s, m) ∧ s ≠ NaN)).
Proof.
  intros Hn. unfold SkipList.cmp_node, key_of. rewrite Hn. cbn.
  eexists. split; [done|]. split; [apply compare_lt|apply compare_le].
Qed.

Lemma insert_walk_unfold fuel h i s m x r :
  SkipList.insert_walk fuel h i s m x r =
  match SkipList.fwd h x i with
  | None => Some (x, r)
  | Some y =>
      c ← SkipList.cmp_node h y s m;
      if num_ltb c 0 then
        match fuel with
        | O => None
        | S fuel' =>
            sp ← SkipList.spn h x i;
            SkipList.insert_walk fuel' h i s m y (r + sp)
        end
      else Some (x, r)
  end.
Proof. by destruct fuel. Qed.

Lemma last_tall_here h i a x b :
  tallb h i x = true → Forall (λ y, tallb h i y = false) b →
  last_tall h i (a ++ x :: b) x (length a).
Proof. intros. by exists a, b. Qed.

(** The walk of [insert] stops at the last tall node before the place
    of the key, with the number of nodes before that node as rank. *)
Lemma insert_walk_spec fuel h i s m a x b post r :
  level_ok h i (a ++ x :: b ++ post) →
  tallb h i x = true →
  Forall (λ y, key_lt (key_of h y) (s, m)) b →
  Forall (λ y, ¬ key_lt (key_of h y) (s, m)) post →
  Forall (λ y, is_Some (h !! y)) (b ++ post) →
  (length b ≤ fuel)%nat →
  ∃ a' u b', a ++ x :: b = a' ++ u :: b' ∧
             Forall (λ y, tallb h i y = false) b' ∧ tallb h i u = true ∧
             (length a ≤ length a')%nat ∧ b' `suffix_of` b ∧
             SkipList.insert_walk fuel h i s m x r
             = Some (u, r + (Z.of_nat (length a') - Z.of_nat (length a))).
Proof.
  revert a x b r. induction fuel as [|fuel IH]; intros a x b r Hok Hx Hb Hpost Hex Hf.
  all: rewrite insert_walk_unfold.
  all: pose proof (level_ok_elem _ _ _ _ _ Hok Hx) as Hlink; unfold link_ok in Hlink.
  all: destruct (tall_split h i b) as [Hnt|(b1 & y & b2 & -> & Hb1 & Hy)].
  (* no fuel: [b] is empty *)
  - rewrite next_tall_app in Hlink. rewrite (proj2 (next_tall_None _ _ _) Hnt) in Hlink.
    exists a, x, b. repeat (split; [done|]).
    replace (r + _) with r by lia.
    destruct (next_tall h i post) as [[y d]|] eqn:Hn; cbn in Hlink.
    + destruct Hlink as [-> _].
      destruct (next_tall_Some _ _ _ _ _ Hn) as (p1 & p2 & -> & _).
      apply Forall_app in Hex as [_ Hex].
      apply Forall_app in Hex as [_ [[n Hn'] _]%Forall_cons].
      destruct (cmp_node_key h y n s m Hn') as (c & -> & Hc & _). cbn.
      apply Forall_app in Hpost as [_ [Hy _]%Forall_cons].
      by rewrite (bool_iff_false _ _ Hc) by done.
    + by rewrite Hlink.
  - rewrite length_app in Hf. cbn in Hf. lia.
  - rewrite next_tall_app in Hlink. rewrite (proj2 (next_tall_None _ _ _) Hnt) in Hlink.
    exists a, x, b. repeat (split; [done|]).
    replace (r + _) with r by lia.
    destruct (next_tall h i post) as [[y d]|] eqn:Hn; cbn in Hlink.
    + destruct Hlink as [-> _].
      destruct (next_tall_Some _ _ _ _ _ Hn) as (p1 & p2 & -> & _).
      apply Forall_app in Hex as [_ Hex].
      apply Forall_app in Hex as [_ [[n Hn'] _]%Forall_cons].
      destruct (cmp_node_key h y n s m Hn') as (c & -> & Hc & _). cbn.
      apply Forall_app in Hpost as [_ [Hy _]%Forall_cons].
      by rewrite (bool_iff_false _ _ Hc) by done.
    + by rewrite Hlink.
  - rewrite <- app_assoc in Hlink. cbn [app] in Hlink.
    rewrite (next_tall_first h i b1 y) in Hlink by done.
    destruct Hlink as [-> Hsp].
    assert (Hyn : is_Some (h !! y)).
    { apply Forall_app in Hex as [Hex _].
      by apply Forall_app in Hex as [_ [? _]%Forall_cons]. }
    destruct Hyn as [n Hn'].
    destruct (cmp_node_key h y n s m Hn') as (c & -> & Hc & _). cbn.
    assert (Hyk : key_lt (key_of h y) (s, m)).
    { by apply Forall_app in Hb as [_ [? _]%Forall_cons]. }
    rewrite (bool_iff_true _ _ Hc) by done. rewrite Hsp. cbn.
    assert (E : (a ++ x :: b1) ++ y :: b2 ++ post
                = a ++ x :: (b1 ++ y :: b2) ++ post)
      by (by rewrite <- !app_assoc).
    destruct (IH (a ++ x :: b1) y b2 (r + Z.of_nat (S (length b1))))
      as (a' & u & b' & Heq & Hnt & Hu & Hp & Hsuf & Hw).
    + by rewrite E.
    + done.
    + by apply Forall_app in Hb as [_ [_ ?]%Forall_cons].
    + done.
    + rewrite <- app_assoc in Hex. cbn [app] in Hex.
      apply Forall_app in Hex as [_ [_ ?]%Forall_cons]. done.
    + rewrite length_app in Hf. cbn in Hf. lia.
    + exists a', u, b'. rewrite <- app_assoc in Heq. cbn [app] in Heq.
      split; [done|]. split; [done|]. split; [done|].
      rewrite length_app in Hp, Hw. cbn [length] in Hp, Hw.
      split; [lia|]. split.
      * etrans; [done|]. apply suffix_app_r, suffix_cons_r. done.
      * rewrite Hw. f_equal. f_equal. lia.
Qed.

Lemma delete_walk_unfold fuel h i s m x :
  SkipList.delete_walk fuel h i s m x =
  match SkipList.fwd h x i with
  | None => Some x
  | Some y =>
      c ← SkipList.cmp_node h y s m;
      if num_ltb c 0 then
        match fuel with
        | O => None
        | S fuel' => SkipList.delete_walk fuel' h i s m y
        end
      else Some x
  end.
Proof. by destruct fuel. Qed.

(** The walk of [delete] is the walk of [insert] without the ranks. *)
Lemma delete_walk_insert_walk fuel h i s m x r u r' :
  SkipList.insert_walk fuel h i s m x r = Some (u, r') →
  SkipList.delete_walk fuel h i s m x = Some u.
Proof.
  revert x r. induction fuel as [|fuel IH]; intros x r.
  all: rewrite insert_walk_unfold, delete_walk_unfold.
  all: destruct (SkipList.fwd h x i) as [y|]; [|by intros [= -> _]].
  all: destruct (SkipList.cmp_node h y s m) as [c|]; [|done]; cbn.
  all: destruct (num_ltb c 0); [|by intros [= -> _]].
  - done.
  - destruct (SkipList.spn h x i) as [sp|]; [|done]. cbn. apply IH.
Qed.
(** The descent of [insert] fills [update] and [rank], level by level,
    with the last tall node before the place of the key and its
    position. *)
Lemma insert_descend_spec n h s m a x b post r update rank :
  (∀ i, (i < n)%nat → level_ok h i (a ++ x :: b ++ post)) →
  (∀ i, (i < n)%nat → tallb h i x = true) →
  Forall (λ y, key_lt (key_of h y) (s, m)) b →
  Forall (λ y, ¬ key_lt (key_of h y) (s, m)) post →
  Forall (λ y, is_Some (h !! y)) (b ++ post) →
  (length b ≤ length h)%nat →
  r = Z.of_nat (length a) →
  (n ≤ length update)%nat → (n ≤ length rank)%nat →
  ∃ update' rank',
    SkipList.insert_descend n h s m x r update rank = Some (update', rank') ∧
    length update' = length update ∧ length rank' = length rank ∧
    (∀ i, (i < n)%nat →
       ∃ u p, last_tall h i (a ++ x :: b) u p ∧
              update' !! i = Some (Some u) ∧ rank' !! i = Some (Z.of_nat p)) ∧
    (∀ i, (n ≤ i)%nat → update' !! i = update !! i ∧ rank' !! i = rank !! i).
Proof.
  revert a x b r update rank.
  induction n as [|n IH]; intros a x b r update rank Hok Hx Hb Hpost Hex Hf Hr Hlu Hlr.
  { exists update, rank. cbn. repeat (split; [done|]). split; [intros; lia|done]. }
  cbn [SkipList.insert_descend].
  destruct (insert_walk_spec (length h) h n s m a x b post r)
    as (a' & u & b' & Heq & Hnt & Hu & Hp & Hsuf & Hw); [auto..|].
  rewrite Hw. cbn.
  assert (E : a' ++ u :: b' ++ post = a ++ x :: b ++ post).
  { change (a' ++ (u :: b') ++ post = a ++ (x :: b) ++ post).
    by rewrite !app_assoc, Heq. }
  destruct Hsuf as [c Hc].
  destruct (IH a' u b' (r + (Z.of_nat (length a') - Z.of_nat (length a)))
              (<[n:=Some u]> update)
              (<[n:=r + (Z.of_nat (length a') - Z.of_nat (length a))]> rank))
    as (update' & rank' & Hd & Hlu' & Hlr' & Hlow & Hhigh).
  - intros i Hi. rewrite E. apply Hok. lia.
  - intros i Hi. apply (tallb_mono h n); [lia|done].
  - rewrite Hc in Hb. by apply Forall_app in Hb as [_ ?].
  - done.
  - rewrite Hc, <- app_assoc in Hex. by apply Forall_app in Hex as [_ ?].
  - rewrite Hc, length_app in Hf. lia.
  - lia.
  - rewrite length_insert. lia.
  - rewrite length_insert. lia.
  - exists update', rank'. split; [done|].
    rewrite length_insert in Hlu'. rewrite length_insert in Hlr'.
    split; [done|]. split; [done|]. split.
    + intros i Hi. destruct (decide (i = n)) as [->|Hne].
      * exists u, (length a'). split; [by exists a', b'|].
        destruct (Hhigh n) as [-> ->]; [lia|].
        rewrite !list_lookup_insert_eq by lia. split; [done|].
        f_equal. lia.
      * destruct (Hlow i) as (u' & p' & Hlt & Hu' & Hr'); [lia|].
        exists u', p'. rewrite Heq. done.
    + intros i Hi. destruct (Hhigh i) as [-> ->]; [lia|].
      rewrite !list_lookup_insert_ne by lia. done.
Qed.

Lemma delete_descend_insert_descend n h s m x r update rank update' rank' :
  SkipList.insert_descend n h s m x r update rank = Some (update', rank') →
  ∃ xf, SkipList.delete_descend n h s m x update = Some (xf, update') ∧
        (n = 0%nat → xf = x).
Proof.
  revert x r update rank. induction n as [|n IH]; intros x r update rank.
  { cbn. intros [= <- <-]. by exists x. }
  cbn [SkipList.insert_descend SkipList.delete_descend].
  destruct (SkipList.insert_walk _ _ _ _ _ _ _) as [[u r1]|] eqn:Hw; [|done].
  rewrite (delete_walk_insert_walk _ _ _ _ _ _ _ _ _ Hw). cbn.
  intros Hd. destruct (IH _ _ _ _ Hd) as (xf & -> & _). exists xf. by split.
Qed.
Lemma getRank_walk_unfold fuel h i s m x rank :
  SkipList.getRank_walk fuel h i s m x rank =
  match SkipList.fwd h x i with
  | None => Some (inr (x, rank))
  | Some y =>
      c ← SkipList.cmp_node h y s m;
      if num_leb c 0 then
        match fuel with
        | O => None
        | S fuel' =>
            sp ← SkipList.spn h x i;
            n ← h !! y;
            if num_eqb (SkipList.score n) s
               && bool_decide (SkipList.member n = m)
            then Some (inl (rank + sp - 1))
            else SkipList.getRank_walk fuel' h i s m y (rank + sp)
        end
      else Some (inr (x, rank))
  end.
Proof. by destruct fuel. Qed.

(** The walk of [getRank] towards the node [t] that holds the key: it
    finds [t] when [t] is tall at the level, and stops at the last tall
    node before [t] otherwise. *)
Lemma getRank_walk_spec fuel h i s m a x b t post r :
  s ≠ NaN →
  level_ok h i (a ++ x :: b ++ t :: post) →
  tallb h i x = true →
  Forall (λ y, key_lt (key_of h y) (s, m)) b →
  key_of h t = (s, m) →
  Forall (λ y, key_lt (s, m) (key_of h y)) post →
  Forall (λ y, is_Some (h !! y)) (b ++ t :: post) →
  (length b < fuel)%nat →
  if tallb h i t then
    SkipList.getRank_walk fuel h i s m x r = Some (inl (r + Z.of_nat (length b)))
  else
    ∃ a' u b', a ++ x :: b = a' ++ u :: b' ∧
               (∀ j, (j ≤ i)%nat → tallb h j u = true) ∧
               (length a ≤ length a')%nat ∧ b' `suffix_of` b ∧
               SkipList.getRank_walk fuel h i s m x r
               = Some (inr (u, r + (Z.of_nat (length a') - Z.of_nat (length a)))).
Proof.
  intros Hnum.
  revert a x b r. induction fuel as [|fuel IH]; intros a x b r Hok Hx Hb Ht Hpost Hex Hf;
    [lia|].
  rewrite getRank_walk_unfold.
  pose proof (level_ok_elem _ _ _ _ _ Hok Hx) as Hlink. unfold link_ok in Hlink.
  assert (Htn : is_Some (h !! t)).
  { by apply Forall_app in Hex as [_ [? _]%Forall_cons]. }
  destruct Htn as [nt Hnt].
  destruct (tall_split h i b) as [Hnb|(b1 & y & b2 & -> & Hb1 & Hy)].
  - rewrite next_tall_app in Hlink.
    rewrite (proj2 (next_tall_None _ _ _) Hnb) in Hlink. cbn [next_tall] in Hlink.
    destruct (tallb h i t) eqn:Htt; cbn in Hlink.
    + destruct Hlink as [-> ->].
      destruct (cmp_node_key h t nt s m Hnt) as (c & -> & _ & Hc). cbn.
      rewrite (bool_iff_true _ _ Hc) by (by right). cbn. rewrite Hnt. cbn.
      unfold key_of in Ht. rewrite Hnt in Ht. injection Ht as -> ->.
      rewrite num_eqb_refl, bool_decide_true by done. cbn. f_equal. f_equal. lia.
    + exists a, x, b. split; [done|].
      split; [intros j Hj; by apply (tallb_mono h i)|].
      split; [done|]. split; [done|].
      replace (r + _) with r by lia.
      destruct (next_tall h i post) as [[y d]|] eqn:Hn; cbn in Hlink.
      * destruct Hlink as [-> _].
        destruct (next_tall_Some _ _ _ _ _ Hn) as (p1 & p2 & -> & _).
        apply Forall_app in Hex as [_ [_ Hex]%Forall_cons].
        apply Forall_app in Hex as [_ [[n Hn'] _]%Forall_cons].
        destruct (cmp_node_key h y n s m Hn') as (c & -> & _ & Hc). cbn.
        apply Forall_app in Hpost as [_ [Hy _]%Forall_cons].
        rewrite (bool_iff_false _ _ Hc); [done|]. intros [Hlt|[Heq _]].
        -- by apply (key_lt_asym _ _ Hy).
        -- rewrite Heq in Hy. by apply key_lt_irrefl in Hy.
      * by rewrite Hlink.
  - rewrite <- app_assoc in Hlink. cbn [app] in Hlink.
    rewrite (next_tall_first h i b1 y) in Hlink by done.
    destruct Hlink as [-> Hsp].
    assert (Hyn : is_Some (h !! y)).
    { apply Forall_app in Hex as [Hex _].
      by apply Forall_app in Hex as [_ [? _]%Forall_cons]. }
    destruct Hyn as [n Hn'].
    destruct (cmp_node_key h y n s m Hn') as (c & -> & _ & Hc). cbn.
    assert (Hyk : key_lt (key_of h y) (s, m)).
    { by apply Forall_app in Hb as [_ [? _]%Forall_cons]. }
    rewrite (bool_iff_true _ _ Hc) by (by left). rewrite Hsp. cbn.
    rewrite Hn'. cbn.
    assert (num_eqb (SkipList.score n) s
            && bool_decide (SkipList.member n = m) = false) as ->.
    { apply not_true_is_false. intros [Hs Hm]%andb_true_iff.
      apply num_eqb_eq in Hs. apply bool_decide_eq_true in Hm. unfold key_of in Hyk.
      rewrite Hn', Hs, Hm in Hyk. by apply key_lt_irrefl in Hyk. }
    assert (E : (a ++ x :: b1) ++ y :: b2 ++ t :: post
                = a ++ x :: (b1 ++ y :: b2) ++ t :: post)
      by (by rewrite <- !app_assoc).
    specialize (IH (a ++ x :: b1) y b2 (r + Z.of_nat (S (length b1)))).
    rewrite E in IH. specialize (IH Hok Hy).
    destruct (tallb h i t).
    + rewrite IH.
      * f_equal. f_equal. rewrite length_app. cbn [length]. lia.
      * by apply Forall_app in Hb as [_ [_ ?]%Forall_cons].
      * done.
      * done.
      * rewrite <- app_assoc in Hex. cbn [app] in Hex.
        by apply Forall_app in Hex as [_ [_ ?]%Forall_cons].
      * rewrite length_app in Hf. cbn in Hf. lia.
    + destruct IH as (a' & u & b' & Heq & Hu & Hp & Hsuf & Hw).
      * by apply Forall_app in Hb as [_ [_ ?]%Forall_cons].
      * done.
      * done.
      * rewrite <- app_assoc in Hex. cbn [app] in Hex.
        by apply Forall_app in Hex as [_ [_ ?]%Forall_cons].
      * rewrite length_app in Hf. cbn in Hf. lia.
      * exists a', u, b'. rewrite <- app_assoc in Heq. cbn [app] in Heq.
        rewrite length_app in Hp. cbn [length] in Hp.
        split; [done|]. split; [done|]. split; [lia|]. split.
        -- etrans; [done|]. apply suffix_app_r, suffix_cons_r. done.
        -- rewrite Hw. f_equal. f_equal. f_equal.
           rewrite length_app. cbn [length]. lia.
Qed.
(** [getRank] of a key that the list holds is the number of nodes
    before the node of the key. *)
Lemma getRank_descend_spec n h s m a x b t post r :
  s ≠ NaN →
  (∀ i, (i < n)%nat → level_ok h i (a ++ x :: b ++ t :: post)) →
  (∀ i, (i < n)%nat → tallb h i x = true) →
  tallb h 0 t = true → (0 < n)%nat →
  Forall (λ y, key_lt (key_of h y) (s, m)) b →
  key_of h t = (s, m) →
  Forall (λ y, key_lt (s, m) (key_of h y)) post →
  Forall (λ y, is_Some (h !! y)) (b ++ t :: post) →
  (length b < length h)%nat →
  r = Z.of_nat (length a) →
  SkipList.getRank_descend n h s m x r
  = Some (Z.of_nat (length a + length b)).
Proof.
  intros Hnum.
  revert a x b r. induction n as [|n IH]; intros a x b r Hok Hx Ht0 Hn Hb Ht Hpost Hex Hf Hr;
    [lia|].
  cbn [SkipList.getRank_descend].
  pose proof (getRank_walk_spec (length h) h n s m a x b t post r Hnum) as Hw.
  destruct (tallb h n t) eqn:Htn.
  - rewrite Hw by auto. cbn. f_equal. lia.
  - destruct Hw as (a' & u & b' & Heq & Hu & Hp & [c Hc] & Hw); [auto..|].
    rewrite Hw. cbn.
    assert (n ≠ 0%nat) by (intros ->; congruence).
    assert (E : a' ++ u :: b' ++ t :: post = a ++ x :: b ++ t :: post).
    { change (a' ++ (u :: b') ++ t :: post = a ++ (x :: b) ++ t :: post).
      by rewrite !app_assoc, Heq. }
    rewrite (IH a' u b').
    + f_equal. apply (f_equal length) in Heq. rewrite !length_app in Heq.
      cbn [length] in Heq. lia.
    + intros i Hi. rewrite E. apply Hok. lia.
    + intros i Hi. apply Hu. lia.
    + done.
    + lia.
    + rewrite Hc in Hb. by apply Forall_app in Hb as [_ ?].
    + done.
    + done.
    + rewrite Hc, <- app_assoc in Hex. by apply Forall_app in Hex as [_ ?].
    + rewrite Hc, length_app in Hf. lia.
    + lia.
Qed.
End walks.

(** ** The loops that write the cells *)
Section writes.
Implicit Types (h : list SkipList.SkipListNode) (x y u nw i j : nat).
Implicit Types (ls : list nat) (update : list (option nat)) (rank : list Z).

Lemma same_shape_has_cell h h' x i : same_shape h h' → has_cell h x i → has_cell h' x i.
Proof.
  intros [_ Hs] (n & Hn & Hf & Hp). specialize (Hs x). rewrite Hn in Hs.
  destruct (h' !! x) as [n'|] eqn:Hn'; [|done]. unfold shape in Hs. cbn in Hs.
  assert (length (SkipList.forward n') = length (SkipList.forward n)) by congruence.
  assert (length (SkipList.span n') = length (SkipList.span n)) by congruence.
  exists n'. split; [done|]. lia.
Qed.

Lemma has_cell_spn h x i : has_cell h x i → is_Some (SkipList.spn h x i).
Proof.
  intros (n & Hn & _ & Hp). unfold SkipList.spn. rewrite Hn. cbn.
  by apply lookup_lt_is_Some_2.
Qed.

Lemma cells_same_refl h i : cells_same h h i.
Proof. by intros x. Qed.

Lemma cells_same_trans h1 h2 h3 i :
  cells_same h1 h2 i → cells_same h2 h3 i → cells_same h1 h3 i.
Proof.
  intros H1 H2 x. destruct (H1 x) as [<- <-], (H2 x) as [<- <-]. done.
Qed.

(** One turn of the loop of [insert] that splices the node in. *)
Lemma splice_step h i u nw d :
  has_cell h u i → has_cell h nw i → u ≠ nw →
  ∃ h1 h2 h3 h4 sp,
    SkipList.set_fwd h nw i (SkipList.fwd h u i) = Some h1 ∧
    SkipList.set_fwd h1 u i (Some nw) = Some h2 ∧
    SkipList.spn h2 u i = Some sp ∧
    SkipList.set_spn h2 nw i (sp - d) = Some h3 ∧
    SkipList.set_spn h3 u i (d + 1) = Some h4 ∧
    same_shape h h4 ∧ cells_spliced h h4 i u nw d ∧
    ∀ j, j ≠ i → cells_same h h4 j.
Proof.
  intros Hu Hnw Hne.
  destruct Hnw as (n & Hn & Hnf & Hnp).
  destruct (set_fwd_is_Some h nw i (SkipList.fwd h u i) n Hn Hnf) as [h1 E1].
  destruct (set_fwd_spec _ _ _ _ _ E1) as (S1 & F1 & P1).
  pose proof (same_shape_has_cell _ _ _ _ S1 Hu) as (n1 & Hn1 & Hf1 & Hp1).
  destruct (set_fwd_is_Some h1 u i (Some nw) n1 Hn1 Hf1) as [h2 E2].
  destruct (set_fwd_spec _ _ _ _ _ E2) as (S2 & F2 & P2).
  pose proof (same_shape_trans _ _ _ S1 S2) as S12.
  destruct (has_cell_spn h u i Hu) as [sp Hsp].
  assert (Hsp2 : SkipList.spn h2 u i = Some sp) by (by rewrite P2, P1).
  pose proof (same_shape_has_cell _ _ _ _ S12 (ex_intro _ n (conj Hn (conj Hnf Hnp))))
    as (n2 & Hn2 & Hf2 & Hp2).
  destruct (set_spn_is_Some h2 nw i (sp - d) n2 Hn2 Hp2) as [h3 E3].
  destruct (set_spn_spec _ _ _ _ _ E3) as (S3 & F3 & P3).
  pose proof (same_shape_trans _ _ _ S12 S3) as S13.
  pose proof (same_shape_has_cell _ _ _ _ S13 Hu) as (n3 & Hn3 & Hf3 & Hp3).
  destruct (set_spn_is_Some h3 u i (d + 1) n3 Hn3 Hp3) as [h4 E4].
  destruct (set_spn_spec _ _ _ _ _ E4) as (S4 & F4 & P4).
  exists h1, h2, h3, h4, sp. repeat (split; [done|]).
  split; [by apply (same_shape_trans _ _ _ S13)|]. split.
  - split; [|split; [|split; [|split]]].
    + rewrite F4, F3, F2. by rewrite decide_True.
    + rewrite F4, F3, F2, F1. rewrite decide_False by (intros [? ?]; congruence).
      by rewrite decide_True.
    + rewrite P4. by rewrite decide_True.
    + intros sp' Hsp'. rewrite P4, P3.
      rewrite decide_False by (intros [? ?]; congruence).
      rewrite decide_True by done. congruence.
    + intros x Hxu Hxn. rewrite F4, F3, F2, F1, P4, P3, P2, P1.
      rewrite !decide_False by (intros [? ?]; congruence). done.
  - intros j Hj x. rewrite F4, F3, F2, F1, P4, P3, P2, P1.
    rewrite !decide_False by (intros [? ?]; congruence). done.
Qed.

Lemma insert_splice_spec ls h nw update rank r0 :
  NoDup ls → rank !! 0%nat = Some r0 →
  (∀ i, i ∈ ls → has_cell h nw i ∧
        ∃ u ri, update !! i = Some (Some u) ∧ rank !! i = Some ri ∧
                u ≠ nw ∧ has_cell h u i) →
  ∃ h', SkipList.insert_splice ls h nw update rank = Some h' ∧
        same_shape h h' ∧
        (∀ i, i ∉ ls → cells_same h h' i) ∧
        (∀ i u ri, i ∈ ls → update !! i = Some (Some u) → rank !! i = Some ri →
                   cells_spliced h h' i u nw (r0 - ri)).
Proof.
  intros Hnd Hr0. revert h. induction ls as [|i ls IH]; intros h Hls.
  { exists h. split; [done|]. split; [apply same_shape_refl|].
    split; [intros; apply cells_same_refl|]. by intros ??? ?%elem_of_nil. }
  apply NoDup_cons in Hnd as [Hi Hnd].
  destruct (Hls i) as (Hnw & u & ri & Hu & Hri & Hne & Hcu); [by left|].
  destruct (splice_step h i u nw (r0 - ri) Hcu Hnw Hne)
    as (h1 & h2 & h3 & h4 & sp & E1 & E2 & Esp & E3 & E4 & S4 & C4 & O4).
  destruct (IH Hnd h4) as (h' & Hs & S' & O' & C').
  { intros j Hj. destruct (Hls j) as (Hnwj & uj & rj & ? & ? & ? & ?); [by right|].
    split; [by apply (same_shape_has_cell h h4)|].
    exists uj, rj. repeat (split; [done|]). by apply (same_shape_has_cell h h4). }
  exists h'. cbn [SkipList.insert_splice]. rewrite Hu, Hr0, Hri. cbn.
  rewrite E1. cbn. rewrite E2. cbn. rewrite Esp. cbn. rewrite E3. cbn.
  rewrite E4. cbn. split; [done|].
  split; [by apply (same_shape_trans _ _ _ S4)|]. split.
  - intros j Hj. apply not_elem_of_cons in Hj as [Hji Hj].
    apply (cells_same_trans _ h4); [by apply O4|by apply O'].
  - intros j uj rj [->|Hj]%elem_of_cons Huj Hrj.
    + assert (uj = u) as -> by congruence. assert (rj = ri) as -> by congruence.
      destruct C4 as (A1 & A2 & A3 & A4 & A5). pose proof (O' i Hi) as Hsame.
      split; [|split; [|split; [|split]]].
      * by rewrite (proj1 (Hsame u)).
      * by rewrite (proj1 (Hsame nw)).
      * by rewrite (proj2 (Hsame u)).
      * intros sp' Hsp'. rewrite (proj2 (Hsame nw)). by apply A4.
      * intros x Hxu Hxn. destruct (Hsame x) as [-> ->]. by apply A5.
    + assert (j ≠ i) by (intros ->; done).
      destruct (C' j uj rj Hj Huj Hrj) as (A1 & A2 & A3 & A4 & A5).
      pose proof (O4 j ltac:(done)) as Hsame.
      split; [done|]. split; [by rewrite A2, (proj1 (Hsame uj))|].
      split; [done|]. split.
      * intros sp' Hsp'. apply A4. by rewrite (proj2 (Hsame uj)).
      * intros x Hxu Hxn. destruct (A5 x Hxu Hxn) as [-> ->]. apply Hsame.
Qed.

Lemma insert_bump_spec ls h update :
  NoDup ls →
  (∀ i, i ∈ ls → ∃ u, update !! i = Some (Some u) ∧ has_cell h u i) →
  ∃ h', SkipList.insert_bump ls h update = Some h' ∧
        same_shape h h' ∧
        (∀ i, i ∉ ls → cells_same h h' i) ∧
        (∀ i u, i ∈ ls → update !! i = Some (Some u) → cells_bumped h h' i u).
Proof.
  intros Hnd. revert h. induction ls as [|i ls IH]; intros h Hls.
  { exists h. split; [done|]. split; [apply same_shape_refl|].
    split; [intros; apply cells_same_refl|]. by intros ?? ?%elem_of_nil. }
  apply NoDup_cons in Hnd as [Hi Hnd].
  destruct (Hls i) as (u & Hu & Hcu); [by left|].
  destruct (has_cell_spn h u i Hcu) as [sp Hsp].
  destruct Hcu as (n & Hn & Hf & Hp).
  destruct (set_spn_is_Some h u i (sp + 1) n Hn Hp) as [h1 E1].
  destruct (set_spn_spec _ _ _ _ _ E1) as (S1 & F1 & P1).
  destruct (IH Hnd h1) as (h' & Hs & S' & O' & C').
  { intros j Hj. destruct (Hls j) as (uj & ? & ?); [by right|].
    exists uj. split; [done|]. by apply (same_shape_has_cell h h1). }
  exists h'. cbn [SkipList.insert_bump]. rewrite Hu. cbn. rewrite Hsp. cbn.
  rewrite E1. cbn. split; [done|].
  split; [by apply (same_shape_trans _ _ _ S1)|]. split.
  - intros j Hj. apply not_elem_of_cons in Hj as [Hji Hj].
    apply (cells_same_trans _ h1); [|by apply O'].
    intros x. rewrite F1, P1. by rewrite decide_False by (intros [? ?]; congruence).
  - intros j uj [->|Hj]%elem_of_cons Huj.
    + assert (uj = u) as -> by congruence. pose proof (O' i Hi) as Hsame.
      split; [|split].
      * intros x. by rewrite (proj1 (Hsame x)), F1.
      * intros sp' Hsp'. rewrite (proj2 (Hsame u)), P1.
        rewrite decide_True by done. congruence.
      * intros x Hx. rewrite (proj2 (Hsame x)), P1.
        by rewrite decide_False by (intros [? ?]; congruence).
    + assert (j ≠ i) by (intros ->; done).
      destruct (C' j uj Hj Huj) as (A1 & A2 & A3).
      split; [|split].
      * intros x. by rewrite A1, F1.
      * intros sp' Hsp'. apply A2. rewrite P1.
        by rewrite decide_False by (intros [? ?]; congruence).
      * intros x Hx. rewrite (A3 x Hx), P1.
        by rewrite decide_False by (intros [? ?]; congruence).
Qed.

(** The loop of [insert] that opens new levels writes the span of the
    header there and points [update] and [rank] to the header. *)
Lemma insert_raise_spec ls h len update rank :
  (∀ i, i ∈ ls → has_cell h 0%nat i ∧ (i < length update)%nat ∧
                 (i < length rank)%nat) →
  ∃ h' update' rank',
    SkipList.insert_raise ls h len update rank = Some (h', update', rank') ∧
    same_shape h h' ∧
    length update' = length update ∧ length rank' = length rank ∧
    (∀ x j, SkipList.fwd h' x j = SkipList.fwd h x j) ∧
    (∀ x j, ¬ (x = 0%nat ∧ j ∈ ls) → SkipList.spn h' x j = SkipList.spn h x j) ∧
    (∀ i, i ∈ ls → update' !! i = Some (Some 0%nat) ∧ rank' !! i = Some 0) ∧
    (∀ i, i ∉ ls → update' !! i = update !! i ∧ rank' !! i = rank !! i).
Proof.
  revert h update rank. induction ls as [|i ls IH]; intros h update rank Hls.
  { exists h, update, rank. split; [done|]. split; [apply same_shape_refl|].
    repeat (split; [done|]). split; [by intros ? ?%elem_of_nil|done]. }
  destruct (Hls i) as ((n & Hn & Hf & Hp) & Hlu & Hlr); [by left|].
  destruct (set_spn_is_Some h 0%nat i len n Hn Hp) as [h1 E1].
  destruct (set_spn_spec _ _ _ _ _ E1) as (S1 & F1 & P1).
  destruct (IH h1 (<[i:=Some SkipList.header]> update) (<[i:=0]> rank))
    as (h' & update' & rank' & Hr & S' & Lu & Lr & F' & P' & In' & Out').
  { intros j Hj. destruct (Hls j) as (? & ? & ?); [by right|].
    split; [by apply (same_shape_has_cell h h1)|]. rewrite !length_insert. done. }
  exists h', update', rank'. cbn [SkipList.insert_raise].
  unfold SkipList.header in *. rewrite E1. cbn. split; [done|].
  split; [by apply (same_shape_trans _ _ _ S1)|].
  rewrite length_insert in Lu. rewrite length_insert in Lr.
  split; [done|]. split; [done|]. split; [|split; [|split]].
  - intros x j. by rewrite F', F1.
  - intros x j Hxj. rewrite P', P1.
    + rewrite decide_False; [done|]. intros [-> ->]. apply Hxj. split; [done|by left].
    + intros [-> Hj]. apply Hxj. split; [done|by right].
  - intros j [->|Hj]%elem_of_cons; [|by apply In'].
    destruct (decide (i ∈ ls)) as [Hi|Hi]; [by apply In'|].
    destruct (Out' i Hi) as [-> ->]. by rewrite !list_lookup_insert_eq.
  - intros j Hj. apply not_elem_of_cons in Hj as [Hji Hj].
    destruct (Out' j Hj) as [-> ->]. by rewrite !list_lookup_insert_ne.
Qed.
(** The loop of [delete] that unlinks the node [t]. *)
Lemma delete_unlink_spec ls h t update :
  NoDup ls →
  (∀ i, i ∈ ls → ∃ u, update !! i = Some (Some u) ∧ has_cell h u i ∧
                      (SkipList.fwd h u i = Some t → has_cell h t i ∧ u ≠ t)) →
  ∃ h', SkipList.delete_unlink ls h t update = Some h' ∧
        same_shape h h' ∧
        (∀ i, i ∉ ls → cells_same h h' i) ∧
        (∀ i u, i ∈ ls → update !! i = Some (Some u) →
                if decide (SkipList.fwd h u i = Some t)
                then cells_unlinked h h' i u t else cells_shrunk h h' i u).
Proof.
  intros Hnd. revert h. induction ls as [|i ls IH]; intros h Hls.
  { exists h. split; [done|]. split; [apply same_shape_refl|].
    split; [intros; apply cells_same_refl|]. by intros ?? ?%elem_of_nil. }
  apply NoDup_cons in Hnd as [Hi Hnd].
  destruct (Hls i) as (u & Hu & Hcu & Ht); [by left|].
  destruct (has_cell_spn h u i Hcu) as [sp Hsp].
  (* the heap after the turn for level [i] *)
  assert (∃ h1, (if bool_decide (SkipList.fwd h u i = Some t) then
                   sx ← SkipList.spn h t i;
                   h0 ← SkipList.set_spn h u i (sp + (sx - 1));
                   SkipList.set_fwd h0 u i (SkipList.fwd h0 t i)
                 else SkipList.set_spn h u i (sp - 1)) = Some h1 ∧
                same_shape h h1 ∧ (∀ j, j ≠ i → cells_same h h1 j) ∧
                if decide (SkipList.fwd h u i = Some t)
                then cells_unlinked h h1 i u t else cells_shrunk h h1 i u)
    as (h1 & E1 & S1 & O1 & C1).
  { destruct Hcu as (n & Hn & Hf & Hp). case_bool_decide as Hfw.
    - destruct (Ht Hfw) as [Hct Hut].
      destruct (has_cell_spn h t i Hct) as [sx Hsx]. rewrite Hsx. cbn.
      destruct (set_spn_is_Some h u i (sp + (sx - 1)) n Hn Hp) as [h0 E0].
      destruct (set_spn_spec _ _ _ _ _ E0) as (S0 & F0 & P0). rewrite E0. cbn.
      pose proof (same_shape_has_cell _ _ _ _ S0 (ex_intro _ n (conj Hn (conj Hf Hp))))
        as (n0 & Hn0 & Hf0 & Hp0).
      destruct (set_fwd_is_Some h0 u i (SkipList.fwd h0 t i) n0 Hn0 Hf0) as [h1 E1].
      destruct (set_fwd_spec _ _ _ _ _ E1) as (S1 & F1 & P1).
      exists h1. split; [done|]. split; [by apply (same_shape_trans _ _ _ S0)|].
      rewrite decide_True by done. split.
      + intros j Hj x. rewrite F1, F0, P1, P0.
        by rewrite !decide_False by (intros [? ?]; congruence).
      + split; [|split].
        * rewrite F1. by rewrite decide_True.
        * intros su st Hsu Hst. rewrite P1, P0. rewrite decide_True by done.
          congruence.
        * intros x Hx. rewrite F1, F0, P1, P0.
          by rewrite !decide_False by (intros [? ?]; congruence).
    - destruct (set_spn_is_Some h u i (sp - 1) n Hn Hp) as [h1 E1].
      destruct (set_spn_spec _ _ _ _ _ E1) as (S1 & F1 & P1).
      exists h1. split; [done|]. split; [done|].
      rewrite decide_False by done. split.
      + intros j Hj x. rewrite F1, P1.
        by rewrite !decide_False by (intros [? ?]; congruence).
      + split; [done|]. split.
        * intros sp' Hsp'. rewrite P1. rewrite decide_True by done. congruence.
        * intros x Hx. rewrite P1.
          by rewrite !decide_False by (intros [? ?]; congruence). }
  destruct (IH Hnd h1) as (h' & Hs & S' & O' & C').
  { intros j Hj. destruct (Hls j) as (uj & Huj & Hcj & Htj); [by right|].
    assert (j ≠ i) by (intros ->; done).
    exists uj. split; [done|]. split; [by apply (same_shape_has_cell h h1)|].
    rewrite (proj1 (O1 j ltac:(done) uj)). intros Hfw.
    destruct (Htj Hfw). split; [by apply (same_shape_has_cell h h1)|done]. }
  exists h'. cbn [SkipList.delete_unlink]. rewrite Hu. cbn. rewrite Hsp. cbn.
  rewrite E1. cbn. split; [done|].
  split; [by apply (same_shape_trans _ _ _ S1)|]. split.
  - intros j Hj. apply not_elem_of_cons in Hj as [Hji Hj].
    apply (cells_same_trans _ h1); [by apply O1|by apply O'].
  - intros j uj [->|Hj]%elem_of_cons Huj.
    + assert (uj = u) as -> by congruence. pose proof (O' i Hi) as Hsame.
      destruct (decide (SkipList.fwd h u i = Some t)).
      * destruct C1 as (A1 & A2 & A3). split; [|split].
        -- by rewrite (proj1 (Hsame u)).
        -- intros su st Hsu Hst. rewrite (proj2 (Hsame u)). by apply A2.
        -- intros x Hx. destruct (Hsame x) as [-> ->]. by apply A3.
      * destruct C1 as (A1 & A2 & A3). split; [|split].
        -- intros x. by rewrite (proj1 (Hsame x)).
        -- intros sp' Hsp'. rewrite (proj2 (Hsame u)). by apply A2.
        -- intros x Hx. rewrite (proj2 (Hsame x)). by apply A3.
    + assert (j ≠ i) by (intros ->; done).
      pose proof (O1 j ltac:(done)) as Hsame.
      specialize (C' j uj Hj Huj). rewrite (proj1 (Hsame uj)) in C'.
      destruct (decide (SkipList.fwd h uj j = Some t)).
      * destruct C' as (A1 & A2 & A3). split; [|split].
        -- by rewrite A1, (proj1 (Hsame t)).
        -- intros su st Hsu Hst. apply A2.
           ++ by rewrite (proj2 (Hsame uj)).
           ++ by rewrite (proj2 (Hsame t)).
        -- intros x Hx. destruct (A3 x Hx) as [-> ->]. apply Hsame.
      * destruct C' as (A1 & A2 & A3). split; [|split].
        -- intros x. by rewrite A1, (proj1 (Hsame x)).
        -- intros sp' Hsp'. apply A2. by rewrite (proj2 (Hsame uj)).
        -- intros x Hx. by rewrite (A3 x Hx), (proj2 (Hsame x)).
Qed.
End writes.

(** ** What the writes do to the links of one level *)

(** Membership in a list written with [++] and [::]. *)
Ltac elem_tac :=
  repeat first [rewrite elem_of_app | rewrite elem_of_cons];
  intuition congruence.

Section preserve.
Implicit Types (h : list SkipList.SkipListNode) (x y u t nw i : nat).
Implicit Types (l a b post : list nat).

Lemma alloc_next_tall h n i l :
  Forall (λ x, x < length h)%nat l →
  next_tall (h ++ [n]) i l = next_tall h i l.
Proof.
  induction 1 as [|x l Hx _ IH]; [done|]. cbn [next_tall].
  by rewrite alloc_tallb_old, IH.
Qed.

(** A new node at the end of the arena is not seen by the links. *)
Lemma level_ok_alloc h n i l :
  Forall (λ x, x < length h)%nat l →
  level_ok h i l → level_ok (h ++ [n]) i l.
Proof.
  induction 1 as [|x l Hx Hl IH]; [done|]. intros [Hlink Hrest]. split.
  - rewrite alloc_tallb_old by done. intros Htx. specialize (Hlink Htx).
    unfold link_ok in *. rewrite alloc_next_tall by done.
    by rewrite alloc_fwd_old, alloc_spn_old.
  - by apply IH.
Qed.

(** A level above all the nodes: the header points nowhere. *)
Lemma level_ok_top h i l :
  Forall (λ y, tallb h i y = false) l → SkipList.fwd h 0%nat i = None →
  level_ok h i (0%nat :: l).
Proof.
  intros Hl Hf. split.
  - intros _. unfold link_ok. apply next_tall_None in Hl. by rewrite Hl.
  - rewrite <- (app_nil_r l). by apply level_ok_short.
Qed.

Lemma level_ok_top_inv h i l :
  level_ok h i (0%nat :: l) → tallb h i 0%nat = true →
  Forall (λ y, tallb h i y = false) l → SkipList.fwd h 0%nat i = None.
Proof.
  intros [Hlink _] Ht Hl. specialize (Hlink Ht). unfold link_ok in Hlink.
  apply next_tall_None in Hl. by rewrite Hl in Hlink.
Qed.

(** The header points nowhere at a level: no node is tall there. *)
Lemma level_ok_header_None h i l :
  level_ok h i (0%nat :: l) → tallb h i 0%nat = true →
  SkipList.fwd h 0%nat i = None → Forall (λ y, tallb h i y = false) l.
Proof.
  intros [Hlink _] Ht Hf. specialize (Hlink Ht). unfold link_ok in Hlink.
  apply next_tall_None. destruct (next_tall h i l) as [[y d]|]; [|done].
  destruct Hlink as [Hy _]. congruence.
Qed.

(** The old link of [u] over the nodes [b], which are not tall. *)
Lemma link_ok_over h i u b post :
  Forall (λ y, tallb h i y = false) b → link_ok h i u (b ++ post) →
  match next_tall h i post with
  | Some (y, d) =>
      SkipList.fwd h u i = Some y ∧
      SkipList.spn h u i = Some (Z.of_nat (length b) + Z.of_nat d)
  | None => SkipList.fwd h u i = None
  end.
Proof.
  intros Hb%next_tall_None. unfold link_ok. rewrite next_tall_app, Hb.
  destruct (next_tall h i post) as [[y d]|]; cbn; [|done].
  intros [-> ->]. split; [done|]. f_equal. lia.
Qed.

Lemma link_ok_over_2 h i u b post :
  Forall (λ y, tallb h i y = false) b →
  match next_tall h i post with
  | Some (y, d) =>
      SkipList.fwd h u i = Some y ∧
      SkipList.spn h u i = Some (Z.of_nat (length b) + Z.of_nat d)
  | None => SkipList.fwd h u i = None
  end →
  link_ok h i u (b ++ post).
Proof.
  intros Hb%next_tall_None. unfold link_ok. rewrite next_tall_app, Hb.
  destruct (next_tall h i post) as [[y d]|]; cbn; [|done].
  intros [-> ->]. split; [done|]. f_equal. lia.
Qed.

Lemma same_shape_nottall h h' i l :
  same_shape h h' → Forall (λ y, tallb h i y = false) l →
  Forall (λ y, tallb h' i y = false) l.
Proof.
  intros Hs Hl. eapply Forall_impl; [exact Hl|].
  intros y. by rewrite (same_shape_tallb h h').
Qed.

(** The new node [nw] is tall at level [i] and has been spliced in
    after [u]. *)
Lemma level_ok_splice h h' i a u b nw post :
  same_shape h h' → NoDup (a ++ u :: b ++ nw :: post) →
  tallb h i u = true → Forall (λ y, tallb h i y = false) b →
  tallb h i nw = true →
  level_ok h i (a ++ u :: b ++ post) →
  cells_spliced h h' i u nw (Z.of_nat (length b)) →
  level_ok h' i (a ++ u :: b ++ nw :: post).
Proof.
  intros Hs Hnd Hu Hb Hnw Hl (Fu & Fn & Su & Sn & Oth).
  apply NoDup_app in Hnd as (_ & Ha & [Hub Hnd]%NoDup_cons).
  apply NoDup_app in Hnd as (_ & Hbn & [Hnp Hnd]%NoDup_cons).
  assert (Hunw : u ≠ nw) by (intros ->; apply Hub; elem_tac).
  apply (level_ok_before h h' i a u (b ++ post)); [done..| |done|].
  { intros x Hx _. apply Oth.
    - intros ->. apply (Ha u); [done|by left].
    - intros ->. apply (Ha nw); [done|]. elem_tac. }
  split.
  - intros _. unfold link_ok. rewrite next_tall_first.
    + split; [done|]. rewrite Su. f_equal. lia.
    + by apply (same_shape_nottall h).
    + by rewrite (same_shape_tallb h h').
  - apply level_ok_short; [by apply (same_shape_nottall h)|].
    pose proof (link_ok_over h i u b post Hb (level_ok_elem _ _ _ _ _ Hl Hu)) as Hold.
    split.
    + intros _. unfold link_ok. rewrite (same_shape_next_tall h h') by done.
      destruct (next_tall h i post) as [[y d]|].
      * destruct Hold as [Hf Hp]. split; [congruence|].
        rewrite (Sn _ Hp). f_equal. lia.
      * congruence.
    + apply (level_ok_frame h); [done| |].
      * intros x Hx _. apply Oth.
        -- intros ->. apply Hub. elem_tac.
        -- intros ->. by apply Hnp.
      * apply (level_ok_app h i (a ++ u :: b)). by rewrite <- app_assoc.
Qed.

(** The new node [nw] is not tall at level [i]: the span of [u] over it
    has grown. *)
Lemma level_ok_bump h h' i a u b nw post :
  same_shape h h' → NoDup (a ++ u :: b ++ nw :: post) →
  tallb h i u = true → Forall (λ y, tallb h i y = false) b →
  tallb h i nw = false →
  level_ok h i (a ++ u :: b ++ post) →
  cells_bumped h h' i u →
  level_ok h' i (a ++ u :: b ++ nw :: post).
Proof.
  intros Hs Hnd Hu Hb Hnw Hl (Fw & Su & Oth).
  apply NoDup_app in Hnd as (_ & Ha & [Hub Hnd]%NoDup_cons).
  apply NoDup_app in Hnd as (_ & Hbn & [Hnp Hnd]%NoDup_cons).
  apply (level_ok_before h h' i a u (b ++ post)); [done..| |done|].
  { intros x Hx _. split; [done|]. apply Oth.
    intros ->. apply (Ha u); [done|by left]. }
  pose proof (link_ok_over h i u b post Hb (level_ok_elem _ _ _ _ _ Hl Hu)) as Hold.
  split.
  - intros _.
    change (b ++ nw :: post) with (b ++ [nw] ++ post). rewrite app_assoc.
    apply link_ok_over_2.
    + apply (same_shape_nottall h); [done|]. apply Forall_app. split; [done|].
      by apply Forall_singleton.
    + rewrite (same_shape_next_tall h h') by done.
      destruct (next_tall h i post) as [[y d]|].
      * destruct Hold as [Hf Hp]. split; [by rewrite Fw|].
        rewrite (Su _ Hp). f_equal. rewrite length_app. cbn. lia.
      * by rewrite Fw.
  - change (b ++ nw :: post) with (b ++ [nw] ++ post). rewrite app_assoc.
    apply level_ok_short.
    + apply (same_shape_nottall h); [done|]. apply Forall_app. split; [done|].
      by apply Forall_singleton.
    + apply (level_ok_frame h); [done| |].
      * intros x Hx _. split; [done|]. apply Oth.
        intros ->. apply Hub. elem_tac.
      * apply (level_ok_app h i (a ++ u :: b)). by rewrite <- app_assoc.
Qed.

(** The forward pointer of [u] leads to [t] exactly when [t] is tall. *)
Lemma fwd_next_iff h i a u b t post :
  NoDup (a ++ u :: b ++ t :: post) →
  tallb h i u = true → Forall (λ y, tallb h i y = false) b →
  level_ok h i (a ++ u :: b ++ t :: post) →
  SkipList.fwd h u i = Some t ↔ tallb h i t = true.
Proof.
  intros Hnd Hu Hb Hl.
  pose proof (link_ok_over h i u b (t :: post) Hb (level_ok_elem _ _ _ _ _ Hl Hu))
    as Hold.
  cbn [next_tall] in Hold. destruct (tallb h i t) eqn:Ht.
  - by destruct Hold as [-> _].
  - split; [|done]. intros Hf.
    destruct (next_tall h i post) as [[y d]|] eqn:Hn; cbn in Hold; [|congruence].
    destruct Hold as [Hy _]. assert (y = t) as -> by congruence.
    apply next_tall_Some in Hn as (p1 & p2 & -> & _).
    apply NoDup_app in Hnd as (_ & _ & [_ Hnd]%NoDup_cons).
    apply NoDup_app in Hnd as (_ & _ & [Hnp _]%NoDup_cons).
    exfalso. apply Hnp. elem_tac.
Qed.

(** The node [t], tall at level [i], has been unlinked. *)
Lemma level_ok_unlink h h' i a u b t post :
  same_shape h h' → NoDup (a ++ u :: b ++ t :: post) →
  tallb h i u = true → Forall (λ y, tallb h i y = false) b →
  tallb h i t = true →
  level_ok h i (a ++ u :: b ++ t :: post) →
  cells_unlinked h h' i u t →
  level_ok h' i (a ++ u :: b ++ post).
Proof.
  intros Hs Hnd Hu Hb Ht Hl (Fu & Su & Oth).
  pose proof (link_ok_over h i u b (t :: post) Hb (level_ok_elem _ _ _ _ _ Hl Hu))
    as Hold.
  cbn [next_tall] in Hold. rewrite Ht in Hold. destruct Hold as [Hfu Hsu].
  assert (Hlt : link_ok h i t post).
  { apply (level_ok_elem h i (a ++ u :: b)); [|done]. by rewrite <- app_assoc. }
  apply NoDup_app in Hnd as (_ & Ha & [Hub Hnd]%NoDup_cons).
  apply NoDup_app in Hnd as (_ & Hbn & [Hnp Hnd]%NoDup_cons).
  apply (level_ok_before h h' i a u (b ++ t :: post)); [done..| |done|].
  { intros x Hx _. apply Oth. intros ->. apply (Ha u); [done|by left]. }
  split.
  - intros _. apply link_ok_over_2; [by apply (same_shape_nottall h)|].
    rewrite (same_shape_next_tall h h') by done. unfold link_ok in Hlt.
    destruct (next_tall h i post) as [[y d]|].
    + destruct Hlt as [Hft Hst]. split; [congruence|].
      rewrite (Su _ _ Hsu Hst). f_equal. cbn. lia.
    + congruence.
  - apply level_ok_short; [by apply (same_shape_nottall h)|].
    apply (level_ok_frame h); [done| |].
    + intros x Hx _. apply Oth. intros ->. apply Hub. elem_tac.
    + apply (level_ok_app h i (a ++ u :: b ++ [t])).
      rewrite <- app_assoc. cbn. by rewrite <- app_assoc.
Qed.

(** The node [t], not tall at level [i], has gone: the span of [u]
    over it has shrunk. *)
Lemma level_ok_shrink h h' i a u b t post :
  same_shape h h' → NoDup (a ++ u :: b ++ t :: post) →
  tallb h i u = true → Forall (λ y, tallb h i y = false) b →
  tallb h i t = false →
  level_ok h i (a ++ u :: b ++ t :: post) →
  cells_shrunk h h' i u →
  level_ok h' i (a ++ u :: b ++ post).
Proof.
  intros Hs Hnd Hu Hb Ht Hl (Fw & Su & Oth).
  assert (Hbt : Forall (λ y, tallb h i y = false) (b ++ [t])).
  { apply Forall_app. split; [done|]. by apply Forall_singleton. }
  assert (Hl' : level_ok h i (a ++ u :: (b ++ [t]) ++ post)).
  { by rewrite <- app_assoc. }
  pose proof (link_ok_over h i u (b ++ [t]) post Hbt
                (level_ok_elem _ _ _ _ _ Hl' Hu)) as Hold.
  apply NoDup_app in Hnd as (_ & Ha & [Hub Hnd]%NoDup_cons).
  apply NoDup_app in Hnd as (_ & Hbn & [Hnp Hnd]%NoDup_cons).
  apply (level_ok_before h h' i a u (b ++ t :: post)); [done..| |done|].
  { intros x Hx _. split; [done|]. apply Oth.
    intros ->. apply (Ha u); [done|by left]. }
  split.
  - intros _. apply link_ok_over_2; [by apply (same_shape_nottall h)|].
    rewrite (same_shape_next_tall h h') by done.
    destruct (next_tall h i post) as [[y d]|].
    + destruct Hold as [Hfu Hsu]. split; [by rewrite Fw|].
      rewrite (Su _ Hsu). f_equal. rewrite length_app. cbn. lia.
    + by rewrite Fw.
  - apply level_ok_short; [by apply (same_shape_nottall h)|].
    apply (level_ok_frame h); [done| |].
    + intros x Hx _. split; [done|]. apply Oth. intros ->. apply Hub. elem_tac.
    + apply (level_ok_app h i (a ++ u :: b ++ [t])).
      rewrite <- app_assoc. cbn. by rewrite <- app_assoc.
Qed.
End preserve.

(** ** What the invariant of a skip list gives *)
Section inv_facts.
Implicit Types (sl : SkipList.t) (ids b post : list nat) (x y u t i : nat).
Implicit Types (h : list SkipList.SkipListNode) (k : number * string).

Lemma node_ok_is_Some h (lv : nat) x : node_ok h lv x → is_Some (h !! x).
Proof. intros (n & Hn & _). by exists n. Qed.

Lemma inv_valid sl ids :
  sl_inv sl ids → Forall (λ y, is_Some (SkipList.nodes sl !! y)) ids.
Proof.
  intros Hinv. eapply Forall_impl; [exact (inv_nodes _ _ Hinv)|].
  intros y. apply node_ok_is_Some.
Qed.

Lemma inv_bound sl ids :
  sl_inv sl ids → Forall (λ y, y < length (SkipList.nodes sl))%nat ids.
Proof.
  intros Hinv. eapply Forall_impl; [exact (inv_valid _ _ Hinv)|].
  intros y. by apply lookup_lt_is_Some_1.
Qed.

Lemma inv_header_tall sl ids i :
  sl_inv sl ids → (i < 32)%nat → tallb (SkipList.nodes sl) i 0%nat = true.
Proof.
  intros Hinv Hi. destruct (inv_header _ _ Hinv) as (hd & Hhd & Hl & _).
  unfold tallb. rewrite Hhd. apply bool_decide_eq_true. lia.
Qed.

Lemma inv_header_cell sl ids i :
  sl_inv sl ids → (i < 32)%nat → has_cell (SkipList.nodes sl) 0%nat i.
Proof.
  intros Hinv Hi. destruct (inv_header _ _ Hinv) as (hd & Hhd & Hl & Hf & Hs).
  exists hd. split; [done|]. lia.
Qed.

Lemma inv_has_cell sl ids u i :
  sl_inv sl ids → u ∈ 0%nat :: ids → tallb (SkipList.nodes sl) i u = true →
  has_cell (SkipList.nodes sl) u i.
Proof.
  intros Hinv [->|Hu]%elem_of_cons Ht.
  - destruct (inv_header _ _ Hinv) as (hd & Hhd & Hl & Hf & Hs).
    unfold tallb in Ht. rewrite Hhd in Ht. apply bool_decide_eq_true in Ht.
    exists hd. split; [done|]. lia.
  - pose proof (inv_nodes _ _ Hinv) as Hn. rewrite Forall_forall in Hn.
    destruct (Hn u Hu) as (n & Hn' & Hl & Hf & Hs).
    unfold tallb in Ht. rewrite Hn' in Ht. apply bool_decide_eq_true in Ht.
    exists n. split; [done|]. lia.
Qed.

Lemma inv_above sl ids i :
  sl_inv sl ids → (SkipList.lvl sl ≤ i)%nat →
  Forall (λ y, tallb (SkipList.nodes sl) i y = false) ids.
Proof.
  intros Hinv Hi. eapply Forall_impl; [exact (inv_nodes _ _ Hinv)|].
  intros y Hy. by apply (tallb_node_ok _ (SkipList.lvl sl)).
Qed.

Lemma inv_level0 sl ids :
  sl_inv sl ids → Forall (λ y, tallb (SkipList.nodes sl) 0 y = true) ids.
Proof.
  intros Hinv. eapply Forall_impl; [exact (inv_nodes _ _ Hinv)|].
  intros y Hy. by apply (tallb_node_ok_0 _ (SkipList.lvl sl)).
Qed.

(** The nodes before a key and the nodes from it on. *)
Lemma sorted_split h ids k :
  StronglySorted key_lt (key_of h <$> ids) →
  ∃ b post, ids = b ++ post ∧
            Forall (λ y, key_lt (key_of h y) k) b ∧
            Forall (λ y, ¬ key_lt (key_of h y) k) post.
Proof.
  induction ids as [|x ids IH]; csimpl.
  { intros _. by exists [], []. }
  intros [Hx Hs]%StronglySorted_cons.
  destruct (decide (key_lt (key_of h x) k)) as [Hlt|Hlt].
  - destruct (IH Hs) as (b & post & -> & Hb & Hpost).
    exists (x :: b), post. split; [done|]. split; [by constructor|done].
  - exists [], (x :: ids). split; [done|]. split; [constructor|].
    constructor; [done|]. rewrite Forall_fmap in Hx.
    eapply Forall_impl; [exact Hx|]. intros y Hxy Hyk. cbn in Hxy.
    apply Hlt. by apply (key_lt_trans _ (key_of h y)).
Qed.

Lemma sorted_split_absent h ids k :
  StronglySorted key_lt (key_of h <$> ids) →
  Forall (λ y, (key_of h y).1 ≠ NaN) ids → k.1 ≠ NaN →
  k ∉ key_of h <$> ids →
  ∃ b post, ids = b ++ post ∧
            Forall (λ y, key_lt (key_of h y) k) b ∧
            Forall (λ y, key_lt k (key_of h y)) post.
Proof.
  intros Hs Hnum Hkn Hk.
  destruct (sorted_split h ids k Hs) as (b & post & -> & Hb & Hp).
  exists b, post. split; [done|]. split; [done|].
  apply Forall_app in Hnum as [_ Hnum].
  rewrite Forall_forall in Hp, Hnum |- *. intros y Hy.
  destruct (decide (key_lt k (key_of h y))) as [|Hn]; [done|].
  exfalso. apply Hk.
  rewrite (key_lt_total k (key_of h y) Hkn (Hnum y Hy) Hn (Hp y Hy)).
  apply list_elem_of_fmap. exists y. split; [done|].
  apply elem_of_app. by right.
Qed.

Lemma sorted_split_present h ids k :
  StronglySorted key_lt (key_of h <$> ids) → k ∈ key_of h <$> ids →
  ∃ b t post, ids = b ++ t :: post ∧
              Forall (λ y, key_lt (key_of h y) k) b ∧ key_of h t = k ∧
              Forall (λ y, key_lt k (key_of h y)) post.
Proof.
  intros Hs Hk. destruct (sorted_split h ids k Hs) as (b & post & -> & Hb & Hp).
  apply list_elem_of_fmap in Hk as (t & -> & Ht).
  rewrite fmap_app in Hs. apply StronglySorted_app in Hs as (_ & _ & Hs).
  apply elem_of_app in Ht as [Ht|Ht].
  { rewrite Forall_forall in Hb. by destruct (key_lt_irrefl _ (Hb t Ht)). }
  destruct post as [|y post]; [by apply elem_of_nil in Ht|].
  csimpl in Hs. apply StronglySorted_cons in Hs as [Hy Hs].
  rewrite Forall_fmap in Hy. apply Forall_cons in Hp as [Hyk Hp].
  assert (Hkey : key_of h y = key_of h t).
  { apply elem_of_cons in Ht as [->|Ht]; [done|].
    rewrite Forall_forall in Hy. destruct Hyk. by apply (Hy t). }
  exists b, y, post. split; [done|]. split; [done|]. split; [done|].
  rewrite <- Hkey. done.
Qed.
End inv_facts.

(** ** Writes that keep the shapes *)
Section inv_shape.
Implicit Types (sl : SkipList.t) (ids b post : list nat) (x y u t i : nat).
Implicit Types (h : list SkipList.SkipListNode) (k : number * string).

Lemma same_shape_keys h h' ids :
  same_shape h h' → key_of h' <$> ids = key_of h <$> ids.
Proof.
  intros Hs. apply list_fmap_ext. intros _ x _. by apply same_shape_key_of.
Qed.

Lemma same_shape_last_tall h h' i pre u (p : nat) :
  same_shape h h' → last_tall h i pre u p → last_tall h' i pre u p.
Proof.
  intros Hs (a & b & -> & Hb & Hu & ->). exists a, b. split; [done|].
  split; [by apply (same_shape_nottall h)|].
  by rewrite (same_shape_tallb h h').
Qed.

Lemma same_shape_sym h h' : same_shape h h' → same_shape h' h.
Proof. intros [Hl Hs]. split; [done|]. intros x. by rewrite Hs. Qed.

Lemma node_ok_mono h (lv lv' : nat) x :
  (lv ≤ lv')%nat → node_ok h lv x → node_ok h lv' x.
Proof.
  intros Hle (n & Hn & Hl & Hf & Hs). exists n. split; [done|].
  split; [lia|done].
Qed.

(** The invariant after writes to the cells that keep the links of
    every level right. *)
Lemma sl_inv_same_shape sl sl' ids :
  sl_inv sl ids → same_shape (SkipList.nodes sl) (SkipList.nodes sl') →
  SkipList.maxLevel sl' = 32%nat →
  (SkipList.lvl sl ≤ SkipList.lvl sl' ≤ 32)%nat →
  SkipList.length sl' = SkipList.length sl →
  (∀ i, (i < 32)%nat → level_ok (SkipList.nodes sl') i (0%nat :: ids)) →
  sl_inv sl' ids.
Proof.
  intros Hinv Hs Hm Hl Hlen Hlev. pose proof (inv_lvl _ _ Hinv).
  split; [done|lia| |apply (inv_nodup _ _ Hinv)| |done| | | |].
  - destruct (inv_header _ _ Hinv) as (hd & Hhd & Hhl & Hhf & Hhs).
    destruct Hs as [_ Hs]. specialize (Hs 0%nat). rewrite Hhd in Hs.
    destruct (SkipList.nodes sl' !! 0%nat) as [hd'|]; [|done].
    exists hd'. split; [done|]. unfold shape in Hs. cbn in Hs.
    split; [congruence|]. split; congruence.
  - eapply Forall_impl; [exact (inv_nodes _ _ Hinv)|]. intros y Hy.
    apply (same_shape_node_ok (SkipList.nodes sl)); [done|].
    apply (node_ok_mono _ (SkipList.lvl sl)); [lia|done].
  - rewrite (same_shape_keys (SkipList.nodes sl)) by done.
    apply (inv_sorted _ _ Hinv).
  - eapply Forall_impl; [exact (inv_numeric _ _ Hinv)|]. intros y Hy.
    by rewrite (same_shape_key_of (SkipList.nodes sl)).
  - rewrite Hlen. apply (inv_length _ _ Hinv).
  - destruct Hs as [-> _]. apply (inv_heap _ _ Hinv).
Qed.

Lemma alloc_last_tall h n i pre u (p : nat) :
  Forall (λ x, x < length h)%nat pre →
  last_tall h i pre u p → last_tall (h ++ [n]) i pre u p.
Proof.
  intros Hpre (a & b & -> & Hb & Hu & ->). exists a, b. split; [done|].
  apply Forall_app in Hpre as [_ [Hlu Hlb]%Forall_cons].
  split; [|split; [|done]].
  - rewrite Forall_forall in Hb, Hlb |- *. intros y Hy.
    rewrite alloc_tallb_old; [by apply Hb|by apply Hlb].
  - by rewrite alloc_tallb_old.
Qed.

Lemma alloc_node_ok h n (lv : nat) x : node_ok h lv x → node_ok (h ++ [n]) lv x.
Proof.
  intros (n' & Hn & Hl). exists n'. split; [|done].
  rewrite alloc_lookup_old; [done|]. by apply lookup_lt_Some in Hn.
Qed.

(** At level 0 every node is tall: the last tall node is the last
    node. *)
Lemma last_tall_level0 h pre u (p : nat) :
  Forall (λ y, tallb h 0 y = true) pre → last_tall h 0 pre u p →
  pre = take p pre ++ [u] ∧ length pre = S p.
Proof.
  intros Hpre (a & b & -> & Hb & Hu & ->).
  apply Forall_app in Hpre as [_ [_ Hb']%Forall_cons].
  destruct b as [|y b].
  - rewrite take_app_length. split; [done|]. rewrite length_app. cbn. lia.
  - apply Forall_cons in Hb as [Hy _], Hb' as [Hy' _]. congruence.
Qed.

Lemma NoDup_middle (a c : list nat) x :
  NoDup (a ++ c) → x ∉ a ++ c → NoDup (a ++ x :: c).
Proof.
  intros (Ha & Hac & Hc)%NoDup_app [Hxa Hxc]%not_elem_of_app.
  apply NoDup_app. split; [done|]. split.
  - intros y Hy [->|Hyc]%elem_of_cons; [done|]. by apply (Hac y).
  - by constructor.
Qed.

Lemma cells_spliced_same h h' h'' i u nw d :
  cells_spliced h h' i u nw d → cells_same h' h'' i →
  cells_spliced h h'' i u nw d.
Proof.
  intros (Fu & Fn & Su & Sn & Oth) Hsame.
  split; [by rewrite (proj1 (Hsame u))|].
  split; [by rewrite (proj1 (Hsame nw))|].
  split; [by rewrite (proj2 (Hsame u))|].
  split.
  - intros sp Hsp. rewrite (proj2 (Hsame nw)). by apply Sn.
  - intros x Hxu Hxn. destruct (Hsame x) as [-> ->]. by apply Oth.
Qed.

Lemma cells_same_bumped h h' h'' i u :
  cells_same h h' i → cells_bumped h' h'' i u → cells_bumped h h'' i u.
Proof.
  intros Hsame (Fw & Su & Oth). split; [|split].
  - intros x. by rewrite Fw, (proj1 (Hsame x)).
  - intros sp Hsp. apply Su. by rewrite (proj2 (Hsame u)).
  - intros x Hx. by rewrite (Oth x Hx), (proj2 (Hsame x)).
Qed.
End inv_shape.

(** ** [insert] keeps the invariant *)

(** The fields of a skip list that is written as a record. *)
Ltac sl_simpl :=
  cbn [SkipList.nodes SkipList.maxLevel SkipList.lvl SkipList.tail
       SkipList.length].

Section insert.
Implicit Types (sl : SkipList.t) (ids b post : list nat) (x y u t i nl : nat).
Implicit Types (h : list SkipList.SkipListNode) (s : number) (m : string).
Implicit Types (update : list (option nat)) (rank : list Z).

(** The search of [insert]: [update[i]] is the last node before the
    place of the key that is tall at level [i], [rank[i]] its
    position. *)
Lemma insert_descend_inv sl ids s m b post :
  sl_inv sl ids → ids = b ++ post →
  Forall (λ y, key_lt (key_of (SkipList.nodes sl) y) (s, m)) b →
  Forall (λ y, ¬ key_lt (key_of (SkipList.nodes sl) y) (s, m)) post →
  ∃ update rank,
    SkipList.insert_descend (SkipList.lvl sl) (SkipList.nodes sl) s m 0%nat 0
      (replicate 32 None) (replicate 32 0) = Some (update, rank) ∧
    length update = 32%nat ∧ length rank = 32%nat ∧
    (∀ i, (i < SkipList.lvl sl)%nat →
       ∃ u (p : nat), last_tall (SkipList.nodes sl) i (0%nat :: b) u p ∧
              update !! i = Some (Some u) ∧ rank !! i = Some (Z.of_nat p)) ∧
    (∀ i, (SkipList.lvl sl ≤ i < 32)%nat →
       update !! i = Some None ∧ rank !! i = Some 0).
Proof.
  intros Hinv -> Hb Hp. pose proof (inv_lvl _ _ Hinv) as Hl.
  destruct (insert_descend_spec (SkipList.lvl sl) (SkipList.nodes sl) s m
              [] 0%nat b post 0 (replicate 32 None) (replicate 32 0))
    as (update & rank & E & Lu & Lr & In & Out).
  - intros i Hi. apply (inv_levels _ _ Hinv). lia.
  - intros i Hi. apply (inv_header_tall sl _ i Hinv). lia.
  - done.
  - done.
  - apply (inv_valid _ _ Hinv).
  - pose proof (inv_heap _ _ Hinv) as Hh. rewrite length_app in Hh. lia.
  - done.
  - rewrite length_replicate. lia.
  - rewrite length_replicate. lia.
  - exists update, rank. rewrite length_replicate in Lu. rewrite length_replicate in Lr.
    split; [done|]. split; [done|]. split; [done|]. split; [done|].
    intros i Hi. destruct (Out i) as [-> ->]; [lia|].
    by rewrite !lookup_replicate_2 by lia.
Qed.

(** The levels that a taller node adds start at the header. *)
Lemma insert_prepare sl ids b post nl update rank :
  sl_inv sl ids → ids = b ++ post →
  length update = 32%nat → length rank = 32%nat →
  (∀ i, (i < SkipList.lvl sl)%nat →
     ∃ u (p : nat), last_tall (SkipList.nodes sl) i (0%nat :: b) u p ∧
            update !! i = Some (Some u) ∧ rank !! i = Some (Z.of_nat p)) →
  (1 ≤ nl ≤ 32)%nat →
  ∃ h1 update' rank',
    (if bool_decide (SkipList.lvl sl < nl)%nat then
       '(h, update, rank) ← SkipList.insert_raise
                               (seq (SkipList.lvl sl) (nl - SkipList.lvl sl))
                               (SkipList.nodes sl) (SkipList.length sl) update rank;
       Some (h, update, rank, nl)
     else Some (SkipList.nodes sl, update, rank, SkipList.lvl sl))
    = Some (h1, update', rank', SkipList.lvl sl `max` nl)%nat ∧
    sl_inv {| SkipList.nodes := h1; SkipList.maxLevel := 32;
              SkipList.lvl := (SkipList.lvl sl `max` nl)%nat;
              SkipList.tail := SkipList.tail sl;
              SkipList.length := SkipList.length sl |} ids ∧
    same_shape (SkipList.nodes sl) h1 ∧
    (∀ i, (i < SkipList.lvl sl `max` nl)%nat →
       ∃ u (p : nat), last_tall h1 i (0%nat :: b) u p ∧
              update' !! i = Some (Some u) ∧ rank' !! i = Some (Z.of_nat p)).
Proof.
  intros Hinv -> Lu Lr Hup Hnl. pose proof (inv_lvl _ _ Hinv) as Hl.
  case_bool_decide as Hraise.
  - destruct (insert_raise_spec (seq (SkipList.lvl sl) (nl - SkipList.lvl sl))
                (SkipList.nodes sl) (SkipList.length sl) update rank)
      as (h1 & update' & rank' & E & Hs & Lu' & Lr' & Hf & Hsp & In & Out).
    { intros i Hi%elem_of_seq. split; [|lia].
      apply (inv_header_cell sl _ i Hinv). lia. }
    exists h1, update', rank'. rewrite E. cbn. rewrite Nat.max_r by lia.
    split; [done|]. split; [|split; [done|]].
    + apply (sl_inv_same_shape sl); sl_simpl; [done|done|done|lia|done|].
      intros i Hi. destruct (decide (i < SkipList.lvl sl)%nat) as [Hlt|Hge].
      * apply (level_ok_frame (SkipList.nodes sl)); [done| |by apply (inv_levels _ _ Hinv)].
        intros x _ _. split; [done|]. apply Hsp. intros [_ Hin%elem_of_seq]. lia.
      * apply level_ok_top.
        -- apply (same_shape_nottall (SkipList.nodes sl)); [done|].
           apply (inv_above _ _ _ Hinv). lia.
        -- rewrite Hf.
           apply (level_ok_top_inv _ _ (b ++ post));
             [by apply (inv_levels _ _ Hinv)|by apply (inv_header_tall sl _ i Hinv)|].
           apply (inv_above _ _ _ Hinv). lia.
    + intros i Hi. destruct (decide (i < SkipList.lvl sl)%nat) as [Hlt|Hge].
      * destruct (Hup i Hlt) as (u & p & Hlast & Hu & Hr). exists u, p.
        split; [by apply (same_shape_last_tall (SkipList.nodes sl))|].
        destruct (Out i) as [-> ->]; [|done]. intros Hin%elem_of_seq. lia.
      * exists 0%nat, 0%nat. destruct (In i) as [-> ->]; [apply elem_of_seq; lia|].
        split; [|done]. exists [], b. split; [done|]. split; [|split; [|done]].
        -- apply (same_shape_nottall (SkipList.nodes sl)); [done|].
           pose proof (inv_above _ _ i Hinv ltac:(lia)) as Hab.
           by apply Forall_app in Hab as [? _].
        -- rewrite (same_shape_tallb (SkipList.nodes sl)) by done.
           apply (inv_header_tall sl _ i Hinv). lia.
  - exists (SkipList.nodes sl), update, rank. rewrite Nat.max_l by lia.
    split; [done|]. split; [|split; [apply same_shape_refl|done]].
    apply (sl_inv_same_shape sl); sl_simpl; [done|apply same_shape_refl|done|lia|done|].
    intros i Hi. by apply (inv_levels _ _ Hinv).
Qed.

Lemma alloc_has_cell h n x i : has_cell h x i → has_cell (h ++ [n]) x i.
Proof.
  intros (n' & Hn & Hc). exists n'. split; [|done].
  rewrite alloc_lookup_old; [done|]. by apply lookup_lt_Some in Hn.
Qed.

(** What the search has found, read in the arena with the new node. *)
Lemma insert_update_alloc sl ids b post n update rank :
  sl_inv sl ids → ids = b ++ post →
  (∀ i, (i < SkipList.lvl sl)%nat →
     ∃ u (p : nat), last_tall (SkipList.nodes sl) i (0%nat :: b) u p ∧
            update !! i = Some (Some u) ∧ rank !! i = Some (Z.of_nat p)) →
  rank !! 0%nat = Some (Z.of_nat (length b)) ∧
  ∀ i, (i < SkipList.lvl sl)%nat →
    ∃ u a' b', 0%nat :: b = a' ++ u :: b' ∧
      Forall (λ y, tallb (SkipList.nodes sl ++ [n]) i y = false) b' ∧
      tallb (SkipList.nodes sl ++ [n]) i u = true ∧
      update !! i = Some (Some u) ∧ rank !! i = Some (Z.of_nat (length a')) ∧
      u ≠ length (SkipList.nodes sl) ∧
      has_cell (SkipList.nodes sl ++ [n]) u i.
Proof.
  intros Hinv -> Hup. pose proof (inv_lvl _ _ Hinv) as Hl.
  pose proof (inv_bound _ _ Hinv) as Hbound.
  pose proof (inv_heap _ _ Hinv) as Hheap.
  assert (Hbound0 : Forall (λ x, x < length (SkipList.nodes sl))%nat (0%nat :: b)).
  { apply Forall_app in Hbound as [Hb _]. constructor; [lia|done]. }
  split.
  - destruct (Hup 0%nat) as (u & p & Hlast & _ & Hr); [lia|].
    apply last_tall_level0 in Hlast as [_ Hlen].
    + cbn in Hlen. rewrite Hr. f_equal. lia.
    + constructor; [apply (inv_header_tall sl _ 0%nat Hinv); lia|].
      pose proof (inv_level0 _ _ Hinv) as H0. by apply Forall_app in H0 as [? _].
  - intros i Hi. destruct (Hup i Hi) as (u & p & (a' & b' & Heq & Hb' & Htu & ->) & Hu & Hr).
    assert (Hu_in : u ∈ 0%nat :: b) by (rewrite Heq; elem_tac).
    assert (Hu_lt : (u < length (SkipList.nodes sl))%nat).
    { rewrite Forall_forall in Hbound0. by apply Hbound0. }
    exists u, a', b'. split; [done|]. split; [|split; [|split; [done|split; [done|split]]]].
    + rewrite Forall_forall in Hb', Hbound0 |- *. intros y Hy.
      rewrite alloc_tallb_old; [by apply Hb'|]. apply Hbound0. rewrite Heq. elem_tac.
    + by rewrite alloc_tallb_old.
    + lia.
    + apply alloc_has_cell. apply (inv_has_cell sl (b ++ post)); [done| |done].
      change (0%nat :: b ++ post) with ((0%nat :: b) ++ post).
      apply elem_of_app. by left.
Qed.

(** The new node is linked in at the levels below its height; above,
    the spans over it grow. *)
Lemma insert_link sl ids b post nl s m update rank :
  sl_inv sl ids → ids = b ++ post →
  (1 ≤ nl ≤ SkipList.lvl sl)%nat →
  (∀ i, (i < SkipList.lvl sl)%nat →
     ∃ u (p : nat), last_tall (SkipList.nodes sl) i (0%nat :: b) u p ∧
            update !! i = Some (Some u) ∧ rank !! i = Some (Z.of_nat p)) →
  ∃ h3 h4,
    SkipList.insert_splice (seq 0 nl)
      (SkipList.nodes sl ++ [SkipList.newNode s m nl])
      (length (SkipList.nodes sl)) update rank = Some h3 ∧
    SkipList.insert_bump (seq nl (SkipList.lvl sl - nl)) h3 update = Some h4 ∧
    same_shape (SkipList.nodes sl ++ [SkipList.newNode s m nl]) h4 ∧
    (∀ i, (i < 32)%nat →
       level_ok h4 i (0%nat :: b ++ length (SkipList.nodes sl) :: post)).
Proof.
  intros Hinv -> Hnl Hup.
  destruct (insert_update_alloc sl _ b post (SkipList.newNode s m nl) update rank
              Hinv eq_refl Hup) as [Hr0 Hup2].
  remember (SkipList.nodes sl) as h eqn:Hh.
  remember (SkipList.newNode s m nl) as n eqn:Hn.
  remember (length h) as nw eqn:Hnw.
  pose proof (inv_lvl _ _ Hinv) as Hl.
  pose proof (inv_bound _ _ Hinv) as Hbound. rewrite <- Hh in Hbound.
  pose proof (inv_heap _ _ Hinv) as Hheap. rewrite <- Hh in Hheap.
  assert (Hbound0 : Forall (λ x, x < length h)%nat (0%nat :: b ++ post)).
  { constructor; [lia|done]. }
  assert (Hfresh : nw ∉ 0%nat :: b ++ post).
  { intros Hin. rewrite Forall_forall in Hbound0. specialize (Hbound0 _ Hin). lia. }
  assert (Hnd : NoDup (0%nat :: b ++ nw :: post)).
  { apply (NoDup_middle (0%nat :: b) post nw); [|done].
    apply (inv_nodup _ _ Hinv). }
  assert (Hnwn : (h ++ [n]) !! nw = Some n) by (subst nw; apply alloc_lookup_new).
  assert (Htnw : ∀ i, tallb (h ++ [n]) i nw = bool_decide (i < nl)%nat).
  { intros i. unfold tallb. rewrite Hnwn. by subst n. }
  assert (Hlev2 : ∀ i, (i < 32)%nat → level_ok (h ++ [n]) i (0%nat :: b ++ post)).
  { intros i Hi. apply level_ok_alloc; [done|]. rewrite Hh.
    by apply (inv_levels _ _ Hinv). }
  destruct (insert_splice_spec (seq 0 nl) (h ++ [n]) nw update rank
              (Z.of_nat (length b))) as (h3 & E3 & S3 & O3 & C3).
  { apply NoDup_seq. }
  { done. }
  { intros i Hi%elem_of_seq. split.
    - exists n. split; [done|]. subst n. cbn. rewrite !length_replicate. lia.
    - destruct (Hup2 i) as (u & a' & b' & _ & _ & _ & Hu & Hr & Hne & Hc); [lia|].
      exists u, (Z.of_nat (length a')). by subst nw. }
  destruct (insert_bump_spec (seq nl (SkipList.lvl sl - nl)) h3 update)
    as (h4 & E4 & S4 & O4 & C4).
  { apply NoDup_seq. }
  { intros i Hi%elem_of_seq.
    destruct (Hup2 i) as (u & a' & b' & _ & _ & _ & Hu & Hr & Hne & Hc); [lia|].
    exists u. split; [done|]. by apply (same_shape_has_cell (h ++ [n])). }
  exists h3, h4. split; [done|]. split; [done|].
  assert (S24 : same_shape (h ++ [n]) h4) by (by apply (same_shape_trans _ h3)).
  split; [done|]. intros i Hi.
  destruct (decide (i < SkipList.lvl sl)%nat) as [Hlt|Hge].
  - destruct (Hup2 i Hlt) as (u & a' & b' & Heq & Hb' & Htu & Hu & Hr & Hne & Hc).
    assert (Hlen : (S (length b) = length a' + S (length b'))%nat).
    { apply (f_equal length) in Heq. rewrite length_app in Heq. cbn in Heq. lia. }
    change (0%nat :: b ++ nw :: post) with ((0%nat :: b) ++ nw :: post) in Hnd |- *.
    specialize (Hlev2 i Hi).
    change (0%nat :: b ++ post) with ((0%nat :: b) ++ post) in Hlev2.
    rewrite Heq, <- app_assoc in Hnd, Hlev2 |- *.
    cbn [app] in Hnd, Hlev2 |- *.
    destruct (decide (i < nl)%nat) as [Hin|Hout].
    + apply (level_ok_splice (h ++ [n])); [done..| |done|].
      { rewrite Htnw. by apply bool_decide_eq_true. }
      apply (cells_spliced_same _ h3).
      * replace (Z.of_nat (length b')) with (Z.of_nat (length b) - Z.of_nat (length a'))
          by lia.
        apply C3; [apply elem_of_seq; lia|done..].
      * apply O4. intros Hin'%elem_of_seq. lia.
    + apply (level_ok_bump (h ++ [n])); [done..| |done|].
      { rewrite Htnw. apply bool_decide_eq_false. lia. }
      apply (cells_same_bumped _ h3).
      * apply O3. intros Hin'%elem_of_seq. lia.
      * apply C4; [apply elem_of_seq; lia|done].
  - assert (Hsame : cells_same (h ++ [n]) h4 i).
    { apply (cells_same_trans _ h3).
      - apply O3. intros Hin'%elem_of_seq. lia.
      - apply O4. intros Hin'%elem_of_seq. lia. }
    apply level_ok_top.
    + apply (same_shape_nottall (h ++ [n])); [done|].
      pose proof (inv_above _ _ i Hinv ltac:(lia)) as Hab. rewrite <- Hh in Hab.
      apply Forall_app in Hab as [Hab1 Hab2]. apply Forall_cons in Hbound0 as [_ Hbd].
      apply Forall_app in Hbd as [Hbd1 Hbd2].
      apply Forall_app. split; [|constructor].
      * rewrite Forall_forall in Hab1, Hbd1 |- *. intros y Hy.
        rewrite alloc_tallb_old; [by apply Hab1|by apply Hbd1].
      * rewrite Htnw. apply bool_decide_eq_false. lia.
      * rewrite Forall_forall in Hab2, Hbd2 |- *. intros y Hy.
        rewrite alloc_tallb_old; [by apply Hab2|by apply Hbd2].
    + rewrite (proj1 (Hsame 0%nat)). rewrite alloc_fwd_old by lia. rewrite Hh.
      apply (level_ok_top_inv _ _ (b ++ post));
        [by apply (inv_levels _ _ Hinv)|by apply (inv_header_tall sl _ i Hinv)|].
      apply (inv_above _ _ _ Hinv). lia.
Qed.

Lemma randomLevel_loop_bounds (tp : tape) (maxL : nat) (p : Q) (lev nl : nat) tp' :
  SkipList.randomLevel_loop tp maxL p lev = Some (nl, tp') → (lev ≤ maxL)%nat →
  (lev ≤ nl ≤ maxL)%nat ∧ (length tp' < length tp)%nat.
Proof.
  revert lev. induction tp as [|r tp IH]; intros lev; cbn; [done|].
  destruct (Qltb r p && bool_decide (lev < maxL)%nat) eqn:E.
  - apply andb_true_iff in E as [_ E%bool_decide_eq_true]. intros H ?.
    apply IH in H; lia.
  - intros [= <- <-] ?. lia.
Qed.

Lemma randomLevel_loop_total (tp : tape) (maxL : nat) (p : Q) (lev : nat) :
  (lev ≤ maxL)%nat → (maxL - lev < length tp)%nat →
  is_Some (SkipList.randomLevel_loop tp maxL p lev).
Proof.
  revert lev. induction tp as [|r tp IH]; intros lev; cbn; [lia|].
  destruct (Qltb r p && bool_decide (lev < maxL)%nat) eqn:E; [|by eexists].
  apply andb_true_iff in E as [_ E%bool_decide_eq_true]. intros ? ?.
  apply IH; lia.
Qed.

Lemma randomLevel_loop_consumes (tp : tape) (maxL : nat) (p : Q) (lev nl : nat) tp' :
  SkipList.randomLevel_loop tp maxL p lev = Some (nl, tp') → (lev ≤ maxL)%nat →
  (length tp ≤ length tp' + (maxL - lev + 1))%nat.
Proof.
  revert lev. induction tp as [|r tp IH]; intros lev; cbn; [done|].
  destruct (Qltb r p && bool_decide (lev < maxL)%nat) eqn:E.
  - apply andb_true_iff in E as [_ E%bool_decide_eq_true]. intros H ?.
    apply IH in H; lia.
  - intros [= <- <-] ?. lia.
Qed.

(** The level of a new node is between 1 and 32; 32 draws are enough. *)
Lemma randomLevel_bounds (tp : tape) (nl : nat) tp' :
  SkipList.randomLevel tp 32 = Some (nl, tp') →
  (1 ≤ nl ≤ 32)%nat ∧ (length tp' < length tp)%nat.
Proof. intros H. apply randomLevel_loop_bounds in H; lia. Qed.

Lemma randomLevel_consumes (tp : tape) (nl : nat) tp' :
  SkipList.randomLevel tp 32 = Some (nl, tp') →
  (length tp ≤ length tp' + 32)%nat.
Proof. intros H. apply randomLevel_loop_consumes in H; lia. Qed.

Lemma randomLevel_total (tp : tape) :
  (32 ≤ length tp)%nat → is_Some (SkipList.randomLevel tp 32).
Proof. intros H. apply randomLevel_loop_total; lia. Qed.

(** A forward pointer leads to a node further in the list. *)
Lemma level_ok_fwd_in h i a x post y :
  level_ok h i (a ++ x :: post) → tallb h i x = true →
  SkipList.fwd h x i = Some y → y ∈ post.
Proof.
  intros Hl Hx Hf. pose proof (level_ok_elem _ _ _ _ _ Hl Hx) as Hlink.
  unfold link_ok in Hlink.
  destruct (next_tall h i post) as [[y' d]|] eqn:Hn; [|congruence].
  destruct Hlink as [Hy _]. assert (y' = y) as -> by congruence.
  apply next_tall_Some in Hn as (p1 & p2 & -> & _). elem_tac.
Qed.

Lemma same_shape_alloc h h' n :
  same_shape h h' → same_shape (h ++ [n]) (h' ++ [n]).
Proof.
  intros [Hlen Hs]. split; [rewrite !length_app; lia|]. intros x.
  destruct (decide (x < length h)%nat) as [Hlt|Hge].
  - rewrite !alloc_lookup_old by lia. apply Hs.
  - destruct (decide (x = length h)) as [->|Hne].
    + rewrite alloc_lookup_new. rewrite <- Hlen. by rewrite alloc_lookup_new.
    + rewrite !lookup_ge_None_2; [done|rewrite length_app; cbn; lia..].
Qed.

Lemma alloc_keys h n l :
  Forall (λ x, x < length h)%nat l → key_of (h ++ [n]) <$> l = key_of h <$> l.
Proof.
  intros Hl. apply list_fmap_ext. intros j x Hx. apply alloc_key_of_old.
  rewrite Forall_forall in Hl. apply Hl. by apply list_elem_of_lookup_2 in Hx.
Qed.

(** The invariant of the list with the new node, once the links of
    every level are right. *)
Lemma insert_final sl ids b post s m nl slF :
  sl_inv sl ids → ids = b ++ post → s ≠ NaN →
  Forall (λ y, key_lt (key_of (SkipList.nodes sl) y) (s, m)) b →
  Forall (λ y, key_lt (s, m) (key_of (SkipList.nodes sl) y)) post →
  (1 ≤ nl ≤ 32)%nat →
  same_shape (SkipList.nodes sl ++ [SkipList.newNode s m nl]) (SkipList.nodes slF) →
  (∀ i, (i < 32)%nat →
     level_ok (SkipList.nodes slF) i
       (0%nat :: b ++ length (SkipList.nodes sl) :: post)) →
  SkipList.maxLevel slF = 32%nat →
  SkipList.lvl slF = (SkipList.lvl sl `max` nl)%nat →
  SkipList.length slF = SkipList.length sl + 1 →
  sl_inv slF (b ++ length (SkipList.nodes sl) :: post) ∧
  key_of (SkipList.nodes slF) <$> (b ++ length (SkipList.nodes sl) :: post)
  = (key_of (SkipList.nodes sl) <$> b) ++ (s, m)
      :: (key_of (SkipList.nodes sl) <$> post).
Proof.
  intros Hinv -> Hsn Hb Hp Hnl HS Hlev Hmax Hlvl Hlen.
  pose proof (inv_lvl _ _ Hinv) as Hl.
  pose proof (inv_bound _ _ Hinv) as Hbound.
  pose proof (inv_heap _ _ Hinv) as Hheap.
  pose proof Hbound as [Hbb Hbp]%Forall_app.
  assert (Hkeys : key_of (SkipList.nodes slF) <$>
                    (b ++ length (SkipList.nodes sl) :: post)
                  = (key_of (SkipList.nodes sl) <$> b) ++ (s, m)
                      :: (key_of (SkipList.nodes sl) <$> post)).
  { rewrite (same_shape_keys _ _ _ HS), fmap_app, fmap_cons.
    rewrite !alloc_keys by done. f_equal. f_equal.
    unfold key_of. by rewrite alloc_lookup_new. }
  split; [|done]. split.
  - done.
  - lia.
  - destruct (inv_header _ _ Hinv) as (hd & Hhd & Hhl & Hhf & Hhs).
    destruct HS as [_ HS]. specialize (HS 0%nat).
    rewrite alloc_lookup_old, Hhd in HS by lia.
    destruct (SkipList.nodes slF !! 0%nat) as [hd'|]; [|done].
    exists hd'. split; [done|]. unfold shape in HS. cbn in HS.
    split; [congruence|]. split; congruence.
  - apply (NoDup_middle (0%nat :: b) post); [apply (inv_nodup _ _ Hinv)|].
    intros Hin. assert (Hb0 : Forall (λ x, x < length (SkipList.nodes sl))%nat
                                (0%nat :: b ++ post)) by (constructor; [lia|done]).
    rewrite Forall_forall in Hb0. specialize (Hb0 _ Hin). lia.
  - pose proof (inv_nodes _ _ Hinv) as [Hnb Hnp]%Forall_app.
    assert (Hold : ∀ y, node_ok (SkipList.nodes sl) (SkipList.lvl sl) y →
                        node_ok (SkipList.nodes slF) (SkipList.lvl slF) y).
    { intros y Hy. apply (same_shape_node_ok _ _ _ _ HS). apply alloc_node_ok.
      apply (node_ok_mono _ (SkipList.lvl sl)); [lia|done]. }
    apply Forall_app. split; [|constructor].
    + eapply Forall_impl; [exact Hnb|]. done.
    + apply (same_shape_node_ok _ _ _ _ HS).
      exists (SkipList.newNode s m nl). split; [apply alloc_lookup_new|].
      cbn. rewrite !length_replicate. lia.
    + eapply Forall_impl; [exact Hnp|]. done.
  - done.
  - rewrite Hkeys. pose proof (inv_sorted _ _ Hinv) as Hs.
    rewrite fmap_app in Hs. apply StronglySorted_app in Hs as (Hbp' & Hsb & Hsp).
    apply StronglySorted_app_2; [|done|].
    + intros k1 k2 Hk1 [->|Hk2]%elem_of_cons; [|by apply Hbp'].
      apply list_elem_of_fmap in Hk1 as (y & -> & Hy).
      rewrite Forall_forall in Hb. by apply Hb.
    + apply StronglySorted_cons. split; [|done]. by rewrite Forall_fmap.
  - apply (Forall_fmap (key_of (SkipList.nodes slF)) (λ k, k.1 ≠ NaN)).
    rewrite Hkeys. pose proof (inv_numeric _ _ Hinv) as [Hn1 Hn2]%Forall_app.
    apply Forall_app. split; [by apply Forall_fmap|].
    constructor; [done|by apply Forall_fmap].
  - rewrite Hlen, (inv_length _ _ Hinv), !length_app. cbn. lia.
  - destruct HS as [-> _]. rewrite !length_app in *. cbn. lia.
Qed.

Lemma insert_inv sl ids (tp : tape) s m b post nl tp' :
  sl_inv sl ids → ids = b ++ post → s ≠ NaN →
  Forall (λ y, key_lt (key_of (SkipList.nodes sl) y) (s, m)) b →
  Forall (λ y, key_lt (s, m) (key_of (SkipList.nodes sl) y)) post →
  SkipList.randomLevel tp 32 = Some (nl, tp') →
  ∃ sl', SkipList.insert sl tp s m = Some (sl', length (SkipList.nodes sl), tp') ∧
         sl_inv sl' (b ++ length (SkipList.nodes sl) :: post) ∧
         key_of (SkipList.nodes sl') <$> (b ++ length (SkipList.nodes sl) :: post)
         = (key_of (SkipList.nodes sl) <$> b) ++ (s, m)
             :: (key_of (SkipList.nodes sl) <$> post).
Proof.
  intros Hinv -> Hsn Hb Hp Hrl.
  assert (Hp' : Forall (λ y, ¬ key_lt (key_of (SkipList.nodes sl) y) (s, m)) post).
  { eapply Forall_impl; [exact Hp|]. intros y Hy. by apply key_lt_asym. }
  destruct (insert_descend_inv sl _ s m b post Hinv eq_refl Hb Hp')
    as (update & rank & Ed & Lu & Lr & Hup & _).
  destruct (randomLevel_bounds _ _ _ Hrl) as [Hnl _].
  destruct (insert_prepare sl _ b post nl update rank Hinv eq_refl Lu Lr Hup Hnl)
    as (h1 & update' & rank' & Ep & Hinv1 & S1 & Hup1).
  destruct (insert_link _ _ b post nl s m update' rank' Hinv1 eq_refl
              ltac:(sl_simpl; lia) Hup1) as (h3 & h4 & E3 & E4 & S24 & Hlev4).
  revert E3 E4 S24 Hlev4. sl_simpl. intros E3 E4 S24 Hlev4.
  unfold SkipList.insert, SkipList.header. rewrite (inv_maxLevel _ _ Hinv), Ed.
  cbn [mbind option_bind]. rewrite Hrl. cbn [mbind option_bind].
  rewrite Ep. cbn [mbind option_bind]. rewrite E3. cbn [mbind option_bind].
  rewrite E4. cbn [mbind option_bind].
  destruct (Hup1 0%nat) as (u0 & p0 & _ & Hu0 & _); [lia|].
  rewrite Hu0. cbn [mjoin option_join mbind option_bind].
  pose proof S1 as [Hlen1 _].
  assert (Hnw4 : is_Some (h4 !! length h1)).
  { apply lookup_lt_is_Some_2. destruct S24 as [-> _]. rewrite length_app. cbn. lia. }
  destruct Hnw4 as [n4 Hn4].
  destruct (set_backward_is_Some h4 (length h1)
              (if bool_decide (u0 = 0%nat) then None else Some u0) n4 Hn4) as [h5 E5].
  destruct (set_backward_spec _ _ _ _ E5) as (S5 & F5 & P5).
  rewrite E5. cbn [mbind option_bind].
  assert (Hlev5 : ∀ i, (i < 32)%nat →
            level_ok h5 i (0%nat :: b ++ length h1 :: post)).
  { intros i Hi. apply (level_ok_frame h4); [done| |by apply Hlev4].
    intros x _ _. by rewrite F5, P5. }
  assert (∃ h6 tail',
            match SkipList.fwd h5 (length h1) 0 with
            | Some y =>
                SkipList.set_backward h5 y (Some (length h1))
                ≫= λ h, Some (h, SkipList.tail sl)
            | None => Some (h5, Some (length h1))
            end = Some (h6, tail') ∧ same_shape h5 h6 ∧
            ∀ i, (i < 32)%nat → level_ok h6 i (0%nat :: b ++ length h1 :: post))
    as (h6 & tail' & E6 & S6 & Hlev6).
  { destruct (SkipList.fwd h5 (length h1) 0) as [y|] eqn:Hfw.
    - assert (Hy : y ∈ post).
      { apply (level_ok_fwd_in h5 0%nat (0%nat :: b) (length h1)); [|..|done].
        - rewrite <- app_comm_cons. apply Hlev5. lia.
        - rewrite (same_shape_tallb _ _ _ _ (same_shape_trans _ _ _ S24 S5)).
          unfold tallb. rewrite alloc_lookup_new. cbn.
          apply bool_decide_eq_true. lia. }
      assert (Hy5 : is_Some (h5 !! y)).
      { apply lookup_lt_is_Some_2. destruct S5 as [-> _], S24 as [-> _].
        rewrite length_app. pose proof (inv_bound _ _ Hinv) as Hbd.
        rewrite Forall_forall in Hbd. specialize (Hbd y).
        rewrite Hlen1. cbn. assert (y < length (SkipList.nodes sl))%nat; [|lia].
        apply Hbd. apply elem_of_app. by right. }
      destruct Hy5 as [ny Hny].
      destruct (set_backward_is_Some h5 y (Some (length h1)) ny Hny) as [h6 E6].
      destruct (set_backward_spec _ _ _ _ E6) as (S6 & F6 & P6).
      exists h6, (SkipList.tail sl). rewrite E6. split; [done|]. split; [done|].
      intros i Hi. apply (level_ok_frame h5); [done| |by apply Hlev5].
      intros x _ _. by rewrite F6, P6.
    - exists h5, (Some (length h1)). split; [done|].
      split; [apply same_shape_refl|done]. }
  rewrite E6. cbn [mbind option_bind]. rewrite Hlen1 in *.
  eexists. split; [done|].
  apply (insert_final sl (b ++ post) b post s m nl); sl_simpl; try done.
  apply (same_shape_trans _ (h1 ++ [SkipList.newNode s m nl]));
    [by apply same_shape_alloc|].
  apply (same_shape_trans _ h4); [done|by apply (same_shape_trans _ h5)].
Qed.
End insert.

(** ** [delete] keeps the invariant *)
Section delete.
Implicit Types (sl : SkipList.t) (ids b post : list nat) (x y u t i : nat).
Implicit Types (h : list SkipList.SkipListNode) (s : number) (m : string).
Implicit Types (update : list (option nat)).

(** The search of [delete] ends at [update[0]]. *)
Lemma delete_descend_last (n : nat) h s m x update xf update' :
  SkipList.delete_descend n h s m x update = Some (xf, update') →
  (0 < n)%nat → (n ≤ length update)%nat →
  update' !! 0%nat = Some (Some xf).
Proof.
  revert x update. induction n as [|i IH]; intros x update; [lia|].
  cbn [SkipList.delete_descend].
  destruct (SkipList.delete_walk (length h) h i s m x) as [x'|]; [|done].
  cbn [mbind option_bind]. intros E _ Hlen. destruct i as [|i].
  - cbn in E. injection E as <- <-. apply list_lookup_insert_eq. lia.
  - apply (IH _ _ E); [lia|]. rewrite length_insert. lia.
Qed.

(** The loop that lowers the level of the list. *)
Lemma delete_trim_spec h (L : nat) ids :
  (∀ i, (i < 32)%nat → level_ok h i (0%nat :: ids)) →
  (∀ i, (i < 32)%nat → tallb h i 0%nat = true) →
  Forall (node_ok h L) ids → (1 ≤ L ≤ 32)%nat →
  (1 ≤ SkipList.delete_trim h L ≤ L)%nat ∧
  Forall (node_ok h (SkipList.delete_trim h L)) ids.
Proof.
  intros Hlev Hhd. induction L as [|L IH]; intros Hn HL; [lia|].
  cbn [SkipList.delete_trim]. destruct L as [|L]; [split; [lia|done]|].
  unfold SkipList.header.
  destruct (SkipList.fwd h 0%nat (S L)) as [y|] eqn:Hf; [split; [lia|done]|].
  assert (Hnt : Forall (λ y, tallb h (S L) y = false) ids).
  { apply level_ok_header_None; [apply Hlev; lia|apply Hhd; lia|done]. }
  destruct IH as [IH1 IH2]; [|lia|split; [lia|done]].
  rewrite Forall_forall in Hn, Hnt |- *. intros y Hy.
  destruct (Hn y Hy) as (n & Hny & Hl & Hfl & Hsl). specialize (Hnt y Hy).
  unfold tallb in Hnt. rewrite Hny in Hnt. apply bool_decide_eq_false in Hnt.
  exists n. split; [done|]. split; [lia|done].
Qed.

(** What the search has found, seen from the node [t] to delete. *)
Lemma delete_update sl ids b t post update (rank : list Z) :
  sl_inv sl ids → ids = b ++ t :: post →
  (∀ i, (i < SkipList.lvl sl)%nat →
     ∃ u (p : nat), last_tall (SkipList.nodes sl) i (0%nat :: b) u p ∧
            update !! i = Some (Some u) ∧ rank !! i = Some (Z.of_nat p)) →
  ∀ i, (i < SkipList.lvl sl)%nat →
    ∃ u a' b', 0%nat :: b = a' ++ u :: b' ∧
      Forall (λ y, tallb (SkipList.nodes sl) i y = false) b' ∧
      tallb (SkipList.nodes sl) i u = true ∧
      update !! i = Some (Some u) ∧ u ≠ t ∧
      has_cell (SkipList.nodes sl) u i ∧
      (SkipList.fwd (SkipList.nodes sl) u i = Some t ↔
       tallb (SkipList.nodes sl) i t = true) ∧
      NoDup (a' ++ u :: b' ++ t :: post) ∧
      level_ok (SkipList.nodes sl) i (a' ++ u :: b' ++ t :: post).
Proof.
  intros Hinv -> Hup i Hi. pose proof (inv_lvl _ _ Hinv) as Hl.
  destruct (Hup i Hi) as (u & p & (a' & b' & Heq & Hb' & Htu & ->) & Hu & Hr).
  pose proof (inv_nodup _ _ Hinv) as Hnd.
  pose proof (inv_levels _ _ Hinv i ltac:(lia)) as Hlev.
  change (0%nat :: b ++ t :: post) with ((0%nat :: b) ++ t :: post) in Hnd, Hlev.
  rewrite Heq, <- app_assoc in Hnd, Hlev. cbn [app] in Hnd, Hlev.
  assert (Hu_in : u ∈ 0%nat :: b ++ t :: post).
  { change (0%nat :: b ++ t :: post) with ((0%nat :: b) ++ t :: post).
    rewrite Heq. elem_tac. }
  exists u, a', b'. split; [done|]. split; [done|]. split; [done|].
  split; [done|]. split; [|split; [|split; [|done]]].
  - intros ->. apply NoDup_app in Hnd as (_ & _ & [Hnd _]%NoDup_cons).
    apply Hnd. elem_tac.
  - by apply (inv_has_cell sl (b ++ t :: post)).
  - by apply (fwd_next_iff _ _ a' _ b' _ post).
Qed.

Lemma StronglySorted_delete_middle {A} (R : relation A) (l1 l2 : list A) (z : A) :
  StronglySorted R (l1 ++ z :: l2) → StronglySorted R (l1 ++ l2).
Proof.
  intros (H12 & H1 & [_ H2]%StronglySorted_cons)%StronglySorted_app.
  apply StronglySorted_app_2; [|done..].
  intros x1 x2 Hx1 Hx2. apply H12; [done|]. by right.
Qed.

Lemma NoDup_delete_middle (l1 l2 : list nat) x :
  NoDup (l1 ++ x :: l2) → NoDup (l1 ++ l2).
Proof.
  intros (H1 & H12 & [_ H2]%NoDup_cons)%NoDup_app.
  apply NoDup_app. split; [done|]. split; [|done].
  intros y Hy Hy2. apply (H12 y Hy). by right.
Qed.

Lemma delete_inv sl ids s m b t post :
  sl_inv sl ids → ids = b ++ t :: post →
  Forall (λ y, key_lt (key_of (SkipList.nodes sl) y) (s, m)) b →
  key_of (SkipList.nodes sl) t = (s, m) →
  Forall (λ y, key_lt (s, m) (key_of (SkipList.nodes sl) y)) post →
  ∃ sl', SkipList.delete sl s m = Some (sl', true) ∧ sl_inv sl' (b ++ post) ∧
         same_shape (SkipList.nodes sl) (SkipList.nodes sl').
Proof.
  intros Hinv -> Hb Ht Hp. pose proof (inv_lvl _ _ Hinv) as Hl.
  assert (Hp' : Forall (λ y, ¬ key_lt (key_of (SkipList.nodes sl) y) (s, m))
                  (t :: post)).
  { constructor; [rewrite Ht; apply key_lt_irrefl|].
    eapply Forall_impl; [exact Hp|]. intros y Hy. by apply key_lt_asym. }
  destruct (insert_descend_inv sl _ s m b (t :: post) Hinv eq_refl Hb Hp')
    as (update & rank & Ed & Lu & Lr & Hup & _).
  destruct (delete_descend_insert_descend _ _ _ _ _ _ _ _ _ _ Ed) as (xf & Edd & _).
  pose proof (delete_descend_last _ _ _ _ _ _ _ _ Edd ltac:(lia)
                ltac:(rewrite length_replicate; lia)) as Hxf.
  pose proof (delete_update sl _ b t post update rank Hinv eq_refl Hup) as Hup2.
  pose proof (inv_valid _ _ Hinv) as Hvalid.
  assert (Hvt : is_Some (SkipList.nodes sl !! t)).
  { rewrite Forall_forall in Hvalid. apply Hvalid. elem_tac. }
  destruct Hvt as [n Hn].
  assert (Hkn : SkipList.score n = s ∧ SkipList.member n = m).
  { unfold key_of in Ht. rewrite Hn in Ht. by injection Ht. }
  assert (Ht0 : tallb (SkipList.nodes sl) 0 t = true).
  { pose proof (inv_level0 _ _ Hinv) as H0. rewrite Forall_forall in H0.
    apply H0. elem_tac. }
  destruct (Hup2 0%nat) as (u0 & a0 & b0 & _ & _ & _ & Hu0 & _ & _ & Hf0 & _); [lia|].
  assert (xf = u0) as -> by congruence.
  apply Hf0 in Ht0 as Hfw0.
  unfold SkipList.delete, SkipList.header.
  rewrite (inv_maxLevel _ _ Hinv), Edd. cbn [mbind option_bind].
  rewrite Hfw0, Hn. cbn [mbind option_bind].
  assert (Hsn : s ≠ NaN).
  { pose proof (inv_numeric _ _ Hinv) as [_ [Hnt _]%Forall_cons]%Forall_app.
    by rewrite Ht in Hnt. }
  destruct Hkn as [-> ->].
  rewrite num_eqb_refl by done.
  rewrite bool_decide_false by (intros ?; done). cbn [orb negb].
  destruct (delete_unlink_spec (seq 0 (SkipList.lvl sl)) (SkipList.nodes sl) t update)
    as (h1 & E1 & S1 & O1 & C1).
  { apply NoDup_seq. }
  { intros i Hi%elem_of_seq.
    destruct (Hup2 i) as (u & a' & b' & _ & _ & _ & Hu & Hne & Hc & Hiff & _); [lia|].
    exists u. split; [done|]. split; [done|]. intros Hfw%Hiff. split; [|done].
    apply (inv_has_cell sl (b ++ t :: post)); [done|elem_tac|done]. }
  rewrite E1. cbn [mbind option_bind].
  assert (Hlev1 : ∀ i, (i < 32)%nat → level_ok h1 i (0%nat :: b ++ post)).
  { intros i Hi. destruct (decide (i < SkipList.lvl sl)%nat) as [Hlt|Hge].
    - destruct (Hup2 i Hlt)
        as (u & a' & b' & Heq & Hb' & Htu & Hu & Hne & Hc & Hiff & Hnd & Hlev).
      change (0%nat :: b ++ post) with ((0%nat :: b) ++ post).
      rewrite Heq, <- app_assoc. cbn [app].
      specialize (C1 i u ltac:(apply elem_of_seq; lia) Hu).
      destruct (decide (SkipList.fwd (SkipList.nodes sl) u i = Some t)) as [Hfw|Hfw].
      + apply (level_ok_unlink (SkipList.nodes sl) h1 i a' u b' t post); try done.
        by apply Hiff.
      + apply (level_ok_shrink (SkipList.nodes sl) h1 i a' u b' t post); try done.
        apply not_true_is_false. intros Htt. by apply Hfw, Hiff.
    - assert (Hsame : cells_same (SkipList.nodes sl) h1 i).
      { apply O1. intros Hin%elem_of_seq. lia. }
      pose proof (inv_above _ _ i Hinv ltac:(lia)) as Hab.
      apply level_ok_top.
      + apply (same_shape_nottall (SkipList.nodes sl)); [done|].
        apply Forall_app in Hab as [Hab1 [_ Hab2]%Forall_cons].
        apply Forall_app. by split.
      + rewrite (proj1 (Hsame 0%nat)).
        apply (level_ok_top_inv _ _ (b ++ t :: post));
          [by apply (inv_levels _ _ Hinv)|by apply (inv_header_tall sl _ i Hinv)|done]. }
  assert (∃ h2 tail',
            match SkipList.fwd h1 t 0 with
            | Some y =>
                SkipList.set_backward h1 y (SkipList.backward n)
                ≫= λ h0, Some (h0, SkipList.tail sl)
            | None => Some (h1, SkipList.backward n)
            end = Some (h2, tail') ∧ same_shape h1 h2 ∧
            ∀ i, (i < 32)%nat → level_ok h2 i (0%nat :: b ++ post))
    as (h2 & tail' & E2 & S2 & Hlev2).
  { destruct (SkipList.fwd h1 t 0) as [y|] eqn:Hfw.
    - assert (Hy : is_Some (h1 !! y)).
      { destruct (Hup2 0%nat) as (u & a' & b' & Heq & Hb' & Htu & Hu & Hne & _);
          [lia|].
        specialize (C1 0%nat u ltac:(apply elem_of_seq; lia) Hu).
        assert (Hft : SkipList.fwd h1 t 0 = SkipList.fwd (SkipList.nodes sl) t 0).
        { destruct (decide (SkipList.fwd (SkipList.nodes sl) u 0 = Some t)).
          - destruct C1 as (_ & _ & C1). apply C1. congruence.
          - destruct C1 as (C1 & _). apply C1. }
        rewrite Hft in Hfw.
        apply (level_ok_fwd_in _ 0%nat (0%nat :: b) t post) in Hfw;
          [|rewrite <- app_comm_cons; apply (inv_levels _ _ Hinv); lia|done].
        apply lookup_lt_is_Some_2. destruct S1 as [-> _].
        pose proof (inv_bound _ _ Hinv) as Hbd. rewrite Forall_forall in Hbd.
        apply Hbd. elem_tac. }
      destruct Hy as [ny Hny].
      destruct (set_backward_is_Some h1 y (SkipList.backward n) ny Hny) as [h2 E2].
      destruct (set_backward_spec _ _ _ _ E2) as (S2 & F2 & P2).
      exists h2, (SkipList.tail sl). rewrite E2. split; [done|]. split; [done|].
      intros i Hi. apply (level_ok_frame h1); [done| |by apply Hlev1].
      intros x _ _. by rewrite F2, P2.
    - exists h1, (SkipList.backward n). split; [done|].
      split; [apply same_shape_refl|done]. }
  rewrite E2. cbn [mbind option_bind]. eexists. split; [done|].
  assert (S02 : same_shape (SkipList.nodes sl) h2) by (by apply (same_shape_trans _ h1)).
  split; [|done].
  assert (Hnodes2 : Forall (node_ok h2 (SkipList.lvl sl)) (b ++ post)).
  { pose proof (inv_nodes _ _ Hinv) as [Hn1 [_ Hn2]%Forall_cons]%Forall_app.
    apply Forall_app. split.
    - eapply Forall_impl; [exact Hn1|]. intros y. by apply same_shape_node_ok.
    - eapply Forall_impl; [exact Hn2|]. intros y. by apply same_shape_node_ok. }
  destruct (delete_trim_spec h2 (SkipList.lvl sl) (b ++ post)) as [Htr1 Htr2];
    [done| |done|done|].
  { intros i Hi. rewrite (same_shape_tallb _ _ _ _ S02).
    by apply (inv_header_tall sl _ i Hinv). }
  split; sl_simpl.
  - done.
  - lia.
  - destruct (inv_header _ _ Hinv) as (hd & Hhd & Hhl & Hhf & Hhs).
    destruct S02 as [_ HS]. specialize (HS 0%nat). rewrite Hhd in HS.
    destruct (h2 !! 0%nat) as [hd'|]; [|done].
    exists hd'. split; [done|]. unfold shape in HS. cbn in HS.
    split; [congruence|]. split; congruence.
  - pose proof (inv_nodup _ _ Hinv) as Hnd.
    change (0%nat :: b ++ t :: post) with ((0%nat :: b) ++ t :: post) in Hnd.
    by apply NoDup_delete_middle in Hnd.
  - done.
  - done.
  - rewrite (same_shape_keys _ _ _ S02). pose proof (inv_sorted _ _ Hinv) as Hs.
    rewrite fmap_app, fmap_cons in Hs. rewrite fmap_app.
    by apply StronglySorted_delete_middle in Hs.
  - pose proof (inv_numeric _ _ Hinv) as [Hn1 [_ Hn2]%Forall_cons]%Forall_app.
    apply Forall_app. split.
    + eapply Forall_impl; [exact Hn1|]. intros y Hy.
      by rewrite (same_shape_key_of (SkipList.nodes sl)).
    + eapply Forall_impl; [exact Hn2|]. intros y Hy.
      by rewrite (same_shape_key_of (SkipList.nodes sl)).
  - rewrite (inv_length _ _ Hinv), !length_app. cbn. lia.
  - destruct S02 as [-> _]. pose proof (inv_heap _ _ Hinv) as Hh.
    rewrite !length_app in *. cbn in Hh. lia.
Qed.
End delete.

(** ** What the reads of a skip list return *)
Section reads.
Implicit Types (sl : SkipList.t) (ids b post l : list nat) (x y u t i : nat).
Implicit Types (h : list SkipList.SkipListNode) (s : number) (m : string).

(** [getRank] returns the position of the pair. *)
Lemma getRank_inv sl ids s m b t post :
  sl_inv sl ids → ids = b ++ t :: post →
  Forall (λ y, key_lt (key_of (SkipList.nodes sl) y) (s, m)) b →
  key_of (SkipList.nodes sl) t = (s, m) →
  Forall (λ y, key_lt (s, m) (key_of (SkipList.nodes sl) y)) post →
  SkipList.getRank sl s m = Some (Z.of_nat (length b)).
Proof.
  intros Hinv -> Hb Ht Hp. pose proof (inv_lvl _ _ Hinv) as Hl.
  unfold SkipList.getRank, SkipList.header.
  rewrite (getRank_descend_spec (SkipList.lvl sl) (SkipList.nodes sl) s m
             [] 0%nat b t post 0); [done|..].
  - pose proof (inv_numeric _ _ Hinv) as [_ [Hnt _]%Forall_cons]%Forall_app.
    by rewrite Ht in Hnt.
  - intros i Hi. apply (inv_levels _ _ Hinv). lia.
  - intros i Hi. apply (inv_header_tall sl _ i Hinv). lia.
  - pose proof (inv_level0 _ _ Hinv) as H0. rewrite Forall_forall in H0.
    apply H0. elem_tac.
  - lia.
  - done.
  - done.
  - done.
  - apply (inv_valid _ _ Hinv).
  - pose proof (inv_heap _ _ Hinv) as Hh. rewrite length_app in Hh. lia.
  - done.
Qed.

(** The pointers of level 0 lead through all the nodes. *)
Lemma chain_level0 (fuel : nat) h x l :
  level_ok h 0 (x :: l) → Forall (λ y, tallb h 0 y = true) (x :: l) →
  (length l ≤ fuel)%nat →
  chain fuel h (SkipList.fwd h x 0) = l.
Proof.
  revert fuel x. induction l as [|y l IH]; intros fuel x Hlev Ht Hf.
  - destruct Hlev as [Hlink _]. apply Forall_cons in Ht as [Hx _].
    specialize (Hlink Hx). unfold link_ok in Hlink. cbn in Hlink.
    rewrite Hlink. by destruct fuel.
  - destruct Hlev as [Hlink Hlev]. apply Forall_cons in Ht as [Hx Ht].
    specialize (Hlink Hx). unfold link_ok in Hlink. cbn [next_tall] in Hlink.
    pose proof Ht as [Hy _]%Forall_cons. rewrite Hy in Hlink.
    destruct Hlink as [-> _]. destruct fuel as [|fuel]; [cbn in Hf; lia|].
    cbn [chain]. f_equal. apply IH; [done|done|cbn in Hf; lia].
Qed.

Lemma sl_nodes_inv sl ids : sl_inv sl ids → sl_nodes sl = ids.
Proof.
  intros Hinv. unfold sl_nodes, SkipList.header. apply chain_level0.
  - apply (inv_levels _ _ Hinv). lia.
  - constructor; [apply (inv_header_tall sl _ 0%nat Hinv); lia|].
    apply (inv_level0 _ _ Hinv).
  - pose proof (inv_heap _ _ Hinv). lia.
Qed.

Lemma sl_pairs_inv sl ids :
  sl_inv sl ids → sl_pairs sl = key_of (SkipList.nodes sl) <$> ids.
Proof. intros Hinv. unfold sl_pairs. by rewrite (sl_nodes_inv _ _ Hinv). Qed.

Lemma sl_pairs_sorted sl ids : sl_inv sl ids → StronglySorted key_lt (sl_pairs sl).
Proof.
  intros Hinv. rewrite (sl_pairs_inv _ _ Hinv). apply (inv_sorted _ _ Hinv).
Qed.

Lemma StronglySorted_key_lt_NoDup (ks : list (number * string)) :
  StronglySorted key_lt ks → NoDup ks.
Proof.
  induction 1 as [|k ks Hs IH Hk]; constructor; [|done].
  intros Hin. rewrite Forall_forall in Hk. by apply (key_lt_irrefl k), Hk.
Qed.

Lemma sl_pairs_NoDup sl ids : sl_inv sl ids → NoDup (sl_pairs sl).
Proof.
  intros Hinv. apply StronglySorted_key_lt_NoDup. by apply (sl_pairs_sorted _ ids).
Qed.

(** The loop of [getByScoreRange] that collects the nodes, when all that
    follow are in the range. *)
Lemma collect_all (fuel : nat) h (max : number) x l
    (acc : list (string * number)) :
  level_ok h 0 (x :: l) → Forall (λ y, tallb h 0 y = true) (x :: l) →
  Forall (λ y, is_Some (h !! y) ∧ num_le (key_of h y).1 max) l →
  (length l ≤ fuel)%nat →
  SkipList.collect fuel h max PosInf (SkipList.fwd h x 0) acc
  = Some (acc ++ ((λ y, ((key_of h y).2, (key_of h y).1)) <$> l)).
Proof.
  revert fuel x acc. induction l as [|y l IH]; intros fuel x acc Hlev Ht Hl Hf.
  - destruct Hlev as [Hlink _]. apply Forall_cons in Ht as [Hx _].
    specialize (Hlink Hx). unfold link_ok in Hlink. cbn in Hlink.
    rewrite Hlink, app_nil_r. by destruct fuel.
  - destruct Hlev as [Hlink Hlev]. apply Forall_cons in Ht as [Hx Ht].
    specialize (Hlink Hx). unfold link_ok in Hlink. cbn [next_tall] in Hlink.
    pose proof Ht as [Hy _]%Forall_cons. rewrite Hy in Hlink.
    destruct Hlink as [-> _]. apply Forall_cons in Hl as [[[n Hn] Hmax] Hl].
    destruct fuel as [|fuel]; [cbn in Hf; lia|].
    cbn [SkipList.collect]. rewrite Hn. cbn [mbind option_bind].
    unfold key_of in Hmax. rewrite Hn in Hmax. cbn in Hmax.
    rewrite Hmax. cbn [andb num_ltb].
    rewrite IH; [|done|done|done|cbn in Hf; lia].
    rewrite <- app_assoc. cbn [app fmap list_fmap]. unfold key_of at 3 4.
    by rewrite Hn.
Qed.

(** A range that holds all the scores gives all the pairs, in order. *)
Lemma getByScoreRange_all sl ids (min max : number) :
  sl_inv sl ids →
  Forall (λ p, num_le min p.1 ∧ num_le p.1 max) (sl_pairs sl) →
  SkipList.getByScoreRange sl min max None
  = Some ((λ p, (p.2, p.1)) <$> sl_pairs sl).
Proof.
  intros Hinv Hr. rewrite (sl_pairs_inv _ _ Hinv) in Hr |- *.
  rewrite Forall_fmap in Hr. unfold SkipList.getByScoreRange, SkipList.header.
  pose proof (inv_levels _ _ Hinv 0%nat ltac:(lia)) as Hlev.
  assert (Ht : Forall (λ y, tallb (SkipList.nodes sl) 0 y = true) (0%nat :: ids)).
  { constructor; [apply (inv_header_tall sl _ 0%nat Hinv); lia|].
    apply (inv_level0 _ _ Hinv). }
  assert (Hskip : SkipList.skip_below (length (SkipList.nodes sl)) (SkipList.nodes sl)
                    min (SkipList.fwd (SkipList.nodes sl) 0%nat 0)
                  = Some (SkipList.fwd (SkipList.nodes sl) 0%nat 0)).
  { destruct (SkipList.fwd (SkipList.nodes sl) 0%nat 0) as [y|] eqn:Hf;
      [|by destruct (length (SkipList.nodes sl))].
    apply (level_ok_fwd_in _ 0%nat [] 0%nat ids) in Hf as Hy;
      [|done|by apply Forall_cons in Ht as [? _]].
    pose proof (inv_valid _ _ Hinv) as Hv. rewrite Forall_forall in Hv, Hr.
    destruct (Hv y Hy) as [n Hn]. specialize (Hr y Hy). cbn in Hr.
    unfold key_of in Hr. rewrite Hn in Hr. cbn in Hr.
    destruct (length (SkipList.nodes sl));
      cbn [SkipList.skip_below]; rewrite Hn; cbn [mbind option_bind];
      by rewrite (num_leb_ltb_false _ _ (proj1 Hr)). }
  rewrite Hskip. cbn [mbind option_bind default].
  rewrite (collect_all _ _ _ _ ids); [|done|done| |].
  - cbn [app]. f_equal. by rewrite <- list_fmap_compose.
  - pose proof (inv_valid _ _ Hinv) as Hv. rewrite Forall_forall in Hv, Hr |- *.
    intros y Hy. split; [by apply Hv|]. by apply Hr.
  - pose proof (inv_heap _ _ Hinv). lia.
Qed.
End reads.

(** ** The invariant of a sorted set *)
Section zset.
Implicit Types (z : ZSet.t) (sl : SkipList.t) (ids b post : list nat).
Implicit Types (s : number) (m : string) (tp : tape).

Lemma sl_inv_new : sl_inv SkipList.new [].
Proof.
  split; cbn [SkipList.new SkipList.nodes SkipList.maxLevel SkipList.lvl
              SkipList.length].
  - done.
  - lia.
  - eexists. split; [done|]. split; [done|]. split; reflexivity.
  - apply NoDup_singleton.
  - constructor.
  - intros i Hi. split; [|done]. intros _. unfold link_ok. cbn [next_tall].
    unfold SkipList.fwd.
    change ([SkipList.newNode NegInf "" 32] !! 0%nat)
      with (Some (SkipList.newNode NegInf "" 32)).
    cbn [mbind option_bind SkipList.forward SkipList.newNode].
    by rewrite lookup_replicate_2 by done.
  - constructor.
  - constructor.
  - done.
  - cbn. lia.
Qed.

Lemma zset_inv_new : zset_inv ZSet.new.
Proof.
  exists []. split; [apply sl_inv_new|]. intros m s. cbn.
  rewrite lookup_empty. split; [done|]. by intros ?%elem_of_nil.
Qed.

(** The pairs of the skip list are the pairs of the map. *)
Lemma zset_inv_pairs z :
  zset_inv z →
  StronglySorted key_lt (sl_pairs (ZSet.skiplist z)) ∧
  ∀ s m, (s, m) ∈ sl_pairs (ZSet.skiplist z) ↔ ZSet.dict z !! m = Some s.
Proof.
  intros (ids & Hinv & Hd). split; [by apply (sl_pairs_sorted _ ids)|].
  intros s m. by rewrite (sl_pairs_inv _ _ Hinv), Hd.
Qed.

(** No score of a sorted set is [NaN]. *)
Lemma zset_inv_numeric z m s : zset_inv z → ZSet.dict z !! m = Some s → s ≠ NaN.
Proof.
  intros (ids & Hinv & Hd) Hm. apply Hd in Hm.
  apply list_elem_of_fmap in Hm as (y & Hy & Hin).
  pose proof (inv_numeric _ _ Hinv) as Hn. rewrite Forall_forall in Hn.
  specialize (Hn y Hin). by rewrite <- Hy in Hn.
Qed.

Lemma num_eqb_ne (s t : number) : s ≠ t → num_eqb s t = false.
Proof.
  intros Hne. destruct (num_eqb s t) eqn:E; [|done]. by apply num_eqb_eq in E.
Qed.

Lemma insert_randomLevel_None sl tp s m :
  SkipList.randomLevel tp (SkipList.maxLevel sl) = None →
  SkipList.insert sl tp s m = None.
Proof.
  intros Hr. unfold SkipList.insert.
  destruct (SkipList.insert_descend _ _ _ _ _ _ _ _) as [[update rank]|]; [|done].
  cbn [mbind option_bind]. by rewrite Hr.
Qed.

(** [zadd] of a member that the set does not hold. *)
Lemma zadd_new z tp m s (nl : nat) tp' :
  zset_inv z → ZSet.dict z !! m = None → s ≠ NaN →
  SkipList.randomLevel tp 32 = Some (nl, tp') →
  ∃ z', ZSet.zadd z tp m s = Some (z', true, tp') ∧ zset_inv z' ∧
        ZSet.dict z' = <[m := s]> (ZSet.dict z).
Proof.
  intros (ids & Hinv & Hd) Hm Hsn Hr.
  assert (Hk : (s, m) ∉ key_of (SkipList.nodes (ZSet.skiplist z)) <$> ids).
  { intros Hin%Hd. congruence. }
  destruct (sorted_split_absent _ _ (s, m) (inv_sorted _ _ Hinv)
              (inv_numeric _ _ Hinv) Hsn Hk) as (b & post & -> & Hb & Hp).
  destruct (insert_inv _ _ tp s m b post nl tp' Hinv eq_refl Hsn Hb Hp Hr)
    as (sl' & Ei & Hinv' & Hkeys).
  unfold ZSet.zadd. rewrite Hm, Ei. cbn [mbind option_bind].
  eexists. split; [done|]. split; [|done].
  exists (b ++ length (SkipList.nodes (ZSet.skiplist z)) :: post).
  cbn [ZSet.skiplist ZSet.dict]. split; [done|]. intros m' s'.
  rewrite Hkeys, elem_of_app, elem_of_cons.
  destruct (decide (m' = m)) as [->|Hne].
  - rewrite lookup_insert_eq. split.
    + intros [= ->]. right. by left.
    + intros [Hin|[[= ->]|Hin]]; [|done|].
      * assert (ZSet.dict z !! m = Some s'); [|congruence].
        apply Hd. rewrite fmap_app. apply elem_of_app. by left.
      * assert (ZSet.dict z !! m = Some s'); [|congruence].
        apply Hd. rewrite fmap_app. apply elem_of_app. by right.
  - rewrite lookup_insert_ne by done. rewrite Hd, fmap_app, elem_of_app.
    split; [tauto|]. intros [?|[[= -> ->]|?]]; tauto.
Qed.

(** [zrem] of a member that the set holds. *)
Lemma zrem_present z m s :
  zset_inv z → ZSet.dict z !! m = Some s →
  ∃ z', ZSet.zrem z m = Some (z', true) ∧ zset_inv z' ∧
        ZSet.dict z' = base.delete m (ZSet.dict z) ∧
        ∃ sl', SkipList.delete (ZSet.skiplist z) s m = Some (sl', true) ∧
               ZSet.skiplist z' = sl'.
Proof.
  intros (ids & Hinv & Hd) Hm.
  pose proof (proj1 (Hd m s) Hm) as Hk.
  destruct (sorted_split_present _ _ _ (inv_sorted _ _ Hinv) Hk)
    as (b & t & post & -> & Hb & Ht & Hp).
  destruct (delete_inv _ _ s m b t post Hinv eq_refl Hb Ht Hp)
    as (sl' & Edel & Hinv' & HS).
  unfold ZSet.zrem. rewrite Hm, Edel. cbn [mbind option_bind].
  eexists. split; [done|]. split; [|split; [done|by exists sl']].
  exists (b ++ post). cbn [ZSet.skiplist ZSet.dict]. split; [done|].
  intros m' s'. rewrite (same_shape_keys _ _ _ HS).
  pose proof (StronglySorted_key_lt_NoDup _ (inv_sorted _ _ Hinv)) as Hnd.
  rewrite fmap_app, fmap_cons, Ht in Hnd.
  apply NoDup_app in Hnd as (_ & Hnb & [Hnp _]%NoDup_cons).
  rewrite fmap_app, elem_of_app.
  destruct (decide (m' = m)) as [->|Hne].
  - rewrite lookup_delete_eq. split; [done|]. intros Hin.
    assert (ZSet.dict z !! m = Some s') as Hm'.
    { apply Hd. rewrite fmap_app, fmap_cons, elem_of_app, elem_of_cons. tauto. }
    assert (s' = s) as -> by congruence. exfalso.
    destruct Hin as [Hin|Hin]; [|done]. apply (Hnb _ Hin). by left.
  - rewrite lookup_delete_ne by done.
    rewrite Hd, fmap_app, fmap_cons, elem_of_app, elem_of_cons, Ht.
    split; [|tauto]. intros [?|[[= -> ->]|?]]; tauto.
Qed.

Lemma zadd_same z tp m s :
  ZSet.dict z !! m = Some s → s ≠ NaN → ZSet.zadd z tp m s = Some (z, false, tp).
Proof. intros Hm Hsn. unfold ZSet.zadd. by rewrite Hm, num_eqb_refl. Qed.

Lemma zrem_absent z m : ZSet.dict z !! m = None → ZSet.zrem z m = Some (z, false).
Proof. intros Hm. unfold ZSet.zrem. by rewrite Hm. Qed.

(** [zadd] of a member that the set holds with another score: the
    node of the old pair is deleted and a node for the new pair
    inserted. *)
Lemma zadd_update z tp m s s0 (nl : nat) tp' :
  zset_inv z → ZSet.dict z !! m = Some s0 → s0 ≠ s → s ≠ NaN →
  SkipList.randomLevel tp 32 = Some (nl, tp') →
  ∃ z' sl1 (nw : nat),
    SkipList.delete (ZSet.skiplist z) s0 m = Some (sl1, true) ∧
    SkipList.insert sl1 tp s m = Some (ZSet.skiplist z', nw, tp') ∧
    ZSet.zadd z tp m s = Some (z', false, tp') ∧ zset_inv z' ∧
    ZSet.dict z' = <[m := s]> (ZSet.dict z).
Proof.
  intros Hinv Hm Hne Hsn Hr.
  destruct (zrem_present z m s0 Hinv Hm) as (z1 & _ & Hinv1 & Hd1 & sl1 & Edel & Hsl1).
  assert (Hm1 : ZSet.dict z1 !! m = None) by (rewrite Hd1; apply lookup_delete_eq).
  destruct (zadd_new z1 tp m s nl tp' Hinv1 Hm1 Hsn Hr) as (z2 & Eadd & Hinv2 & Hd2).
  unfold ZSet.zadd in Eadd. rewrite Hm1, Hsl1 in Eadd.
  destruct (SkipList.insert sl1 tp s m) as [[[sl2 nw] tp2]|] eqn:Eins; [|done].
  cbn [mbind option_bind] in Eadd. injection Eadd as <- <-.
  exists {| ZSet.dict := <[m := s]> (ZSet.dict z); ZSet.skiplist := sl2 |}, sl1, nw.
  split; [done|]. split; [done|]. split; [|split; [|done]].
  - unfold ZSet.zadd. rewrite Hm, num_eqb_ne by done.
    rewrite Edel. cbn [mbind option_bind]. by rewrite Eins.
  - rewrite Hd1, insert_delete_eq in Hinv2. done.
Qed.

(** Every call of [zadd] and [zrem] that returns keeps the invariant. *)
Lemma zadd_inv z tp m s z' (added : bool) tp' :
  zset_inv z → s ≠ NaN → ZSet.zadd z tp m s = Some (z', added, tp') →
  zset_inv z' ∧ ZSet.dict z' = <[m := s]> (ZSet.dict z) ∧
  added = bool_decide (ZSet.dict z !! m = None).
Proof.
  intros Hinv Hsn E. pose proof Hinv as (ids & Hsl & _).
  destruct (ZSet.dict z !! m) as [s0|] eqn:Hm.
  - destruct (decide (s0 = s)) as [->|Hne].
    + rewrite zadd_same in E by done. injection E as <- <- <-.
      by rewrite insert_id.
    + destruct (SkipList.randomLevel tp 32) as [[nl tp1]|] eqn:Hr.
      * destruct (zadd_update z tp m s s0 nl tp1 Hinv Hm Hne Hsn Hr)
          as (z2 & _ & _ & _ & _ & E2 & Hinv2 & Hd2).
        rewrite E2 in E. by injection E as <- <- <-.
      * exfalso. unfold ZSet.zadd in E. rewrite Hm, num_eqb_ne in E by done.
        destruct (SkipList.delete _ _ _) as [[sl1 r]|] eqn:Ed; [|done].
        cbn [mbind option_bind] in E. rewrite insert_randomLevel_None in E; [done|].
        destruct (zrem_present z m s0 Hinv Hm) as (z1 & _ & (ids1 & Hsl1 & _) & _ & sl1' & Ed' & <-).
        rewrite Ed' in Ed. injection Ed as <- _.
        by rewrite (inv_maxLevel _ _ Hsl1).
  - destruct (SkipList.randomLevel tp 32) as [[nl tp1]|] eqn:Hr.
    + destruct (zadd_new z tp m s nl tp1 Hinv Hm Hsn Hr) as (z2 & E2 & Hinv2 & Hd2).
      rewrite E2 in E. by injection E as <- <- <-.
    + exfalso. unfold ZSet.zadd in E. rewrite Hm in E.
      rewrite insert_randomLevel_None in E; [done|].
      by rewrite (inv_maxLevel _ _ Hsl).
Qed.

Lemma zrem_inv z m z' (removed : bool) :
  zset_inv z → ZSet.zrem z m = Some (z', removed) →
  zset_inv z' ∧ ZSet.dict z' = base.delete m (ZSet.dict z) ∧
  removed = bool_decide (is_Some (ZSet.dict z !! m)).
Proof.
  intros Hinv E. destruct (ZSet.dict z !! m) as [s0|] eqn:Hm.
  - destruct (zrem_present z m s0 Hinv Hm) as (z1 & E1 & Hinv1 & Hd1 & _).
    rewrite E1 in E. injection E as <- <-. by rewrite bool_decide_true by done.
  - rewrite zrem_absent in E by done. injection E as <- <-.
    rewrite delete_id by done. rewrite bool_decide_false; [done|].
    by intros [? ?].
Qed.

Lemma zset_reachable_inv z : zset_reachable z → zset_inv z.
Proof.
  induction 1 as [|z tp m s z' added tp' _ IH Hsn E|z m z' removed _ IH E].
  - apply zset_inv_new.
  - by destruct (zadd_inv _ _ _ _ _ _ _ IH Hsn E).
  - by destruct (zrem_inv _ _ _ _ IH E).
Qed.

(** With 32 draws left, [zadd] returns; [zrem] always does. *)
Lemma zadd_total z tp m s :
  zset_inv z → s ≠ NaN → (32 ≤ length tp)%nat → is_Some (ZSet.zadd z tp m s).
Proof.
  intros Hinv Hsn Htp. destruct (randomLevel_total tp Htp) as [[nl tp1] Hr].
  destruct (ZSet.dict z !! m) as [s0|] eqn:Hm.
  - destruct (decide (s0 = s)) as [->|Hne]; [by rewrite zadd_same|].
    destruct (zadd_update z tp m s s0 nl tp1 Hinv Hm Hne Hsn Hr)
      as (z2 & _ & _ & _ & _ & E2 & _). by rewrite E2.
  - destruct (zadd_new z tp m s nl tp1 Hinv Hm Hsn Hr) as (z2 & E2 & _).
    by rewrite E2.
Qed.

Lemma zrem_total z m : zset_inv z → is_Some (ZSet.zrem z m).
Proof.
  intros Hinv. destruct (ZSet.dict z !! m) as [s0|] eqn:Hm.
  - destruct (zrem_present z m s0 Hinv Hm) as (z1 & E1 & _). by rewrite E1.
  - by rewrite zrem_absent.
Qed.

Lemma zset_calls_reachable z tp (cs : list zset_call) z' tp' :
  zset_reachable z → forallb zset_call_numeric cs = true →
  zset_calls z tp cs = Some (z', tp') → zset_reachable z'.
Proof.
  revert z tp. induction cs as [|[m s|m] cs IH]; intros z tp Hz Hcs;
    cbn [zset_calls]; cbn [forallb] in Hcs.
  - by intros [= <- <-].
  - apply andb_true_iff in Hcs as [Hs Hcs].
    destruct (ZSet.zadd z tp m s) as [[[z1 added] tp1]|] eqn:E; [|done].
    cbn [mbind option_bind]. apply IH; [|done].
    apply (reachable_zadd z tp m s z1 added tp1); [done| |done]. by intros ->.
  - destruct (ZSet.zrem z m) as [[z1 removed]|] eqn:E; [|done].
    cbn [mbind option_bind]. apply IH; [|done].
    by apply (reachable_zrem z m z1 removed).
Qed.

(** *** The pairs of the map *)
Lemma zset_pairs_elem z s m :
  (s, m) ∈ zset_pairs z ↔ ZSet.dict z !! m = Some s.
Proof.
  unfold zset_pairs. rewrite list_elem_of_fmap. split.
  - intros ([m' s'] & [= -> ->] & Hin). by apply elem_of_map_to_list.
  - intros Hm. exists (m, s). split; [done|]. by apply elem_of_map_to_list.
Qed.

Lemma zset_pairs_NoDup z : NoDup (zset_pairs z).
Proof.
  unfold zset_pairs. apply NoDup_fmap_2_strong; [|apply NoDup_map_to_list].
  intros [m1 s1] [m2 s2] _ _ [= -> ->]. done.
Qed.

Lemma zset_pairs_length z : length (zset_pairs z) = ZSet.zcard z.
Proof.
  unfold zset_pairs, ZSet.zcard. by rewrite length_fmap, length_map_to_list.
Qed.

Lemma sl_pairs_zset_pairs z :
  zset_inv z → sl_pairs (ZSet.skiplist z) ≡ₚ zset_pairs z.
Proof.
  intros Hinv. destruct (zset_inv_pairs z Hinv) as [Hs Hel].
  apply NoDup_Permutation.
  - by apply StronglySorted_key_lt_NoDup.
  - apply zset_pairs_NoDup.
  - intros [s m]. by rewrite Hel, zset_pairs_elem.
Qed.

Lemma sl_pairs_members_NoDup z :
  zset_inv z → NoDup (sl_pairs (ZSet.skiplist z)).*2.
Proof.
  intros Hinv. destruct (zset_inv_pairs z Hinv) as [Hs Hel].
  apply NoDup_fmap_2_strong; [|by apply StronglySorted_key_lt_NoDup].
  intros [s1 m1] [s2 m2] H1%Hel H2%Hel. cbn. intros ->. congruence.
Qed.

(** *** What [zadd] does to the pairs of the skip list *)
Lemma zadd_new_pairs z tp m s :
  zset_inv z → ZSet.dict z !! m = None → s ≠ NaN → (32 ≤ length tp)%nat →
  ∃ z' tp', ZSet.zadd z tp m s = Some (z', true, tp') ∧ zset_inv z' ∧
            ZSet.dict z' = <[m := s]> (ZSet.dict z) ∧
            sl_pairs (ZSet.skiplist z') ≡ₚ (s, m) :: sl_pairs (ZSet.skiplist z) ∧
            (length tp ≤ length tp' + 32)%nat.
Proof.
  intros Hinv Hm Hsn Htp. destruct (randomLevel_total tp Htp) as [[nl tp1] Hr].
  destruct (zadd_new z tp m s nl tp1 Hinv Hm Hsn Hr) as (z' & E & Hinv' & Hd).
  exists z', tp1. split; [done|]. split; [done|]. split; [done|].
  split; [|by apply (randomLevel_consumes _ nl)].
  destruct (zset_inv_pairs z Hinv) as [Hs Hel].
  destruct (zset_inv_pairs z' Hinv') as [Hs' Hel'].
  apply NoDup_Permutation.
  - by apply StronglySorted_key_lt_NoDup.
  - constructor; [|by apply StronglySorted_key_lt_NoDup].
    intros Hin%Hel. congruence.
  - intros [s' m']. rewrite Hel', Hd, elem_of_cons, Hel.
    destruct (decide (m' = m)) as [->|Hne].
    + rewrite lookup_insert_eq. split; [intros [= ->]; by left|].
      intros [[= ->]|?]; [done|congruence].
    + rewrite lookup_insert_ne by done. split; [tauto|].
      intros [[= -> ->]|?]; [done|tauto].
Qed.

Lemma zadd_update_pairs z tp m s s0 :
  zset_inv z → ZSet.dict z !! m = Some s0 → s0 ≠ s → s ≠ NaN →
  (32 ≤ length tp)%nat →
  ∃ z' tp' sl1 (nw : nat),
    SkipList.delete (ZSet.skiplist z) s0 m = Some (sl1, true) ∧
    SkipList.insert sl1 tp s m = Some (ZSet.skiplist z', nw, tp') ∧
    ZSet.zadd z tp m s = Some (z', false, tp') ∧ zset_inv z' ∧
    ZSet.dict z' = <[m := s]> (ZSet.dict z) ∧
    sl_pairs (ZSet.skiplist z')
    ≡ₚ (s, m) :: filter (λ p, p ≠ (s0, m)) (sl_pairs (ZSet.skiplist z)) ∧
    (length tp ≤ length tp' + 32)%nat.
Proof.
  intros Hinv Hm Hne Hsn Htp. destruct (randomLevel_total tp Htp) as [[nl tp1] Hr].
  destruct (zadd_update z tp m s s0 nl tp1 Hinv Hm Hne Hsn Hr)
    as (z' & sl1 & nw & Ed & Ei & E & Hinv' & Hd).
  exists z', tp1, sl1, nw. split; [done|]. split; [done|]. split; [done|].
  split; [done|]. split; [done|]. split; [|by apply (randomLevel_consumes _ nl)].
  destruct (zset_inv_pairs z Hinv) as [Hs Hel].
  destruct (zset_inv_pairs z' Hinv') as [Hs' Hel'].
  apply NoDup_Permutation.
  - by apply StronglySorted_key_lt_NoDup.
  - constructor; [|by apply NoDup_filter, StronglySorted_key_lt_NoDup].
    intros [_ Hin%Hel]%list_elem_of_filter. congruence.
  - intros [s' m']. rewrite Hel', Hd, elem_of_cons, list_elem_of_filter, Hel.
    destruct (decide (m' = m)) as [->|Hne'].
    + rewrite lookup_insert_eq. split; [intros [= ->]; by left|].
      intros [[= ->]|[Hx Hm']]; [done|]. destruct Hx. congruence.
    + rewrite lookup_insert_ne by done. split.
      * intros Hm'. right. split; [|done]. intros [= -> ->]. done.
      * intros [[= -> ->]|[_ ?]]; [done|tauto].
Qed.
End zset.

(** ** The rank of a member *)
Section rank.
Implicit Types (z : ZSet.t) (ps : list (number * string)) (p q : number * string).
Implicit Types (s : number) (m : string) (k : nat).

Lemma filter_all {A} (P : A → Prop) `{∀ x, Decision (P x)} (l : list A) :
  Forall P l → filter P l = l.
Proof.
  induction 1 as [|x l Hx _ IH]; [done|]. by rewrite filter_cons_True, IH.
Qed.

Lemma filter_none {A} (P : A → Prop) `{∀ x, Decision (P x)} (l : list A) :
  Forall (λ x, ¬ P x) l → filter P l = [].
Proof.
  induction 1 as [|x l Hx _ IH]; [done|]. by rewrite filter_cons_False.
Qed.

(** In a sorted list, the pairs before a position are the smaller
    ones. *)
Lemma sorted_middle ps1 p ps2 :
  StronglySorted key_lt (ps1 ++ p :: ps2) →
  Forall (λ q, key_lt q p) ps1 ∧ Forall (λ q, key_lt p q) ps2.
Proof.
  intros (H12 & _ & [Hp _]%StronglySorted_cons)%StronglySorted_app.
  split; [|done]. apply Forall_forall. intros q Hq. apply H12; [done|by left].
Qed.

Lemma sorted_count ps k p :
  StronglySorted key_lt ps → ps !! k = Some p →
  length (filter (λ q, key_lt q p) ps) = k.
Proof.
  intros Hs Hk. pose proof (lookup_lt_Some _ _ _ Hk) as Hlt.
  rewrite <- (take_drop_middle _ _ _ Hk) in Hs |- *.
  destruct (sorted_middle _ _ _ Hs) as [H1 H2].
  rewrite filter_app, filter_cons_False by apply key_lt_irrefl.
  rewrite (filter_all _ _ H1), filter_none.
  - rewrite app_nil_r, length_take. lia.
  - eapply Forall_impl; [exact H2|]. intros q Hq. by apply key_lt_asym.
Qed.

(** [zrank] returns the position of the pair in the skip list. *)
Lemma zrank_index z k s m :
  zset_inv z → sl_pairs (ZSet.skiplist z) !! k = Some (s, m) →
  ZSet.zrank z m = Some (Some (Z.of_nat k)).
Proof.
  intros (ids & Hinv & Hd) Hk. rewrite (sl_pairs_inv _ _ Hinv) in Hk.
  apply list_lookup_fmap_Some in Hk as (t & Ht & Hidk).
  assert (Hm : ZSet.dict z !! m = Some s).
  { apply Hd. apply list_elem_of_fmap. exists t. split; [done|].
    by apply list_elem_of_lookup_2 in Hidk. }
  pose proof (inv_sorted _ _ Hinv) as Hs.
  pose proof (lookup_lt_Some _ _ _ Hidk) as Hlt.
  rewrite <- (take_drop_middle _ _ _ Hidk) in Hs.
  rewrite fmap_app, fmap_cons in Hs. destruct (sorted_middle _ _ _ Hs) as [H1 H2].
  rewrite Forall_fmap in H1, H2. rewrite <- Ht in H1, H2.
  unfold ZSet.zrank. rewrite Hm.
  rewrite (getRank_inv _ ids s m (take k ids) t (drop (S k) ids));
    [|done|by rewrite take_drop_middle|done..].
  cbn. rewrite length_take. do 3 f_equal. lia.
Qed.

Lemma fmap_seq_ext {A B} (f : A → B) (g : nat → B) (l : list A) :
  (∀ k x, l !! k = Some x → f x = g k) → f <$> l = g <$> seq 0 (length l).
Proof.
  intros Hfg. apply list_eq. intros k. rewrite !list_lookup_fmap.
  destruct (l !! k) as [x|] eqn:Hk.
  - rewrite lookup_seq_lt by (by apply lookup_lt_Some in Hk). cbn.
    f_equal. by apply Hfg.
  - rewrite lookup_seq_ge; [done|]. by apply lookup_ge_None in Hk.
Qed.
End rank.

(** ** The two indexes of a sorted set *)

Lemma zset_ex_reachable : zset_reachable zset_ex.
Proof.
  apply (zset_calls_reachable ZSet.new tape_ex calls_ex zset_ex []);
    [constructor|reflexivity|]. vm_compute. reflexivity.
Defined.

(** For every sorted set that calls of [zadd] and [zrem] make from a
    new one with scores other than [NaN], the pairs of the skip list
    (read along the pointers of level 0) are the pairs of the
    member→score map, each once, and no member is in two nodes of the
    skip list.  The pairs of the skip list are what [zscore] knows and
    what [zrangeByScore] returns for a range that holds all the scores;
    and the calls that make the sets return: [zadd] when 32 draws are
    left, [zrem] always. *)
Theorem zset_map_and_skiplist_agree (z : ZSet.t) :
  zset_reachable z →
  sl_pairs (ZSet.skiplist z) ≡ₚ zset_pairs z ∧
  NoDup (sl_pairs (ZSet.skiplist z)).*2 ∧
  (∀ s m, (s, m) ∈ sl_pairs (ZSet.skiplist z) ↔ ZSet.zscore z m = Some s) ∧
  (∀ min max, Forall (λ p, num_le min p.1 ∧ num_le p.1 max) (zset_pairs z) →
     ZSet.zrangeByScore z min max None
     = Some ((λ p, (p.2, p.1)) <$> sl_pairs (ZSet.skiplist z))) ∧
  (∀ tp m s, s ≠ NaN → (32 ≤ length tp)%nat → is_Some (ZSet.zadd z tp m s)) ∧
  (∀ m, is_Some (ZSet.zrem z m)).
Proof.
  intros Hinv%zset_reachable_inv.
  pose proof (sl_pairs_zset_pairs z Hinv) as Hperm.
  split; [done|]. split; [by apply sl_pairs_members_NoDup|].
  split; [apply (zset_inv_pairs z Hinv)|]. split; [|split].
  - intros min max Hr. destruct Hinv as (ids & Hsl & _).
    apply (getByScoreRange_all _ ids); [done|]. by rewrite Hperm.
  - intros tp m s Hsn Htp. by apply zadd_total.
  - intros m. by apply zrem_total.
Qed.

Lemma zset_map_and_skiplist_agree_witness :
  zset_reachable zset_ex ∧
  sl_pairs (ZSet.skiplist zset_ex) ≡ₚ zset_pairs zset_ex ∧
  NoDup (sl_pairs (ZSet.skiplist zset_ex)).*2.
Proof.
  pose proof (zset_map_and_skiplist_agree zset_ex zset_ex_reachable) as (H1 & H2 & _).
  exact (conj zset_ex_reachable (conj H1 H2)).
Defined.

(** In every sorted set that calls of [zadd] and [zrem] make from a new
    one with scores other than [NaN], [zrank] returns for a member the
    number of pairs of the set that come before its pair in the order
    on (score, member), which is the 0-based position of the pair in
    the sorted list of the pairs; so the ranks of the N members are a
    permutation of 0, …, N - 1. *)
Theorem zset_zrank_is_index (z : ZSet.t) :
  zset_reachable z →
  (∀ m s, ZSet.dict z !! m = Some s →
     ZSet.zrank z m = Some (Some (Z.of_nat (rank_of z s m)))) ∧
  (∃ ps, ps ≡ₚ zset_pairs z ∧ StronglySorted key_lt ps ∧
         ∀ k s m, ps !! k = Some (s, m) →
                  ZSet.zrank z m = Some (Some (Z.of_nat k))) ∧
  (λ p, ZSet.zrank z p.2) <$> zset_pairs z
  ≡ₚ (λ k, Some (Some (Z.of_nat k))) <$> seq 0 (ZSet.zcard z).
Proof.
  intros Hinv%zset_reachable_inv.
  pose proof (sl_pairs_zset_pairs z Hinv) as Hperm.
  destruct (zset_inv_pairs z Hinv) as [Hs Hel].
  split; [|split].
  - intros m s Hm. pose proof (proj2 (Hel s m) Hm) as Hin.
    apply list_elem_of_lookup_1 in Hin as [k Hk].
    rewrite (zrank_index z k s m Hinv Hk). unfold rank_of.
    rewrite <- Hperm. by rewrite (sorted_count _ k _ Hs Hk).
  - exists (sl_pairs (ZSet.skiplist z)). split; [done|]. split; [done|].
    intros k s m Hk. by apply (zrank_index z k s m).
  - rewrite <- Hperm, <- zset_pairs_length, <- Hperm.
    rewrite (fmap_seq_ext (λ p, ZSet.zrank z p.2)
               (λ k, Some (Some (Z.of_nat k)))); [done|].
    intros k [s m] Hk. by apply (zrank_index z k s m).
Qed.

Lemma zset_zrank_is_index_witness :
  zset_reachable zset_ex ∧
  ZSet.dict zset_ex !! "a" = Some (Num 5) ∧ rank_of zset_ex 5 "a" = 2%nat ∧
  ZSet.zrank zset_ex "a" = Some (Some 2).
Proof.
  pose proof (zset_zrank_is_index zset_ex zset_ex_reachable) as (H1 & _).
  assert (Ha : ZSet.dict zset_ex !! "a" = Some (Num 5)) by (vm_compute; reflexivity).
  assert (Hr : rank_of zset_ex 5 "a" = 2%nat) by (vm_compute; reflexivity).
  specialize (H1 "a" 5 Ha). rewrite Hr in H1.
  exact (conj zset_ex_reachable (conj Ha (conj Hr H1))).
Defined.

(** ** A score that is [NaN] *)

(** C6 fails on the code.  [zadd] does not refuse the score [NaN],
    which is equal to no score and below none: [existing === score] is
    false for a member whose score is [NaN], the [delete] of the old
    pair finds no node (its result is dropped), and [insert] is called
    for a member that is still in the list.  After [zadd("m", NaN)]
    twice the map holds one pair and the skip list two nodes for the
    member. *)
Theorem C6_nan_score_duplicates_member :
  ZSet.zadd ZSet.new [(1 # 2)%Q] "m" NaN = Some (zset_nan1, true, []) ∧
  ZSet.zadd zset_nan1 [(1 # 2)%Q] "m" NaN = Some (zset_nan2, false, []) ∧
  ZSet.zcard zset_nan2 = 1%nat ∧
  zset_pairs zset_nan2 = [(NaN, "m")] ∧
  sl_pairs (ZSet.skiplist zset_nan2) = [(NaN, "m"); (NaN, "m")] ∧
  ¬ sl_pairs (ZSet.skiplist zset_nan2) ≡ₚ zset_pairs zset_nan2 ∧
  ¬ NoDup (sl_pairs (ZSet.skiplist zset_nan2)).*2.
Proof.
  assert (H4 : zset_pairs zset_nan2 = [(NaN, "m")]) by (vm_compute; reflexivity).
  assert (H5 : sl_pairs (ZSet.skiplist zset_nan2) = [(NaN, "m"); (NaN, "m")])
    by (vm_compute; reflexivity).
  split; [vm_compute; reflexivity|]. split; [vm_compute; reflexivity|].
  split; [vm_compute; reflexivity|]. split; [done|]. split; [done|].
  rewrite H4, H5. split.
  - intros Hp%Permutation_length. cbn in Hp. lia.
  - cbn. intros Hnd. apply NoDup_cons in Hnd as [Hnot _]. apply Hnot. by left.
Qed.

(** The same defect leaves a node behind: in a set with the pairs
    (1, "a") and (NaN, "b"), the node of "b" stands first, the search of
    [delete] stops before it, and [zrem("a")] takes "a" out of the map
    and not out of the skip list. *)
Lemma nan_score_hides_node :
  zset_pairs zset_nan_ab ≡ₚ [(Num 1, "a"); (NaN, "b")] ∧
  sl_pairs (ZSet.skiplist zset_nan_ab) = [(NaN, "b"); (Num 1, "a")] ∧
  ZSet.zrem zset_nan_ab "a" = Some (zset_nan_b, true) ∧
  ZSet.zscore zset_nan_b "a" = None ∧
  sl_pairs (ZSet.skiplist zset_nan_b) = [(NaN, "b"); (Num 1, "a")].
Proof.
  split; [|by vm_compute].
  assert (H : zset_pairs zset_nan_ab = [(Num 1, "a"); (NaN, "b")]
              ∨ zset_pairs zset_nan_ab = [(NaN, "b"); (Num 1, "a")]).
  { vm_compute. tauto. }
  destruct H as [->| ->]; [done|apply Permutation_swap].
Qed.

(** C7 fails on the code for the same reason: [getRank] passes a node
    only when the comparison with it is at most 0, which it never is
    with a score that is [NaN].  The only member of a set, added with
    the score [NaN], has the rank -1; and in the set with the pairs
    (1, "a") and (NaN, "b") both members have the rank -1. *)
Theorem C7_nan_score_has_no_rank :
  ZSet.zadd ZSet.new [(1 # 2)%Q] "m" NaN = Some (zset_nan1, true, []) ∧
  ZSet.zcard zset_nan1 = 1%nat ∧
  ZSet.zscore zset_nan1 "m" = Some NaN ∧
  ZSet.zrank zset_nan1 "m" = Some (Some (-1)) ∧
  ZSet.zcard zset_nan_ab = 2%nat ∧
  ZSet.zscore zset_nan_ab "a" = Some (Num 1) ∧
  ZSet.zrank zset_nan_ab "a" = Some (Some (-1)) ∧
  ZSet.zrank zset_nan_ab "b" = Some (Some (-1)).
Proof. by vm_compute. Qed.

(** ** [zadd] on the cache *)
Section Cache_zadd.
Implicit Types (c : Cache.t) (key member : string) (now : Z) (tp : tape).
Implicit Types (score : number).
Implicit Types (e : CacheEntry) (z : ZSet.t).

Lemma touch_total (u : UsageTracker.t) now tp key :
  (1 ≤ length tp)%nat → is_Some (UsageTracker.touch u now tp key).
Proof.
  intros Htp. unfold UsageTracker.touch. destruct (UsageTracker.policy u); [done|].
  destruct tp as [|r tp]; [cbn in Htp; lia|]. by cbn.
Qed.




End Cache_zadd.


(** ** Range queries *)
Section range.
Implicit Types (sl : SkipList.t) (ids b post l lo mid hi : list nat) (x y u t i : nat).
Implicit Types (h : list SkipList.SkipListNode) (s : number) (m : string).

(** The scores grow with the pairs. *)
Lemma key_lt_score_le (p q : number * string) : key_lt p q → num_leb p.1 q.1 = true.
Proof.
  unfold key_lt, key_ltb, num_leb. intros [H|[H _]%andb_true_iff]%orb_true_iff;
    rewrite H; by rewrite ?orb_true_r.
Qed.

(** The nodes of a sorted list whose scores a test accepts come first
    when the test accepts every score below an accepted one. *)
Lemma sorted_split_score h ids (P : number → bool) :
  StronglySorted key_lt (key_of h <$> ids) →
  (∀ s1 s2 : number, num_leb s1 s2 = true → P s2 = true → P s1 = true) →
  ∃ lo rest, ids = lo ++ rest ∧
             Forall (λ y, P (key_of h y).1 = true) lo ∧
             Forall (λ y, P (key_of h y).1 = false) rest.
Proof.
  intros Hs HP. induction ids as [|x ids IH]; csimpl in Hs.
  { by exists [], []. }
  apply StronglySorted_cons in Hs as [Hx Hs].
  destruct (P (key_of h x).1) eqn:Hpx.
  - destruct (IH Hs) as (lo & rest & -> & Hlo & Hrest).
    exists (x :: lo), rest. split; [done|]. split; [by constructor|done].
  - exists [], (x :: ids). split; [done|]. split; [constructor|].
    constructor; [done|]. rewrite Forall_fmap in Hx.
    eapply Forall_impl; [exact Hx|]. intros y Hxy. cbn in Hxy.
    apply not_true_is_false. intros Hpy.
    rewrite (HP _ _ (key_lt_score_le _ _ Hxy) Hpy) in Hpx. done.
Qed.

(** The first loop of [getByScoreRange] passes the nodes below [min]. *)
Lemma skip_below_spec (fuel : nat) h (min : number) x lo l :
  level_ok h 0 (x :: lo ++ l) → Forall (λ y, tallb h 0 y = true) (x :: lo ++ l) →
  Forall (λ y, is_Some (h !! y)) (lo ++ l) →
  Forall (λ y, num_ltb (key_of h y).1 min = true) lo →
  Forall (λ y, num_ltb (key_of h y).1 min = false) l →
  (length lo ≤ fuel)%nat →
  ∃ x', SkipList.skip_below fuel h min (SkipList.fwd h x 0)
        = Some (SkipList.fwd h x' 0) ∧
        level_ok h 0 (x' :: l) ∧ tallb h 0 x' = true.
Proof.
  revert fuel x. induction lo as [|y lo IH]; intros fuel x Hlev Ht Hv Hlo Hl Hf.
  - exists x. cbn [app] in *. split; [|split; [done|by apply Forall_cons in Ht as [? _]]].
    destruct (SkipList.fwd h x 0) as [y|] eqn:Hfw; [|by destruct fuel].
    apply (level_ok_fwd_in _ 0%nat [] x l) in Hfw as Hy;
      [|done|by apply Forall_cons in Ht as [? _]].
    rewrite Forall_forall in Hv, Hl. destruct (Hv y Hy) as [n Hn].
    specialize (Hl y Hy). unfold key_of in Hl. rewrite Hn in Hl. cbn in Hl.
    destruct fuel; cbn [SkipList.skip_below]; rewrite Hn; cbn [mbind option_bind];
      by rewrite Hl.
  - cbn [app] in *. destruct Hlev as [Hlink Hlev]. apply Forall_cons in Ht as [Hx Ht].
    specialize (Hlink Hx). unfold link_ok in Hlink. cbn [next_tall] in Hlink.
    pose proof Ht as [Hy _]%Forall_cons. rewrite Hy in Hlink.
    destruct Hlink as [-> _]. apply Forall_cons in Hv as [[n Hn] Hv].
    apply Forall_cons in Hlo as [Hylo Hlo].
    unfold key_of in Hylo. rewrite Hn in Hylo. cbn in Hylo.
    destruct fuel as [|fuel]; [cbn in Hf; lia|].
    cbn [SkipList.skip_below]. rewrite Hn. cbn [mbind option_bind].
    rewrite Hylo.
    apply IH; [done|done|done|done|done|cbn in Hf; lia].
Qed.

Lemma take_limit_nil {A} (limit : option number) : take_limit limit (@nil A) = [].
Proof. destruct limit as [[n| | |]|]; cbn; by rewrite ?take_nil. Qed.

(** The limit of the loop that collects: the pairs that are still
    wanted when [k] have been collected. *)
Lemma take_limit_stop {A} (limit : number) (k : nat) (l : list A) :
  num_ltb (Num (Z.of_nat k)) limit = false →
  take_limit (Some (num_sub limit (Num (Z.of_nat k)))) l = [].
Proof.
  destruct limit as [n| | |]; cbn; try done.
  intros H%bool_decide_eq_false. replace (Z.to_nat (n - Z.of_nat k)) with 0%nat by lia.
  apply take_0.
Qed.

Lemma take_limit_step {A} (limit : number) (k : nat) (x : A) (l : list A) :
  num_ltb (Num (Z.of_nat k)) limit = true →
  take_limit (Some (num_sub limit (Num (Z.of_nat k)))) (x :: l)
  = x :: take_limit (Some (num_sub limit (Num (Z.of_nat (k + 1))))) l.
Proof.
  destruct limit as [n| | |]; cbn; try done.
  intros H%bool_decide_eq_true.
  replace (Z.to_nat (n - Z.of_nat k)) with (S (Z.to_nat (n - Z.of_nat (k + 1)))) by lia.
  done.
Qed.

(** The second loop collects the nodes up to [max], and stops at the
    limit. *)
Lemma collect_spec (fuel : nat) h (max limit : number) x mid hi
    (acc : list (string * number)) :
  level_ok h 0 (x :: mid ++ hi) → Forall (λ y, tallb h 0 y = true) (x :: mid ++ hi) →
  Forall (λ y, is_Some (h !! y)) (mid ++ hi) →
  Forall (λ y, num_leb (key_of h y).1 max = true) mid →
  Forall (λ y, num_leb (key_of h y).1 max = false) hi →
  (length mid ≤ fuel)%nat →
  SkipList.collect fuel h max limit (SkipList.fwd h x 0) acc
  = Some (acc ++ take_limit (Some (num_sub limit (Num (Z.of_nat (length acc)))))
                   ((λ y, ((key_of h y).2, (key_of h y).1)) <$> mid)).
Proof.
  revert fuel x acc. induction mid as [|y mid IH]; intros fuel x acc Hlev Ht Hv Hmid Hhi Hf.
  - cbn [app fmap list_fmap] in *. rewrite take_limit_nil, app_nil_r.
    destruct (SkipList.fwd h x 0) as [y|] eqn:Hfw; [|by destruct fuel].
    apply (level_ok_fwd_in _ 0%nat [] x hi) in Hfw as Hy;
      [|done|by apply Forall_cons in Ht as [? _]].
    rewrite Forall_forall in Hv, Hhi. destruct (Hv y Hy) as [n Hn].
    specialize (Hhi y Hy). unfold key_of in Hhi. rewrite Hn in Hhi. cbn in Hhi.
    destruct fuel; cbn [SkipList.collect]; rewrite Hn; cbn [mbind option_bind];
      by rewrite Hhi.
  - cbn [app] in *. destruct Hlev as [Hlink Hlev]. apply Forall_cons in Ht as [Hx Ht].
    specialize (Hlink Hx). unfold link_ok in Hlink. cbn [next_tall] in Hlink.
    pose proof Ht as [Hy _]%Forall_cons. rewrite Hy in Hlink.
    destruct Hlink as [-> _]. apply Forall_cons in Hv as [[n Hn] Hv].
    apply Forall_cons in Hmid as [Hym Hmid].
    unfold key_of in Hym. rewrite Hn in Hym. cbn in Hym.
    destruct fuel as [|fuel]; [cbn in Hf; lia|].
    cbn [SkipList.collect]. rewrite Hn. cbn [mbind option_bind].
    rewrite Hym. cbn [andb].
    assert (Hk : ((key_of h y).2, (key_of h y).1)
                 = (SkipList.member n, SkipList.score n))
      by (unfold key_of; by rewrite Hn).
    destruct (num_ltb (Num (Z.of_nat (length acc))) limit) eqn:Hlim.
    + rewrite IH; [|done|done|done|done|done|cbn in Hf; lia].
      rewrite <- app_assoc, length_app. cbn [length app fmap list_fmap].
      rewrite Hk. f_equal. by rewrite take_limit_step.
    + by rewrite take_limit_stop, app_nil_r.
Qed.

(** [getByScoreRange] returns the pairs of the range, in order, up to
    the limit. *)
Lemma getByScoreRange_spec sl ids (min max : number) (limit : option number) :
  sl_inv sl ids →
  SkipList.getByScoreRange sl min max limit
  = Some (take_limit limit (score_range min max (sl_pairs sl))).
Proof.
  intros Hinv. rewrite (sl_pairs_inv _ _ Hinv).
  set (h := SkipList.nodes sl).
  pose proof (inv_sorted _ _ Hinv) as Hs. fold h in Hs.
  destruct (sorted_split_score h ids (λ s, num_ltb s min) Hs)
    as (lo & rest & -> & Hlo & Hrest).
  { intros s1 s2. apply num_leb_ltb_trans. }
  rewrite fmap_app in Hs. apply StronglySorted_app_1_r in Hs as Hs2.
  destruct (sorted_split_score h rest (λ s, num_leb s max) Hs2)
    as (mid & hi & -> & Hmid & Hhi).
  { intros s1 s2. apply num_leb_trans. }
  pose proof (inv_levels _ _ Hinv 0%nat ltac:(lia)) as Hlev. fold h in Hlev.
  assert (Ht : Forall (λ y, tallb h 0 y = true) (0%nat :: lo ++ mid ++ hi)).
  { constructor; [apply (inv_header_tall sl _ 0%nat Hinv); lia|].
    apply (inv_level0 _ _ Hinv). }
  pose proof (inv_valid _ _ Hinv) as Hv. fold h in Hv.
  pose proof (inv_heap _ _ Hinv) as Hh. fold h in Hh.
  rewrite !length_app in Hh.
  unfold SkipList.getByScoreRange, SkipList.header. fold h.
  destruct (skip_below_spec (length h) h min 0%nat lo (mid ++ hi))
    as (x' & -> & Hlev' & Hx'); [done|done|done|done|done|lia|].
  cbn [mbind option_bind].
  rewrite (collect_spec _ _ _ _ _ mid hi); [|done| | |done|done|lia].
  - cbn [app length]. f_equal. unfold score_range.
    rewrite !fmap_app, !filter_app.
    rewrite (filter_none _ (key_of h <$> lo)), (filter_all _ (key_of h <$> mid)),
      (filter_none _ (key_of h <$> hi)).
    + rewrite app_nil_l, app_nil_r, <- list_fmap_compose.
      destruct limit as [[n| | |]|];
        cbn [take_limit from_option id num_sub]; try done.
      change (Z.of_nat 0) with 0. by rewrite Z.sub_0_r.
    + rewrite Forall_fmap. eapply Forall_impl; [exact Hhi|]. cbn.
      intros y Hy [_ Hle]. unfold num_le in Hle. congruence.
    + rewrite Forall_fmap. apply Forall_app in Hrest as [Hm' _].
      rewrite Forall_forall in Hm', Hmid |- *. intros y Hy. cbn.
      specialize (Hm' y Hy). specialize (Hmid y Hy). cbn in *.
      split; [|done]. unfold num_lt. congruence.
    + rewrite Forall_fmap. eapply Forall_impl; [exact Hlo|]. cbn.
      intros y Hy [Hn _]. by apply Hn.
  - constructor; [done|]. apply Forall_cons in Ht as [_ Ht].
    by apply Forall_app in Ht as [_ ?].
  - by apply Forall_app in Hv as [_ ?].
Qed.
End range.

(** ** A pair that the skip list does not hold *)
Section absent.
Implicit Types (sl : SkipList.t) (ids a b post l : list nat) (x y u t i : nat).
Implicit Types (h : list SkipList.SkipListNode) (s : number) (m : string).

(** The nodes before a pair that the list does not hold, and the nodes
    after it; the score of the pair may be [NaN]. *)
Lemma sorted_split_not_held h ids (k : number * string) :
  StronglySorted key_lt (key_of h <$> ids) → k ∉ key_of h <$> ids →
  ∃ b post, ids = b ++ post ∧
            Forall (λ y, key_lt (key_of h y) k) b ∧
            Forall (λ y, ¬ key_lt (key_of h y) k ∧ key_of h y ≠ k) post.
Proof.
  intros Hs Hk. destruct (sorted_split h ids k Hs) as (b & post & -> & Hb & Hp).
  exists b, post. split; [done|]. split; [done|].
  rewrite Forall_forall in Hp |- *. intros y Hy. split; [by apply Hp|].
  intros Heq. apply Hk. rewrite <- Heq. apply list_elem_of_fmap. exists y.
  split; [done|]. apply elem_of_app. by right.
Qed.

(** The walk of [getRank] when no node holds the key: it stops at the
    last tall node before the place of the key. *)
Lemma getRank_walk_absent (fuel : nat) h i s m a x b post (r : Z) :
  level_ok h i (a ++ x :: b ++ post) →
  tallb h i x = true →
  Forall (λ y, key_lt (key_of h y) (s, m)) b →
  Forall (λ y, ¬ key_lt (key_of h y) (s, m) ∧ key_of h y ≠ (s, m)) post →
  Forall (λ y, is_Some (h !! y)) (b ++ post) →
  (length b ≤ fuel)%nat →
  ∃ a' u b', a ++ x :: b = a' ++ u :: b' ∧ tallb h i u = true ∧
             b' `suffix_of` b ∧
             SkipList.getRank_walk fuel h i s m x r
             = Some (inr (u, r + (Z.of_nat (length a') - Z.of_nat (length a)))).
Proof.
  revert a x b r. induction fuel as [|fuel IH]; intros a x b r Hok Hx Hb Hpost Hex Hf.
  all: rewrite getRank_walk_unfold.
  all: pose proof (level_ok_elem _ _ _ _ _ Hok Hx) as Hlink; unfold link_ok in Hlink.
  all: destruct (tall_split h i b) as [Hnt|(b1 & y & b2 & -> & Hb1 & Hy)].
  - rewrite next_tall_app in Hlink. rewrite (proj2 (next_tall_None _ _ _) Hnt) in Hlink.
    exists a, x, b. repeat (split; [done|]).
    replace (r + _) with r by lia.
    destruct (next_tall h i post) as [[y d]|] eqn:Hn; cbn in Hlink.
    + destruct Hlink as [-> _].
      destruct (next_tall_Some _ _ _ _ _ Hn) as (p1 & p2 & -> & _).
      apply Forall_app in Hex as [_ Hex].
      apply Forall_app in Hex as [_ [[n Hn'] _]%Forall_cons].
      destruct (cmp_node_key h y n s m Hn') as (c & -> & _ & Hc). cbn.
      apply Forall_app in Hpost as [_ [Hy _]%Forall_cons].
      rewrite (bool_iff_false _ _ Hc); [done|]. destruct Hy as [Hy1 Hy2].
      intros [Hlt|[Heq _]]; done.
    + by rewrite Hlink.
  - rewrite length_app in Hf. cbn in Hf. lia.
  - rewrite next_tall_app in Hlink. rewrite (proj2 (next_tall_None _ _ _) Hnt) in Hlink.
    exists a, x, b. repeat (split; [done|]).
    replace (r + _) with r by lia.
    destruct (next_tall h i post) as [[y d]|] eqn:Hn; cbn in Hlink.
    + destruct Hlink as [-> _].
      destruct (next_tall_Some _ _ _ _ _ Hn) as (p1 & p2 & -> & _).
      apply Forall_app in Hex as [_ Hex].
      apply Forall_app in Hex as [_ [[n Hn'] _]%Forall_cons].
      destruct (cmp_node_key h y n s m Hn') as (c & -> & _ & Hc). cbn.
      apply Forall_app in Hpost as [_ [Hy _]%Forall_cons].
      rewrite (bool_iff_false _ _ Hc); [done|]. destruct Hy as [Hy1 Hy2].
      intros [Hlt|[Heq _]]; done.
    + by rewrite Hlink.
  - rewrite <- app_assoc in Hlink. cbn [app] in Hlink.
    rewrite (next_tall_first h i b1 y) in Hlink by done.
    destruct Hlink as [-> Hsp].
    assert (Hyn : is_Some (h !! y)).
    { apply Forall_app in Hex as [Hex _].
      by apply Forall_app in Hex as [_ [? _]%Forall_cons]. }
    destruct Hyn as [n Hn'].
    destruct (cmp_node_key h y n s m Hn') as (c & -> & _ & Hc). cbn.
    assert (Hyk : key_lt (key_of h y) (s, m)).
    { by apply Forall_app in Hb as [_ [? _]%Forall_cons]. }
    rewrite (bool_iff_true _ _ Hc) by (by left). rewrite Hsp. cbn.
    rewrite Hn'. cbn.
    assert (num_eqb (SkipList.score n) s
            && bool_decide (SkipList.member n = m) = false) as ->.
    { apply not_true_is_false. intros [Hs Hm]%andb_true_iff.
      apply num_eqb_eq in Hs. apply bool_decide_eq_true in Hm. unfold key_of in Hyk.
      rewrite Hn', Hs, Hm in Hyk. by apply key_lt_irrefl in Hyk. }
    assert (E : (a ++ x :: b1) ++ y :: b2 ++ post
                = a ++ x :: (b1 ++ y :: b2) ++ post)
      by (by rewrite <- !app_assoc).
    destruct (IH (a ++ x :: b1) y b2 (r + Z.of_nat (S (length b1))))
      as (a' & u & b' & Heq & Hu & Hsuf & Hw).
    + by rewrite E.
    + done.
    + by apply Forall_app in Hb as [_ [_ ?]%Forall_cons].
    + done.
    + rewrite <- app_assoc in Hex. cbn [app] in Hex.
      apply Forall_app in Hex as [_ [_ ?]%Forall_cons]. done.
    + rewrite length_app in Hf. cbn in Hf. lia.
    + exists a', u, b'. rewrite <- app_assoc in Heq. cbn [app] in Heq.
      split; [done|]. split; [done|].
      rewrite length_app in Hw. cbn [length] in Hw.
      split.
      * etrans; [done|]. apply suffix_app_r, suffix_cons_r. done.
      * rewrite Hw. f_equal. f_equal. f_equal. lia.
Qed.

Lemma getRank_descend_absent (n : nat) h s m a x b post (r : Z) :
  (∀ i, (i < n)%nat → level_ok h i (a ++ x :: b ++ post)) →
  (∀ i, (i < n)%nat → tallb h i x = true) →
  Forall (λ y, key_lt (key_of h y) (s, m)) b →
  Forall (λ y, ¬ key_lt (key_of h y) (s, m) ∧ key_of h y ≠ (s, m)) post →
  Forall (λ y, is_Some (h !! y)) (b ++ post) →
  (length b ≤ length h)%nat →
  SkipList.getRank_descend n h s m x r = Some (-1).
Proof.
  revert a x b r. induction n as [|n IH]; intros a x b r Hok Hx Hb Hpost Hex Hf; [done|].
  cbn [SkipList.getRank_descend].
  destruct (getRank_walk_absent (length h) h n s m a x b post r)
    as (a' & u & b' & Heq & Hu & [c Hc] & Hw); [auto..|].
  rewrite Hw. cbn.
  assert (E : a' ++ u :: b' ++ post = a ++ x :: b ++ post).
  { change (a' ++ (u :: b') ++ post = a ++ (x :: b) ++ post).
    by rewrite !app_assoc, Heq. }
  apply (IH a' u b').
  - intros i Hi. rewrite E. apply Hok. lia.
  - intros i Hi. apply (tallb_mono h n); [lia|done].
  - rewrite Hc in Hb. by apply Forall_app in Hb as [_ ?].
  - done.
  - rewrite Hc, <- app_assoc in Hex. by apply Forall_app in Hex as [_ ?].
  - rewrite Hc, length_app in Hf. lia.
Qed.

(** [getRank] of a pair that the list does not hold is -1. *)
Lemma getRank_absent sl ids s m :
  sl_inv sl ids → (s, m) ∉ sl_pairs sl → SkipList.getRank sl s m = Some (-1).
Proof.
  intros Hinv Hnot. rewrite (sl_pairs_inv _ _ Hinv) in Hnot.
  destruct (sorted_split_not_held _ _ _ (inv_sorted _ _ Hinv) Hnot)
    as (b & post & -> & Hb & Hp).
  unfold SkipList.getRank, SkipList.header.
  apply (getRank_descend_absent _ _ _ _ [] 0%nat b post).
  - intros i Hi. apply (inv_levels _ _ Hinv). pose proof (inv_lvl _ _ Hinv). lia.
  - intros i Hi. apply (inv_header_tall sl _ i Hinv). pose proof (inv_lvl _ _ Hinv). lia.
  - done.
  - done.
  - apply (inv_valid _ _ Hinv).
  - pose proof (inv_heap _ _ Hinv) as Hh. rewrite length_app in Hh. lia.
Qed.

(** [delete] of a pair that the list does not hold changes nothing. *)
Lemma delete_absent sl ids s m :
  sl_inv sl ids → (s, m) ∉ sl_pairs sl → SkipList.delete sl s m = Some (sl, false).
Proof.
  intros Hinv Hnot. rewrite (sl_pairs_inv _ _ Hinv) in Hnot.
  destruct (sorted_split_not_held _ _ _ (inv_sorted _ _ Hinv) Hnot)
    as (b & post & -> & Hb & Hp).
  pose proof (inv_lvl _ _ Hinv) as Hl.
  assert (Hp' : Forall (λ y, ¬ key_lt (key_of (SkipList.nodes sl) y) (s, m)) post).
  { eapply Forall_impl; [exact Hp|]. by intros y [Hy _]. }
  destruct (insert_descend_inv sl _ s m b post Hinv eq_refl Hb Hp')
    as (update & rank & Ed & Lu & Lr & Hup & _).
  destruct (delete_descend_insert_descend _ _ _ _ _ _ _ _ _ _ Ed) as (xf & Edd & _).
  pose proof (delete_descend_last _ _ _ _ _ _ _ _ Edd ltac:(lia)
                ltac:(rewrite length_replicate; lia)) as Hxf.
  destruct (Hup 0%nat) as (u & p & (a' & b' & Heq & Hb' & Hu & _) & Hu0 & _); [lia|].
  assert (xf = u) as -> by congruence.
  assert (b' = []) as ->.
  { destruct b' as [|y b'] using rev_ind; [done|].
    apply Forall_app in Hb' as [_ [Hy _]%Forall_cons].
    pose proof (inv_level0 _ _ Hinv) as H0. rewrite Forall_forall in H0.
    assert (Hin : y ∈ b ++ post).
    { assert (Hin' : y ∈ 0%nat :: b) by (rewrite Heq; elem_tac).
      apply elem_of_cons in Hin' as [->|Hin'].
      - pose proof (inv_header_tall sl _ 0%nat Hinv ltac:(lia)). congruence.
      - elem_tac. }
    specialize (H0 y Hin). congruence. }
  pose proof (inv_levels _ _ Hinv 0%nat ltac:(lia)) as Hlev.
  change (0%nat :: b ++ post) with ((0%nat :: b) ++ post) in Hlev.
  rewrite Heq, <- app_assoc in Hlev. cbn [app] in Hlev.
  pose proof (level_ok_elem _ _ _ _ _ Hlev Hu) as Hlink. unfold link_ok in Hlink.
  unfold SkipList.delete, SkipList.header.
  rewrite (inv_maxLevel _ _ Hinv), Edd. cbn [mbind option_bind].
  destruct post as [|t post]; cbn [next_tall] in Hlink.
  - by rewrite Hlink.
  - pose proof (inv_level0 _ _ Hinv) as H0. rewrite Forall_forall in H0.
    rewrite (H0 t) in Hlink by elem_tac. destruct Hlink as [-> _].
    pose proof (inv_valid _ _ Hinv) as Hv. rewrite Forall_forall in Hv.
    destruct (Hv t) as [n Hn]; [elem_tac|]. rewrite Hn. cbn [mbind option_bind].
    apply Forall_cons in Hp as [[_ Ht] _]. unfold key_of in Ht. rewrite Hn in Ht.
    destruct (num_eqb (SkipList.score n) s) eqn:Hs; [|done].
    apply num_eqb_eq in Hs. cbn [negb orb].
    destruct (decide (SkipList.member n = m)) as [Hm|Hm];
      [|by rewrite (bool_decide_true (SkipList.member n ≠ m)) by done].
    by rewrite Hs, Hm in Ht.
Qed.
End absent.

(** ** What the calls on a sorted set do to it *)
Section effects.
Implicit Types (z : ZSet.t) (d : gmap string number) (ps : list (number * string)).
Implicit Types (p q k : number * string) (s : number) (m : string).

Local Abbreviation pairs_of d :=
  ((λ ms : string * number, (ms.2, ms.1)) <$> map_to_list d).
Local Abbreviation count d k := (length (filter (λ p, key_lt p k) (pairs_of d))).

Lemma zrank_rank_of z m s :
  zset_inv z → ZSet.dict z !! m = Some s →
  ZSet.zrank z m = Some (Some (Z.of_nat (rank_of z s m))).
Proof.
  intros Hinv Hm. pose proof (sl_pairs_zset_pairs z Hinv) as Hperm.
  destruct (zset_inv_pairs z Hinv) as [Hs Hel].
  pose proof (proj2 (Hel s m) Hm) as Hin.
  apply list_elem_of_lookup_1 in Hin as [i Hi].
  rewrite (zrank_index z i s m Hinv Hi). unfold rank_of.
  rewrite <- Hperm. by rewrite (sorted_count _ i _ Hs Hi).
Qed.

Lemma count_insert d m s k :
  d !! m = None →
  Z.of_nat (count (<[m := s]> d) k) = pair_before (s, m) k + Z.of_nat (count d k).
Proof.
  intros Hm. rewrite (map_to_list_insert d m s Hm). cbn [fmap list_fmap].
  unfold pair_before. destruct (decide (key_lt (s, m) k)) as [Hk|Hk].
  - rewrite filter_cons_True by done. cbn [length]. lia.
  - rewrite filter_cons_False by done. lia.
Qed.

Lemma count_present d m s0 k :
  d !! m = Some s0 →
  Z.of_nat (count d k)
  = pair_before (s0, m) k + Z.of_nat (count (base.delete m d) k).
Proof.
  intros Hm. rewrite <- (count_insert _ m s0 k) by apply lookup_delete_eq.
  by rewrite insert_delete_eq, insert_id.
Qed.

Lemma count_update d m s k :
  Z.of_nat (count (<[m := s]> d) k)
  = pair_before (s, m) k + Z.of_nat (count (base.delete m d) k).
Proof.
  rewrite <- (count_insert _ m s k) by apply lookup_delete_eq.
  by rewrite insert_delete_eq.
Qed.

Lemma rank_of_count z s m :
  rank_of z s m = count (ZSet.dict z) (s, m).
Proof. done. Qed.

(** What [zadd] returns, and the map of the set it makes. *)
Lemma zadd_dict z (tp : tape) m s :
  zset_inv z → s ≠ NaN → (32 ≤ length tp)%nat →
  ∃ z' tp', ZSet.zadd z tp m s
            = Some (z', bool_decide (ZSet.zscore z m = None), tp') ∧
            zset_inv z' ∧ ZSet.dict z' = <[m := s]> (ZSet.dict z).
Proof.
  intros Hinv Hsn Htp. unfold ZSet.zscore.
  destruct (ZSet.dict z !! m) as [s0|] eqn:Hm.
  - rewrite bool_decide_false by done.
    destruct (decide (s0 = s)) as [->|Hne].
    + exists z, tp. rewrite (zadd_same z tp m s Hm Hsn), insert_id by done. done.
    + destruct (zadd_update_pairs z tp m s s0 Hinv Hm Hne Hsn Htp)
        as (z' & tp' & _ & _ & _ & _ & E & Hinv' & Hd & _).
      by exists z', tp'.
  - rewrite bool_decide_true by done.
    destruct (zadd_new_pairs z tp m s Hinv Hm Hsn Htp)
      as (z' & tp' & E & Hinv' & Hd & _).
    by exists z', tp'.
Qed.

Lemma zrem_dict z m :
  zset_inv z →
  ∃ z', ZSet.zrem z m = Some (z', bool_decide (ZSet.zscore z m ≠ None)) ∧
        zset_inv z' ∧ ZSet.dict z' = base.delete m (ZSet.dict z).
Proof.
  intros Hinv. unfold ZSet.zscore.
  destruct (ZSet.dict z !! m) as [s0|] eqn:Hm.
  - rewrite bool_decide_true by done.
    destruct (zrem_present z m s0 Hinv Hm) as (z' & E & Hinv' & Hd & _).
    by exists z'.
  - rewrite bool_decide_false by (intros ?; done).
    exists z. rewrite (zrem_absent z m Hm), delete_id by done. done.
Qed.

(** X1: for every sorted set that calls of [zadd] and [zrem] make from
    a new one with scores other than [NaN], [zrangeByScore(min, max,
    limit)] returns, of the pairs of the set in the order on (score,
    member), those whose score is not below [min] and is at most [max],
    as (member, score) pairs, and of them the first [limit] (all of
    them when there is no limit or the limit is [Infinity], none when
    the limit is zero, negative or [NaN]).  When [min] is not [NaN]
    these are the pairs with min ≤ score ≤ max; no score is at most a
    [max] that is [NaN]. *)
Theorem X1_zrangeByScore_sorted_range (z : ZSet.t) :
  zset_reachable z →
  ∃ ps, ps ≡ₚ zset_pairs z ∧ StronglySorted key_lt ps ∧
        (∀ (min max : number) (limit : option number),
           ZSet.zrangeByScore z min max limit
           = Some (take_limit limit (score_range min max ps))) ∧
        (∀ (min max : number) p, p ∈ ps → min ≠ NaN →
           (¬ num_lt p.1 min ∧ num_le p.1 max
            ↔ num_le min p.1 ∧ num_le p.1 max)) ∧
        (∀ min, score_range min NaN ps = []).
Proof.
  intros Hinv%zset_reachable_inv.
  exists (sl_pairs (ZSet.skiplist z)).
  split; [by apply sl_pairs_zset_pairs|].
  pose proof (zset_inv_pairs z Hinv) as [_ Hel].
  pose proof (λ m s, zset_inv_numeric z m s Hinv) as Hnum.
  destruct Hinv as (ids & Hsl & Hd).
  split; [by apply (sl_pairs_sorted _ ids)|].
  split; [intros min max limit; by apply (getByScoreRange_spec _ ids)|].
  split.
  - intros min max [sc m] Hp Hmin. cbn [fst].
    assert (Hsc : sc ≠ NaN).
    { apply (Hnum m). by apply Hel. }
    apply and_iff_compat_r. unfold num_lt, num_le.
    rewrite (num_leb_ltb min sc) by done.
    destruct (num_ltb sc min); cbn; split; done.
  - intros min. unfold score_range. rewrite filter_none; [done|].
    apply Forall_forall. intros p _ [_ Hle]. unfold num_le in Hle.
    by apply num_leb_numeric in Hle as [_ ?].
Qed.

Lemma X1_zrangeByScore_sorted_range_witness :
  zset_reachable zset_ex ∧
  ZSet.zrangeByScore zset_ex 3 9 (Some (Num 2)) = Some [("c", Num 3); ("d", Num 3)] ∧
  ∃ ps, ps ≡ₚ zset_pairs zset_ex ∧ StronglySorted key_lt ps ∧
        ZSet.zrangeByScore zset_ex 3 9 (Some (Num 2))
        = Some (take_limit (Some (Num 2)) (score_range 3 9 ps)).
Proof.
  assert (H0 : ZSet.zrangeByScore zset_ex 3 9 (Some (Num 2))
               = Some [("c", Num 3); ("d", Num 3)]) by (vm_compute; reflexivity).
  destruct (X1_zrangeByScore_sorted_range zset_ex zset_ex_reachable)
    as (ps & H1 & H2 & H3 & _).
  exact (conj zset_ex_reachable (conj H0
           (ex_intro _ ps (conj H1 (conj H2 (H3 3 9 (Some (Num 2)))))))).
Defined.

(** X2: in a sorted set that calls of [zadd] and [zrem] make from a new
    one with scores other than [NaN], the skip list answers for a
    (score, member) pair that the set does not hold, whatever the score
    of the pair: [getRank] returns -1, and [delete] returns false and
    leaves the list as it is. *)
Theorem X2_skiplist_absent_pair (z : ZSet.t) (s : number) (m : string) :
  zset_reachable z → ZSet.zscore z m ≠ Some s →
  SkipList.getRank (ZSet.skiplist z) s m = Some (-1) ∧
  SkipList.delete (ZSet.skiplist z) s m = Some (ZSet.skiplist z, false).
Proof.
  intros Hinv%zset_reachable_inv Hm.
  destruct (zset_inv_pairs z Hinv) as [_ Hel].
  assert (Hnot : (s, m) ∉ sl_pairs (ZSet.skiplist z)) by (by rewrite Hel).
  destruct Hinv as (ids & Hsl & _). split.
  - by apply (getRank_absent _ ids).
  - by apply (delete_absent _ ids).
Qed.

Lemma X2_skiplist_absent_pair_witness :
  zset_reachable zset_ex ∧ ZSet.zscore zset_ex "a" ≠ Some (Num 2) ∧
  SkipList.getRank (ZSet.skiplist zset_ex) 2 "a" = Some (-1) ∧
  SkipList.delete (ZSet.skiplist zset_ex) 2 "a" = Some (ZSet.skiplist zset_ex, false).
Proof.
  assert (Ha : ZSet.zscore zset_ex "a" ≠ Some (Num 2)) by (vm_compute; discriminate).
  exact (conj zset_ex_reachable
           (conj Ha (X2_skiplist_absent_pair zset_ex 2 "a" zset_ex_reachable Ha))).
Defined.

(** X3: on a sorted set that calls of [zadd] and [zrem] have made with
    scores other than [NaN], [zadd(member, score)] with such a score
    returns when 32 draws are left, and returns true exactly when the
    member is new.  Afterwards [zscore] of the
    member is the score, the scores of the other members are as before,
    [zcard] has grown by one exactly when the member is new, the rank of
    the member is the number of the other pairs before (score, member),
    and the rank of another member has grown by one if the new pair
    comes before its pair, and shrunk by one if the old pair of the
    member came before it. *)
Theorem X3_zadd_effect (z : ZSet.t) (tp : tape) (m : string) (s : number) :
  zset_reachable z → s ≠ NaN → (32 ≤ length tp)%nat →
  ∃ z' tp',
    ZSet.zadd z tp m s = Some (z', bool_decide (ZSet.zscore z m = None), tp') ∧
    ZSet.zscore z' m = Some s ∧
    (∀ m', m' ≠ m → ZSet.zscore z' m' = ZSet.zscore z m') ∧
    Z.of_nat (ZSet.zcard z')
    = Z.of_nat (ZSet.zcard z) + match ZSet.zscore z m with Some _ => 0 | None => 1 end ∧
    ZSet.zrank z' m
    = Some (Some (Z.of_nat (rank_of z s m)
                  - match ZSet.zscore z m with
                    | Some s0 => pair_before (s0, m) (s, m)
                    | None => 0
                    end)) ∧
    ∀ m' s', m' ≠ m → ZSet.zscore z m' = Some s' →
      ∃ r, ZSet.zrank z m' = Some (Some r) ∧
           ZSet.zrank z' m'
           = Some (Some (r + pair_before (s, m) (s', m')
                         - match ZSet.zscore z m with
                           | Some s0 => pair_before (s0, m) (s', m')
                           | None => 0
                           end)).
Proof.
  intros Hinv%zset_reachable_inv Hsn Htp.
  destruct (zadd_dict z tp m s Hinv Hsn Htp) as (z' & tp' & E & Hinv' & Hd).
  exists z', tp'. split; [done|]. unfold ZSet.zscore, ZSet.zcard.
  assert (Hold : ∀ k, Z.of_nat (count (ZSet.dict z) k)
                      = match ZSet.dict z !! m with
                        | Some s0 => pair_before (s0, m) k
                        | None => 0
                        end + Z.of_nat (count (base.delete m (ZSet.dict z)) k)).
  { intros k. destruct (ZSet.dict z !! m) as [s0|] eqn:Hm.
    - by apply count_present.
    - by rewrite delete_id. }
  split; [by rewrite Hd, lookup_insert_eq|].
  split; [intros m' Hne; by rewrite Hd, lookup_insert_ne|].
  split; [|split].
  - rewrite Hd. destruct (ZSet.dict z !! m) as [s0|] eqn:Hm.
    + rewrite map_size_insert_Some by done. lia.
    + rewrite map_size_insert_None by done. lia.
  - rewrite (zrank_rank_of z' m s Hinv') by (by rewrite Hd, lookup_insert_eq).
    do 2 f_equal. rewrite !rank_of_count, Hd, count_update, Hold.
    unfold pair_before at 1. rewrite decide_False by apply key_lt_irrefl. lia.
  - intros m' s' Hne Hm'. exists (Z.of_nat (rank_of z s' m')).
    split; [by apply zrank_rank_of|].
    rewrite (zrank_rank_of z' m' s' Hinv') by (by rewrite Hd, lookup_insert_ne).
    do 2 f_equal. rewrite !rank_of_count, Hd, count_update, Hold. lia.
Qed.

Lemma X3_zadd_effect_witness :
  zset_reachable zset_ex ∧ Num 4 ≠ NaN ∧ (32 ≤ length tape_33)%nat ∧
  ZSet.zscore zset_ex "c" = Some (Num 3) ∧
  ZSet.zrank zset_ex "d" = Some (Some 1) ∧
  (λ r, ZSet.zrank r.1.1 "d") <$> ZSet.zadd zset_ex tape_33 "c" 4
  = Some (Some (Some 0)) ∧
  ∃ z' tp',
    ZSet.zadd zset_ex tape_33 "c" 4
    = Some (z', bool_decide (ZSet.zscore zset_ex "c" = None), tp') ∧
    ZSet.zscore z' "c" = Some (Num 4).
Proof.
  assert (Hs : Num 4 ≠ NaN) by discriminate.
  assert (Htp : (32 ≤ length tape_33)%nat) by (vm_compute; lia).
  assert (Hc : ZSet.zscore zset_ex "c" = Some (Num 3)) by (vm_compute; reflexivity).
  assert (Hd : ZSet.zrank zset_ex "d" = Some (Some 1)) by (vm_compute; reflexivity).
  assert (Hd' : (λ r, ZSet.zrank r.1.1 "d") <$> ZSet.zadd zset_ex tape_33 "c" 4
                = Some (Some (Some 0))) by (vm_compute; reflexivity).
  destruct (X3_zadd_effect zset_ex tape_33 "c" 4 zset_ex_reachable Hs Htp)
    as (z' & tp' & H1 & H2 & _).
  exact (conj zset_ex_reachable (conj Hs (conj Htp (conj Hc (conj Hd (conj Hd'
           (ex_intro _ z' (ex_intro _ tp' (conj H1 H2))))))))).
Defined.

(** X4: on a sorted set that calls of [zadd] and [zrem] have made with
    scores other than [NaN], [zrem(member)] returns true exactly when
    the set holds the member.
    Afterwards [zscore] and [zrank] of the member are null, the scores
    of the other members are as before, [zcard] has shrunk by one
    exactly when the member was there, and the rank of another member
    has shrunk by one exactly when the pair of the member came before
    its pair. *)
Theorem X4_zrem_effect (z : ZSet.t) (m : string) :
  zset_reachable z →
  ∃ z',
    ZSet.zrem z m = Some (z', bool_decide (ZSet.zscore z m ≠ None)) ∧
    ZSet.zscore z' m = None ∧ ZSet.zrank z' m = Some None ∧
    (∀ m', m' ≠ m → ZSet.zscore z' m' = ZSet.zscore z m') ∧
    Z.of_nat (ZSet.zcard z')
    = Z.of_nat (ZSet.zcard z) - match ZSet.zscore z m with Some _ => 1 | None => 0 end ∧
    ∀ m' s', m' ≠ m → ZSet.zscore z m' = Some s' →
      ∃ r, ZSet.zrank z m' = Some (Some r) ∧
           ZSet.zrank z' m'
           = Some (Some (r - match ZSet.zscore z m with
                             | Some s0 => pair_before (s0, m) (s', m')
                             | None => 0
                             end)).
Proof.
  intros Hinv%zset_reachable_inv.
  destruct (zrem_dict z m Hinv) as (z' & E & Hinv' & Hd).
  exists z'. split; [done|]. unfold ZSet.zscore, ZSet.zcard.
  split; [by rewrite Hd, lookup_delete_eq|].
  split; [unfold ZSet.zrank; by rewrite Hd, lookup_delete_eq|].
  split; [intros m' Hne; by rewrite Hd, lookup_delete_ne|].
  split.
  - rewrite Hd. destruct (ZSet.dict z !! m) as [s0|] eqn:Hm.
    + pose proof (map_size_delete_Some m (ZSet.dict z) ltac:(by rewrite Hm)) as Hsz.
      assert (size (ZSet.dict z) ≠ 0%nat).
      { apply map_size_ne_0_lookup. exists m. by rewrite Hm. }
      lia.
    + rewrite map_size_delete_None by done. lia.
  - intros m' s' Hne Hm'. exists (Z.of_nat (rank_of z s' m')).
    split; [by apply zrank_rank_of|].
    rewrite (zrank_rank_of z' m' s' Hinv') by (by rewrite Hd, lookup_delete_ne).
    do 2 f_equal. rewrite !rank_of_count, Hd.
    destruct (ZSet.dict z !! m) as [s0|] eqn:Hm.
    + rewrite (count_present (ZSet.dict z) m s0) by done. lia.
    + rewrite delete_id by done. lia.
Qed.

Lemma X4_zrem_effect_witness :
  zset_reachable zset_ex ∧
  ZSet.zscore zset_ex "c" = Some (Num 3) ∧
  ZSet.zrank zset_ex "a" = Some (Some 2) ∧
  (λ r, ZSet.zrank r.1 "a") <$> ZSet.zrem zset_ex "c" = Some (Some (Some 1)) ∧
  ∃ z', ZSet.zrem zset_ex "c"
        = Some (z', bool_decide (ZSet.zscore zset_ex "c" ≠ None)) ∧
        ZSet.zscore z' "c" = None ∧ ZSet.zrank z' "c" = Some None.
Proof.
  assert (Hc : ZSet.zscore zset_ex "c" = Some (Num 3)) by (vm_compute; reflexivity).
  assert (Ha : ZSet.zrank zset_ex "a" = Some (Some 2)) by (vm_compute; reflexivity).
  assert (Ha' : (λ r, ZSet.zrank r.1 "a") <$> ZSet.zrem zset_ex "c"
                = Some (Some (Some 1))) by (vm_compute; reflexivity).
  destruct (X4_zrem_effect zset_ex "c" zset_ex_reachable) as (z' & H1 & H2 & H3 & _).
  exact (conj zset_ex_reachable (conj Hc (conj Ha (conj Ha'
           (ex_intro _ z' (conj H1 (conj H2 H3))))))).
Defined.
End effects.

(** ** The comparison of pairs and the level of a new node *)

Lemma num_sub_gt (s1 s2 : number) :
  num_eqb s1 s2 = false → num_ltb 0 (num_sub s1 s2) = num_ltb s2 s1.
Proof.
  destruct s1, s2; cbn; try done.
  intros H%bool_decide_eq_false. apply bool_decide_ext. lia.
Qed.

Lemma compare_gt (s1 : number) (m1 : string) (s2 : number) (m2 : string) :
  num_lt 0 (SkipList.compareScoreMember s2 m2 s1 m1) ↔ key_lt (s1, m1) (s2, m2).
Proof.
  unfold num_lt, SkipList.compareScoreMember, key_lt, key_ltb. cbn [fst snd].
  rewrite (num_eqb_sym s1 s2).
  destruct (num_eqb s2 s1) eqn:He; cbn [negb andb].
  - apply num_eqb_eq in He as ->. rewrite num_ltb_irrefl. cbn [orb].
    destruct (String.ltb m2 m1) eqn:H21.
    { apply ltb_asym in H21. by rewrite H21. }
    destruct (String.ltb m1 m2); done.
  - rewrite orb_false_r. by rewrite num_sub_gt.
Qed.

(** X5: [compareScoreMember] is the comparison of a strict total order
    on the (score, member) pairs whose score is not [NaN]: it is 0 on
    equal pairs only, negative one way exactly when it is positive the
    other way, its negative results chain, and it is negative, 0 or
    positive.  With a score that is [NaN] it is [NaN]: neither 0,
    negative nor positive. *)
Theorem X5_compareScoreMember_total_order
    (s1 : number) (m1 : string) (s2 : number) (m2 : string)
    (s3 : number) (m3 : string) :
  (SkipList.compareScoreMember s1 m1 s2 m2 = Num 0
   ↔ s1 = s2 ∧ m1 = m2 ∧ s1 ≠ NaN) ∧
  (num_lt (SkipList.compareScoreMember s1 m1 s2 m2) 0
   ↔ num_lt 0 (SkipList.compareScoreMember s2 m2 s1 m1)) ∧
  (num_lt (SkipList.compareScoreMember s1 m1 s2 m2) 0 →
   num_lt (SkipList.compareScoreMember s2 m2 s3 m3) 0 →
   num_lt (SkipList.compareScoreMember s1 m1 s3 m3) 0) ∧
  (s1 ≠ NaN → s2 ≠ NaN →
   num_lt (SkipList.compareScoreMember s1 m1 s2 m2) 0
   ∨ SkipList.compareScoreMember s1 m1 s2 m2 = Num 0
   ∨ num_lt 0 (SkipList.compareScoreMember s1 m1 s2 m2)) ∧
  (s1 = NaN ∨ s2 = NaN →
   SkipList.compareScoreMember s1 m1 s2 m2 = NaN).
Proof.
  assert (Hzero : SkipList.compareScoreMember s1 m1 s2 m2 = Num 0
                  ↔ s1 = s2 ∧ m1 = m2 ∧ s1 ≠ NaN).
  { unfold SkipList.compareScoreMember.
    destruct (num_eqb s1 s2) eqn:He; cbn [negb].
    - apply num_eqb_eq in He as E. subst s2.
      assert (Hn : s1 ≠ NaN) by (intros ->; done).
      destruct (String.ltb m1 m2) eqn:H12.
      { split; [done|]. intros (_ & -> & _). by rewrite ltb_irrefl in H12. }
      destruct (String.ltb m2 m1) eqn:H21.
      { split; [done|]. intros (_ & -> & _). by rewrite ltb_irrefl in H21. }
      split; [|done]. intros _. split; [done|]. split; [|done]. by apply ltb_total.
    - split.
      + intros Hc. pose proof (num_sub_eq s1 s2 He) as Hz. by rewrite Hc in Hz.
      + intros (-> & _ & Hn). by rewrite num_eqb_refl in He. }
  split; [done|]. split; [by rewrite compare_lt, compare_gt|].
  split; [rewrite !compare_lt; apply key_lt_trans|]. split.
  - intros H1 H2. rewrite compare_lt, (compare_gt s2 m2 s1 m1), Hzero.
    destruct (decide (key_lt (s1, m1) (s2, m2))) as [|Hn1]; [by left|].
    destruct (decide (key_lt (s2, m2) (s1, m1))) as [|Hn2]; [by right; right|].
    right. left.
    pose proof (key_lt_total (s1, m1) (s2, m2) H1 H2 Hn1 Hn2) as [= -> ->]. done.
  - unfold SkipList.compareScoreMember. intros [->| ->].
    + done.
    + by rewrite num_eqb_NaN_r; destruct s1.
Qed.

Lemma randomLevel_loop_spec (tp : tape) (maxL : nat) (p : Q) (lev nl : nat) tp' :
  SkipList.randomLevel_loop tp maxL p lev = Some (nl, tp') ↔
  ∃ ds r, tp = ds ++ r :: tp' ∧ nl = (lev + length ds)%nat ∧
          Forall (λ d, Qltb d p = true) ds ∧
          (ds ≠ [] → (nl ≤ maxL)%nat) ∧
          ((nl < maxL)%nat → Qltb r p = false).
Proof.
  revert lev. induction tp as [|r tp IH]; intros lev; cbn [SkipList.randomLevel_loop].
  - split; [done|]. intros (ds & r & E & _). by destruct ds.
  - destruct (Qltb r p && bool_decide (lev < maxL)%nat) eqn:Hc.
    + apply andb_true_iff in Hc as [Hr Hl%bool_decide_eq_true].
      rewrite IH. split.
      * intros (ds & r' & -> & -> & Hds & Hle & Hlt).
        exists (r :: ds), r'. cbn [length]. split; [done|]. split; [lia|].
        split; [by constructor|]. split; [|intros ?; apply Hlt; lia].
        intros _. destruct ds as [|d ds]; [cbn; lia|].
        specialize (Hle ltac:(done)). lia.
      * intros (ds & r' & E & -> & Hds & Hle & Hlt).
        destruct ds as [|d ds].
        { cbn in E. injection E as -> ->. rewrite Hlt in Hr by (cbn; lia). done. }
        cbn in E. injection E as -> ->. apply Forall_cons in Hds as [_ Hds].
        exists ds, r'. cbn [length] in *. split; [done|]. split; [lia|].
        split; [done|]. split; [|intros ?; apply Hlt; lia].
        intros _. specialize (Hle ltac:(done)). lia.
    + split.
      * intros [= -> ->]. exists [], r. cbn. split; [done|]. split; [lia|].
        split; [done|]. split; [done|]. intros Hl.
        apply andb_false_iff in Hc as [Hr|Hl']; [done|].
        apply bool_decide_eq_false in Hl'. lia.
      * intros (ds & r' & E & -> & Hds & Hle & Hlt).
        destruct ds as [|d ds].
        { cbn in E. injection E as -> ->. do 2 f_equal. cbn. lia. }
        cbn in E. injection E as -> ->. apply Forall_cons in Hds as [Hd _].
        specialize (Hle ltac:(done)). cbn [length] in Hle.
        rewrite Hd, bool_decide_true in Hc by lia. done.
Qed.

(** X6: [randomLevel()] returns the level [nl] exactly when the first
    [nl] - 1 draws of [Math.random] are below 0.25, [nl] is at most 32,
    and the draw after them is not below 0.25 unless [nl] is 32.  So
    the level is between 1 and 32 and the call makes [nl] draws. *)
Theorem X6_randomLevel_draws (tp : tape) (nl : nat) (tp' : tape) :
  SkipList.randomLevel tp 32 = Some (nl, tp') ↔
  ∃ ds r, tp = ds ++ r :: tp' ∧ nl = S (length ds) ∧ (nl ≤ 32)%nat ∧
          Forall (λ d, Qltb d (1 # 4) = true) ds ∧
          ((nl < 32)%nat → Qltb r (1 # 4) = false).
Proof.
  unfold SkipList.randomLevel. rewrite randomLevel_loop_spec. split.
  - intros (ds & r & -> & -> & Hds & Hle & Hlt). exists ds, r.
    split; [done|]. split; [done|]. split; [|done].
    destruct ds; [cbn; lia|]. by apply Hle.
  - intros (ds & r & -> & -> & Hle & Hds & Hlt). exists ds, r. done.
Qed.

(** ** The compact integer set *)
Section intset.
Implicit Types (s : IntSet.t) (data : list Z) (v x : Z) (low high mid p : nat).

Lemma sorted_lookup_lt data (i j : nat) (a b : Z) :
  StronglySorted Z.lt data → (i < j)%nat →
  data !! i = Some a → data !! j = Some b → a < b.
Proof.
  intros Hs. revert i j. induction Hs as [|y l Hs IH Hy]; intros i j Hij Hi Hj; [done|].
  destruct j as [|j]; [lia|]. cbn in Hj. destruct i as [|i].
  - cbn in Hi. injection Hi as ->. rewrite Forall_forall in Hy.
    apply Hy. by apply list_elem_of_lookup_2 in Hj.
  - cbn in Hi. apply (IH i j); [lia|done|done].
Qed.

Lemma half_bounds low high :
  (low < high)%nat → (low ≤ (low + high) / 2 < high)%nat.
Proof.
  intros Hlt. split.
  - apply Nat.div_le_lower_bound; lia.
  - apply Nat.Div0.div_lt_upper_bound; lia.
Qed.

(** The binary search of [add] on a sorted array. *)
Lemma search_spec (fuel : nat) data v low high :
  StronglySorted Z.lt data →
  (low ≤ high ≤ length data)%nat → (high - low ≤ fuel)%nat →
  (∀ (i : nat) x, (i < low)%nat → data !! i = Some x → x < v) →
  (∀ (i : nat) x, (high ≤ i)%nat → data !! i = Some x → v < x) →
  (IntSet.search fuel data v low high = Some None ∧ v ∈ data) ∨
  (∃ p, IntSet.search fuel data v low high = Some (Some p) ∧
        (p ≤ length data)%nat ∧
        Forall (λ x, x < v) (take p data) ∧ Forall (λ x, v < x) (drop p data)).
Proof.
  intros Hs. revert low high.
  induction fuel as [|fuel IH]; intros low high Hb Hf Hlo Hhi.
  - right. exists low. cbn [IntSet.search]. rewrite bool_decide_false by lia.
    assert (high = low) as -> by lia.
    split; [done|]. split; [lia|]. split.
    + apply Forall_forall. intros x [i Hi]%list_elem_of_lookup_1.
      apply lookup_take_Some in Hi as [Hi Hlt]. by apply (Hlo i).
    + apply Forall_forall. intros x [i Hi]%list_elem_of_lookup_1.
      rewrite lookup_drop in Hi. apply (Hhi (low + i)%nat); [lia|done].
  - cbn [IntSet.search]. case_bool_decide as Hlt.
    + pose proof (half_bounds low high Hlt) as Hmid.
      set (mid := ((low + high) / 2)%nat) in *.
      destruct (lookup_lt_is_Some_2 data mid ltac:(lia)) as [x Hx].
      rewrite Hx. cbn [mbind option_bind].
      case_bool_decide as Heq.
      * left. split; [done|]. subst x. by apply list_elem_of_lookup_2 in Hx.
      * case_bool_decide as Hxv.
        -- apply IH; [lia|lia| |done].
           intros i y Hi Hy. destruct (decide (i = mid)) as [->|Hne]; [congruence|].
           pose proof (sorted_lookup_lt data i mid y x Hs ltac:(lia) Hy Hx). lia.
        -- apply IH; [lia|lia|done|].
           intros i y Hi Hy. destruct (decide (i = mid)) as [->|Hne].
           { assert (y = x) by congruence. lia. }
           pose proof (sorted_lookup_lt data mid i x y Hs ltac:(lia) Hx Hy). lia.
    + right. exists low. assert (high = low) as -> by lia.
      split; [done|]. split; [lia|]. split.
      * apply Forall_forall. intros x [i Hi]%list_elem_of_lookup_1.
        apply lookup_take_Some in Hi as [Hi Hlt']. by apply (Hlo i).
      * apply Forall_forall. intros x [i Hi]%list_elem_of_lookup_1.
        rewrite lookup_drop in Hi. apply (Hhi (low + i)%nat); [lia|done].
Qed.

Lemma sorted_insert_middle data p v :
  StronglySorted Z.lt data →
  Forall (λ x, x < v) (take p data) → Forall (λ x, v < x) (drop p data) →
  StronglySorted Z.lt (take p data ++ v :: drop p data).
Proof.
  intros Hs Hlo Hhi. rewrite <- (take_drop p data) in Hs.
  apply StronglySorted_app_1_l in Hs as Hs1.
  apply StronglySorted_app_1_r in Hs as Hs2.
  apply StronglySorted_app_2; [|done|by constructor].
  rewrite Forall_forall in Hlo, Hhi. intros x y Hx [->|Hy]%elem_of_cons.
  - by apply Hlo.
  - specialize (Hlo x Hx). specialize (Hhi y Hy). cbn in *. lia.
Qed.

Lemma notin_split data p v :
  Forall (λ x, x < v) (take p data) → Forall (λ x, v < x) (drop p data) → v ∉ data.
Proof.
  intros Hlo Hhi Hin. rewrite <- (take_drop p data) in Hin.
  rewrite Forall_forall in Hlo, Hhi.
  apply elem_of_app in Hin as [Hin|Hin].
  - specialize (Hlo v Hin). cbn in Hlo. lia.
  - specialize (Hhi v Hin). cbn in Hhi. lia.
Qed.

(** What [add] does to a sorted array. *)
Lemma IntSet_add_int s v :
  intset_ok s →
  ∃ s' r, IntSet.add s (MInt v) = Some (s', r) ∧ intset_ok s' ∧
          IntSet.maxSize s' = IntSet.maxSize s ∧
          IntSet.isIntSet s' = IntSet.isIntSet s ∧
          match r with
          | IntSet.done false => (v ∈ IntSet.data s) ∧ s' = s
          | IntSet.upgrade =>
              (v ∉ IntSet.data s) ∧ s' = s ∧
              length (IntSet.data s) = IntSet.maxSize s
          | IntSet.done true =>
              (v ∉ IntSet.data s) ∧
              (length (IntSet.data s) < IntSet.maxSize s)%nat ∧
              IntSet.data s' ≡ₚ v :: IntSet.data s
          end.
Proof.
  intros [Hs Hmax]. unfold IntSet.add.
  destruct (search_spec (length (IntSet.data s)) (IntSet.data s) v 0
              (length (IntSet.data s)) Hs)
    as [[-> Hin]|(p & -> & Hp & Hlo & Hhi)]; [lia|lia| | | |].
  - intros i x Hi. lia.
  - intros i x Hi Hx. apply lookup_lt_Some in Hx. lia.
  - cbn. exists s, (IntSet.done false). done.
  - cbn. pose proof (notin_split _ _ _ Hlo Hhi) as Hnot.
    case_bool_decide as Hfull.
    + exists s, IntSet.upgrade. split; [done|]. split; [done|].
      split; [done|]. split; [done|]. split; [done|]. split; [done|]. lia.
    + eexists _, (IntSet.done true). split; [done|]. cbn.
      assert (Hperm : take p (IntSet.data s) ++ v :: drop p (IntSet.data s)
                      ≡ₚ v :: IntSet.data s).
      { rewrite <- Permutation_middle. by rewrite take_drop. }
      split; [split|].
      * by apply sorted_insert_middle.
      * cbn. rewrite Hperm. cbn. lia.
      * split; [done|]. split; [done|]. split; [done|]. split; [lia|done].
Qed.

Lemma IntSet_add_other s (o : string) :
  IntSet.add s (MOther o) = Some (s, IntSet.upgrade).
Proof. done. Qed.

Lemma sorted_NoDup data : StronglySorted Z.lt data → NoDup data.
Proof.
  induction 1 as [|x l Hs IH Hx]; constructor; [|done].
  intros Hin. rewrite Forall_forall in Hx. specialize (Hx x Hin). lia.
Qed.

Lemma sorted_delete data (i : nat) :
  StronglySorted Z.lt data → StronglySorted Z.lt (base.delete i data).
Proof.
  intros Hs. revert i. induction Hs as [|x l Hs IH Hx]; intros i; [constructor|].
  destruct i as [|i]; [done|]. cbn. constructor; [apply IH|].
  eapply Forall_delete. done.
Qed.

(** What [delete] does to a sorted array. *)
Lemma IntSet_delete_spec s (value : SetMember) :
  intset_ok s →
  intset_ok (IntSet.delete s value).1 ∧
  IntSet.maxSize (IntSet.delete s value).1 = IntSet.maxSize s ∧
  (IntSet.delete s value).2 = IntSet.has s value ∧
  IntSet.has (IntSet.delete s value).1 value = false ∧
  (∀ w, w ≠ value →
        IntSet.has (IntSet.delete s value).1 w = IntSet.has s w) ∧
  IntSet.size (IntSet.delete s value).1
  = (IntSet.size s - (if IntSet.has s value then 1 else 0))%nat.
Proof.
  intros [Hs Hmax]. unfold IntSet.delete, IntSet.has, IntSet.size.
  destruct value as [v|o]; cbn [fst snd].
  2:{ split; [done|]. split; [done|]. split; [done|]. split; [done|].
      split; [done|]. lia. }
  destruct (list_find (λ x, x = v) (IntSet.data s)) as [[idx y]|] eqn:Hf; cbn [fst snd].
  - apply list_find_Some in Hf as (Hidx & -> & Hbefore).
    pose proof (lookup_lt_Some _ _ _ Hidx) as Hlt.
    pose proof (list_elem_of_lookup_2 _ _ _ Hidx) as Hin.
    pose proof (sorted_NoDup _ Hs) as Hnd.
    assert (Hdel : ∀ w, w ∈ base.delete idx (IntSet.data s)
                        ↔ w ∈ IntSet.data s ∧ w ≠ v).
    { intros w. rewrite <- (take_drop_middle _ _ _ Hidx) in Hnd |- * at 2.
      rewrite delete_take_drop. rewrite !elem_of_app, elem_of_cons.
      apply NoDup_app in Hnd as (_ & Hd1 & Hd2).
      apply NoDup_cons in Hd2 as [Hd2 _].
      specialize (Hd1 v). rewrite elem_of_cons in Hd1.
      split; [|tauto]. intros [Hw|Hw]; (split; [tauto|]); intros ->; tauto. }
    split; [split|]; cbn.
    + by apply sorted_delete.
    + rewrite length_delete by (by eexists). lia.
    + split; [done|]. split; [by rewrite bool_decide_true|].
      split; [apply bool_decide_eq_false; rewrite Hdel; tauto|].
      split.
      * intros [w|o] Hne; [|done]. apply bool_decide_ext. rewrite Hdel.
        split; [tauto|]. intros Hw. split; [done|]. congruence.
      * rewrite length_delete by (by eexists).
        rewrite bool_decide_true by done. lia.
  - apply list_find_None in Hf.
    assert (Hnot : v ∉ IntSet.data s).
    { intros Hin. rewrite Forall_forall in Hf. by apply (Hf v). }
    split; [done|]. split; [done|]. split; [by rewrite bool_decide_false|].
    split; [by rewrite bool_decide_false|]. split; [done|].
    rewrite bool_decide_false by done. lia.
Qed.

Lemma intset_ok_new (maxSize : option nat) : intset_ok (IntSet.new maxSize).
Proof. split; [constructor|cbn; lia]. Qed.

Lemma intset_reachable_ok s : intset_reachable s → intset_ok s.
Proof.
  induction 1 as [maxSize|s value s' result _ IH E|s value _ IH].
  - apply intset_ok_new.
  - destruct value as [v|o].
    + destruct (IntSet_add_int s v IH) as (s1 & r & E1 & Hok & _). congruence.
    + rewrite IntSet_add_other in E. by injection E as <- <-.
  - by apply IntSet_delete_spec.
Qed.
End intset.

(** ** The two encodings of a set *)
Section sets.
Implicit Types (s : IntSet.t) (hs : JsSet.t) (v : Value) (member w : SetMember).
Implicit Types (members : list SetMember) (n : Z).

Lemma JsSet_has_true hs w : JsSet.has hs w = true ↔ w ∈ hs.
Proof. apply bool_decide_eq_true. Qed.

Lemma JsSet_has_false hs w : JsSet.has hs w = false ↔ w ∉ hs.
Proof. apply bool_decide_eq_false. Qed.

Lemma JsSet_foldl_add (acc l : list SetMember) :
  NoDup (acc ++ l) → foldl JsSet.add acc l = acc ++ l.
Proof.
  revert acc. induction l as [|x l IH]; intros acc Hnd; cbn [foldl].
  - by rewrite app_nil_r.
  - assert (Hx : x ∉ acc).
    { apply NoDup_app in Hnd as (_ & Hd & _). intros Hin.
      apply (Hd x Hin). by left. }
    unfold JsSet.add at 2. rewrite (proj2 (JsSet_has_false acc x) Hx).
    rewrite IH; rewrite <- app_assoc; done.
Qed.

Lemma JsSet_of_list_NoDup (l : list SetMember) : NoDup l → JsSet.of_list l = l.
Proof. intros Hnd. unfold JsSet.of_list. by rewrite JsSet_foldl_add. Qed.

Lemma values_NoDup s : intset_ok s → NoDup (IntSet.values s).
Proof.
  intros [Hs _]. unfold IntSet.values.
  apply NoDup_fmap_2; [intros ?? [= ->]; done|]. by apply sorted_NoDup.
Qed.

Lemma elem_of_values s w :
  w ∈ IntSet.values s ↔ ∃ x, w = MInt x ∧ x ∈ IntSet.data s.
Proof. unfold IntSet.values. apply list_elem_of_fmap. Qed.

Lemma IntSet_has_values s w : IntSet.has s w = bool_decide (w ∈ IntSet.values s).
Proof.
  unfold IntSet.has. destruct w as [x|o].
  - apply bool_decide_ext. rewrite elem_of_values. split; [by exists x|].
    by intros (y & [= ->] & Hy).
  - symmetry. apply bool_decide_eq_false. rewrite elem_of_values.
    by intros (y & [=] & _).
Qed.

Lemma upgradeToSet_values s : intset_ok s → IntSet.upgradeToSet s = IntSet.values s.
Proof.
  intros Hok. unfold IntSet.upgradeToSet. apply JsSet_of_list_NoDup.
  by apply values_NoDup.
Qed.

(** One turn of the loop of [sadd]. *)
Lemma sadd_member_spec v n member :
  set_ok v →
  ∃ v', Cache.sadd_member v n member
        = Some (v', n + (if decide (member ∈ set_members v) then 0 else 1)) ∧
        set_ok v' ∧
        (∀ w, w ∈ set_members v' ↔ w ∈ set_members v ∨ w = member) ∧
        Cache.set_size v'
        = Cache.set_size v + (if decide (member ∈ set_members v) then 0 else 1) ∧
        is_intset v'
        = is_intset v && is_int member
          && (bool_decide (member ∈ set_members v)
              || bool_decide (Cache.set_size v < 512)).
Proof.
  intros Hok. destruct v as [?|?|s|hs]; [done|done| |]; cbn [set_ok] in Hok.
  - destruct Hok as [Hok Hmax]. cbn [Cache.sadd_member set_members is_intset].
    pose proof (upgradeToSet_values s Hok) as Hup.
    pose proof (values_NoDup s Hok) as Hnd.
    destruct member as [x|o].
    + destruct (IntSet_add_int s x Hok) as (s' & r & -> & Hok' & Hmax' & _ & Hr).
      cbn [mbind option_bind is_int andb].
      assert (Hiff : MInt x ∈ IntSet.values s ↔ x ∈ IntSet.data s).
      { rewrite elem_of_values. split; [by intros (y & [= ->] & ?)|by exists x]. }
      destruct r as [|[|]].
      * destruct Hr as (Hnot & -> & Hfull).
        rewrite Hup. rewrite (proj2 (JsSet_has_false _ _)) by (by rewrite Hiff).
        cbn [negb]. rewrite decide_False by (by rewrite Hiff).
        eexists. split; [done|]. unfold JsSet.add.
        rewrite (proj2 (JsSet_has_false _ _)) by (by rewrite Hiff).
        cbn [set_ok set_members Cache.set_size is_intset].
        split; [|split; [|split]].
        -- apply NoDup_app. split; [done|]. split; [|apply NoDup_singleton].
           intros w Hw ->%list_elem_of_singleton. by apply Hiff in Hw.
        -- intros w. rewrite elem_of_app, list_elem_of_singleton. done.
        -- unfold JsSet.size, IntSet.size. rewrite length_app.
           unfold IntSet.values. rewrite length_fmap. cbn. lia.
        -- rewrite bool_decide_false by (by rewrite Hiff).
           unfold IntSet.size. rewrite bool_decide_false by lia. done.
      * destruct Hr as (Hnot & Hlt & Hperm).
        rewrite decide_False by (by rewrite Hiff).
        eexists. split; [done|]. cbn [set_ok set_members Cache.set_size is_intset].
        split; [split; [done|congruence]|]. split; [|split].
        -- intros w. rewrite !elem_of_values. setoid_rewrite Hperm.
           setoid_rewrite elem_of_cons. split.
           ++ intros (y & -> & [->|Hy]); [by right|left; by exists y].
           ++ intros [(y & -> & Hy)| ->]; [exists y; tauto|exists x; tauto].
        -- unfold IntSet.size. rewrite Hperm. cbn [length]. lia.
        -- unfold IntSet.size. rewrite (bool_decide_true (_ < 512)) by lia.
           by rewrite orb_true_r.
      * destruct Hr as (Hin & ->).
        rewrite decide_True by (by rewrite Hiff).
        eexists. split; [by rewrite Z.add_0_r|].
        cbn [set_ok set_members Cache.set_size is_intset].
        split; [done|]. split; [|split].
        -- intros w. split; [by left|]. intros [?| ->]; [done|by apply Hiff].
        -- lia.
        -- by rewrite bool_decide_true by (by rewrite Hiff).
    + rewrite IntSet_add_other. cbn [mbind option_bind is_int].
      assert (Hnot : MOther o ∉ IntSet.values s).
      { rewrite elem_of_values. by intros (y & [=] & _). }
      rewrite Hup. rewrite (proj2 (JsSet_has_false _ _)) by done.
      cbn [negb]. rewrite decide_False by done.
      eexists. split; [done|]. unfold JsSet.add.
      rewrite (proj2 (JsSet_has_false _ _)) by done.
      cbn [set_ok set_members Cache.set_size is_intset].
      split; [|split; [|split]].
      * apply NoDup_app. split; [done|]. split; [|apply NoDup_singleton].
        by intros w Hw ->%list_elem_of_singleton.
      * intros w. rewrite elem_of_app, list_elem_of_singleton. done.
      * unfold JsSet.size, IntSet.size. rewrite length_app.
        unfold IntSet.values. rewrite length_fmap. cbn. lia.
      * done.
  - cbn [Cache.sadd_member set_members is_intset andb].
    destruct (decide (member ∈ hs)) as [Hin|Hnot].
    + rewrite (proj2 (JsSet_has_true _ _)) by done. cbn [negb].
      rewrite !decide_True by done.
      eexists. split; [by rewrite Z.add_0_r|].
      cbn [set_ok set_members Cache.set_size is_intset].
      split; [done|]. split; [|split; [lia|done]].
      intros w. split; [by left|]. by intros [?| ->].
    + rewrite (proj2 (JsSet_has_false _ _)) by done. cbn [negb].
      rewrite !decide_False by done.
      eexists. split; [done|]. unfold JsSet.add.
      rewrite (proj2 (JsSet_has_false _ _)) by done.
      cbn [set_ok set_members Cache.set_size is_intset].
      split; [|split; [|split]].
      * apply NoDup_app. split; [done|]. split; [|apply NoDup_singleton].
        by intros w Hw ->%list_elem_of_singleton.
      * intros w. rewrite elem_of_app, list_elem_of_singleton. done.
      * unfold JsSet.size. rewrite length_app. cbn. lia.
      * done.
Qed.

(** The loop of [sadd]. *)
Lemma sadd_members_spec v n members :
  set_ok v →
  ∃ v' n', Cache.sadd_members v n members = Some (v', n') ∧ set_ok v' ∧
           (∀ w, w ∈ set_members v' ↔ w ∈ set_members v ∨ w ∈ members) ∧
           n' - n = Cache.set_size v' - Cache.set_size v ∧ n ≤ n' ∧
           (is_intset v' = true ↔
            is_intset v = true ∧ Forall (λ w, is_int w = true) members ∧
            Cache.set_size v' ≤ 512).
Proof.
  revert v n. induction members as [|member members IH]; intros v n Hok.
  - exists v, n. cbn [Cache.sadd_members]. split; [done|]. split; [done|].
    split; [intros w; rewrite elem_of_nil; tauto|]. split; [lia|]. split; [lia|].
    split; [|tauto]. intros Hi. split; [done|]. split; [done|].
    destruct v as [?|?|s|?]; try done. destruct Hok as [[_ Hlen] Hmax].
    cbn. unfold IntSet.size. lia.
  - destruct (sadd_member_spec v n member Hok) as (v1 & E1 & Hok1 & Hm1 & Hs1 & Hi1).
    destruct (IH v1 (n + (if decide (member ∈ set_members v) then 0 else 1)) Hok1)
      as (v' & n' & E & Hok' & Hm & Hn & Hle & Hi).
    exists v', n'. cbn [Cache.sadd_members]. rewrite E1. cbn [mbind option_bind].
    split; [done|]. split; [done|]. split; [|split; [|split]].
    + intros w. rewrite Hm, Hm1, elem_of_cons. tauto.
    + destruct (decide (member ∈ set_members v)); lia.
    + destruct (decide (member ∈ set_members v)); lia.
    + rewrite Hi, Hi1, Forall_cons, !andb_true_iff, orb_true_iff.
      rewrite !bool_decide_eq_true. split.
      * tauto.
      * intros (Hv & [Hint Hall] & Hsz). split; [|done]. split; [done|].
        destruct (decide (member ∈ set_members v)) as [|Hnot]; [by left|right]. lia.
Qed.

Lemma set_ok_new : set_ok (VIntSet (IntSet.new None)).
Proof. split; [apply intset_ok_new|done]. Qed.

Lemma set_reachable_ok v : set_reachable v → set_ok v.
Proof.
  induction 1 as [|v n members v' n' _ IH E]; [apply set_ok_new|].
  destruct (sadd_members_spec v n members IH) as (v1 & n1 & E1 & Hok & _).
  congruence.
Qed.

(** X7: on an integer set that calls of [add] and [delete] have made
    from a new one, [add(value)] returns, and leaves the array strictly
    increasing and within the maximal size.  It returns false when the
    set holds the value, and changes nothing; true when the value is an
    integer that the set does not hold and the set is not full: then
    the set holds the value, one member more, and the other members as
    before; and 'upgrade', changing nothing, when the value is not an
    integer or is a new integer for a full set. *)
Theorem X7_intset_add (s : IntSet.t) (value : SetMember) :
  intset_reachable s →
  ∃ s' r, IntSet.add s value = Some (s', r) ∧
          StronglySorted Z.lt (IntSet.data s') ∧
          (IntSet.size s' ≤ IntSet.maxSize s')%nat ∧
          match r with
          | IntSet.done false => IntSet.has s value = true ∧ s' = s
          | IntSet.done true =>
              is_int value = true ∧ IntSet.has s value = false ∧
              (IntSet.size s < IntSet.maxSize s)%nat ∧
              IntSet.has s' value = true ∧
              (∀ w, w ≠ value → IntSet.has s' w = IntSet.has s w) ∧
              IntSet.size s' = S (IntSet.size s)
          | IntSet.upgrade =>
              s' = s ∧
              (is_int value = false ∨
               IntSet.has s value = false ∧ IntSet.size s = IntSet.maxSize s)
          end.
Proof.
  intros Hok%intset_reachable_ok. destruct value as [x|o].
  - destruct (IntSet_add_int s x Hok) as (s' & r & E & [Hs' Hlen'] & _ & _ & Hr).
    exists s', r. split; [done|]. split; [done|]. split; [done|].
    unfold IntSet.has, IntSet.size. destruct r as [|[|]].
    + destruct Hr as (Hnot & -> & Hfull). split; [done|]. right.
      by rewrite bool_decide_false.
    + destruct Hr as (Hnot & Hlt & Hperm). split; [done|].
      split; [by rewrite bool_decide_false|]. split; [done|].
      split; [rewrite bool_decide_true; [done|rewrite Hperm; by left]|].
      split; [|by rewrite Hperm].
      intros [y|o] Hne; [|done]. apply bool_decide_ext. rewrite Hperm, elem_of_cons.
      split; [|tauto]. intros [->|?]; done.
    + destruct Hr as (Hin & ->). by rewrite bool_decide_true.
  - exists s, IntSet.upgrade. destruct Hok as [Hs Hlen].
    split; [done|]. split; [done|]. split; [done|]. split; [done|]. by left.
Qed.

Lemma X7_intset_add_witness :
  intset_reachable (IntSet.new None) ∧
  ∃ s' r, IntSet.add (IntSet.new None) (MInt 5) = Some (s', r) ∧
          StronglySorted Z.lt (IntSet.data s').
Proof.
  destruct (X7_intset_add (IntSet.new None) (MInt 5) (intset_new None))
    as (s' & r & H1 & H2 & _).
  exact (conj (intset_new None) (ex_intro _ s' (ex_intro _ r (conj H1 H2)))).
Defined.

(** X8: on an integer set that calls of [add] and [delete] have made
    from a new one, [delete(value)] returns whether the set held the
    value; afterwards the set does not hold it, holds the other values
    as before, has one member less exactly when it held the value, and
    its array is still strictly increasing. *)
Theorem X8_intset_delete (s : IntSet.t) (value : SetMember) :
  intset_reachable s →
  (IntSet.delete s value).2 = IntSet.has s value ∧
  IntSet.has (IntSet.delete s value).1 value = false ∧
  (∀ w, w ≠ value → IntSet.has (IntSet.delete s value).1 w = IntSet.has s w) ∧
  IntSet.size (IntSet.delete s value).1
  = (IntSet.size s - (if IntSet.has s value then 1 else 0))%nat ∧
  StronglySorted Z.lt (IntSet.data (IntSet.delete s value).1).
Proof.
  intros Hok%intset_reachable_ok.
  destruct (IntSet_delete_spec s value Hok) as ([Hs _] & _ & H1 & H2 & H3 & H4).
  done.
Qed.

Lemma intset_ex_reachable : intset_reachable intset_ex.
Proof.
  apply (intset_add intset_s2 (MInt 5) _ (IntSet.done true));
    [|vm_compute; reflexivity].
  apply (intset_add intset_s1 (MInt 7) _ (IntSet.done true));
    [|vm_compute; reflexivity].
  apply (intset_add (IntSet.new None) (MInt 3) _ (IntSet.done true));
    [|vm_compute; reflexivity].
  apply intset_new.
Defined.

Lemma X8_intset_delete_witness :
  intset_reachable intset_ex ∧
  IntSet.data intset_ex = [3; 5; 7] ∧
  IntSet.data (IntSet.delete intset_ex (MInt 5)).1 = [3; 7] ∧
  (IntSet.delete intset_ex (MInt 5)).2 = IntSet.has intset_ex (MInt 5) ∧
  IntSet.has (IntSet.delete intset_ex (MInt 5)).1 (MInt 5) = false ∧
  (∀ w, w ≠ MInt 5 →
        IntSet.has (IntSet.delete intset_ex (MInt 5)).1 w = IntSet.has intset_ex w) ∧
  IntSet.size (IntSet.delete intset_ex (MInt 5)).1
  = (IntSet.size intset_ex - (if IntSet.has intset_ex (MInt 5) then 1 else 0))%nat ∧
  StronglySorted Z.lt (IntSet.data (IntSet.delete intset_ex (MInt 5)).1).
Proof.
  assert (H1 : IntSet.data intset_ex = [3; 5; 7]) by (vm_compute; reflexivity).
  assert (H2 : IntSet.data (IntSet.delete intset_ex (MInt 5)).1 = [3; 7])
    by (vm_compute; reflexivity).
  exact (conj intset_ex_reachable (conj H1 (conj H2
           (X8_intset_delete intset_ex (MInt 5) intset_ex_reachable)))).
Defined.

(** X9: [upgradeToSet()] of an integer set that calls of [add] and
    [delete] have made gives a [Set] with the values of the array, each
    once and in the order of the array: it has the members and the size
    of the integer set. *)
Theorem X9_upgradeToSet_keeps_members (s : IntSet.t) :
  intset_reachable s →
  IntSet.upgradeToSet s = IntSet.values s ∧ NoDup (IntSet.upgradeToSet s) ∧
  (∀ w, JsSet.has (IntSet.upgradeToSet s) w = IntSet.has s w) ∧
  JsSet.size (IntSet.upgradeToSet s) = IntSet.size s.
Proof.
  intros Hok%intset_reachable_ok. rewrite (upgradeToSet_values s Hok).
  split; [done|]. split; [by apply values_NoDup|]. split.
  - intros w. by rewrite IntSet_has_values.
  - unfold JsSet.size, IntSet.values, IntSet.size. by rewrite length_fmap.
Qed.

Lemma X9_upgradeToSet_keeps_members_witness :
  intset_reachable intset_ex ∧
  IntSet.upgradeToSet intset_ex = [MInt 3; MInt 5; MInt 7] ∧
  IntSet.upgradeToSet intset_ex = IntSet.values intset_ex ∧
  NoDup (IntSet.upgradeToSet intset_ex) ∧
  (∀ w, JsSet.has (IntSet.upgradeToSet intset_ex) w = IntSet.has intset_ex w) ∧
  JsSet.size (IntSet.upgradeToSet intset_ex) = IntSet.size intset_ex.
Proof.
  assert (H1 : IntSet.upgradeToSet intset_ex = [MInt 3; MInt 5; MInt 7])
    by (vm_compute; reflexivity).
  exact (conj intset_ex_reachable (conj H1
           (X9_upgradeToSet_keeps_members intset_ex intset_ex_reachable))).
Defined.

(** X10: the loop of [sadd] over the members, on the value of a set
    entry that [sadd] has made, returns.  The new value holds the old
    members and the given ones and nothing else, the count of added
    members has grown by the growth of the size, and the value is still
    an integer set exactly when it was one, all the given members are
    integers and the new size is at most 512. *)
Theorem X10_sadd_members (v : Value) (addedCount : Z) (members : list SetMember) :
  set_reachable v →
  ∃ v' addedCount',
    Cache.sadd_members v addedCount members = Some (v', addedCount') ∧
    set_reachable v' ∧
    NoDup (set_members v') ∧
    (∀ w, w ∈ set_members v' ↔ w ∈ set_members v ∨ w ∈ members) ∧
    addedCount' - addedCount = Cache.set_size v' - Cache.set_size v ∧
    Cache.set_size v' = Z.of_nat (length (set_members v')) ∧
    (is_intset v' = true ↔
     is_intset v = true ∧ Forall (λ w, is_int w = true) members ∧
     Cache.set_size v' ≤ 512).
Proof.
  intros Hr. pose proof (set_reachable_ok v Hr) as Hok.
  destruct (sadd_members_spec v addedCount members Hok)
    as (v' & n' & E & Hok' & Hm & Hn & _ & Hi).
  exists v', n'. split; [done|].
  split; [by apply (set_reachable_sadd v addedCount members v' n')|].
  split; [|split; [done|split; [done|split; [|done]]]].
  - destruct v' as [?|?|s'|hs']; [done|done| |done].
    destruct Hok' as [Hok' _]. by apply values_NoDup.
  - destruct v' as [?|?|s'|hs']; [done|done| |done].
    cbn. unfold IntSet.values, IntSet.size. by rewrite length_fmap.
Qed.

Lemma X10_sadd_members_witness :
  set_reachable (VIntSet (IntSet.new None)) ∧
  ∃ v' addedCount',
    Cache.sadd_members (VIntSet (IntSet.new None)) 0 [MInt 3; MInt 1; MInt 3]
    = Some (v', addedCount') ∧
    addedCount' - 0 = Cache.set_size v' - Cache.set_size (VIntSet (IntSet.new None)).
Proof.
  destruct (X10_sadd_members (VIntSet (IntSet.new None)) 0 [MInt 3; MInt 1; MInt 3]
              set_reachable_new) as (v' & n' & H1 & _ & _ & _ & H2 & _).
  exact (conj set_reachable_new (ex_intro _ v' (ex_intro _ n' (conj H1 H2)))).
Defined.
End sets.

(** ** The usage tracker *)
Section usage.
Implicit Types (u : UsageTracker.t) (key : string) (meta : UsageMetadata).

Lemma usage_ok_new (policy : option EvictionPolicy) (decayInterval decayAmount : option Z) :
  0 ≤ default 1 decayAmount →
  usage_ok (UsageTracker.new policy decayInterval decayAmount).
Proof.
  intros Ha. unfold UsageTracker.new. cbn.
  destruct (decide (default lru policy = lfu)); (split; [done|]);
    intros key meta; cbn; by rewrite lookup_empty.
Qed.

Lemma usage_ok_touch u now (tp : tape) key u' (tp' : tape) :
  usage_ok u → UsageTracker.touch u now tp key = Some (u', tp') → usage_ok u'.
Proof.
  intros [Ha Hok]. unfold UsageTracker.touch.
  assert (Hm : 0 ≤ freq (default {| lastAccess := now; freq := 0; lastDecay := now |}
                           (UsageTracker.metadata u !! key)) ≤ 255 ∧
               (UsageTracker.policy u = lru →
                freq (default {| lastAccess := now; freq := 0; lastDecay := now |}
                        (UsageTracker.metadata u !! key)) = 0)).
  { destruct (UsageTracker.metadata u !! key) as [meta|] eqn:Hk; cbn.
    - by apply (Hok key).
    - split; [lia|done]. }
  destruct Hm as [Hf Hl].
  destruct (UsageTracker.policy u) eqn:Hp.
  - intros [= <- <-]. split; [done|]. cbn. rewrite Hp.
    intros k meta. destruct (decide (k = key)) as [->|Hne].
    + rewrite lookup_insert_eq. intros [= <-]. cbn. split; [done|]. by intros _; apply Hl.
    + rewrite lookup_insert_ne by done. intros Hk. destruct (Hok k meta Hk). by split.
  - destruct tp as [|r tp0]; [done|]. cbn [Math_random mbind option_bind].
    intros [= <- <-]. split; [done|]. cbn. rewrite Hp.
    intros k meta. destruct (decide (k = key)) as [->|Hne].
    + rewrite lookup_insert_eq. intros [= <-]. split; [|done].
      destruct (Qltb _ _ && _) eqn:Hc; cbn; [|done].
      apply andb_true_iff in Hc as [_ Hc%bool_decide_eq_true]. lia.
    + rewrite lookup_insert_ne by done. intros Hk. destruct (Hok k meta Hk). by split.
Qed.

Lemma usage_ok_delete u key : usage_ok u → usage_ok (UsageTracker.delete u key).
Proof.
  intros [Ha Hok]. split; [done|]. intros k meta. cbn.
  intros Hk%lookup_delete_Some. by apply (Hok k), Hk.
Qed.

Lemma usage_ok_decay u now : usage_ok u → usage_ok (UsageTracker.decay u now).
Proof.
  intros [Ha Hok]. split; [done|]. intros k meta. cbn.
  rewrite lookup_fmap. destruct (UsageTracker.metadata u !! k) as [m0|] eqn:Hk; [|done].
  cbn. intros [= <-]. destruct (Hok k m0 Hk) as [Hf Hl].
  case_bool_decide; cbn; [|done]. split; [lia|]. intros Hp%Hl. lia.
Qed.

Lemma usage_reachable_ok u : usage_reachable u → usage_ok u.
Proof.
  induction 1 as [policy decayInterval decayAmount Ha|u now tp key u' tp' _ IH E
                 |u key _ IH|u now _ IH|u _ IH|u _ IH].
  - by apply usage_ok_new.
  - by apply (usage_ok_touch u now tp key u' tp').
  - by apply usage_ok_delete.
  - by apply usage_ok_decay.
  - done.
  - done.
Qed.

(** X11: in every usage tracker that the calls of [touch], [delete]
    and the decay timer make from a new one with a decay amount that is
    not negative, the frequency counter of every key is between 0 and
    255, and it is 0 under the LRU policy. *)
Theorem X11_usage_freq_bounds (u : UsageTracker.t) (key : string)
    (meta : UsageMetadata) :
  usage_reachable u → UsageTracker.getMetadata u key = Some meta →
  0 ≤ freq meta ≤ 255 ∧ (UsageTracker.policy u = lru → freq meta = 0).
Proof.
  intros [_ Hok]%usage_reachable_ok Hk. by apply (Hok key).
Qed.

Lemma X11_usage_freq_bounds_witness :
  usage_reachable usage_ex ∧
  UsageTracker.getMetadata usage_ex "k"
  = Some {| lastAccess := 0; freq := 1; lastDecay := 0 |} ∧
  0 ≤ 1 ≤ 255.
Proof.
  assert (Hr : usage_reachable usage_ex).
  { apply (usage_touch (UsageTracker.new (Some lfu) None None) 0 [(1 # 2)%Q] "k"
             usage_ex []).
    - apply usage_new. cbn. lia.
    - vm_compute. reflexivity. }
  assert (Hk : UsageTracker.getMetadata usage_ex "k"
               = Some {| lastAccess := 0; freq := 1; lastDecay := 0 |})
    by (vm_compute; reflexivity).
  exact (conj Hr (conj Hk (proj1 (X11_usage_freq_bounds usage_ex "k" _ Hr Hk)))).
Defined.
End usage.

(** ** Packed lists *)
Section listpack.
Implicit Types (n : ListPackNode.t) (value : string) (l : list string).

Lemma lp_bytes_app l1 l2 : lp_bytes (l1 ++ l2) = lp_bytes l1 + lp_bytes l2.
Proof.
  induction l1 as [|e l1 IH]; [done|]. cbn [app]. unfold lp_bytes in *.
  cbn [foldr]. rewrite IH. lia.
Qed.

Lemma tryAppend_true n value :
  (ListPackNode.tryAppend n value).2 = true →
  ListPackNode.elements (ListPackNode.tryAppend n value).1
  = ListPackNode.elements n ++ [value] ∧
  ListPackNode.bytes (ListPackNode.tryAppend n value).1
  = ListPackNode.bytes n + strlen value + 4 ∧
  ListPackNode.maxBytes (ListPackNode.tryAppend n value).1 = ListPackNode.maxBytes n.
Proof.
  unfold ListPackNode.tryAppend. destruct (_ && _); [done|]. cbn. intros _.
  split; [done|]. split; [lia|done].
Qed.

Lemma tryAppend_false n value :
  (ListPackNode.tryAppend n value).2 = false →
  (ListPackNode.tryAppend n value).1 = n ∧ ListPackNode.elements n ≠ [] ∧
  ListPackNode.maxBytes n < ListPackNode.bytes n + (strlen value + 4).
Proof.
  unfold ListPackNode.tryAppend. destruct (_ && _) eqn:Hc; [|done]. cbn. intros _.
  apply andb_true_iff in Hc as [H1%bool_decide_eq_true H2%bool_decide_eq_true].
  split; [done|]. split; [|done]. intros He. rewrite He in H2. cbn in H2. lia.
Qed.

Lemma tryAppend_new value :
  (ListPackNode.tryAppend (ListPackNode.new None) value).1
  = {| ListPackNode.elements := [value]; ListPackNode.bytes := strlen value + 4;
       ListPackNode.maxBytes := 4096 |}.
Proof.
  unfold ListPackNode.tryAppend. cbn.
  rewrite (bool_decide_false (0 < 0)%nat) by lia. by rewrite andb_false_r.
Qed.
End listpack.

(** X12: in every packed list that calls of [tryAppend] make from a new
    one, [bytes] is the sum over the elements of the length plus 4, and
    it is at most [maxBytes] unless the list holds at most one element.
    [tryAppend] returns false, and changes nothing, exactly when the
    list is not empty and the element would take it over [maxBytes];
    otherwise the element is the new last element. *)
Theorem X12_listpack_bytes (n : ListPackNode.t) (value : string) :
  lp_reachable n →
  ListPackNode.bytes n = lp_bytes (ListPackNode.elements n) ∧
  ((ListPackNode.length n ≤ 1)%nat ∨ ListPackNode.bytes n ≤ ListPackNode.maxBytes n) ∧
  (if (ListPackNode.tryAppend n value).2
   then ListPackNode.toArray (ListPackNode.tryAppend n value).1
        = ListPackNode.toArray n ++ [value]
   else (ListPackNode.tryAppend n value).1 = n ∧ ListPackNode.toArray n ≠ [] ∧
        ListPackNode.maxBytes n < ListPackNode.bytes n + (strlen value + 4)).
Proof.
  intros Hr. split; [|split].
  - induction Hr as [maxBytes|n0 v0 _ IH]; [done|].
    destruct (ListPackNode.tryAppend n0 v0).2 eqn:Hb.
    + destruct (tryAppend_true n0 v0 Hb) as (-> & -> & _).
      rewrite lp_bytes_app, IH. cbn. lia.
    + destruct (tryAppend_false n0 v0 Hb) as (-> & _). done.
  - induction Hr as [maxBytes|n0 v0 _ IH]; [left; cbn; lia|].
    destruct (ListPackNode.tryAppend n0 v0).2 eqn:Hb.
    + unfold ListPackNode.length.
      destruct (tryAppend_true n0 v0 Hb) as (-> & -> & ->). rewrite length_app. cbn.
      unfold ListPackNode.tryAppend in Hb.
      destruct (bool_decide (_ < _)) eqn:H1; [|apply bool_decide_eq_false in H1; right; lia].
      destruct (bool_decide (0 < _)%nat) eqn:H2; [done|].
      apply bool_decide_eq_false in H2. left. lia.
    + destruct (tryAppend_false n0 v0 Hb) as (-> & _). done.
  - unfold ListPackNode.toArray. destruct (ListPackNode.tryAppend n value).2 eqn:Hb.
    + by destruct (tryAppend_true n value Hb) as (-> & _).
    + by apply tryAppend_false.
Qed.

Lemma listpack_ex_reachable : lp_reachable listpack_ex.
Proof. apply lp_tryAppend, lp_new. Defined.

Lemma X12_listpack_bytes_witness :
  lp_reachable listpack_ex ∧
  ListPackNode.elements listpack_ex = ["hello"] ∧
  (ListPackNode.tryAppend listpack_ex "x").2 = false ∧
  ListPackNode.bytes listpack_ex = lp_bytes (ListPackNode.elements listpack_ex) ∧
  ((ListPackNode.length listpack_ex ≤ 1)%nat
   ∨ ListPackNode.bytes listpack_ex ≤ ListPackNode.maxBytes listpack_ex) ∧
  (if (ListPackNode.tryAppend listpack_ex "x").2
   then ListPackNode.toArray (ListPackNode.tryAppend listpack_ex "x").1
        = ListPackNode.toArray listpack_ex ++ ["x"]
   else (ListPackNode.tryAppend listpack_ex "x").1 = listpack_ex ∧
        ListPackNode.toArray listpack_ex ≠ [] ∧
        ListPackNode.maxBytes listpack_ex
        < ListPackNode.bytes listpack_ex + (strlen "x" + 4)).
Proof.
  assert (H1 : ListPackNode.elements listpack_ex = ["hello"])
    by (vm_compute; reflexivity).
  assert (H2 : (ListPackNode.tryAppend listpack_ex "x").2 = false)
    by (vm_compute; reflexivity).
  exact (conj listpack_ex_reachable (conj H1 (conj H2
           (X12_listpack_bytes listpack_ex "x" listpack_ex_reachable)))).
Defined.

(** ** Quick lists *)
Section quicklist.
Implicit Types (q : QuickList.t) (h : list QuickList.QuickListNode).
Implicit Types (ids : list nat) (x i k : nat) (value : string).

Lemma ql_elements_cons h x ids :
  ql_elements h (x :: ids) = ql_node_elements h x ++ ql_elements h ids.
Proof. done. Qed.

Lemma ql_elements_app h ids1 ids2 :
  ql_elements h (ids1 ++ ids2) = ql_elements h ids1 ++ ql_elements h ids2.
Proof. unfold ql_elements. by rewrite fmap_app, concat_app. Qed.

Lemma ql_elements_ext h h' ids :
  (∀ x, x ∈ ids → ql_node_elements h' x = ql_node_elements h x) →
  ql_elements h' ids = ql_elements h ids.
Proof.
  intros Hx. unfold ql_elements. f_equal. apply list_fmap_ext.
  intros i x Hi. apply Hx. by apply list_elem_of_lookup_2 in Hi.
Qed.

Lemma toArray_loop_spec (fuel : nat) h ids k (acc : list string) :
  (∀ i x, ids !! i = Some x → ql_node_at h ids i x) →
  (length ids - k ≤ fuel)%nat →
  QuickList.toArray_loop fuel h (ids !! k) acc
  = Some (acc ++ ql_elements h (drop k ids)).
Proof.
  intros Hn. revert k acc. induction fuel as [|fuel IH]; intros k acc Hf.
  - rewrite (lookup_ge_None_2 ids k) by lia. rewrite drop_ge by lia.
    cbn. by rewrite app_nil_r.
  - destruct (ids !! k) as [x|] eqn:Hk.
    + destruct (Hn k x Hk) as (n & Hx & Hnext & _).
      cbn [QuickList.toArray_loop]. rewrite Hx. cbn [mbind option_bind].
      rewrite Hnext, IH by lia.
      rewrite (drop_S _ _ _ Hk), ql_elements_cons, <- app_assoc.
      unfold ql_node_elements at 1. by rewrite Hx.
    + apply lookup_ge_None_1 in Hk. rewrite drop_ge by lia.
      cbn. by rewrite app_nil_r.
Qed.

Lemma get_loop_spec (fuel : nat) h ids k (offset index : Z) :
  (∀ i x, ids !! i = Some x → ql_node_at h ids i x) →
  (length ids - k ≤ fuel)%nat →
  offset ≤ index < offset + Z.of_nat (length (ql_elements h (drop k ids))) →
  QuickList.get_loop fuel h (ids !! k) offset index
  = Some (ql_elements h (drop k ids) !! Z.to_nat (index - offset)).
Proof.
  intros Hn. revert k offset. induction fuel as [|fuel IH]; intros k offset Hf Hr.
  all: destruct (ids !! k) as [x|] eqn:Hk;
    [|apply lookup_ge_None_1 in Hk; rewrite drop_ge in Hr by lia; cbn in Hr; lia].
  all: destruct (Hn k x Hk) as (n & Hx & Hnext & _).
  all: rewrite (drop_S _ _ _ Hk), ql_elements_cons in Hr |- *.
  all: unfold ql_node_elements in Hr |- * at 1; rewrite Hx in Hr |- *.
  all: rewrite length_app in Hr.
  all: cbn [QuickList.get_loop]; rewrite Hx; cbn [mbind option_bind].
  all: unfold ListPackNode.length; case_bool_decide as Hlt.
  1,3: unfold ListPackNode.get; rewrite bool_decide_true by lia;
       rewrite lookup_app_l by lia; done.
  - apply lookup_lt_Some in Hk. lia.
  - rewrite Hnext, IH by lia.
    rewrite lookup_app_r by lia. do 2 f_equal. lia.
Qed.

Lemma ql_valid q ids x : ql_inv q ids → x ∈ ids → (x < length (QuickList.heap q))%nat.
Proof.
  intros Hinv [i Hi]%list_elem_of_lookup_1.
  destruct (ql_nodes _ _ Hinv i x Hi) as (n & Hx & _). by apply lookup_lt_Some in Hx.
Qed.

Lemma ql_inv_new : ql_inv QuickList.new [].
Proof. split; try done. constructor. Qed.

Lemma ql_toArray_inv q ids :
  ql_inv q ids → QuickList.toArray q = Some (ql_elements (QuickList.heap q) ids).
Proof.
  intros Hinv. unfold QuickList.toArray. rewrite (ql_head _ _ Hinv).
  rewrite (toArray_loop_spec _ _ ids 0); [done|apply (ql_nodes _ _ Hinv)|].
  pose proof (ql_bound _ _ Hinv). lia.
Qed.

Lemma ql_get_inv q ids (index : Z) :
  ql_inv q ids →
  QuickList.get q index
  = Some (if bool_decide (0 ≤ index)
          then ql_elements (QuickList.heap q) ids !! Z.to_nat index else None).
Proof.
  intros Hinv. unfold QuickList.get. rewrite (ql_length _ _ Hinv).
  destruct (decide (index < 0)) as [H0|H0].
  { rewrite (bool_decide_true (index < 0)), (bool_decide_false (0 ≤ index)) by lia.
    done. }
  rewrite (bool_decide_false (index < 0)), (bool_decide_true (0 ≤ index)) by lia.
  cbn [orb]. case_bool_decide as H1.
  { by rewrite lookup_ge_None_2 by lia. }
  rewrite (ql_head _ _ Hinv).
  rewrite (get_loop_spec _ _ ids 0); [|apply (ql_nodes _ _ Hinv)| |].
  - rewrite drop_0. do 2 f_equal. lia.
  - pose proof (ql_bound _ _ Hinv). lia.
  - rewrite drop_0. lia.
Qed.

Lemma node_elements_alloc h (n : QuickList.QuickListNode) x :
  (x < length h)%nat → ql_node_elements (h ++ [n]) x = ql_node_elements h x.
Proof. intros Hx. unfold ql_node_elements. by rewrite lookup_app_l. Qed.

Lemma node_elements_new h (n : QuickList.QuickListNode) :
  ql_node_elements (h ++ [n]) (length h) = ListPackNode.elements (QuickList.data n).
Proof.
  unfold ql_node_elements. rewrite lookup_app_r by lia. by rewrite Nat.sub_diag.
Qed.

Lemma node_elements_insert_ne h (n : QuickList.QuickListNode) x y :
  x ≠ y → ql_node_elements (<[y := n]> h) x = ql_node_elements h x.
Proof. intros Hne. unfold ql_node_elements. by rewrite list_lookup_insert_ne. Qed.

Lemma node_elements_insert_eq h (n : QuickList.QuickListNode) y :
  (y < length h)%nat →
  ql_node_elements (<[y := n]> h) y = ListPackNode.elements (QuickList.data n).
Proof. intros Hy. unfold ql_node_elements. by rewrite list_lookup_insert_eq. Qed.

Lemma newNode_elements value (nx pv : option nat) :
  ListPackNode.elements (QuickList.data (QuickList.newNode value nx pv)) = [value].
Proof. unfold QuickList.newNode. cbn [QuickList.data]. by rewrite tryAppend_new. Qed.

(** The first node of a list. *)
Lemma push_first_inv q value (nx pv : option nat) :
  ql_inv q [] → nx = None → pv = None →
  ql_inv {| QuickList.heap := QuickList.heap q ++ [QuickList.newNode value nx pv];
            QuickList.head := Some (length (QuickList.heap q));
            QuickList.tail := Some (length (QuickList.heap q));
            QuickList.length := QuickList.length q + 1 |}
    [length (QuickList.heap q)] ∧
  ql_elements (QuickList.heap q ++ [QuickList.newNode value nx pv])
    [length (QuickList.heap q)] = [value].
Proof.
  intros Hinv -> ->.
  assert (He : ql_elements (QuickList.heap q ++ [QuickList.newNode value None None])
                 [length (QuickList.heap q)] = [value]).
  { unfold ql_elements. cbn [fmap list_fmap concat].
    by rewrite node_elements_new, newNode_elements. }
  split; [|done]. split; cbn [QuickList.heap QuickList.head QuickList.tail QuickList.length].
  - done.
  - done.
  - intros i x Hi. apply list_lookup_singleton_Some in Hi as [-> <-].
    exists (QuickList.newNode value None None).
    split; [rewrite lookup_app_r by lia; by rewrite Nat.sub_diag|].
    split; [done|]. split; [done|]. by rewrite newNode_elements.
  - apply NoDup_singleton.
  - rewrite length_app. cbn. lia.
  - rewrite He, (ql_length _ _ Hinv). cbn. lia.
Qed.

Lemma rpush_node_inv q ids value :
  ql_inv q ids →
  ∃ q', QuickList.rpush_node q value = Some q' ∧
        ql_inv q' (ids ++ [length (QuickList.heap q)]) ∧
        ql_elements (QuickList.heap q') (ids ++ [length (QuickList.heap q)])
        = ql_elements (QuickList.heap q) ids ++ [value].
Proof.
  intros Hinv. unfold QuickList.rpush_node.
  set (id := length (QuickList.heap q)).
  set (node := QuickList.newNode value None (QuickList.tail q)).
  destruct ids as [|tl ids0 _] using rev_ind.
  - pose proof (ql_tail _ _ Hinv) as Ht. cbn in Ht. subst node. rewrite Ht.
    eexists. split; [done|]. by apply push_first_inv.
  - pose proof (ql_tail _ _ Hinv) as Ht. rewrite last_snoc in Ht.
    assert (Hlen : length (ids0 ++ [tl]) = S (length ids0))
      by (rewrite length_app; cbn; lia).
    assert (Htl : (ids0 ++ [tl]) !! length ids0 = Some tl).
    { rewrite lookup_app_r by lia. by rewrite Nat.sub_diag. }
    destruct (ql_nodes _ _ Hinv _ _ Htl) as (n & Hn & Hnext & Hprev & Hne).
    pose proof (lookup_lt_Some _ _ _ Hn) as Hlt.
    rewrite Ht. rewrite (lookup_app_l_Some _ _ _ _ Hn). cbn [mbind option_bind].
    eexists. split; [done|].
    set (n' := {| QuickList.data := QuickList.data n; QuickList.next := Some id;
                  QuickList.prev := QuickList.prev n |}).
    set (h' := <[tl := n']> (QuickList.heap q ++ [node])).
    assert (Hold : ∀ x, x ∈ ids0 ++ [tl] →
                        ql_node_elements h' x = ql_node_elements (QuickList.heap q) x).
    { intros x Hx. pose proof (ql_valid _ _ _ Hinv Hx) as Hxv.
      destruct (decide (x = tl)) as [->|Hxt].
      - unfold h'. rewrite node_elements_insert_eq by (rewrite length_app; cbn; lia).
        unfold ql_node_elements. by rewrite Hn.
      - unfold h'. by rewrite node_elements_insert_ne, node_elements_alloc. }
    assert (Hnew : ql_node_elements h' id = [value]).
    { unfold h'. rewrite node_elements_insert_ne by (unfold id; lia).
      unfold id, node. by rewrite node_elements_new, newNode_elements. }
    assert (He : ql_elements h' ((ids0 ++ [tl]) ++ [id])
                 = ql_elements (QuickList.heap q) (ids0 ++ [tl]) ++ [value]).
    { rewrite (ql_elements_app _ (ids0 ++ [tl])), (ql_elements_ext _ _ _ Hold).
      f_equal. unfold ql_elements. cbn [fmap list_fmap concat].
      by rewrite Hnew. }
    split; [|done].
    split; cbn [QuickList.heap QuickList.head QuickList.tail QuickList.length].
    + rewrite (ql_head _ _ Hinv). symmetry. apply lookup_app_l. lia.
    + by rewrite last_snoc.
    + intros i x Hi. apply lookup_app_Some in Hi as [Hi|[Hge Hi]].
      * pose proof (lookup_lt_Some _ _ _ Hi) as Hil.
        destruct (decide (x = tl)) as [->|Hxt].
        -- assert (i = length ids0) as ->
             by (by apply (NoDup_lookup _ _ _ tl (ql_nodup _ _ Hinv))).
           exists n'. split; [apply list_lookup_insert_eq; rewrite length_app; cbn; lia|].
           cbn. split; [|split; [|done]].
           ++ rewrite lookup_app_r by lia. rewrite Hlen, Nat.sub_diag. done.
           ++ rewrite Hprev. destruct (length ids0) as [|j] eqn:Hj; [done|].
              symmetry. apply lookup_app_l. lia.
        -- destruct (ql_nodes _ _ Hinv _ _ Hi) as (nx & Hx & Hxn & Hxp & Hxe).
           exists nx. split.
           { unfold h'. rewrite list_lookup_insert_ne by done.
             by apply lookup_app_l_Some. }
           assert (i ≠ length ids0) by (intros ->; congruence).
           split; [|split; [|done]].
           ++ rewrite Hxn. symmetry. apply lookup_app_l. lia.
           ++ rewrite Hxp. destruct i as [|j]; [done|].
              symmetry. apply lookup_app_l. lia.
      * apply list_lookup_singleton_Some in Hi as [Hi <-].
        assert (i = S (length ids0)) as -> by lia.
        exists node. split.
        { unfold h'. rewrite list_lookup_insert_ne by (unfold id; lia).
          unfold id. rewrite lookup_app_r by lia. by rewrite Nat.sub_diag. }
        split; [|split].
        -- cbn. symmetry. apply lookup_ge_None_2. rewrite length_app. cbn. lia.
        -- cbn. rewrite Ht. symmetry. by apply lookup_app_l_Some.
        -- unfold node. by rewrite newNode_elements.
    + apply NoDup_app. split; [apply (ql_nodup _ _ Hinv)|].
      split; [|apply NoDup_singleton].
      intros x Hx ->%list_elem_of_singleton.
      pose proof (ql_valid _ _ _ Hinv Hx). unfold id in *. lia.
    + unfold h'. rewrite length_insert, !length_app. cbn.
      pose proof (ql_bound _ _ Hinv) as Hb. rewrite length_app in Hb. cbn in Hb. lia.
    + fold h'. rewrite He, length_app, (ql_length _ _ Hinv). cbn. lia.
Qed.

Lemma rpush_inv q ids value :
  ql_inv q ids →
  ∃ q' ids', QuickList.rpush q value = Some q' ∧ ql_inv q' ids' ∧
             ql_elements (QuickList.heap q') ids'
             = ql_elements (QuickList.heap q) ids ++ [value].
Proof.
  intros Hinv. unfold QuickList.rpush.
  destruct (QuickList.tail q) as [tl|] eqn:Ht.
  2:{ destruct (rpush_node_inv q ids value Hinv) as (q' & E & Hinv' & He).
      by exists q', (ids ++ [length (QuickList.heap q)]). }
  pose proof (ql_tail _ _ Hinv) as Hl. rewrite Ht in Hl. symmetry in Hl.
  apply last_Some in Hl as [ids0 ->].
  assert (Htl : (ids0 ++ [tl]) !! length ids0 = Some tl).
  { rewrite lookup_app_r by lia. by rewrite Nat.sub_diag. }
  destruct (ql_nodes _ _ Hinv _ _ Htl) as (n & Hn & Hnext & Hprev & Hne).
  pose proof (lookup_lt_Some _ _ _ Hn) as Hlt.
  rewrite Hn. cbn [mbind option_bind].
  rewrite (surjective_pairing (ListPackNode.tryAppend (QuickList.data n) value)).
  destruct (ListPackNode.tryAppend (QuickList.data n) value).2 eqn:Hb.
  2:{ destruct (rpush_node_inv q _ value Hinv) as (q' & E & Hinv' & He).
      by exists q', ((ids0 ++ [tl]) ++ [length (QuickList.heap q)]). }
  destruct (tryAppend_true _ _ Hb) as (Hd & _).
  set (n' := {| QuickList.data := (ListPackNode.tryAppend (QuickList.data n) value).1;
                QuickList.next := QuickList.next n;
                QuickList.prev := QuickList.prev n |}).
  set (h' := <[tl := n']> (QuickList.heap q)).
  assert (Hnd : tl ∉ ids0).
  { pose proof (ql_nodup _ _ Hinv) as Hnd. apply NoDup_app in Hnd as (_ & Hnd & _).
    intros Hin. apply (Hnd tl Hin). by left. }
  assert (He : ql_elements h' (ids0 ++ [tl])
               = ql_elements (QuickList.heap q) (ids0 ++ [tl]) ++ [value]).
  { rewrite !ql_elements_app, <- app_assoc. f_equal.
    - apply ql_elements_ext. intros x Hx. unfold h'.
      apply node_elements_insert_ne. by intros ->.
    - unfold ql_elements. cbn [fmap list_fmap concat]. rewrite !app_nil_r.
      unfold h', n'. rewrite node_elements_insert_eq by done. cbn [QuickList.data].
      rewrite Hd. unfold ql_node_elements. by rewrite Hn. }
  eexists _, (ids0 ++ [tl]). split; [done|]. split; [|done].
  split; cbn [QuickList.heap QuickList.head QuickList.tail QuickList.length].
  - apply (ql_head _ _ Hinv).
  - by rewrite last_snoc.
  - intros i x Hi. destruct (ql_nodes _ _ Hinv _ _ Hi) as (nx & Hx & Hxn & Hxp & Hxe).
    destruct (decide (x = tl)) as [->|Hxt].
    + exists n'. split; [by apply list_lookup_insert_eq|].
      assert (nx = n) as -> by congruence. cbn.
      split; [done|]. split; [done|]. rewrite Hd. by destruct (ListPackNode.elements _).
    + exists nx. split; [|done]. unfold h'. by rewrite list_lookup_insert_ne.
  - apply (ql_nodup _ _ Hinv).
  - unfold h'. rewrite length_insert. apply (ql_bound _ _ Hinv).
  - fold h'. rewrite He, length_app, (ql_length _ _ Hinv). cbn. lia.
Qed.

Lemma lpush_inv q ids value :
  ql_inv q ids →
  ∃ q', QuickList.lpush q value = Some q' ∧
        ql_inv q' (length (QuickList.heap q) :: ids) ∧
        ql_elements (QuickList.heap q') (length (QuickList.heap q) :: ids)
        = value :: ql_elements (QuickList.heap q) ids.
Proof.
  intros Hinv. unfold QuickList.lpush.
  set (id := length (QuickList.heap q)).
  set (node := QuickList.newNode value (QuickList.head q) None).
  destruct ids as [|hd ids0].
  - pose proof (ql_head _ _ Hinv) as Hh. cbn in Hh. subst node. rewrite Hh.
    eexists. split; [done|]. by apply push_first_inv.
  - pose proof (ql_head _ _ Hinv) as Hh. cbn in Hh.
    destruct (ql_nodes _ _ Hinv 0%nat hd eq_refl) as (n & Hn & Hnext & Hprev & Hne).
    pose proof (lookup_lt_Some _ _ _ Hn) as Hlt.
    rewrite Hh. rewrite (lookup_app_l_Some _ _ _ _ Hn). cbn [mbind option_bind].
    eexists. split; [done|].
    set (n' := {| QuickList.data := QuickList.data n; QuickList.next := QuickList.next n;
                  QuickList.prev := Some id |}).
    set (h' := <[hd := n']> (QuickList.heap q ++ [node])).
    assert (Hold : ∀ x, x ∈ hd :: ids0 →
                        ql_node_elements h' x = ql_node_elements (QuickList.heap q) x).
    { intros x Hx. pose proof (ql_valid _ _ _ Hinv Hx) as Hxv.
      destruct (decide (x = hd)) as [->|Hxt].
      - unfold h'. rewrite node_elements_insert_eq by (rewrite length_app; cbn; lia).
        unfold ql_node_elements. by rewrite Hn.
      - unfold h'. by rewrite node_elements_insert_ne, node_elements_alloc. }
    assert (Hnew : ql_node_elements h' id = [value]).
    { unfold h'. rewrite node_elements_insert_ne by (unfold id; lia).
      unfold id, node. by rewrite node_elements_new, newNode_elements. }
    assert (He : ql_elements h' (id :: hd :: ids0)
                 = value :: ql_elements (QuickList.heap q) (hd :: ids0)).
    { rewrite ql_elements_cons, Hnew, (ql_elements_ext _ _ _ Hold). done. }
    split; [|done].
    split; cbn [QuickList.heap QuickList.head QuickList.tail QuickList.length].
    + done.
    + by rewrite (ql_tail _ _ Hinv).
    + intros i x Hi. destruct i as [|j].
      * injection Hi as <-. exists node. split.
        { unfold h'. rewrite list_lookup_insert_ne by (unfold id; lia).
          unfold id. rewrite lookup_app_r by lia. by rewrite Nat.sub_diag. }
        split; [by cbn|]. split; [done|]. unfold node. by rewrite newNode_elements.
      * cbn [lookup list_lookup] in Hi. change ((hd :: ids0) !! j = Some x) in Hi.
        destruct (ql_nodes _ _ Hinv _ _ Hi) as (nx & Hx & Hxn & Hxp & Hxe).
        destruct (decide (x = hd)) as [->|Hxt].
        -- assert (j = 0%nat) as ->
             by (by apply (NoDup_lookup _ _ _ hd (ql_nodup _ _ Hinv))).
           exists n'. split; [apply list_lookup_insert_eq; rewrite length_app; cbn; lia|].
           assert (nx = n) as -> by congruence. cbn. by rewrite Hxn.
        -- exists nx. split.
           { unfold h'. rewrite list_lookup_insert_ne by done.
             by apply lookup_app_l_Some. }
           split; [by rewrite Hxn|]. split; [|done].
           destruct j as [|j']; [cbn in Hi; congruence|]. by rewrite Hxp.
    + constructor; [|apply (ql_nodup _ _ Hinv)].
      intros Hx. pose proof (ql_valid _ _ _ Hinv Hx). unfold id in *. lia.
    + unfold h'. rewrite length_insert, !length_app. cbn.
      pose proof (ql_bound _ _ Hinv) as Hb. cbn in Hb. lia.
    + fold h'. rewrite He. cbn [length]. rewrite (ql_length _ _ Hinv). lia.
Qed.

Lemma ql_reachable_inv q : ql_reachable q → ∃ ids, ql_inv q ids.
Proof.
  induction 1 as [|q value q' _ [ids IH] E|q value q' _ [ids IH] E].
  - exists []. apply ql_inv_new.
  - destruct (rpush_inv q ids value IH) as (q1 & ids' & E1 & Hinv & _).
    exists ids'. congruence.
  - destruct (lpush_inv q ids value IH) as (q1 & E1 & Hinv & _).
    eexists. rewrite E1 in E. injection E as <-. done.
Qed.
End quicklist.

(** X13: in every quick list that calls of [rpush] and [lpush] make
    from a new one, [toArray()] returns the elements of the nodes from
    the head to the tail, [size] is their number, and [get(index)] is
    the element of [toArray()] at the index, or undefined when the index
    is negative or not below the size. *)
Theorem X13_quicklist_reads (q : QuickList.t) :
  ql_reachable q →
  ∃ l, QuickList.toArray q = Some l ∧
       QuickList.size q = Z.of_nat (length l) ∧
       ∀ index, QuickList.get q index
                = Some (if bool_decide (0 ≤ index) then l !! Z.to_nat index else None).
Proof.
  intros [ids Hinv]%ql_reachable_inv.
  exists (ql_elements (QuickList.heap q) ids).
  split; [by apply ql_toArray_inv|]. split; [apply (ql_length _ _ Hinv)|].
  intros index. by apply ql_get_inv.
Qed.

Lemma quicklist_ex_reachable : ql_reachable quicklist_ex.
Proof.
  apply (ql_lpush quicklist_q2 "c"); [|vm_compute; reflexivity].
  apply (ql_rpush quicklist_q1 "b"); [|vm_compute; reflexivity].
  apply (ql_rpush QuickList.new "a"); [|vm_compute; reflexivity].
  apply ql_new.
Defined.

Lemma X13_quicklist_reads_witness :
  ql_reachable quicklist_ex ∧
  QuickList.toArray quicklist_ex = Some ["c"; "a"; "b"] ∧
  QuickList.get quicklist_ex 1 = Some (Some "a") ∧
  ∃ l, QuickList.toArray quicklist_ex = Some l ∧
       QuickList.size quicklist_ex = Z.of_nat (length l) ∧
       ∀ index, QuickList.get quicklist_ex index
                = Some (if bool_decide (0 ≤ index) then l !! Z.to_nat index
                        else None).
Proof.
  assert (H1 : QuickList.toArray quicklist_ex = Some ["c"; "a"; "b"])
    by (vm_compute; reflexivity).
  assert (H2 : QuickList.get quicklist_ex 1 = Some (Some "a"))
    by (vm_compute; reflexivity).
  exact (conj quicklist_ex_reachable (conj H1 (conj H2
           (X13_quicklist_reads quicklist_ex quicklist_ex_reachable)))).
Defined.

(** X14: on a quick list that calls of [rpush] and [lpush] have made,
    both calls return; [rpush(value)] makes the value the last element
    of [toArray()] and [lpush(value)] the first, the other elements stay
    in their order, and [size] grows by one. *)
Theorem X14_quicklist_push (q : QuickList.t) (value : string) :
  ql_reachable q →
  ∃ l qr ql,
    QuickList.toArray q = Some l ∧
    QuickList.rpush q value = Some qr ∧
    QuickList.toArray qr = Some (l ++ [value]) ∧
    QuickList.size qr = QuickList.size q + 1 ∧
    QuickList.lpush q value = Some ql ∧
    QuickList.toArray ql = Some (value :: l) ∧
    QuickList.size ql = QuickList.size q + 1.
Proof.
  intros [ids Hinv]%ql_reachable_inv.
  destruct (rpush_inv q ids value Hinv) as (qr & idsr & Er & Hr & Her).
  destruct (lpush_inv q ids value Hinv) as (ql & El & Hl & Hel).
  exists (ql_elements (QuickList.heap q) ids), qr, ql.
  split; [by apply ql_toArray_inv|]. split; [done|].
  split; [by rewrite (ql_toArray_inv _ _ Hr), Her|].
  split.
  { unfold QuickList.size. rewrite (ql_length _ _ Hr), (ql_length _ _ Hinv), Her.
    rewrite length_app. cbn. lia. }
  split; [done|]. split; [by rewrite (ql_toArray_inv _ _ Hl), Hel|].
  unfold QuickList.size. rewrite (ql_length _ _ Hl), (ql_length _ _ Hinv), Hel.
  cbn [length]. lia.
Qed.

Lemma X14_quicklist_push_witness :
  ql_reachable QuickList.new ∧
  ∃ l qr, QuickList.toArray QuickList.new = Some l ∧
          QuickList.rpush QuickList.new "a" = Some qr ∧
          QuickList.toArray qr = Some (l ++ ["a"]).
Proof.
  destruct (X14_quicklist_push QuickList.new "a" ql_new)
    as (l & qr & ql & H1 & H2 & H3 & _).
  exact (conj ql_new (ex_intro _ l (ex_intro _ qr (conj H1 (conj H2 H3))))).
Defined.

(** ** The code that purges, as a sequence of steps *)
Ltac book_tac :=
  unfold same_contents, same_usage, stats_le; cbn;
  repeat split; first [done | lia | by auto].

Section purge.
Implicit Types (c : Cache.t) (key : string).

Lemma stats_le_refl (s : Cache.Stats) : stats_le s s.
Proof. unfold stats_le. lia. Qed.

Lemma same_usage_refl (u : UsageTracker.t) : same_usage u u.
Proof. by repeat split. Qed.

Lemma same_contents_refl c : same_contents c c.
Proof. book_tac. Qed.

Lemma purge_steps_refl c : purge_steps c c.
Proof. apply rtc_refl. Qed.

Lemma purge_steps_trans c1 c2 c3 :
  purge_steps c1 c2 → purge_steps c2 c3 → purge_steps c1 c3.
Proof. apply rtc_trans. Qed.

Lemma purge_steps_book c c' : same_contents c c' → purge_steps c c'.
Proof. intros H. by apply rtc_once, purge_book. Qed.

Lemma purge_steps_delete key c : purge_steps c (Cache._deleteKey key c).
Proof. apply rtc_once, purge_delete. Qed.

Lemma purge_steps_rehash c :
  purge_steps c (Cache.with_store (Dictionary.step (Cache.store c)) c).
Proof. apply rtc_once, purge_rehash. Qed.

(** Bookkeeping steps. *)
Lemma book_operationCount (n : Z) c : same_contents c (Cache.with_operationCount n c).
Proof. book_tac. Qed.

Lemma book_pool (p : list string) c :
  (∀ k, k ∈ p → k ∈ Cache.evictionPool c ∨ is_Some (store_lookup c k)) →
  same_contents c (Cache.with_pool p c).
Proof. intros Hp. book_tac. Qed.

Lemma sort_insert_elem (cmp : string → string → Z) (x : string) (l : list string) k :
  k ∈ Cache.sort_insert cmp x l ↔ k = x ∨ k ∈ l.
Proof.
  induction l as [|y l IH]; cbn [Cache.sort_insert].
  - rewrite list_elem_of_singleton, elem_of_nil. tauto.
  - case_bool_decide; rewrite !elem_of_cons; [done|]. rewrite IH. tauto.
Qed.

Lemma sort_insert_length (cmp : string → string → Z) (x : string) (l : list string) :
  length (Cache.sort_insert cmp x l) = S (length l).
Proof.
  induction l as [|y l IH]; cbn [Cache.sort_insert]; [done|].
  case_bool_decide; cbn [length]; [done|]. by rewrite IH.
Qed.

Lemma sort_spec (cmp : string → string → Z) (l : list string) :
  (∀ k, k ∈ Cache.sort cmp l ↔ k ∈ l) ∧ length (Cache.sort cmp l) = length l.
Proof.
  unfold Cache.sort.
  cut (∀ acc, (∀ k, k ∈ foldl (λ acc x, Cache.sort_insert cmp x acc) acc l
                    ↔ k ∈ acc ∨ k ∈ l) ∧
              length (foldl (λ acc x, Cache.sort_insert cmp x acc) acc l)
              = (length acc + length l)%nat).
  { intros H. destruct (H []) as [H1 H2]. split; [|done].
    intros k. rewrite H1, elem_of_nil. tauto. }
  induction l as [|x l IH]; intros acc; cbn [foldl length].
  - split; [|lia]. intros k. rewrite elem_of_nil. tauto.
  - destruct (IH (Cache.sort_insert cmp x acc)) as [H1 H2]. split.
    + intros k. rewrite H1, sort_insert_elem, elem_of_cons. tauto.
    + rewrite H2, sort_insert_length. lia.
Qed.

(** The sample holds keys of the list and as many as were asked for. *)
Lemma sampleKeys_spec (tp : tape) (allKeys : list string) (sampleSize : Z)
    (sampled sampled' : list string) (tp' : tape) :
  Cache.sampleKeys tp allKeys sampleSize sampled = Some (sampled', tp') →
  (∀ k, k ∈ sampled → k ∈ allKeys) →
  (∀ k, k ∈ sampled' → k ∈ allKeys) ∧ sampleSize ≤ Z.of_nat (length sampled').
Proof.
  revert sampled. induction tp as [|r tp IH]; intros sampled; cbn [Cache.sampleKeys].
  - case_bool_decide; [done|]. intros [= <- <-] Hs. split; [done|lia].
  - case_bool_decide; [|intros [= <- <-] Hs; split; [done|lia]].
    destruct (if bool_decide (0 ≤ _) then _ else _) as [k0|] eqn:Ek; [|done].
    cbn [mbind option_bind]. intros E Hs. apply (IH _ E).
    assert (Hk0 : k0 ∈ allKeys).
    { revert Ek. destruct (bool_decide (0 ≤ _)); [|done]. apply list_elem_of_lookup_2. }
    case_bool_decide; [done|]. intros k [?| ->%list_elem_of_singleton]%elem_of_app; auto.
Qed.

Lemma book_count_eviction c : same_contents c (Cache.count_eviction c).
Proof. book_tac. Qed.

Lemma book_count_expiration c : same_contents c (Cache.count_expiration c).
Proof. book_tac. Qed.

Lemma book_ttl (m : TTLManager.t) c :
  TTLManager.expirations m = TTLManager.expirations (Cache.ttl c) →
  same_contents c (Cache.with_ttl m c).
Proof.
  intros Hm. book_tac.
Qed.

Lemma onExpire_steps key c : purge_steps c (Cache.onExpire key c).
Proof.
  unfold Cache.onExpire. eapply purge_steps_trans; [apply purge_steps_delete|].
  apply purge_steps_book, book_count_expiration.
Qed.

Lemma foldl_onExpire_steps (l : list string) c :
  purge_steps c (foldl (λ w k, Cache.onExpire k w) c l).
Proof.
  revert c. induction l as [|k l IH]; intros c; [apply purge_steps_refl|].
  cbn [foldl]. eapply purge_steps_trans; [apply onExpire_steps|apply IH].
Qed.

Lemma flush_steps c :
  purge_steps c
    (TTLManager._flushPendingDeletes Cache.ttl Cache.with_ttl Cache.onExpire c).
Proof.
  unfold TTLManager._flushPendingDeletes.
  eapply purge_steps_trans; [apply foldl_onExpire_steps|].
  apply purge_steps_book, book_ttl. done.
Qed.

Lemma flushPendingDeletes_steps c :
  purge_steps c
    (TTLManager.flushPendingDeletes Cache.ttl Cache.with_ttl Cache.onExpire c).
Proof.
  unfold TTLManager.flushPendingDeletes.
  case_bool_decide; [apply flush_steps|apply purge_steps_refl].
Qed.

Lemma sampleAndPurge_steps (k : Z) now c :
  purge_steps c
    (TTLManager.sampleAndPurge Cache.ttl Cache.with_ttl k Cache.onExpire now c).1.
Proof.
  unfold TTLManager.sampleAndPurge. case_bool_decide; [apply purge_steps_refl|].
  pose proof (sampleLoop_expirations (Z.to_nat k) (Cache.ttl c) now
                (default 0%nat (TTLManager.keyIterator (Cache.ttl c))) 0) as He.
  destruct (TTLManager.sampleLoop _ _ _ _ _) as [m' cnt]. cbn [fst] in He.
  assert (Hb : purge_steps c (Cache.with_ttl m' c))
    by (by apply purge_steps_book, book_ttl).
  case_bool_decide; cbn [fst]; [|done].
  eapply purge_steps_trans; [exact Hb|apply flush_steps].
Qed.

Lemma checkExpired_steps now key c :
  purge_steps c (Cache._checkExpired now key c).1.
Proof.
  unfold Cache._checkExpired.
  set (c1 := Cache.with_operationCount (Cache.operationCount c + 1) c).
  assert (H1 : purge_steps c c1) by apply purge_steps_book, book_operationCount.
  set (c2 := if bool_decide (Cache.operationCount c1 `mod` Cache.LAZY_EXPIRE_FREQ = 0)
             then (TTLManager.sampleAndPurge Cache.ttl Cache.with_ttl 5
                     Cache.onExpire now c1).1
             else c1).
  assert (H2 : purge_steps c c2).
  { unfold c2. case_bool_decide; [|done].
    eapply purge_steps_trans; [exact H1|apply sampleAndPurge_steps]. }
  destruct (TTLManager.isExpired (Cache.ttl c2) now key); cbn [fst]; [|done].
  eapply purge_steps_trans; [exact H2|].
  eapply purge_steps_trans; [apply purge_steps_delete|].
  apply purge_steps_book, book_count_expiration.
Qed.

Lemma book_usage (u : UsageTracker.t) c :
  same_usage (Cache.usage c) u → same_contents c (Cache.with_usage u c).
Proof. intros (H1 & H2 & H3 & H4). book_tac. Qed.

Lemma round_steps (sampleSize : Z) now c :
  purge_steps c
    (TTLManager.round Cache.ttl Cache.with_ttl sampleSize Cache.onExpire now c).1.
Proof.
  unfold TTLManager.round. cbv zeta. case_bool_decide; [apply purge_steps_refl|].
  pose proof (sampleAndPurge_steps
                (Z.min sampleSize
                   (Z.of_nat (JsMap.size (TTLManager.expirations (Cache.ttl c)))))
                now c) as Hs.
  destruct (TTLManager.sampleAndPurge _ _ _ _ _ c) as [c1 cnt]. done.
Qed.

Lemma tickLoop_steps (fuel : nat) (sampleSize maxRounds : Z) now (rounds : Z) c :
  purge_steps c
    (TTLManager.tickLoop Cache.ttl Cache.with_ttl fuel sampleSize maxRounds
       Cache.onExpire now rounds c).1.
Proof.
  revert rounds c. induction fuel as [|fuel IH]; intros rounds c.
  all: cbn [TTLManager.tickLoop].
  all: pose proof (round_steps sampleSize now c) as Hr.
  all: destruct (TTLManager.round _ _ _ _ _ c) as [c1 [r|]]; cbn [fst] in Hr |- *;
    [|done].
  all: destruct (TTLManager.continue _ _ _); cbn [fst]; [|done].
  - done.
  - eapply purge_steps_trans; [exact Hr|apply IH].
Qed.

Lemma tick_steps now c : purge_steps c (Cache.activeExpirationTick now c).1.
Proof.
  unfold Cache.activeExpirationTick, TTLManager.tick.
  destruct (TTLManager.interval (Cache.ttl c)) as [tm|]; [|apply purge_steps_refl].
  apply tickLoop_steps.
Qed.

Lemma shutdown_steps c : purge_steps c (Cache.shutdown c).
Proof.
  unfold Cache.shutdown.
  eapply purge_steps_trans; [apply flushPendingDeletes_steps|].
  generalize (TTLManager.flushPendingDeletes Cache.ttl Cache.with_ttl Cache.onExpire c).
  intros c1. cbv zeta.
  apply (purge_steps_trans _ (TTLManager.stopActiveExpiration Cache.ttl Cache.with_ttl c1)).
  - apply purge_steps_book. unfold TTLManager.stopActiveExpiration.
    by apply book_ttl.
  - apply purge_steps_book, book_usage. by repeat split.
Qed.

Lemma del_steps key c : purge_steps (Cache.count_operation c) (Cache.del key c).1.
Proof.
  unfold Cache.del.
  rewrite (surjective_pairing (Dictionary.has _ key)), Dictionary_has_fst.
  eapply purge_steps_trans; [apply purge_steps_rehash|].
  destruct (Dictionary.has _ key).2; cbn [fst];
    [apply purge_steps_delete|apply purge_steps_refl].
Qed.

Lemma evictVictim_steps c : purge_steps c (Cache.evictVictim c).1.
Proof.
  unfold Cache.evictVictim.
  destruct (Cache.evictionPool c) as [|victim pool] eqn:Hp; [apply purge_steps_refl|].
  eapply purge_steps_trans.
  { apply purge_steps_book, (book_pool pool). intros k Hk. left. rewrite Hp. by right. }
  case_bool_decide; [|apply purge_steps_refl].
  rewrite (surjective_pairing (Dictionary.has _ victim)), Dictionary_has_fst.
  eapply purge_steps_trans; [apply purge_steps_rehash|].
  destruct (Dictionary.has _ victim).2; cbn [fst]; [|apply purge_steps_refl].
  eapply purge_steps_trans; [apply purge_steps_delete|].
  apply purge_steps_book, book_count_eviction.
Qed.

Lemma refillPool_steps (tp : tape) c c' (tp' : tape) (fl : Cache.flow) :
  Cache.refillPool tp c = Some (c', tp', fl) → purge_steps c c'.
Proof.
  unfold Cache.refillPool.
  rewrite (surjective_pairing (Dictionary.keys _)), Dictionary_keys_fst.
  case_bool_decide.
  - intros [= <- <- <-]. apply purge_steps_rehash.
  - destruct (Cache.sampleKeys _ _ _ _) as [[sampled tp1]|] eqn:Es; [|done].
    cbn [mbind option_bind]. intros [= <- <- <-].
    eapply purge_steps_trans; [apply purge_steps_rehash|].
    apply purge_steps_book, book_pool.
    destruct (sampleKeys_spec _ _ _ _ _ _ Es) as [Hsub _];
      [intros k []%elem_of_nil|].
    intros k Hk%subseteq_take. right.
    apply sort_spec, Hsub in Hk. rewrite Dictionary_keys_snd in Hk.
    by apply dict_keys_lookup.
Qed.

Lemma evictLoop_steps (fuel : nat) (tp : tape) c c' (tp' : tape) :
  Cache.evictLoop fuel tp c = Some (c', tp') → purge_steps c c'.
Proof.
  revert tp c. induction fuel as [|fuel IH]; intros tp c; cbn [Cache.evictLoop].
  - destruct (Cache.overBudget c); [done|]. intros [= <- <-]. apply purge_steps_refl.
  - destruct (Cache.overBudget c); [|intros [= <- <-]; apply purge_steps_refl].
    assert (Hre : ∀ r, (if bool_decide (length (Cache.evictionPool c) = 0%nat)
                        then Cache.refillPool tp c
                        else Some (c, tp, Cache.Continue)) = Some r →
                       purge_steps c r.1.1).
    { intros [[c1 tp1] fl]. case_bool_decide.
      - apply refillPool_steps.
      - intros [= <- <- <-]. apply purge_steps_refl. }
    destruct (if bool_decide _ then _ else _) as [[[c1 tp1] fl]|]; [|done].
    specialize (Hre _ eq_refl). cbn [fst] in Hre. cbn [mbind option_bind].
    destruct fl; [|intros [= <- <-]; done].
    pose proof (evictVictim_steps c1) as Hv.
    destruct (Cache.evictVictim c1) as [c2 fl2]. cbn [fst] in Hv.
    destruct fl2.
    + intros E. eapply purge_steps_trans; [exact Hre|].
      eapply purge_steps_trans; [exact Hv|]. by apply (IH tp1).
    + intros [= <- <-]. by eapply purge_steps_trans.
Qed.

Lemma evictIfNeeded_steps (tp : tape) c c' (tp' : tape) :
  Cache._evictIfNeeded tp c = Some (c', tp') → purge_steps c c'.
Proof.
  unfold Cache._evictIfNeeded. case_bool_decide.
  - intros [= <- <-]. apply purge_steps_refl.
  - apply evictLoop_steps.
Qed.
End purge.

(** ** What the purges keep *)
Section purge_inv.
Implicit Types (c : Cache.t) (key k : string).

Lemma rehash_store_lookup c k :
  dict_wf (Cache.store c) →
  store_lookup (Cache.with_store (Dictionary.step (Cache.store c)) c) k
  = store_lookup c k.
Proof.
  intros Hwf. unfold store_lookup. cbn. by destruct (step_spec _ Hwf) as (_ & _ & ->).
Qed.

Lemma purge_step_wf c c' :
  dict_wf (Cache.store c) → purge_step c c' → dict_wf (Cache.store c').
Proof.
  intros Hwf Hs. destruct Hs as [key c0|c0|c0 c1 Hb].
  - by apply deleteKey_wf.
  - cbn. by apply step_spec.
  - destruct Hb as (-> & _). done.
Qed.

Lemma purge_steps_wf c c' :
  dict_wf (Cache.store c) → purge_steps c c' → dict_wf (Cache.store c').
Proof.
  intros Hwf Hs. induction Hs as [|c1 c2 c3 H12 _ IH]; [done|].
  apply IH. by apply (purge_step_wf c1).
Qed.

Lemma purge_step_key c c' k :
  dict_wf (Cache.store c) → purge_step c c' → kept_or_purged c c' k.
Proof.
  intros Hwf Hs. destruct Hs as [key c0|c0|c0 c1 Hb].
  - destruct (decide (key = k)) as [->|Hne].
    + right. by apply deleteKey_purged.
    + left. unfold key_kept.
      rewrite deleteKey_store_lookup, deleteKey_ttl_lookup, deleteKey_usage_lookup
        by done.
      by rewrite !decide_False by done.
  - left. split; [by apply rehash_store_lookup|done].
  - left. destruct Hb as (Hs & He & (Hu & _) & _).
    unfold key_kept, store_lookup, ttl_lookup, usage_lookup.
    by rewrite Hs, He, Hu.
Qed.

Lemma purged_step c c' k :
  dict_wf (Cache.store c) → purge_step c c' → purged c k → purged c' k.
Proof.
  intros Hwf Hs Hp. destruct (purge_step_key c c' k Hwf Hs) as [(H1 & H2 & H3)|]; [|done].
  destruct Hp as (P1 & P2 & P3). unfold purged. by rewrite H1, H2, H3.
Qed.

Lemma purge_steps_key c c' k :
  dict_wf (Cache.store c) → purge_steps c c' → kept_or_purged c c' k.
Proof.
  intros Hwf Hs. revert c' Hs.
  apply (rtc_ind_r (λ c', kept_or_purged c c' k)); [|intros c2 c3 H12 H23 IH].
  - by left.
  - pose proof (purge_steps_wf _ _ Hwf H12) as Hwf2.
    destruct IH as [(K1 & K2 & K3)|Hp].
    + destruct (purge_step_key c2 c3 k Hwf2 H23) as [(L1 & L2 & L3)|Hp]; [|by right].
      left. unfold key_kept. by rewrite L1, L2, L3.
    + right. by apply (purged_step c2).
Qed.

Lemma purged_steps c c' k :
  dict_wf (Cache.store c) → purge_steps c c' → purged c k → purged c' k.
Proof.
  intros Hwf Hs Hp. destruct (purge_steps_key c c' k Hwf Hs) as [(H1 & H2 & H3)|]; [|done].
  destruct Hp as (P1 & P2 & P3). unfold purged. by rewrite H1, H2, H3.
Qed.

(** The purges add no entry and change none. *)
Lemma purge_steps_sub c c' k e :
  dict_wf (Cache.store c) → purge_steps c c' →
  store_lookup c' k = Some e → store_lookup c k = Some e.
Proof.
  intros Hwf Hs He. destruct (purge_steps_key c c' k Hwf Hs) as [(H1 & _)|(H1 & _)];
    congruence.
Qed.

Lemma purge_steps_inv c c' : cache_inv c → purge_steps c c' → cache_inv c'.
Proof.
  intros [Hwf Hok] Hs. split; [by apply (purge_steps_wf c)|].
  intros k e He. apply (Hok k). by apply (purge_steps_sub c c').
Qed.

Lemma purge_step_options c c' : purge_step c c' → same_options c c'.
Proof.
  intros Hs. destruct Hs as [key c0|c0|c0 c1 Hb].
  - unfold same_options, Cache._deleteKey.
    rewrite (surjective_pairing (Dictionary.get (Cache.store c0) key)). by cbn.
  - by repeat split.
  - destruct Hb as (_ & _ & (_ & H1 & H2 & H3) & _ & H4 & H5 & H6 & _).
    by repeat split.
Qed.

Lemma purge_steps_options c c' : purge_steps c c' → same_options c c'.
Proof.
  revert c'. apply (rtc_ind_r (λ c', same_options c c'));
    [by repeat split|intros c2 c3 H12 H23 IH].
  destruct IH as (A1 & A2 & A3 & A4 & A5 & A6).
  destruct (purge_step_options _ _ H23) as (B1 & B2 & B3 & B4 & B5 & B6).
  unfold same_options. by rewrite B1, B2, B3, B4, B5, B6.
Qed.

Lemma purge_step_stats c c' : purge_step c c' → stats_le (Cache.stats c) (Cache.stats c').
Proof.
  intros Hs. destruct Hs as [key c0|c0|c0 c1 Hb].
  - rewrite deleteKey_stats. apply stats_le_refl.
  - apply stats_le_refl.
  - apply Hb.
Qed.

Lemma purge_steps_stats c c' : purge_steps c c' → stats_le (Cache.stats c) (Cache.stats c').
Proof.
  revert c'. apply (rtc_ind_r (λ c', stats_le (Cache.stats c) (Cache.stats c')));
    [apply stats_le_refl|intros c2 c3 H12 H23 IH].
  pose proof (purge_step_stats _ _ H23) as Hs. unfold stats_le in *.
  destruct IH as (A1 & A2 & A3 & A4 & A5), Hs as (B1 & B2 & B3 & B4 & B5).
  rewrite B1, B2, B3. repeat split; [done..|lia|lia].
Qed.
End purge_inv.

(** ** The invariant of the store *)
Section cache_inv.
Implicit Types (c : Cache.t) (key k : string) (e : CacheEntry) (tp : tape).

Lemma cache_inv_store c c' :
  Cache.store c' = Cache.store c → cache_inv c → cache_inv c'.
Proof. unfold cache_inv, store_lookup. by intros ->. Qed.

Lemma cache_inv_rehash c :
  cache_inv c → cache_inv (Cache.with_store (Dictionary.step (Cache.store c)) c).
Proof. intros H. apply (purge_steps_inv c); [done|apply purge_steps_rehash]. Qed.

Lemma cache_inv_set c key e :
  cache_inv c → entry_ok e →
  cache_inv (Cache.with_store (Dictionary.set (Cache.store c) key e) c).
Proof.
  intros [Hwf Hok] He. destruct (Dictionary_set_spec _ key e Hwf) as [Hwf' Hlk].
  split; [done|]. intros k e'. unfold store_lookup. cbn. rewrite Hlk.
  destruct (decide (key = k)); [by intros [= <-]|apply Hok].
Qed.

Lemma cache_inv_modify c key (f : CacheEntry → CacheEntry) :
  cache_inv c → (∀ e, store_lookup c key = Some e → entry_ok (f e)) →
  cache_inv (Cache.with_store (Dictionary.modify (Cache.store c) key f) c).
Proof.
  intros [Hwf Hok] Hf. destruct (Dictionary_modify_spec _ key f Hwf) as [Hwf' Hlk].
  split; [done|]. intros k e'. unfold store_lookup. cbn. rewrite Hlk.
  destruct (decide (key = k)) as [<-|]; [|apply Hok].
  destruct (dict_lookup (Cache.store c) key) as [e|] eqn:He; [|done].
  intros [= <-]. by apply Hf.
Qed.

Lemma cache_inv_new (options : CacheOptions) : cache_inv (Cache.new options).
Proof.
  split; [apply dict_wf_new|]. intros k e. unfold store_lookup.
  by cbn.
Qed.

(** What [_getEntry] returns: the entry that the store holds for the
    key when the purges are done. *)
Lemma getEntry_spec now tp key c c' tp' (r : option CacheEntry) :
  dict_wf (Cache.store c) →
  Cache._getEntry now tp key c = Some (c', tp', r) →
  ∃ c2, purge_steps c c2 ∧ r = store_lookup c2 key ∧
        ((c' = c2 ∧ tp' = tp ∧ r = None) ∨
         (∃ u, is_Some r ∧
               UsageTracker.touch (Cache.usage c2) now tp key = Some (u, tp') ∧
               c' = Cache.with_usage u c2)).
Proof.
  intros Hwf. unfold Cache._getEntry.
  pose proof (checkExpired_steps now key c) as H1.
  assert (Hex : (Cache._checkExpired now key c).2 = true →
                store_lookup (Cache._checkExpired now key c).1 key = None).
  { unfold Cache._checkExpired.
    set (c1 := if bool_decide _ then _ else _).
    assert (Hwf1 : dict_wf (Cache.store c1)).
    { unfold c1. case_bool_decide; [|done].
      apply (purge_steps_wf (Cache.with_operationCount (Cache.operationCount c + 1) c));
        [done|apply sampleAndPurge_steps]. }
    destruct (TTLManager.isExpired (Cache.ttl c1) now key); cbn [fst snd]; [|done].
    intros _. change (store_lookup (Cache._deleteKey key c1) key = None).
    rewrite deleteKey_store_lookup by done. by rewrite decide_True. }
  destruct (Cache._checkExpired now key c) as [c1 expired]. cbn [fst snd] in *.
  pose proof (purge_steps_wf _ _ Hwf H1) as Hwf1.
  destruct expired.
  - intros [= <- <- <-]. exists c1. split; [done|]. split; [by rewrite Hex|].
    by left.
  - rewrite (surjective_pairing (Dictionary.get (Cache.store c1) key)).
    rewrite Dictionary_get_fst, Dictionary_get_snd.
    set (c2 := Cache.with_store (Dictionary.step (Cache.store c1)) c1).
    assert (H2 : purge_steps c c2).
    { eapply purge_steps_trans; [exact H1|apply purge_steps_rehash]. }
    change (dict_lookup (Dictionary.step (Cache.store c1)) key)
      with (store_lookup c2 key).
    destruct (store_lookup c2 key) as [e|] eqn:He.
    + destruct (UsageTracker.touch (Cache.usage c2) now tp key) as [[u tp1]|] eqn:Ht;
        [|done].
      cbn [mbind option_bind]. intros [= <- <- <-].
      exists c2. split; [done|]. split; [done|]. right. exists u. by split.
    + intros [= <- <- <-]. exists c2. split; [done|]. split; [done|]. by left.
Qed.

Lemma getEntry_inv now tp key c c' tp' (r : option CacheEntry) :
  cache_inv c → Cache._getEntry now tp key c = Some (c', tp', r) →
  cache_inv c' ∧ r = store_lookup c' key.
Proof.
  intros Hinv E. destruct (getEntry_spec _ _ _ _ _ _ _ (proj1 Hinv) E)
    as (c2 & H2 & Hr & [(-> & _ & _)|(u & _ & _ & ->)]).
  - split; [by apply (purge_steps_inv c)|done].
  - split; [|done]. apply (cache_inv_store c2); [done|].
    by apply (purge_steps_inv c).
Qed.

Lemma count_operation_inv c : cache_inv c → cache_inv (Cache.count_operation c).
Proof. by apply cache_inv_store. Qed.

Lemma cache_get_inv now tp key c r :
  cache_inv c → Cache.get now tp key c = Some r → cache_inv r.1.1.
Proof.
  intros Hinv%count_operation_inv. unfold Cache.get.
  destruct (Cache._getEntry _ _ _ _) as [[[c1 tp1] en]|] eqn:E; [|done].
  destruct (getEntry_inv _ _ _ _ _ _ _ Hinv E) as [Hinv1 _]. cbn [mbind option_bind].
  destruct en as [e|]; [destruct (value e)|]; intros [= <-]; cbn [fst];
    first [done | by apply (cache_inv_store c1)].
Qed.

Lemma zscore_inv now tp key member c r :
  cache_inv c → Cache.zscore now tp key member c = Some r → cache_inv r.1.1.
Proof.
  intros Hinv%count_operation_inv. unfold Cache.zscore.
  destruct (Cache._getEntry _ _ _ _) as [[[c1 tp1] en]|] eqn:E; [|done].
  destruct (getEntry_inv _ _ _ _ _ _ _ Hinv E) as [Hinv1 _]. cbn [mbind option_bind].
  destruct en as [e|]; [destruct (value e)|]; intros [= <-]; cbn [fst];
    first [done | by apply (cache_inv_store c1)].
Qed.

Lemma zrank_inv now tp key member c r :
  cache_inv c → Cache.zrank now tp key member c = Some r → cache_inv r.1.1.
Proof.
  intros Hinv%count_operation_inv. unfold Cache.zrank.
  destruct (Cache._getEntry _ _ _ _) as [[[c1 tp1] en]|] eqn:E; [|done].
  destruct (getEntry_inv _ _ _ _ _ _ _ Hinv E) as [Hinv1 _]. cbn [mbind option_bind].
  destruct en as [e|]; [destruct (value e) as [?|z|?|?]|].
  2:{ destruct (ZSet.zrank z member); [|done]. cbn. intros [= <-].
      by apply (cache_inv_store c1). }
  all: intros [= <-]; cbn [fst]; first [done | by apply (cache_inv_store c1)].
Qed.

Lemma zrangeByScore_inv now tp key (min max : number) (limit : option number) c r :
  cache_inv c → Cache.zrangeByScore now tp key min max limit c = Some r →
  cache_inv r.1.1.
Proof.
  intros Hinv%count_operation_inv. unfold Cache.zrangeByScore.
  destruct (Cache._getEntry _ _ _ _) as [[[c1 tp1] en]|] eqn:E; [|done].
  destruct (getEntry_inv _ _ _ _ _ _ _ Hinv E) as [Hinv1 _]. cbn [mbind option_bind].
  destruct en as [e|]; [destruct (value e) as [?|z|?|?]|].
  2:{ destruct (ZSet.zrangeByScore z min max limit); [|done]. cbn. intros [= <-].
      by apply (cache_inv_store c1). }
  all: intros [= <-]; cbn [fst]; first [done | by apply (cache_inv_store c1)].
Qed.

Lemma smembers_inv now tp key c r :
  cache_inv c → Cache.smembers now tp key c = Some r → cache_inv r.1.1.
Proof.
  intros Hinv%count_operation_inv. unfold Cache.smembers.
  destruct (Cache._getEntry _ _ _ _) as [[[c1 tp1] en]|] eqn:E; [|done].
  destruct (getEntry_inv _ _ _ _ _ _ _ Hinv E) as [Hinv1 _]. cbn [mbind option_bind].
  destruct en as [e|]; [destruct (value e)|]; intros [= <-]; cbn [fst];
    first [done | by apply (cache_inv_store c1)].
Qed.

Lemma zrem_inv_cache now tp key member c r :
  cache_inv c → Cache.zrem now tp key member c = Some r → cache_inv r.1.1.
Proof.
  intros Hinv%count_operation_inv. unfold Cache.zrem.
  destruct (Cache._getEntry _ _ _ _) as [[[c1 tp1] en]|] eqn:E; [|done].
  destruct (getEntry_inv _ _ _ _ _ _ _ Hinv E) as [Hinv1 Hen]. cbn [mbind option_bind].
  destruct en as [e|]; [|by intros [= <-]].
  destruct (value e) as [?|z|?|?] eqn:Hv; try (by intros [= <-]).
  destruct (ZSet.zrem z member) as [[z' removed]|] eqn:Ez; [|done].
  cbn [mbind option_bind].
  assert (Hz' : zset_reachable z').
  { apply (reachable_zrem z member z' removed); [|done].
    pose proof (proj2 Hinv1 key e (eq_sym Hen)) as He. unfold entry_ok in He.
    by rewrite Hv in He. }
  destruct (removed && _); intros [= <-]; cbn [fst].
  - match goal with
    | |- cache_inv (Cache.with_memory _ ?c0) => apply (cache_inv_store c0); [done|]
    end.
    by apply cache_inv_modify.
  - by apply cache_inv_modify.
Qed.

Lemma set_inv_cache now tp key (val : string) (px : option Z) c r :
  cache_inv c → Cache.set now tp key val px c = Some r → cache_inv r.1.
Proof.
  intros Hinv%count_operation_inv. unfold Cache.set.
  destruct (Cache._evictIfNeeded tp _) as [[c1 tp1]|] eqn:Eev; [|done].
  pose proof (purge_steps_inv _ _ Hinv (evictIfNeeded_steps _ _ _ _ Eev)) as Hinv1.
  cbn [mbind option_bind].
  rewrite (surjective_pairing (Dictionary.get (Cache.store c1) key)).
  rewrite Dictionary_get_fst.
  set (c2 := Cache.with_store (Dictionary.step (Cache.store c1)) c1).
  set (c3 := match (Dictionary.get (Cache.store c1) key).2 with
             | Some e => if bool_decide (memoryUsed e ≠ 0)
                         then Cache.with_memory (Cache.currentMemoryUsed c2 - memoryUsed e) c2
                         else c2
             | None => c2
             end).
  assert (Hs3 : Cache.store c3 = Cache.store c2).
  { unfold c3. destruct (Dictionary.get _ _).2; [case_bool_decide|]; done. }
  assert (Hinv3 : cache_inv c3).
  { apply (cache_inv_store c2); [done|]. by apply cache_inv_rehash. }
  set (entry := {| value := VString val;
                   memoryUsed := Cache._calculateMemoryUsed key (VString val) |}).
  set (c4 := Cache.with_store _ _).
  assert (Hinv4 : cache_inv c4).
  { unfold c4. cbn [Cache.store Cache.with_memory].
    apply (cache_inv_store
             (Cache.with_store (Dictionary.set (Cache.store c3) key entry) c3));
      [done|]. by apply cache_inv_set. }
  destruct (UsageTracker.touch _ _ _ _) as [[u tp2]|]; [|done].
  cbn [mbind option_bind].
  destruct px as [p|]; [case_bool_decide|]; intros [= <-]; cbn [fst];
    by apply (cache_inv_store c4).
Qed.

Lemma zadd_inv_cache now tp key (score : number) (member : string) c r :
  cache_inv c → score ≠ NaN →
  Cache.zadd now tp key score member c = Some r → cache_inv r.1.1.
Proof.
  intros Hinv%count_operation_inv Hsn. unfold Cache.zadd.
  pose proof (checkExpired_steps now key (Cache.count_operation c)) as H1.
  destruct (Cache._checkExpired now key _) as [c1 ex]. cbn [fst] in H1.
  pose proof (purge_steps_inv _ _ Hinv H1) as Hinv1.
  destruct (Cache._evictIfNeeded tp c1) as [[c2 tp2]|] eqn:Eev; [|done].
  pose proof (purge_steps_inv _ _ Hinv1 (evictIfNeeded_steps _ _ _ _ Eev)) as Hinv2.
  cbn [mbind option_bind].
  rewrite (surjective_pairing (Dictionary.get (Cache.store c2) key)).
  rewrite Dictionary_get_fst, Dictionary_get_snd.
  set (c3 := Cache.with_store (Dictionary.step (Cache.store c2)) c2).
  pose proof (cache_inv_rehash c2 Hinv2) as Hinv3. fold c3 in Hinv3.
  change (dict_lookup (Dictionary.step (Cache.store c2)) key)
    with (store_lookup c3 key).
  destruct (store_lookup c3 key) as [e|] eqn:He.
  - pose proof (proj2 Hinv3 key e He) as Hok. unfold entry_ok in Hok.
    destruct (value e) as [?|z|?|?] eqn:Hv; try (by intros [= <-]).
    destruct (ZSet.zadd z tp2 member score) as [[[z' added] tp3]|] eqn:Ez; [|done].
    cbn [mbind option_bind].
    destruct (UsageTracker.touch _ _ _ _) as [[u tp4]|]; [|done].
    cbn [mbind option_bind]. intros [= <-]. cbn [fst].
    apply (cache_inv_store
             (Cache.with_store
                (Dictionary.modify (Cache.store c3) key
                   (λ e0, {| value := VZSet z';
                             memoryUsed := memoryUsed e0
                               + (if added then Cache._estimateMemberSize member
                                  else 0) |})) c3)); [done|].
    apply cache_inv_modify; [done|]. intros e0 _. unfold entry_ok. cbn.
    by apply (reachable_zadd z tp2 member score z' added tp3).
  - destruct (ZSet.zadd ZSet.new tp2 member score) as [[[z' added] tp3]|] eqn:Ez;
      [|done].
    cbn [mbind option_bind].
    destruct (UsageTracker.touch _ _ _ _) as [[u tp4]|]; [|done].
    cbn [mbind option_bind]. intros [= <-]. cbn [fst].
    apply (cache_inv_store
             (Cache.with_store
                (Dictionary.set (Cache.store c3) key
                   {| value := VZSet z';
                      memoryUsed := Cache._calculateMemoryUsed key (VZSet z') |})
                c3)); [done|].
    apply cache_inv_set; [done|]. unfold entry_ok. cbn.
    apply (reachable_zadd ZSet.new tp2 member score z' added tp3);
      [constructor|done|done].
Qed.


Lemma sadd_inv_cache now tp key (members : list SetMember) c r :
  cache_inv c → Cache.sadd now tp key members c = Some r → cache_inv r.1.1.
Proof.
  intros Hinv%count_operation_inv. unfold Cache.sadd.
  pose proof (checkExpired_steps now key (Cache.count_operation c)) as H1.
  destruct (Cache._checkExpired now key _) as [c1 ex]. cbn [fst] in H1.
  pose proof (purge_steps_inv _ _ Hinv H1) as Hinv1.
  destruct (Cache._evictIfNeeded tp c1) as [[c2 tp2]|] eqn:Eev; [|done].
  pose proof (purge_steps_inv _ _ Hinv1 (evictIfNeeded_steps _ _ _ _ Eev)) as Hinv2.
  cbn [mbind option_bind].
  rewrite (surjective_pairing (Dictionary.get (Cache.store c2) key)).
  rewrite Dictionary_get_fst, Dictionary_get_snd.
  set (c3 := Cache.with_store (Dictionary.step (Cache.store c2)) c2).
  pose proof (cache_inv_rehash c2 Hinv2) as Hinv3. fold c3 in Hinv3.
  change (dict_lookup (Dictionary.step (Cache.store c2)) key)
    with (store_lookup c3 key).
  cbv zeta.
  lazymatch goal with
  | |- (match ?M with pair _ _ => _ end = _ → _) => set (p := M)
  end.
  assert (Hp : cache_inv p.1 ∧ store_lookup p.1 key = Some p.2).
  { unfold p. destruct (store_lookup c3 key) as [e|] eqn:He; cbn [fst snd]; [done|].
    cbn [Cache.store Cache.with_memory]. split.
    - match goal with
      | |- cache_inv (Cache.with_store (Dictionary.set _ _ ?e0) _) =>
          apply (cache_inv_store
                   (Cache.with_store (Dictionary.set (Cache.store c3) key e0) c3));
            [done|]; apply cache_inv_set; [done|]
      end.
      unfold entry_ok. cbn. constructor.
    - unfold store_lookup. cbn [Cache.store Cache.with_store Cache.with_memory].
      match goal with
      | |- dict_lookup (Dictionary.set _ _ ?e0) _ = _ =>
          destruct (Dictionary_set_spec (Cache.store c3) key e0 (proj1 Hinv3))
            as [_ Hlk]
      end.
      rewrite Hlk. by rewrite decide_True. }
  clearbody p. destruct p as [c4 e]. cbn [fst snd] in Hp. destruct Hp as [Hinv4 He].
  destruct (decide (entry_type e = type_set)) as [Hty|]; [|by intros [= <-]].
  destruct (Cache.sadd_members (value e) 0 members) as [[v n]|] eqn:Es; [|done].
  cbn [mbind option_bind].
  destruct (UsageTracker.touch _ _ _ _) as [[u tp4]|]; [|done].
  cbn [mbind option_bind]. intros [= <-]. cbn [fst].
  match goal with
  | |- cache_inv (Cache.with_usage _ (Cache.with_memory _ ?c0)) =>
      apply (cache_inv_store c0); [done|]
  end.
  apply cache_inv_modify; [done|]. intros e0 He0. unfold entry_ok. cbn.
  assert (e0 = e) as -> by congruence.
  pose proof (proj2 Hinv4 key e He) as Hok. unfold entry_ok in Hok.
  assert (Hr : set_reachable (value e)).
  { unfold entry_type in Hty. by destruct (value e). }
  pose proof (set_reachable_sadd _ _ _ _ _ Hr Es) as Hv.
  pose proof (set_reachable_ok _ Hv) as Hvo.
  by destruct v.
Qed.

Lemma cache_step_inv now tp (call : cache_call) c c' tp' :
  cache_inv c → cache_step now tp call c = Some (c', tp') → cache_inv c'.
Proof.
  intros Hinv. destruct call; cbn [cache_step].
  - intros E. by apply (set_inv_cache _ _ _ _ _ _ _ Hinv E).
  - destruct (Cache.get _ _ _ _) as [r|] eqn:E; [|done]. intros [= Hr].
    pose proof (cache_get_inv _ _ _ _ _ Hinv E) as H. by rewrite Hr in H.
  - intros [= <- <-]. apply (purge_steps_inv (Cache.count_operation c));
      [by apply count_operation_inv|apply del_steps].
  - destruct (Cache.zadd _ _ _ _ _ _) as [r|] eqn:E; [|done]. intros [= Hr].
    pose proof (zadd_inv_cache _ _ _ (Num _) _ _ _ Hinv ltac:(discriminate) E) as H.
    by rewrite Hr in H.
  - destruct (Cache.zrem _ _ _ _ _) as [r|] eqn:E; [|done]. intros [= Hr].
    pose proof (zrem_inv_cache _ _ _ _ _ _ Hinv E) as H. by rewrite Hr in H.
  - destruct (Cache.zscore _ _ _ _ _) as [r|] eqn:E; [|done]. intros [= Hr].
    pose proof (zscore_inv _ _ _ _ _ _ Hinv E) as H. by rewrite Hr in H.
  - destruct (Cache.zrank _ _ _ _ _) as [r|] eqn:E; [|done]. intros [= Hr].
    pose proof (zrank_inv _ _ _ _ _ _ Hinv E) as H. by rewrite Hr in H.
  - destruct (Cache.zrangeByScore _ _ _ _ _ _ _) as [r|] eqn:E; [|done]. intros [= Hr].
    pose proof (zrangeByScore_inv _ _ _ _ _ _ _ _ Hinv E) as H. by rewrite Hr in H.
  - destruct (Cache.sadd _ _ _ _ _) as [r|] eqn:E; [|done]. intros [= Hr].
    pose proof (sadd_inv_cache _ _ _ _ _ _ Hinv E) as H. by rewrite Hr in H.
  - destruct (Cache.smembers _ _ _ _) as [r|] eqn:E; [|done]. intros [= Hr].
    pose proof (smembers_inv _ _ _ _ _ Hinv E) as H. by rewrite Hr in H.
  - intros [= <- <-]. apply (purge_steps_inv c); [done|apply shutdown_steps].
  - intros [= <- <-]. apply (purge_steps_inv c); [done|apply tick_steps].
  - intros [= <- <-]. apply (cache_inv_store c); [|done].
    unfold Cache.decayTick. by destruct (UsageTracker.decayTimer _).
Qed.

Lemma cache_reachable_inv (allowed : cache_call → Prop) c :
  cache_reachable_by allowed c → cache_inv c.
Proof.
  induction 1 as [options|c now tp call c' tp' _ IH _ E].
  - apply cache_inv_new.
  - by apply (cache_step_inv now tp call c c' tp').
Qed.
End cache_inv.

(** ** The reads of the cache *)
Section cache_reads.
Implicit Types (c : Cache.t) (key k : string) (e : CacheEntry) (tp : tape).

End cache_reads.


Lemma cache_z_reachable : cache_reachable cache_z.
Proof.
  apply (reachable_cache_step _ cache0 0 [(1 # 2)%Q] (CallZadd "z" 1 "m") cache_z []).
  - apply reachable_cache_new.
  - done.
  - vm_compute. reflexivity.
Defined.




(** ** [del] and [shutdown] *)

(** X17: on every state that the operations and the timers make from a
    new cache, [del(key)] returns 1 when the store holds an entry for
    the key, expired or not, and 0 when it holds none.  The entry, the
    TTL record and the usage metadata of a deleted key are gone and the
    memory counter has gone down by the size that the entry recorded;
    nothing changes for the other keys, nor for a key without entry;
    the call is counted as one operation and as nothing else. *)
Theorem X17_del_effect (c : Cache.t) (key : string) :
  cache_reachable c →
  (Cache.del key c).2 = match store_lookup c key with Some _ => 1 | None => 0 end ∧
  store_lookup (Cache.del key c).1 key = None ∧
  (is_Some (store_lookup c key) → purged (Cache.del key c).1 key) ∧
  (store_lookup c key = None → key_kept c (Cache.del key c).1 key) ∧
  (∀ k, k ≠ key → key_kept c (Cache.del key c).1 k) ∧
  Cache.currentMemoryUsed (Cache.del key c).1
  = Cache.currentMemoryUsed c
    - match store_lookup c key with
      | Some e => memoryUsed e
      | None => 0
      end ∧
  Cache.stats (Cache.del key c).1
  = Cache.mkStats (Cache.hits (Cache.stats c)) (Cache.misses (Cache.stats c))
      (Cache.evictions (Cache.stats c)) (Cache.expirations (Cache.stats c))
      (Cache.operations (Cache.stats c) + 1).
Proof.
  intros [Hwf _]%cache_reachable_inv. unfold Cache.del.
  rewrite (surjective_pairing (Dictionary.has _ key)).
  rewrite Dictionary_has_fst, Dictionary_has_snd.
  change (Cache.store (Cache.count_operation c)) with (Cache.store c).
  destruct (step_spec _ Hwf) as (Hwf1 & _ & Hlk).
  rewrite Hlk. fold (store_lookup c key).
  set (c1 := Cache.with_store (Dictionary.step (Cache.store c))
               (Cache.count_operation c)).
  assert (Hs1 : ∀ k, store_lookup c1 k = store_lookup c k).
  { intros k. unfold store_lookup, c1. cbn. apply Hlk. }
  destruct (store_lookup c key) as [e|] eqn:He; cbn [fst snd].
  - split; [done|].
    split; [rewrite deleteKey_store_lookup by done; by rewrite decide_True|].
    split; [intros _; by apply deleteKey_purged|]. split; [done|].
    split; [|split].
    + intros k Hne. unfold key_kept.
      rewrite deleteKey_store_lookup, deleteKey_ttl_lookup, deleteKey_usage_lookup
        by done.
      rewrite !decide_False by done. by rewrite Hs1.
    + rewrite deleteKey_memory.
      rewrite (surjective_pairing (Dictionary.get (Cache.store c1) key)).
      rewrite Dictionary_get_snd. cbn [snd].
      destruct (step_spec _ Hwf1) as (_ & _ & Hlk1).
      unfold c1 at 1. cbn [Cache.store Cache.with_store]. rewrite Hlk1, Hlk.
      unfold store_lookup in He. by rewrite He.
    + by rewrite deleteKey_stats.
  - split; [done|]. split; [by rewrite Hs1|]. split; [by intros [? [=]]|].
    split; [intros _; split; [by rewrite Hs1, He|done]|].
    split; [intros k _; split; [by rewrite Hs1|done]|].
    split; [cbn; lia|done].
Qed.

Lemma X17_del_effect_witness :
  cache_reachable cache_z ∧
  (Cache.del "z" cache_z).2
  = match store_lookup cache_z "z" with Some _ => 1 | None => 0 end ∧
  store_lookup (Cache.del "z" cache_z).1 "z" = None.
Proof.
  destruct (X17_del_effect cache_z "z" cache_z_reachable) as (H1 & H2 & _).
  exact (conj cache_z_reachable (conj H1 H2)).
Defined.

Section shutdown.
Implicit Types (c : Cache.t) (key k : string) (l : list string).

Lemma onExpire_ttl_fields key c :
  TTLManager.pendingDeletes (Cache.ttl (Cache.onExpire key c))
  = TTLManager.pendingDeletes (Cache.ttl c) ∧
  TTLManager.interval (Cache.ttl (Cache.onExpire key c))
  = TTLManager.interval (Cache.ttl c) ∧
  TTLManager.keyIterator (Cache.ttl (Cache.onExpire key c))
  = TTLManager.keyIterator (Cache.ttl c).
Proof.
  unfold Cache.onExpire. cbn [Cache.ttl Cache.count_expiration Cache.with_stats].
  by rewrite deleteKey_ttl.
Qed.

Lemma onExpire_expirations key c :
  Cache.expirations (Cache.stats (Cache.onExpire key c))
  = Cache.expirations (Cache.stats c) + 1.
Proof.
  unfold Cache.onExpire. cbn [Cache.stats Cache.count_expiration Cache.with_stats
    Cache.expirations]. by rewrite deleteKey_stats.
Qed.

Lemma onExpire_usage_timer key c :
  UsageTracker.decayTimer (Cache.usage (Cache.onExpire key c))
  = UsageTracker.decayTimer (Cache.usage c).
Proof.
  unfold Cache.onExpire. cbn [Cache.usage Cache.count_expiration Cache.with_stats].
  by rewrite deleteKey_usage.
Qed.

(** The purge of a list of keys. *)
Lemma foldl_onExpire_spec l c :
  dict_wf (Cache.store c) →
  (∀ k, k ∈ l → purged (foldl (λ w k, Cache.onExpire k w) c l) k) ∧
  (∀ k, k ∉ l → key_kept c (foldl (λ w k, Cache.onExpire k w) c l) k) ∧
  Cache.expirations (Cache.stats (foldl (λ w k, Cache.onExpire k w) c l))
  = Cache.expirations (Cache.stats c) + Z.of_nat (length l) ∧
  TTLManager.interval (Cache.ttl (foldl (λ w k, Cache.onExpire k w) c l))
  = TTLManager.interval (Cache.ttl c) ∧
  TTLManager.keyIterator (Cache.ttl (foldl (λ w k, Cache.onExpire k w) c l))
  = TTLManager.keyIterator (Cache.ttl c).
Proof.
  revert c. induction l as [|x l IH]; intros c Hwf; cbn [foldl].
  - split; [by intros k Hk%elem_of_nil|]. split; [done|]. split; [cbn; lia|done].
  - assert (Hwf1 : dict_wf (Cache.store (Cache.onExpire x c)))
      by (by apply (deleteKey_wf x c)).
    destruct (IH _ Hwf1) as (I1 & I2 & I3 & I4 & I5).
    destruct (onExpire_ttl_fields x c) as (_ & T2 & T3).
    split; [|split; [|split; [|split]]].
    + intros k [->|Hk]%elem_of_cons; [|by apply I1].
      apply (purged_steps (Cache.onExpire x c)); [done|apply foldl_onExpire_steps|].
      by apply (deleteKey_purged x c).
    + intros k Hk. apply not_elem_of_cons in Hk as [Hne Hk].
      destruct (I2 k Hk) as (K1 & K2 & K3). unfold key_kept.
      rewrite K1, K2, K3. unfold Cache.onExpire.
      change (store_lookup (Cache._deleteKey x c) k = store_lookup c k ∧
              ttl_lookup (Cache._deleteKey x c) k = ttl_lookup c k ∧
              usage_lookup (Cache._deleteKey x c) k = usage_lookup c k).
      rewrite deleteKey_store_lookup, deleteKey_ttl_lookup, deleteKey_usage_lookup
        by done.
      by rewrite !decide_False by done.
    + rewrite I3, onExpire_expirations. cbn [length]. lia.
    + by rewrite I4.
    + by rewrite I5.
Qed.
End shutdown.

(** X18: [shutdown()] purges every key of the queue of pending deletes:
    the entry, the TTL record and the usage metadata of the key are
    gone, whether or not the key has been set again since it was
    queued.  The other keys keep what they had, the queue is empty
    afterwards, both timers are stopped, and every element of the queue
    has been counted as one expiration. *)
Theorem X18_shutdown_flushes_queue (c : Cache.t) :
  cache_reachable c →
  (∀ key, key ∈ TTLManager.pendingDeletes (Cache.ttl c) →
          purged (Cache.shutdown c) key) ∧
  (∀ key, key ∉ TTLManager.pendingDeletes (Cache.ttl c) →
          key_kept c (Cache.shutdown c) key) ∧
  TTLManager.pendingDeletes (Cache.ttl (Cache.shutdown c)) = [] ∧
  TTLManager.interval (Cache.ttl (Cache.shutdown c)) = None ∧
  UsageTracker.decayTimer (Cache.usage (Cache.shutdown c)) = false ∧
  Cache.expirations (Cache.stats (Cache.shutdown c))
  = Cache.expirations (Cache.stats c)
    + Z.of_nat (length (TTLManager.pendingDeletes (Cache.ttl c))).
Proof.
  intros [Hwf _]%cache_reachable_inv.
  destruct (foldl_onExpire_spec (TTLManager.pendingDeletes (Cache.ttl c)) c Hwf)
    as (F1 & F2 & F3 & F4 & F5).
  unfold Cache.shutdown, TTLManager.flushPendingDeletes, TTLManager.stopActiveExpiration,
    TTLManager._flushPendingDeletes.
  destruct (TTLManager.pendingDeletes (Cache.ttl c)) as [|x l] eqn:Hp.
  - rewrite bool_decide_false by (cbn; lia). cbn. rewrite Hp.
    split; [by intros k Hk%elem_of_nil|]. split; [done|].
    split; [done|]. split; [done|]. split; [done|]. lia.
  - rewrite bool_decide_true by (cbn; lia).
    split; [apply F1|]. split; [apply F2|]. split; [done|]. split; [done|].
    split; [done|]. apply F3.
Qed.

Lemma cache_pending_reachable : cache_reachable cache_pending.
Proof.
  apply (reachable_cache_step _ (Cache.activeExpirationTick 20 cache_k).1 21 []
           (CallSetKey "k" "w" None) cache_pending []).
  - apply (reachable_cache_step _ cache_k 20 [] CallExpirationTick _ []).
    + apply (reachable_cache_step _ cache0 0 [] (CallSetKey "k" "v" (Some 10))
               cache_k []).
      * apply reachable_cache_new.
      * done.
      * vm_compute. reflexivity.
    + done.
    + reflexivity.
  - done.
  - vm_compute. reflexivity.
Defined.

Lemma X18_shutdown_flushes_queue_witness :
  cache_reachable cache_pending ∧
  ("k" ∈ TTLManager.pendingDeletes (Cache.ttl cache_pending)) ∧
  store_lookup cache_pending "k" = Some (mkEntry (VString "w") 52) ∧
  ttl_lookup cache_pending "k" = None ∧
  purged (Cache.shutdown cache_pending) "k".
Proof.
  assert (H1 : "k" ∈ TTLManager.pendingDeletes (Cache.ttl cache_pending)).
  { apply (bool_decide_unpack _). vm_compute. exact I. }
  assert (H2 : store_lookup cache_pending "k" = Some (mkEntry (VString "w") 52))
    by (vm_compute; reflexivity).
  assert (H3 : ttl_lookup cache_pending "k" = None) by (vm_compute; reflexivity).
  exact (conj cache_pending_reachable
           (conj H1 (conj H2 (conj H3
              (proj1 (X18_shutdown_flushes_queue cache_pending
                        cache_pending_reachable) "k" H1))))).
Defined.

(** ** What the sampling of the TTL records queues and purges *)
Section lazy.
Implicit Types (c : Cache.t) (key k : string) (m : TTLManager.t) (tp : tape).

Lemma sampled_expired_ext m m' now k :
  TTLManager.expirations m' = TTLManager.expirations m →
  TTLManager.sampled_expired m' now k = TTLManager.sampled_expired m now k.
Proof. unfold TTLManager.sampled_expired. by intros ->. Qed.

Lemma visit_spec m now k (cnt : Z) :
  ∃ pushed, TTLManager.pendingDeletes (TTLManager.visit m now k cnt).1
            = TTLManager.pendingDeletes m ++ pushed ∧
            Forall (λ x, TTLManager.sampled_expired m now x = true) pushed ∧
            (TTLManager.visit m now k cnt).2 = cnt + Z.of_nat (length pushed) ∧
            (length pushed ≤ 1)%nat ∧
            TTLManager.interval (TTLManager.visit m now k cnt).1
            = TTLManager.interval m.
Proof.
  unfold TTLManager.visit.
  destruct (TTLManager.sampled_expired m now k) eqn:Hs; cbn [fst snd].
  - exists [k]. cbn. split; [done|]. split; [by constructor|]. split; [lia|].
    split; [lia|done].
  - exists []. cbn. rewrite app_nil_r. split; [done|]. split; [done|].
    split; [lia|]. split; [lia|done].
Qed.

(** The loop of [sampleAndPurge] queues keys whose deadline has passed,
    at most one at each turn, and counts them. *)
Lemma sampleLoop_pending (n : nat) m now (it : nat) (cnt : Z) :
  ∃ pushed, TTLManager.pendingDeletes (TTLManager.sampleLoop n m now it cnt).1
            = TTLManager.pendingDeletes m ++ pushed ∧
            Forall (λ x, TTLManager.sampled_expired m now x = true) pushed ∧
            (TTLManager.sampleLoop n m now it cnt).2 = cnt + Z.of_nat (length pushed) ∧
            (length pushed ≤ n)%nat ∧
            TTLManager.interval (TTLManager.sampleLoop n m now it cnt).1
            = TTLManager.interval m.
Proof.
  revert m it cnt. induction n as [|n IH]; intros m it cnt; cbn [TTLManager.sampleLoop].
  - exists []. cbn. rewrite app_nil_r. split; [done|]. split; [done|].
    split; [lia|]. split; [lia|done].
  - assert (Hstep : ∀ k it',
              ∃ pushed,
                TTLManager.pendingDeletes
                  (let '(m', c0) := TTLManager.visit m now k cnt in
                   TTLManager.sampleLoop n m' now it' c0).1
                = TTLManager.pendingDeletes m ++ pushed ∧
                Forall (λ x, TTLManager.sampled_expired m now x = true) pushed ∧
                (let '(m', c0) := TTLManager.visit m now k cnt in
                 TTLManager.sampleLoop n m' now it' c0).2
                = cnt + Z.of_nat (length pushed) ∧
                (length pushed ≤ S n)%nat ∧
                TTLManager.interval
                  (let '(m', c0) := TTLManager.visit m now k cnt in
                   TTLManager.sampleLoop n m' now it' c0).1
                = TTLManager.interval m).
    { intros k it'. destruct (visit_spec m now k cnt) as (p1 & V1 & V2 & V3 & V4 & V5).
      pose proof (visit_expirations m now k cnt) as Ve.
      destruct (TTLManager.visit m now k cnt) as [m1 c1]. cbn [fst snd] in *.
      destruct (IH m1 it' c1) as (p2 & L1 & L2 & L3 & L4 & L5).
      exists (p1 ++ p2). rewrite L1, V1, <- app_assoc. split; [done|].
      split; [|split; [|split]].
      - apply Forall_app. split; [done|].
        eapply Forall_impl; [exact L2|]. intros x Hx. cbn in Hx.
        by rewrite <- (sampled_expired_ext m m1 now x Ve).
      - rewrite L3, V3, length_app. lia.
      - rewrite length_app. lia.
      - by rewrite L5. }
    destruct (JsMap.next (TTLManager.expirations m) it) as [[[k v] it']|].
    + apply Hstep.
    + destruct (JsMap.next (TTLManager.expirations m) 0) as [[[k v] it']|].
      * apply Hstep.
      * exists []. cbn. rewrite app_nil_r. split; [done|]. split; [done|].
        split; [lia|]. split; [lia|done].
Qed.

Lemma flush_spec c :
  dict_wf (Cache.store c) →
  (∀ k, k ∈ TTLManager.pendingDeletes (Cache.ttl c) →
        purged (TTLManager._flushPendingDeletes Cache.ttl Cache.with_ttl
                  Cache.onExpire c) k) ∧
  (∀ k, k ∉ TTLManager.pendingDeletes (Cache.ttl c) →
        key_kept c (TTLManager._flushPendingDeletes Cache.ttl Cache.with_ttl
                      Cache.onExpire c) k) ∧
  TTLManager.pendingDeletes
    (Cache.ttl (TTLManager._flushPendingDeletes Cache.ttl Cache.with_ttl
                  Cache.onExpire c)) = [] ∧
  Cache.expirations
    (Cache.stats (TTLManager._flushPendingDeletes Cache.ttl Cache.with_ttl
                    Cache.onExpire c))
  = Cache.expirations (Cache.stats c)
    + Z.of_nat (length (TTLManager.pendingDeletes (Cache.ttl c))).
Proof.
  intros Hwf.
  destruct (foldl_onExpire_spec (TTLManager.pendingDeletes (Cache.ttl c)) c Hwf)
    as (F1 & F2 & F3 & _).
  unfold TTLManager._flushPendingDeletes. split; [apply F1|]. split; [apply F2|].
  split; [done|apply F3].
Qed.

(** [sampleAndPurge] leaves alone a key that is not in the queue and
    whose deadline has not passed. *)
Lemma sampleAndPurge_keeps (n : Z) now c key :
  dict_wf (Cache.store c) →
  key ∉ TTLManager.pendingDeletes (Cache.ttl c) →
  TTLManager.sampled_expired (Cache.ttl c) now key = false →
  key_kept c (TTLManager.sampleAndPurge Cache.ttl Cache.with_ttl n
                Cache.onExpire now c).1 key ∧
  key ∉ TTLManager.pendingDeletes
          (Cache.ttl (TTLManager.sampleAndPurge Cache.ttl Cache.with_ttl n
                        Cache.onExpire now c).1).
Proof.
  intros Hwf Hnp Hne. unfold TTLManager.sampleAndPurge.
  case_bool_decide; [done|].
  destruct (sampleLoop_pending (Z.to_nat n) (Cache.ttl c) now
              (default 0%nat (TTLManager.keyIterator (Cache.ttl c))) 0)
    as (pushed & L1 & L2 & _).
  pose proof (sampleLoop_expirations (Z.to_nat n) (Cache.ttl c) now
                (default 0%nat (TTLManager.keyIterator (Cache.ttl c))) 0) as Le.
  destruct (TTLManager.sampleLoop _ _ _ _ _) as [m' cnt]. cbn [fst snd] in *.
  assert (Hnp' : key ∉ TTLManager.pendingDeletes m').
  { rewrite L1, elem_of_app. intros [?|Hin]; [done|].
    rewrite Forall_forall in L2. specialize (L2 key Hin). cbn in L2. congruence. }
  assert (Hk : key_kept c (Cache.with_ttl m' c) key).
  { unfold key_kept, ttl_lookup. cbn. by rewrite Le. }
  case_bool_decide; cbn [fst]; [|done].
  destruct (flush_spec (Cache.with_ttl m' c) Hwf) as (_ & F2 & F3 & _).
  split; [|rewrite F3; apply not_elem_of_nil].
  destruct (F2 key Hnp') as (K1 & K2 & K3). destruct Hk as (J1 & J2 & J3).
  unfold key_kept. by rewrite K1, K2, K3.
Qed.

Lemma isExpired_sampled m now key :
  TTLManager.isExpired m now key = false →
  TTLManager.sampled_expired m now key = false.
Proof.
  unfold TTLManager.isExpired, TTLManager.sampled_expired.
  destruct (JsMap.get _ _); [|done]. intros ->. by rewrite andb_false_r.
Qed.

(** The passive check leaves alone a key that is not in the queue and
    whose deadline has not passed. *)
Lemma checkExpired_keeps now c key :
  dict_wf (Cache.store c) →
  key ∉ TTLManager.pendingDeletes (Cache.ttl c) →
  TTLManager.isExpired (Cache.ttl c) now key = false →
  (Cache._checkExpired now key c).2 = false ∧
  key_kept c (Cache._checkExpired now key c).1 key ∧
  key ∉ TTLManager.pendingDeletes (Cache.ttl (Cache._checkExpired now key c).1).
Proof.
  intros Hwf Hnp Hne. unfold Cache._checkExpired.
  set (c1 := Cache.with_operationCount (Cache.operationCount c + 1) c).
  set (c2 := if bool_decide _ then _ else c1).
  assert (H2 : key_kept c c2 key ∧
               key ∉ TTLManager.pendingDeletes (Cache.ttl c2)).
  { unfold c2. case_bool_decide; [|done].
    apply (sampleAndPurge_keeps 5 now c1 key); [done|done|].
    by apply isExpired_sampled. }
  destruct H2 as [(K1 & K2 & K3) Hnp2].
  assert (Hex : TTLManager.isExpired (Cache.ttl c2) now key = false).
  { unfold TTLManager.isExpired in *. unfold ttl_lookup in K2. by rewrite K2. }
  rewrite Hex. cbn [fst snd]. done.
Qed.

(** A read finds the entry of a key that is not in the queue and whose
    deadline has not passed. *)
Lemma getEntry_kept now tp key c e :
  dict_wf (Cache.store c) →
  key ∉ TTLManager.pendingDeletes (Cache.ttl c) →
  TTLManager.isExpired (Cache.ttl c) now key = false →
  store_lookup c key = Some e → (1 ≤ length tp)%nat →
  ∃ c' tp', Cache._getEntry now tp key c = Some (c', tp', Some e) ∧
            store_lookup c' key = Some e.
Proof.
  intros Hwf Hnp Hne He Htp. unfold Cache._getEntry.
  destruct (checkExpired_keeps now c key Hwf Hnp Hne) as (Hb & (K1 & _) & _).
  pose proof (purge_steps_wf _ _ Hwf (checkExpired_steps now key c)) as Hwf1.
  destruct (Cache._checkExpired now key c) as [c1 ex]. cbn [fst snd] in *. subst ex.
  rewrite (surjective_pairing (Dictionary.get (Cache.store c1) key)).
  rewrite Dictionary_get_fst, Dictionary_get_snd.
  destruct (step_spec _ Hwf1) as (_ & _ & Hlk).
  rewrite Hlk. fold (store_lookup c1 key). rewrite K1, He.
  destruct (touch_total (Cache.usage
              (Cache.with_store (Dictionary.step (Cache.store c1)) c1)) now tp key Htp)
    as [[u tp1] Ht].
  rewrite Ht. cbn [mbind option_bind]. eexists _, _. split; [done|].
  unfold store_lookup. cbn. rewrite Hlk. fold (store_lookup c1 key). by rewrite K1.
Qed.
End lazy.

(** ** [set] and the read that follows *)
Section roundtrip.
Implicit Types (c : Cache.t) (key k : string) (tp : tape).

(** What the eviction keeps of every property that the internal delete
    and the updates of the store, the pool and the counter keep. *)
Lemma evictLoop_preserves (P : Cache.t → Prop) (fuel : nat) tp c c' tp' :
  (∀ c0 k, P c0 → P (Cache._deleteKey k c0)) →
  (∀ c0 d, P c0 → P (Cache.with_store d c0)) →
  (∀ c0 p, P c0 → P (Cache.with_pool p c0)) →
  (∀ c0, P c0 → P (Cache.count_eviction c0)) →
  P c → Cache.evictLoop fuel tp c = Some (c', tp') → P c'.
Proof.
  intros Hd Hs Hp He. revert tp c.
  induction fuel as [|fuel IH]; intros tp c Hc; cbn [Cache.evictLoop].
  - destruct (Cache.overBudget c); [done|]. by intros [= <- <-].
  - destruct (Cache.overBudget c); [|by intros [= <- <-]].
    assert (Hre : ∀ r, (if bool_decide (length (Cache.evictionPool c) = 0%nat)
                        then Cache.refillPool tp c
                        else Some (c, tp, Cache.Continue)) = Some r → P r.1.1).
    { intros [[c1 tp1] fl]. case_bool_decide; [|by intros [= <- <- <-]].
      unfold Cache.refillPool.
      rewrite (surjective_pairing (Dictionary.keys _)).
      case_bool_decide; [intros [= <- <- <-]; by apply Hs|].
      destruct (Cache.sampleKeys _ _ _ _) as [[sampled tp2]|]; [|done].
      cbn [mbind option_bind]. intros [= <- <- <-]. cbn [fst]. by apply Hp, Hs. }
    destruct (if bool_decide _ then _ else _) as [[[c1 tp1] fl]|]; [|done].
    specialize (Hre _ eq_refl). cbn [fst] in Hre. cbn [mbind option_bind].
    destruct fl; [|by intros [= <- <-]].
    assert (Hv : P (Cache.evictVictim c1).1).
    { unfold Cache.evictVictim.
      destruct (Cache.evictionPool c1) as [|victim pool]; [done|].
      case_bool_decide; [|by apply Hp].
      rewrite (surjective_pairing (Dictionary.has _ victim)).
      destruct (Dictionary.has _ victim).2; cbn [fst].
      - by apply He, Hd, Hs, Hp.
      - by apply Hs, Hp. }
    destruct (Cache.evictVictim c1) as [c2 fl2]. cbn [fst] in Hv.
    destruct fl2; [by apply IH|by intros [= <- <-]].
Qed.

Lemma evictIfNeeded_preserves (P : Cache.t → Prop) tp c c' tp' :
  (∀ c0 k, P c0 → P (Cache._deleteKey k c0)) →
  (∀ c0 d, P c0 → P (Cache.with_store d c0)) →
  (∀ c0 p, P c0 → P (Cache.with_pool p c0)) →
  (∀ c0, P c0 → P (Cache.count_eviction c0)) →
  P c → Cache._evictIfNeeded tp c = Some (c', tp') → P c'.
Proof.
  intros Hd Hs Hp He Hc. unfold Cache._evictIfNeeded. case_bool_decide.
  - by intros [= <- <-].
  - by apply evictLoop_preserves.
Qed.

(** The eviction does not touch the queue of pending deletes. *)
Lemma evictIfNeeded_pending tp c c' tp' :
  Cache._evictIfNeeded tp c = Some (c', tp') →
  TTLManager.pendingDeletes (Cache.ttl c') = TTLManager.pendingDeletes (Cache.ttl c).
Proof.
  apply (evictIfNeeded_preserves
           (λ c0, TTLManager.pendingDeletes (Cache.ttl c0)
                  = TTLManager.pendingDeletes (Cache.ttl c))); [| | | |done].
  - intros c0 k H. by rewrite deleteKey_ttl.
  - done.
  - done.
  - done.
Qed.

(** The state after [set]. *)
Lemma set_spec now tp key (val : string) (px : option Z) c c1 tp1 :
  cache_inv c → Cache.set now tp key val px c = Some (c1, tp1) →
  cache_inv c1 ∧
  store_lookup c1 key
  = Some {| value := VString val;
            memoryUsed := Cache._calculateMemoryUsed key (VString val) |} ∧
  ttl_lookup c1 key
  = match px with
    | Some p => if bool_decide (0 < p) then Some (now + p) else None
    | None => None
    end ∧
  TTLManager.pendingDeletes (Cache.ttl c1) = TTLManager.pendingDeletes (Cache.ttl c).
Proof.
  intros Hinv E. split; [apply (set_inv_cache _ _ _ _ _ _ _ Hinv E)|].
  revert E. unfold Cache.set.
  destruct (Cache._evictIfNeeded tp _) as [[c2 tp2]|] eqn:Eev; [|done].
  pose proof (purge_steps_inv _ _ (count_operation_inv c Hinv)
                (evictIfNeeded_steps _ _ _ _ Eev)) as Hinv2.
  pose proof (evictIfNeeded_pending _ _ _ _ Eev) as Hpend.
  cbn [mbind option_bind].
  rewrite (surjective_pairing (Dictionary.get (Cache.store c2) key)).
  rewrite Dictionary_get_fst.
  set (c3 := Cache.with_store (Dictionary.step (Cache.store c2)) c2).
  set (c4 := match (Dictionary.get (Cache.store c2) key).2 with
             | Some e => _
             | None => c3
             end).
  assert (H4 : Cache.store c4 = Cache.store c3 ∧ Cache.ttl c4 = Cache.ttl c2).
  { unfold c4. destruct (Dictionary.get _ _).2; [case_bool_decide|]; done. }
  destruct H4 as [Hs4 Ht4].
  set (entry := {| value := VString val;
                   memoryUsed := Cache._calculateMemoryUsed key (VString val) |}).
  destruct (UsageTracker.touch _ _ _ _) as [[u tp3]|]; [|done].
  cbn [mbind option_bind].
  assert (Hwf3 : dict_wf (Cache.store c3)) by (apply step_spec, Hinv2).
  destruct (Dictionary_set_spec (Cache.store c3) key entry Hwf3) as [_ Hlk].
  assert (Hstore : ∀ m, store_lookup
            (Cache.with_ttl m
               (Cache.with_usage u
                  (Cache.with_store
                     (Dictionary.set
                        (Cache.store
                           (Cache.with_memory (Cache.currentMemoryUsed c4 + memoryUsed entry) c4))
                        key entry)
                     (Cache.with_memory (Cache.currentMemoryUsed c4 + memoryUsed entry) c4))))
            key = Some entry).
  { intros m. unfold store_lookup. cbn [Cache.store Cache.with_ttl Cache.with_usage
      Cache.with_store Cache.with_memory]. rewrite Hs4, Hlk. by rewrite decide_True. }
  destruct px as [p|]; [case_bool_decide|]; intros [= <- <-].
  - split; [apply Hstore|]. unfold ttl_lookup. cbn. rewrite Ht4.
    split; [apply JsMap_get_set_eq|done].
  - split; [apply Hstore|]. unfold ttl_lookup. cbn. rewrite Ht4.
    split; [apply JsMap_get_delete_eq|done].
  - split; [apply Hstore|]. unfold ttl_lookup. cbn. rewrite Ht4.
    split; [apply JsMap_get_delete_eq|done].
Qed.
End roundtrip.

(** X19: when [set(key, value, px)] has returned on a state that the
    operations and the timers make from a new cache, a [get(key)] that
    follows it at the time [now'] returns null if [px] is positive and
    the deadline [now + px] has passed, and the value otherwise,
    provided that the key was not in the queue of pending deletes. *)
Theorem X19_set_get_roundtrip (c : Cache.t) (now : Z) (tp : tape) (key val : string)
    (px : option Z) (c1 : Cache.t) (tp1 : tape) (now' : Z) :
  cache_reachable c →
  Cache.set now tp key val px c = Some (c1, tp1) →
  key ∉ TTLManager.pendingDeletes (Cache.ttl c) →
  (1 ≤ length tp1)%nat →
  ∃ c2 tp2,
    Cache.get now' tp1 key c1
    = Some (c2, tp2,
            Ok (match px with
                | Some p =>
                    if bool_decide (0 < p ∧ now + p ≤ now') then None else Some val
                | None => Some val
                end)).
Proof.
  intros Hinv%cache_reachable_inv E Hnp Htp.
  destruct (set_spec _ _ _ _ _ _ _ _ Hinv E) as (Hinv1 & Hs & Ht & Hp).
  unfold Cache.get.
  assert (Hlive : TTLManager.isExpired (Cache.ttl c1) now' key = false →
            ∃ c2 tp2, Cache._getEntry now' tp1 key (Cache.count_operation c1)
                      ≫= (λ '(c0, tp0, entry),
                            match entry with
                            | Some e =>
                                match value e with
                                | VString s => Some (Cache.count_hit c0, tp0, Ok (Some s))
                                | _ => Some (c0, tp0, WRONGTYPE)
                                end
                            | None => Some (Cache.count_miss c0, tp0, Ok None)
                            end)
                      = Some (c2, tp2, Ok (Some val))).
  { intros Hex.
    destruct (getEntry_kept now' tp1 key (Cache.count_operation c1) _
                (proj1 Hinv1) ltac:(by rewrite <- Hp in Hnp) Hex Hs Htp)
      as (c2 & tp2 & -> & _).
    cbn. by eexists _, _. }
  destruct px as [p|].
  - destruct (decide (0 < p ∧ now + p ≤ now')) as [[Hp0 Hd]|Hc].
    + rewrite (bool_decide_true (0 < p ∧ now + p ≤ now')) by done.
      rewrite (bool_decide_true (0 < p)) in Ht by done.
      destruct (getEntry_expired now' tp1 key (now + p) (Cache.count_operation c1)
                  (proj1 Hinv1) Ht Hd) as (c2 & -> & _).
      cbn. by eexists _, _.
    + rewrite (bool_decide_false (0 < p ∧ now + p ≤ now')) by done.
      apply Hlive. unfold TTLManager.isExpired. unfold ttl_lookup in Ht. rewrite Ht.
      destruct (decide (0 < p)) as [Hp0|Hp0].
      * rewrite (bool_decide_true (0 < p)) by done. apply bool_decide_eq_false.
        intros Hd. by apply Hc.
      * by rewrite (bool_decide_false (0 < p)) by done.
  - apply Hlive. unfold TTLManager.isExpired. unfold ttl_lookup in Ht. by rewrite Ht.
Qed.

Lemma X19_set_get_roundtrip_witness :
  cache_reachable cache0 ∧
  Cache.set 0 [(1 # 2)%Q] "k" "v" (Some 10) cache0 = Some (cache_k, [(1 # 2)%Q]) ∧
  ("k" ∉ TTLManager.pendingDeletes (Cache.ttl cache0)) ∧
  (1 ≤ length [(1 # 2)%Q])%nat ∧
  ∃ c2 tp2, Cache.get 5 [(1 # 2)%Q] "k" cache_k
            = Some (c2, tp2,
                    Ok (if bool_decide (0 < 10 ∧ 0 + 10 ≤ 5) then None else Some "v")).
Proof.
  assert (H0 : cache_reachable cache0) by apply reachable_cache_new.
  assert (H1 : Cache.set 0 [(1 # 2)%Q] "k" "v" (Some 10) cache0
               = Some (cache_k, [(1 # 2)%Q])) by (vm_compute; reflexivity).
  assert (H2 : "k" ∉ TTLManager.pendingDeletes (Cache.ttl cache0))
    by apply not_elem_of_nil.
  assert (H3 : (1 ≤ length [(1 # 2)%Q])%nat) by (cbn; lia).
  exact (conj H0 (conj H1 (conj H2 (conj H3
           (X19_set_get_roundtrip cache0 0 [(1 # 2)%Q] "k" "v" (Some 10) cache_k
              [(1 # 2)%Q] 5 H0 H1 H2 H3))))).
Defined.

(** ** The sum of the memory of the entries *)
Section memory_sum.
Implicit Types (c : Cache.t) (key k : string) (g : string → Z) (ks : list string).

Lemma sum_over_filter g ks k0 :
  NoDup ks →
  sum_over g ks
  = sum_over g (filter (λ k, k ≠ k0) ks) + (if decide (k0 ∈ ks) then g k0 else 0).
Proof.
  induction 1 as [|k ks Hk Hnd IH]; [done|].
  rewrite filter_cons. cbn [sum_over foldr]. fold (sum_over g ks). rewrite IH.
  destruct (decide (k ≠ k0)) as [Hne|Heq].
  - cbn [sum_over foldr]. fold (sum_over g (filter (λ k, k ≠ k0) ks)).
    destruct (decide (k0 ∈ ks)) as [Hin|Hin].
    + rewrite decide_True by (by right). lia.
    + rewrite decide_False; [lia|]. intros [->|?]%elem_of_cons; [done|done].
  - assert (k = k0) as -> by (by destruct (decide (k = k0)); [|exfalso; auto]).
    rewrite (decide_False (P := k0 ∈ ks)) by done.
    rewrite decide_True by (by left). lia.
Qed.

Lemma sum_over_ext g g' ks :
  (∀ k, k ∈ ks → g k = g' k) → sum_over g ks = sum_over g' ks.
Proof.
  induction ks as [|k ks IH]; intros H; [done|].
  cbn [sum_over foldr]. fold (sum_over g ks) (sum_over g' ks).
  rewrite IH, (H k) by (intros; try apply H; by constructor). done.
Qed.

Lemma sum_over_perm g ks ks' : ks ≡ₚ ks' → sum_over g ks = sum_over g ks'.
Proof.
  induction 1 as [|k l l' _ IH|k k' l|l l' l'' _ IH1 _ IH2]; cbn [sum_over foldr];
    [done| |lia|congruence].
  fold (sum_over g l) (sum_over g l'). by rewrite IH.
Qed.

Lemma sum_over_nonneg g ks : (∀ k, k ∈ ks → 0 ≤ g k) → 0 ≤ sum_over g ks.
Proof.
  induction ks as [|k ks IH]; intros H; [done|].
  cbn [sum_over foldr]. fold (sum_over g ks).
  pose proof (H k ltac:(by left)). pose proof (IH ltac:(intros; apply H; by right)). lia.
Qed.

Lemma entry_memory_absent c k :
  dict_wf (Cache.store c) → k ∉ dict_keys (Cache.store c) → entry_memory c k = 0.
Proof.
  intros Hwf Hk. unfold entry_memory, store_lookup.
  destruct (dict_lookup (Cache.store c) k) eqn:E; [|done].
  exfalso. apply Hk. apply dict_keys_spec; [done|]. by rewrite E.
Qed.

(** A change of the entry of one key changes the sum by what it
    changes the memory of that entry by. *)
Lemma mem_sum_update c c' k0 :
  dict_wf (Cache.store c) → dict_wf (Cache.store c') →
  (∀ k, k ≠ k0 → store_lookup c' k = store_lookup c k) →
  mem_sum c' - entry_memory c' k0 = mem_sum c - entry_memory c k0.
Proof.
  intros Hwf Hwf' Hlk. unfold mem_sum.
  rewrite (sum_over_filter _ (dict_keys (Cache.store c')) k0) by by apply dict_keys_NoDup.
  rewrite (sum_over_filter _ (dict_keys (Cache.store c)) k0) by by apply dict_keys_NoDup.
  assert (H0 : ∀ c0, dict_wf (Cache.store c0) →
            (if decide (k0 ∈ dict_keys (Cache.store c0)) then entry_memory c0 k0 else 0)
            = entry_memory c0 k0).
  { intros c0 H. destruct (decide _); [done|]. by rewrite entry_memory_absent. }
  rewrite !H0 by done.
  assert (Hp : filter (λ k, k ≠ k0) (dict_keys (Cache.store c'))
               ≡ₚ filter (λ k, k ≠ k0) (dict_keys (Cache.store c))).
  { apply NoDup_Permutation; [by apply NoDup_filter, dict_keys_NoDup..|].
    intros k. rewrite !list_elem_of_filter, !dict_keys_spec by done.
    split; intros [Hne Hs]; (split; [done|]);
      pose proof (Hlk k Hne) as E; unfold store_lookup in E; congruence. }
  rewrite (sum_over_perm _ _ _ Hp).
  rewrite (sum_over_ext (entry_memory c') (entry_memory c)); [lia|].
  intros k [Hne _]%list_elem_of_filter. unfold entry_memory. by rewrite Hlk.
Qed.

Lemma mem_sum_same c c' :
  dict_wf (Cache.store c) → dict_wf (Cache.store c') →
  (∀ k, store_lookup c' k = store_lookup c k) → mem_sum c' = mem_sum c.
Proof.
  intros Hwf Hwf' Hlk.
  pose proof (mem_sum_update c c' "" Hwf Hwf' (λ k _, Hlk k)) as H.
  unfold entry_memory in H. rewrite Hlk in H. lia.
Qed.

Lemma mem_sum_nonneg c : mem_nonneg c → 0 ≤ mem_sum c.
Proof.
  intros Hn. apply sum_over_nonneg. intros k _. unfold entry_memory.
  destruct (store_lookup c k) as [e|] eqn:E; [by apply (Hn k)|done].
Qed.

(** The purges take from the counter what they take from the sum. *)
Lemma purge_step_gap c c' :
  dict_wf (Cache.store c) → purge_step c c' →
  mem_sum c' - Cache.currentMemoryUsed c' = mem_sum c - Cache.currentMemoryUsed c.
Proof.
  intros Hwf Hs. pose proof (purge_step_wf _ _ Hwf Hs) as Hwf'.
  destruct Hs as [key c0|c0|c0 c1 Hb].
  - pose proof (mem_sum_update c0 (Cache._deleteKey key c0) key Hwf Hwf') as H.
    rewrite deleteKey_memory, Dictionary_get_snd.
    destruct (step_spec _ Hwf) as (_ & _ & ->).
    specialize (H ltac:(intros k Hk; rewrite deleteKey_store_lookup by done;
                        by rewrite decide_False by done)).
    unfold entry_memory in H. rewrite deleteKey_store_lookup in H by done.
    rewrite decide_True in H by done. unfold store_lookup in H.
    destruct (dict_lookup (Cache.store c0) key); lia.
  - rewrite (mem_sum_same c0); [done..|]. intros k. by apply rehash_store_lookup.
  - destruct Hb as (Hs & _ & _ & Hm & _). rewrite Hm.
    rewrite (mem_sum_same c0 c1); [done..|]. intros k. unfold store_lookup. by rewrite Hs.
Qed.

Lemma purge_steps_gap c c' :
  dict_wf (Cache.store c) → purge_steps c c' →
  mem_sum c' - Cache.currentMemoryUsed c' = mem_sum c - Cache.currentMemoryUsed c.
Proof.
  intros Hwf Hs. induction Hs as [|c1 c2 c3 H12 _ IH]; [done|].
  rewrite IH by by apply (purge_step_wf c1). by apply purge_step_gap.
Qed.

Lemma purge_steps_nonneg c c' :
  dict_wf (Cache.store c) → purge_steps c c' → mem_nonneg c → mem_nonneg c'.
Proof.
  intros Hwf Hs Hn k e He. apply (Hn k). by apply (purge_steps_sub c c').
Qed.
End memory_sum.

(** ** What a call does once its purges are done *)
Section frames.
Implicit Types (c : Cache.t) (key k : string) (e : CacheEntry) (tp : tape).
Implicit Types (call : cache_call).

Lemma same_settings_refl c : same_settings c c.
Proof. by repeat split. Qed.

Lemma touch_metadata (u : UsageTracker.t) now tp key (u' : UsageTracker.t) tp' :
  UsageTracker.touch u now tp key = Some (u', tp') →
  ∃ meta, UsageTracker.metadata u' = <[key := meta]> (UsageTracker.metadata u).
Proof.
  unfold UsageTracker.touch. destruct (UsageTracker.policy u).
  - intros [= <- <-]. by eexists.
  - destruct (Math_random tp) as [[r tp1]|]; [|done]. cbn [mbind option_bind].
    intros [= <- <-]. by eexists.
Qed.

Lemma side_frame_same key c c' :
  Cache.store c' = Cache.store c →
  (∀ k, is_Some (usage_lookup c' k) ↔ is_Some (usage_lookup c k)) →
  TTLManager.expirations (Cache.ttl c') = TTLManager.expirations (Cache.ttl c) →
  side_frame key c c'.
Proof.
  intros Hs Hu Ht. split.
  - intros k _. split; [apply Hu|]. unfold ttl_lookup. by rewrite Ht.
  - unfold key_consistent, store_lookup, ttl_lookup. rewrite Hs, Ht.
    intros [H1 H2]. split; [by rewrite Hu|done].
Qed.

Lemma side_frame_refl key c : side_frame key c c.
Proof. by apply side_frame_same. Qed.

Lemma side_frame_touch key c c' now tp tp' :
  UsageTracker.touch (Cache.usage c) now tp key = Some (Cache.usage c', tp') →
  is_Some (store_lookup c' key) →
  (∀ k, k ≠ key → ttl_lookup c' k = ttl_lookup c k) →
  side_frame key c c'.
Proof.
  intros Ht Hs Httl. destruct (touch_metadata _ _ _ _ _ _ Ht) as [meta Hm]. split.
  - intros k Hk. split; [|by apply Httl]. unfold usage_lookup.
    by rewrite Hm, lookup_insert_ne.
  - intros _. split; [|done]. unfold usage_lookup. rewrite Hm, lookup_insert_eq.
    split; [done|by eauto].
Qed.

Lemma side_frame_store key c c1 c' :
  side_frame key c c1 →
  Cache.usage c' = Cache.usage c1 → Cache.ttl c' = Cache.ttl c1 →
  (is_Some (store_lookup c' key) ↔ is_Some (store_lookup c1 key)) →
  side_frame key c c'.
Proof.
  intros [H1 H2] Hu Ht Hs. unfold side_frame, key_consistent, usage_lookup, ttl_lookup
    in *. rewrite Hu, Ht, Hs. by split.
Qed.

Lemma modify_is_Some c key (f : CacheEntry → CacheEntry) c' :
  dict_wf (Cache.store c) →
  Cache.store c' = Dictionary.modify (Cache.store c) key f →
  is_Some (store_lookup c' key) ↔ is_Some (store_lookup c key).
Proof.
  intros Hwf Hs. destruct (Dictionary_modify_spec (Cache.store c) key f Hwf) as [_ Hlk].
  unfold store_lookup. rewrite Hs, Hlk. rewrite decide_True by done.
  apply fmap_is_Some.
Qed.

Lemma set_is_Some c key e c' :
  dict_wf (Cache.store c) →
  Cache.store c' = Dictionary.set (Cache.store c) key e →
  is_Some (store_lookup c' key).
Proof.
  intros Hwf Hs. destruct (Dictionary_set_spec (Cache.store c) key e Hwf) as [_ Hlk].
  unfold store_lookup. rewrite Hs, Hlk. rewrite decide_True by done. by eexists.
Qed.

Lemma call_frame_same call key c c' :
  Cache.store c' = Cache.store c →
  Cache.currentMemoryUsed c' = Cache.currentMemoryUsed c →
  same_settings c c' →
  stats_counted call c c' → side_frame key c c' → call_frame call key c c'.
Proof.
  intros Hs Hm Hset Hst Hside.
  unfold call_frame, mem_balanced, entry_memory, store_lookup.
  rewrite Hs, Hm. split; [done|]. split; [done|]. split; [done|]. split; [by left|done].
Qed.

Lemma call_frame_set call key e c c' :
  dict_wf (Cache.store c) →
  Cache.store c' = Dictionary.set (Cache.store c) key e →
  Cache.stats c' = Cache.stats c →
  Cache.currentMemoryUsed c'
  = Cache.currentMemoryUsed c - entry_memory c key + memoryUsed e →
  0 ≤ memoryUsed e →
  same_settings c c' → side_frame key c c' →
  call_frame call key c c'.
Proof.
  intros Hwf Hs Hst Hm He Hset Hside.
  destruct (Dictionary_set_spec (Cache.store c) key e Hwf) as [_ Hlk].
  assert (Hk : entry_memory c' key = memoryUsed e).
  { unfold entry_memory, store_lookup. rewrite Hs, Hlk. by rewrite decide_True. }
  split; [|split; [by left|split; [by rewrite Hk|split; [left|done]]]].
  - intros k Hk'. unfold store_lookup. rewrite Hs, Hlk. by rewrite decide_False.
  - unfold mem_balanced. rewrite Hk, Hm. lia.
Qed.

Lemma call_frame_modify call key (f : CacheEntry → CacheEntry) e c c' :
  dict_wf (Cache.store c) → store_lookup c key = Some e →
  Cache.store c' = Dictionary.modify (Cache.store c) key f →
  Cache.stats c' = Cache.stats c →
  Cache.currentMemoryUsed c'
  = Cache.currentMemoryUsed c - memoryUsed e + memoryUsed (f e) →
  (0 ≤ memoryUsed e → 0 ≤ memoryUsed (f e)) →
  same_settings c c' → side_frame key c c' →
  call_frame call key c c'.
Proof.
  intros Hwf He Hs Hst Hm Hn Hset Hside.
  destruct (Dictionary_modify_spec (Cache.store c) key f Hwf) as [_ Hlk].
  assert (Hk : entry_memory c' key = memoryUsed (f e)).
  { unfold entry_memory, store_lookup. rewrite Hs, Hlk. rewrite decide_True by done.
    unfold store_lookup in He. by rewrite He. }
  assert (Hk0 : entry_memory c key = memoryUsed e).
  { unfold entry_memory. by rewrite He. }
  split; [|split; [by left|split; [by rewrite Hk, Hk0|split; [left|done]]]].
  - intros k Hk'. unfold store_lookup. rewrite Hs, Hlk. by rewrite decide_False.
  - unfold mem_balanced. rewrite Hk, Hk0, Hm. lia.
Qed.

Lemma call_frame_clamp key member (f : CacheEntry → CacheEntry) e (delta : Z) c c' :
  dict_wf (Cache.store c) → store_lookup c key = Some e →
  Cache.store c' = Dictionary.modify (Cache.store c) key f →
  Cache.stats c' = Cache.stats c →
  0 ≤ delta →
  memoryUsed (f e) = Z.max 0 (memoryUsed e - delta) →
  Cache.currentMemoryUsed c' = Z.max 0 (Cache.currentMemoryUsed c - delta) →
  same_settings c c' → side_frame key c c' →
  call_frame (CallZrem key member) key c c'.
Proof.
  intros Hwf He Hs Hst Hd Hf Hm Hset Hside.
  destruct (Dictionary_modify_spec (Cache.store c) key f Hwf) as [_ Hlk].
  assert (Hk : entry_memory c' key = memoryUsed (f e)).
  { unfold entry_memory, store_lookup. rewrite Hs, Hlk. rewrite decide_True by done.
    unfold store_lookup in He. by rewrite He. }
  assert (Hk0 : entry_memory c key = memoryUsed e).
  { unfold entry_memory. by rewrite He. }
  split; [|split; [by left|split; [rewrite Hk, Hf; lia|split; [right|done]]]].
  - intros k Hk'. unfold store_lookup. rewrite Hs, Hlk. by rewrite decide_False.
  - split; [done|]. exists delta. by rewrite Hk, Hk0.
Qed.

Lemma call_frame_compose call key c1 c2 c3 :
  call_frame call key c1 c2 → call_frame call key c2 c3 →
  Cache.stats c2 = Cache.stats c1 →
  mem_balanced key c1 c2 → mem_balanced key c2 c3 →
  side_frame key c1 c3 →
  call_frame call key c1 c3.
Proof.
  intros (A1 & _ & A3 & _ & (A5 & A6 & A7) & _) (B1 & B2 & B3 & _ & (B5 & B6 & B7) & _)
    Hst H12 H23 Hside.
  split; [|split; [|split; [by auto|split; [left|split; [|done]]]]].
  - intros k Hk. by rewrite B1, A1.
  - unfold stats_counted in *. cbn in *. by rewrite Hst in B2.
  - unfold mem_balanced in *. lia.
  - unfold same_settings. by rewrite B5, B6, B7.
Qed.

(** The state in which [_getEntry] leaves the cache. *)
Lemma getEntry_frame now tp key c c1 tp1 (en : option CacheEntry) :
  cache_inv c → Cache._getEntry now tp key c = Some (c1, tp1, en) →
  ∃ c2, purge_steps c c2 ∧ Cache.store c1 = Cache.store c2 ∧
        Cache.currentMemoryUsed c1 = Cache.currentMemoryUsed c2 ∧
        Cache.stats c1 = Cache.stats c2 ∧ en = store_lookup c2 key ∧
        same_settings c2 c1 ∧ side_frame key c2 c1.
Proof.
  intros Hinv E. destruct (getEntry_spec _ _ _ _ _ _ _ (proj1 Hinv) E)
    as (c2 & H2 & Hr & [(-> & _ & _)|(u & Hen & Ht & ->)]); exists c2.
  - do 5 (split; [done|]). split; [apply same_settings_refl|apply side_frame_refl].
  - do 5 (split; [done|]). split; [by repeat split|]. rewrite Hr in Hen.
    by apply (side_frame_touch key c2 (Cache.with_usage u c2) now tp tp1).
Qed.

Lemma get_frame call now tp key c r :
  is_read call = true →   cache_inv c → Cache.get now tp key c = Some r →
  ∃ c1, purge_steps (Cache.count_operation c) c1 ∧ call_frame call key c1 r.1.1.
Proof.
  intros Hrd Hinv%count_operation_inv. unfold Cache.get.
  destruct (Cache._getEntry _ _ _ _) as [[[c1 tp1] en]|] eqn:E; [|done].
  destruct (getEntry_frame _ _ _ _ _ _ _ Hinv E) as (c2 & H2 & Hs & Hm & Hst & _ & Hset & Hside).
  cbn [mbind option_bind].
  destruct en as [e|]; [destruct (value e)|]; intros [= <-]; cbn [fst];
    exists c2; (split; [done|]);
    (apply call_frame_same; [done|done|exact Hset| |exact Hside]);
    unfold stats_counted; cbn; rewrite Hst; auto.
Qed.

Lemma zscore_frame call now tp key member c r :
  is_read call = true →   cache_inv c → Cache.zscore now tp key member c = Some r →
  ∃ c1, purge_steps (Cache.count_operation c) c1 ∧ call_frame call key c1 r.1.1.
Proof.
  intros Hrd Hinv%count_operation_inv. unfold Cache.zscore.
  destruct (Cache._getEntry _ _ _ _) as [[[c1 tp1] en]|] eqn:E; [|done].
  destruct (getEntry_frame _ _ _ _ _ _ _ Hinv E) as (c2 & H2 & Hs & Hm & Hst & _ & Hset & Hside).
  cbn [mbind option_bind].
  destruct en as [e|]; [destruct (value e)|]; intros [= <-]; cbn [fst];
    exists c2; (split; [done|]);
    (apply call_frame_same; [done|done|exact Hset| |exact Hside]);
    unfold stats_counted; cbn; rewrite Hst; auto.
Qed.

Lemma zrank_frame call now tp key member c r :
  is_read call = true →   cache_inv c → Cache.zrank now tp key member c = Some r →
  ∃ c1, purge_steps (Cache.count_operation c) c1 ∧ call_frame call key c1 r.1.1.
Proof.
  intros Hrd Hinv%count_operation_inv. unfold Cache.zrank.
  destruct (Cache._getEntry _ _ _ _) as [[[c1 tp1] en]|] eqn:E; [|done].
  destruct (getEntry_frame _ _ _ _ _ _ _ Hinv E) as (c2 & H2 & Hs & Hm & Hst & _ & Hset & Hside).
  cbn [mbind option_bind].
  destruct en as [e|]; [destruct (value e) as [?|z|?|?]|];
    [|destruct (ZSet.zrank z member); [cbn [mbind option_bind]|done]|..];
    intros [= <-]; cbn [fst];
    exists c2; (split; [done|]);
    (apply call_frame_same; [done|done|exact Hset| |exact Hside]);
    unfold stats_counted; cbn; rewrite Hst; auto.
Qed.

Lemma zrangeByScore_frame call now tp key (min max : number)
    (limit : option number) c r :
  is_read call = true →   cache_inv c → Cache.zrangeByScore now tp key min max limit c = Some r →
  ∃ c1, purge_steps (Cache.count_operation c) c1 ∧ call_frame call key c1 r.1.1.
Proof.
  intros Hrd Hinv%count_operation_inv. unfold Cache.zrangeByScore.
  destruct (Cache._getEntry _ _ _ _) as [[[c1 tp1] en]|] eqn:E; [|done].
  destruct (getEntry_frame _ _ _ _ _ _ _ Hinv E) as (c2 & H2 & Hs & Hm & Hst & _ & Hset & Hside).
  cbn [mbind option_bind].
  destruct en as [e|]; [destruct (value e) as [?|z|?|?]|];
    [|destruct (ZSet.zrangeByScore z min max limit); [cbn [mbind option_bind]|done]|..];
    intros [= <-]; cbn [fst];
    exists c2; (split; [done|]);
    (apply call_frame_same; [done|done|exact Hset| |exact Hside]);
    unfold stats_counted; cbn; rewrite Hst; auto.
Qed.

Lemma smembers_frame call now tp key c r :
  is_read call = true →   cache_inv c → Cache.smembers now tp key c = Some r →
  ∃ c1, purge_steps (Cache.count_operation c) c1 ∧ call_frame call key c1 r.1.1.
Proof.
  intros Hrd Hinv%count_operation_inv. unfold Cache.smembers.
  destruct (Cache._getEntry _ _ _ _) as [[[c1 tp1] en]|] eqn:E; [|done].
  destruct (getEntry_frame _ _ _ _ _ _ _ Hinv E) as (c2 & H2 & Hs & Hm & Hst & _ & Hset & Hside).
  cbn [mbind option_bind].
  destruct en as [e|]; [destruct (value e)|]; intros [= <-]; cbn [fst];
    exists c2; (split; [done|]);
    (apply call_frame_same; [done|done|exact Hset| |exact Hside]);
    unfold stats_counted; cbn; rewrite Hst; auto.
Qed.

Lemma zrem_frame now tp key member c r :
  cache_inv c → Cache.zrem now tp key member c = Some r →
  ∃ c1, purge_steps (Cache.count_operation c) c1 ∧
        call_frame (CallZrem key member) key c1 r.1.1.
Proof.
  intros Hinv%count_operation_inv. unfold Cache.zrem.
  destruct (Cache._getEntry _ _ _ _) as [[[c1 tp1] en]|] eqn:E; [|done].
  destruct (getEntry_frame _ _ _ _ _ _ _ Hinv E) as (c2 & H2 & Hs & Hm & Hst & Hen & Hset & Hside).
  pose proof (purge_steps_inv _ _ Hinv H2) as Hinv2.
  cbn [mbind option_bind]. exists c2. split; [done|]. revert H.
  destruct en as [e|]; [|intros [= <-]; apply call_frame_same; by try left].
  destruct (value e) as [?|z|?|?] eqn:Hv;
    try (intros [= <-]; apply call_frame_same; by try left).
  destruct (ZSet.zrem z member) as [[z' removed]|] eqn:Ez; [|done].
  cbn [mbind option_bind].
  destruct (removed && _) eqn:Hrm; intros [= <-]; cbn [fst].
  - eapply (call_frame_clamp key member _ e (Cache._estimateMemberSize member));
      [apply Hinv2|done|by cbn; rewrite Hs|by cbn| |by cbn|by cbn; rewrite Hm
      |exact Hset|].
    + unfold Cache._estimateMemberSize, strlen. lia.
    + apply (side_frame_store key c2 c1); [done|done|done|].
      eapply modify_is_Some; [by rewrite Hs; apply Hinv2|done].
  - eapply (call_frame_modify _ key _ e);
      [apply Hinv2|done|by cbn; rewrite Hs|by cbn|cbn; lia|by cbn|exact Hset|].
    apply (side_frame_store key c2 c1); [done|done|done|].
    eapply modify_is_Some; [by rewrite Hs; apply Hinv2|done].
Qed.

Lemma set_frame call now tp key (val : string) (px : option Z) c r :
  cache_inv c → Cache.set now tp key val px c = Some r →
  ∃ c1 tp1,
    Cache._evictIfNeeded tp (Cache.count_operation c) = Some (c1, tp1) ∧
    call_frame call key (Cache.with_store (Dictionary.step (Cache.store c1)) c1) r.1.
Proof.
  intros Hinv%count_operation_inv. unfold Cache.set.
  destruct (Cache._evictIfNeeded tp _) as [[c1 tp1]|] eqn:Eev; [|done].
  pose proof (evictIfNeeded_steps _ _ _ _ Eev) as H1.
  pose proof (purge_steps_inv _ _ Hinv H1) as Hinv1.
  cbn [mbind option_bind].
  rewrite (surjective_pairing (Dictionary.get (Cache.store c1) key)).
  rewrite Dictionary_get_fst, Dictionary_get_snd.
  set (c2 := Cache.with_store (Dictionary.step (Cache.store c1)) c1).
  pose proof (cache_inv_rehash c1 Hinv1) as Hinv2. fold c2 in Hinv2.
  change (dict_lookup (Dictionary.step (Cache.store c1)) key)
    with (store_lookup c2 key).
  set (c3 := match store_lookup c2 key with
             | Some e => _
             | None => c2
             end).
  assert (H3 : Cache.store c3 = Cache.store c2 ∧ Cache.stats c3 = Cache.stats c2 ∧
               Cache.currentMemoryUsed c3
               = Cache.currentMemoryUsed c2 - entry_memory c2 key ∧
               same_settings c2 c3 ∧ Cache.usage c3 = Cache.usage c2 ∧
               Cache.ttl c3 = Cache.ttl c2).
  { unfold c3, entry_memory.
    destruct (store_lookup c2 key); [case_bool_decide|]; cbn; repeat split; lia. }
  destruct H3 as (Hs3 & Hst3 & Hm3 & Hset3 & Hu3 & Ht3).
  set (entry := {| value := VString val;
                   memoryUsed := Cache._calculateMemoryUsed key (VString val) |}).
  destruct (UsageTracker.touch _ _ _ _) as [[u tp2]|] eqn:Et; [|done].
  cbn [Cache.usage Cache.with_store Cache.with_memory] in Et. rewrite Hu3 in Et.
  cbn [mbind option_bind]. intros H. exists c1, tp1. split; [done|]. fold c2. revert H.
  assert (He : 0 ≤ memoryUsed entry).
  { cbn. unfold strlen. lia. }
  destruct px as [p|]; [case_bool_decide|]; intros [= <-]; cbn [fst];
    (apply (call_frame_set call key entry);
     [apply Hinv2|by cbn; rewrite ?Hs3|by cbn; rewrite ?Hst3
     |by cbn; rewrite ?Hm3|done|exact Hset3|]);
    (apply (side_frame_touch key c2 _ now tp1 tp2);
     [exact Et
     |apply (set_is_Some c2 key entry); [apply Hinv2|by cbn; rewrite ?Hs3]
     |intros k Hk; unfold ttl_lookup;
      cbn [Cache.ttl Cache.with_ttl Cache.with_usage Cache.with_store
           Cache.with_memory TTLManager.set TTLManager.delete
           TTLManager.expirations];
      rewrite Ht3;
      first [by rewrite JsMap_get_set_ne by (by intros ->)
            |by rewrite JsMap_get_delete_ne by (by intros ->)]]).
Qed.

Lemma zadd_frame call now tp key (score : number) (member : string) c r :
  cache_inv c → Cache.zadd now tp key score member c = Some r →
  ∃ c2 tp2,
    before_write now tp key c = Some (c2, tp2) ∧
    call_frame call key (Cache.with_store (Dictionary.step (Cache.store c2)) c2) r.1.1.
Proof.
  intros Hinv%count_operation_inv. unfold Cache.zadd, before_write.
  pose proof (checkExpired_steps now key (Cache.count_operation c)) as H1.
  destruct (Cache._checkExpired now key _) as [c1 ex]. cbn [fst] in H1 |- *.
  destruct (Cache._evictIfNeeded tp c1) as [[c2 tp2]|] eqn:Eev; [|done].
  pose proof (evictIfNeeded_steps _ _ _ _ Eev) as H2.
  cbn [mbind option_bind].
  rewrite (surjective_pairing (Dictionary.get (Cache.store c2) key)).
  rewrite Dictionary_get_fst, Dictionary_get_snd.
  set (c3 := Cache.with_store (Dictionary.step (Cache.store c2)) c2).
  assert (H3 : purge_steps (Cache.count_operation c) c3).
  { eapply purge_steps_trans; [exact H1|].
    eapply purge_steps_trans; [exact H2|apply purge_steps_rehash]. }
  pose proof (purge_steps_inv _ _ Hinv H3) as Hinv3.
  change (dict_lookup (Dictionary.step (Cache.store c2)) key)
    with (store_lookup c3 key).
  intros H. exists c2, tp2. split; [done|]. fold c3. revert H.
  destruct (store_lookup c3 key) as [e|] eqn:He.
  - destruct (value e) as [?|z|?|?] eqn:Hv;
      try (intros [= <-]; apply call_frame_same;
           by first [left | apply same_settings_refl | apply side_frame_refl | idtac]).
    destruct (ZSet.zadd z tp2 member score) as [[[z' added] tp3]|] eqn:Ez; [|done].
    cbn [mbind option_bind].
    destruct (UsageTracker.touch _ _ _ _) as [[u tp4]|] eqn:Et; [|done].
    cbn [mbind option_bind]. intros [= <-]. cbn [fst].
    eapply (call_frame_modify _ key _ e);
      [apply Hinv3|done|by cbn|by cbn|cbn; lia|cbn|by repeat split|].
    + unfold Cache._estimateMemberSize, strlen. destruct added; lia.
    + apply (side_frame_touch key c3 _ now tp3 tp4); [exact Et| |done].
      eapply modify_is_Some; [apply Hinv3|by cbn|by rewrite He].
  - destruct (ZSet.zadd ZSet.new tp2 member score) as [[[z' added] tp3]|] eqn:Ez;
      [|done].
    cbn [mbind option_bind].
    destruct (UsageTracker.touch _ _ _ _) as [[u tp4]|] eqn:Et; [|done].
    cbn [mbind option_bind]. intros [= <-]. cbn [fst].
    eapply (call_frame_set _ key); [apply Hinv3|by cbn|by cbn| | |by repeat split|].
    + cbn [Cache.currentMemoryUsed Cache.with_usage Cache.with_store Cache.with_memory
           memoryUsed].
      unfold entry_memory. rewrite He. unfold c3.
      cbn [Cache.currentMemoryUsed Cache.with_store]. lia.
    + cbn. unfold strlen. lia.
    + apply (side_frame_touch key c3 _ now tp3 tp4); [exact Et| |done].
      eapply set_is_Some; [apply Hinv3|by cbn].
Qed.

Lemma sadd_frame call now tp key (members : list SetMember) c r :
  cache_inv c → Cache.sadd now tp key members c = Some r →
  ∃ c2 tp2,
    before_write now tp key c = Some (c2, tp2) ∧
    call_frame call key (Cache.with_store (Dictionary.step (Cache.store c2)) c2) r.1.1.
Proof.
  intros Hinv%count_operation_inv. unfold Cache.sadd, before_write.
  pose proof (checkExpired_steps now key (Cache.count_operation c)) as H1.
  destruct (Cache._checkExpired now key _) as [c1 ex]. cbn [fst] in H1 |- *.
  destruct (Cache._evictIfNeeded tp c1) as [[c2 tp2]|] eqn:Eev; [|done].
  pose proof (evictIfNeeded_steps _ _ _ _ Eev) as H2.
  cbn [mbind option_bind].
  rewrite (surjective_pairing (Dictionary.get (Cache.store c2) key)).
  rewrite Dictionary_get_fst, Dictionary_get_snd.
  set (c3 := Cache.with_store (Dictionary.step (Cache.store c2)) c2).
  assert (H3 : purge_steps (Cache.count_operation c) c3).
  { eapply purge_steps_trans; [exact H1|].
    eapply purge_steps_trans; [exact H2|apply purge_steps_rehash]. }
  pose proof (purge_steps_inv _ _ Hinv H3) as Hinv3.
  change (dict_lookup (Dictionary.step (Cache.store c2)) key)
    with (store_lookup c3 key).
  intros H. exists c2, tp2. split; [done|]. fold c3. revert H.
  cbv zeta.
  lazymatch goal with
  | |- (match ?M with pair _ _ => _ end = _ → _) => set (p := M)
  end.
  assert (Hp : cache_inv p.1 ∧ store_lookup p.1 key = Some p.2 ∧
               (is_Some (store_lookup c3 key) → p.1 = c3) ∧
               Cache.stats p.1 = Cache.stats c3 ∧
               mem_balanced key c3 p.1 ∧ Cache.usage p.1 = Cache.usage c3 ∧
               Cache.ttl p.1 = Cache.ttl c3 ∧
               (∀ k, k ≠ key → store_lookup p.1 k = store_lookup c3 k) ∧
               (0 ≤ entry_memory c3 key → 0 ≤ memoryUsed p.2) ∧
               same_settings c3 p.1 ∧
               (store_lookup c3 key = None → entry_type p.2 = type_set)).
  { unfold p. destruct (store_lookup c3 key) as [e|] eqn:He; cbn [fst snd].
    - split; [done|]. split; [done|]. split; [done|].
      unfold entry_memory. rewrite He. by repeat split.
    - cbn [Cache.store Cache.with_memory].
      set (e0 := {| value := VIntSet (IntSet.new None); memoryUsed := _ |}).
      set (c4 := Cache.with_store _ _).
      assert (Hinv4 : cache_inv c4).
      { apply (cache_inv_store
                 (Cache.with_store (Dictionary.set (Cache.store c3) key e0) c3));
          [done|]. apply cache_inv_set; [done|]. unfold entry_ok. cbn. constructor. }
      destruct (Dictionary_set_spec (Cache.store c3) key e0 (proj1 Hinv3)) as [_ Hlk].
      split; [done|]. split; [|split; [by intros [? ?]|split; [done|split]]].
      + unfold store_lookup. cbn. rewrite Hlk. by rewrite decide_True.
      + unfold mem_balanced, entry_memory at 1, store_lookup at 1. cbn.
        rewrite Hlk. rewrite decide_True by done. unfold entry_memory. rewrite He.
        cbn. lia.
      + split; [done|]. split; [done|]. split; [|split; [|by repeat split]].
        * intros k Hk. unfold store_lookup. cbn. rewrite Hlk. by rewrite decide_False.
        * intros _. cbn. unfold strlen. lia. }
  clearbody p. destruct p as [c4 e]. cbn [fst snd] in Hp.
  destruct Hp as (Hinv4 & He & Hsame & Hst & Hb & Hu4 & Ht4 & Hlk4 & Hnn4 & Hset4 & Hnew).
  destruct (decide (entry_type e = type_set)) as [Hty|Hty].
  2:{ intros [= <-]. cbn [fst].
      destruct (store_lookup c3 key) as [e3|] eqn:He3; [|by destruct Hty; apply Hnew].
      rewrite (Hsame ltac:(by eexists)).
      apply call_frame_same;
        by first [left | apply same_settings_refl | apply side_frame_refl | idtac]. }
  destruct (Cache.sadd_members (value e) 0 members) as [[v n]|] eqn:Es; [|done].
  cbn [mbind option_bind].
  destruct (UsageTracker.touch _ _ _ _) as [[u tp4]|] eqn:Et; [|done].
  cbn [Cache.usage Cache.with_store Cache.with_memory] in Et. rewrite Hu4 in Et.
  cbn [mbind option_bind]. intros [= <-]. cbn [fst].
  pose proof (proj2 Hinv4 key e He) as Hok. unfold entry_ok in Hok.
  assert (Hr : set_reachable (value e)).
  { unfold entry_type in Hty. by destruct (value e). }
  destruct (sadd_members_spec (value e) 0 members (set_reachable_ok _ Hr))
    as (v1 & n1 & E1 & _ & _ & Hsz & Hn & _).
  rewrite Es in E1. injection E1 as <- <-.
  set (delta := if bool_decide (0 < n)
                then (Cache.set_size v - Cache.set_size (value e))
                     * match v with VIntSet _ => 8 | _ => 40 end
                else 0).
  assert (Hd : 0 ≤ delta).
  { unfold delta. case_bool_decide; [|done].
    apply Z.mul_nonneg_nonneg; [lia|]. destruct v; lia. }
  set (f := λ e0 : CacheEntry, {| value := v; memoryUsed := memoryUsed e0 + delta |}).
  destruct (Dictionary_modify_spec (Cache.store c4) key f (proj1 Hinv4)) as [_ Hlk].
  set (c' := Cache.with_usage u _).
  assert (Hs' : Cache.store c' = Dictionary.modify (Cache.store c4) key f) by done.
  assert (Hk' : store_lookup c' key = Some (f e)).
  { unfold store_lookup in *. rewrite Hs', Hlk. rewrite decide_True by done.
    by rewrite He. }
  assert (Hk4 : entry_memory c4 key = memoryUsed e).
  { unfold entry_memory. by rewrite He. }
  assert (Hk'' : entry_memory c' key = memoryUsed e + delta).
  { unfold entry_memory. by rewrite Hk'. }
  split; [|split; [|split; [|split; [|split]]]].
  - intros k Hk. rewrite <- (Hlk4 k Hk). unfold store_lookup. rewrite Hs', Hlk.
    by rewrite decide_False.
  - left. done.
  - intros H0. rewrite Hk''. specialize (Hnn4 H0). lia.
  - left. unfold mem_balanced in *. rewrite Hk''.
    change (Cache.currentMemoryUsed c') with (Cache.currentMemoryUsed c4 + delta).
    lia.
  - destruct Hset4 as (S1 & S2 & S3). by repeat split.
  - apply (side_frame_touch key c3 c' now tp2 tp4); [exact Et|by rewrite Hk'|].
    intros k Hk. unfold ttl_lookup. change (Cache.ttl c') with (Cache.ttl c4).
    by rewrite Ht4.
Qed.

Lemma before_write_steps now tp key c c2 tp2 :
  before_write now tp key c = Some (c2, tp2) →
  purge_steps (Cache.count_operation c)
    (Cache.with_store (Dictionary.step (Cache.store c2)) c2).
Proof.
  unfold before_write. intros E.
  eapply purge_steps_trans; [apply (checkExpired_steps now key)|].
  eapply purge_steps_trans; [apply (evictIfNeeded_steps _ _ _ _ E)|].
  apply purge_steps_rehash.
Qed.

Lemma cache_step_frame now tp call c c' tp' :
  cache_inv c → cache_step now tp call c = Some (c', tp') →
  ∃ c1,
    purge_steps (if counted call then Cache.count_operation c else c) c1 ∧
    call_frame call (default "" (call_key call)) c1 c'.
Proof.
  intros Hinv. destruct call; cbn [cache_step counted call_key default].
  - intros E. destruct (set_frame (CallSetKey key val px) _ _ _ _ _ _ _ Hinv E)
      as (c1 & tp1 & H1 & Hf). eexists. split; [|exact Hf].
    eapply purge_steps_trans; [apply (evictIfNeeded_steps _ _ _ _ H1)|].
    apply purge_steps_rehash.
  - destruct (Cache.get _ _ _ _) as [r|] eqn:E; [|done]. intros [= Hr].
    destruct (get_frame (CallGetKey key) _ _ _ _ _ eq_refl Hinv E) as (c1 & H1 & Hf).
    rewrite Hr in Hf. by exists c1.
  - intros [= <- <-]. exists (Cache.del key c).1. split; [apply del_steps|].
    apply call_frame_same;
      by first [left | apply same_settings_refl | apply side_frame_refl | idtac].
  - destruct (Cache.zadd _ _ _ _ _ _) as [r|] eqn:E; [|done]. intros [= Hr].
    destruct (zadd_frame (CallZadd key score member) _ _ _ _ _ _ _ Hinv E)
      as (c1 & tp1 & H1 & Hf).
    rewrite Hr in Hf. eexists. split; [|exact Hf]. apply (before_write_steps now tp key _ _ tp1 H1).
  - destruct (Cache.zrem _ _ _ _ _) as [r|] eqn:E; [|done]. intros [= Hr].
    destruct (zrem_frame _ _ _ _ _ _ Hinv E) as (c1 & H1 & Hf).
    rewrite Hr in Hf. by exists c1.
  - destruct (Cache.zscore _ _ _ _ _) as [r|] eqn:E; [|done]. intros [= Hr].
    destruct (zscore_frame (CallZscore key member) _ _ _ _ _ _ eq_refl Hinv E)
      as (c1 & H1 & Hf).
    rewrite Hr in Hf. by exists c1.
  - destruct (Cache.zrank _ _ _ _ _) as [r|] eqn:E; [|done]. intros [= Hr].
    destruct (zrank_frame (CallZrank key member) _ _ _ _ _ _ eq_refl Hinv E)
      as (c1 & H1 & Hf).
    rewrite Hr in Hf. by exists c1.
  - destruct (Cache.zrangeByScore _ _ _ _ _ _ _) as [r|] eqn:E; [|done].
    intros [= Hr].
    destruct (zrangeByScore_frame (CallZrangeByScore key min max limit)
                _ _ _ _ _ _ _ _ eq_refl Hinv E) as (c1 & H1 & Hf).
    rewrite Hr in Hf. by exists c1.
  - destruct (Cache.sadd _ _ _ _ _) as [r|] eqn:E; [|done]. intros [= Hr].
    destruct (sadd_frame (CallSadd key members) _ _ _ _ _ _ Hinv E)
      as (c1 & tp1 & H1 & Hf).
    rewrite Hr in Hf. eexists. split; [|exact Hf]. apply (before_write_steps now tp key _ _ tp1 H1).
  - destruct (Cache.smembers _ _ _ _) as [r|] eqn:E; [|done]. intros [= Hr].
    destruct (smembers_frame (CallSmembers key) _ _ _ _ _ eq_refl Hinv E)
      as (c1 & H1 & Hf).
    rewrite Hr in Hf. by exists c1.
  - intros [= <- <-]. exists (Cache.shutdown c). split; [apply shutdown_steps|].
    apply call_frame_same;
      by first [left | apply same_settings_refl | apply side_frame_refl | idtac].
  - intros [= <- <-]. exists (Cache.activeExpirationTick now c).1.
    split; [apply tick_steps|].
    apply call_frame_same;
      by first [left | apply same_settings_refl | apply side_frame_refl | idtac].
  - intros [= <- <-]. exists c. split; [apply purge_steps_refl|].
    unfold Cache.decayTick. destruct (UsageTracker.decayTimer _).
    + apply call_frame_same; try by first [left | apply same_settings_refl | idtac].
      apply side_frame_same; [done| |done]. intros k. unfold usage_lookup. cbn.
      rewrite lookup_fmap. apply fmap_is_Some.
    + apply call_frame_same;
        by first [left | apply same_settings_refl | apply side_frame_refl | idtac].
Qed.

(** The writes evict before they look their key up. *)
Lemma write_step_frame now tp call c c' tp' :
  cache_inv c → is_write call = true → cache_step now tp call c = Some (c', tp') →
  ∃ c0 tp0 c1 tp1,
    purge_steps (Cache.count_operation c) c0 ∧
    Cache._evictIfNeeded tp0 c0 = Some (c1, tp1) ∧
    call_frame call (default "" (call_key call))
      (Cache.with_store (Dictionary.step (Cache.store c1)) c1) c'.
Proof.
  intros Hinv. destruct call; try done; intros _; cbn [cache_step call_key default].
  - intros E. destruct (set_frame (CallSetKey key val px) _ _ _ _ _ _ _ Hinv E)
      as (c1 & tp1 & H1 & Hf).
    exists (Cache.count_operation c), tp, c1, tp1. split; [apply purge_steps_refl|done].
  - destruct (Cache.zadd _ _ _ _ _ _) as [r|] eqn:E; [|done]. intros [= Hr].
    destruct (zadd_frame (CallZadd key score member) _ _ _ _ _ _ _ Hinv E)
      as (c1 & tp1 & H1 & Hf).
    rewrite Hr in Hf. eexists _, tp, c1, tp1.
    split; [apply (checkExpired_steps now key)|done].
  - destruct (Cache.sadd _ _ _ _ _) as [r|] eqn:E; [|done]. intros [= Hr].
    destruct (sadd_frame (CallSadd key members) _ _ _ _ _ _ Hinv E)
      as (c1 & tp1 & H1 & Hf).
    rewrite Hr in Hf. eexists _, tp, c1, tp1.
    split; [apply (checkExpired_steps now key)|done].
Qed.
End frames.

(** ** The memory counter and the statistics over the calls *)
Section memory.
Implicit Types (c : Cache.t) (key k : string) (e : CacheEntry) (tp : tape).
Implicit Types (call : cache_call).

Lemma frame_nonneg call key c c' :
  call_frame call key c c' → mem_nonneg c → mem_nonneg c'.
Proof.
  intros (Hlk & _ & Hn & _) Hc k e He.
  destruct (decide (k = key)) as [->|Hne].
  - assert (H0 : 0 ≤ entry_memory c key).
    { unfold entry_memory. destruct (store_lookup c key) as [e0|] eqn:E0; [|done].
      by apply (Hc key). }
    specialize (Hn H0). unfold entry_memory in Hn. by rewrite He in Hn.
  - apply (Hc k). by rewrite <- Hlk.
Qed.

Lemma frame_gap_balanced call key c c' :
  dict_wf (Cache.store c) → dict_wf (Cache.store c') →
  call_frame call key c c' → is_zrem call = false →
  mem_sum c' - Cache.currentMemoryUsed c' = mem_sum c - Cache.currentMemoryUsed c.
Proof.
  intros Hwf Hwf' (Hlk & _ & _ & [Hb|[Hz _]] & _) Hnz; [|congruence].
  pose proof (mem_sum_update c c' key Hwf Hwf' Hlk). unfold mem_balanced in Hb. lia.
Qed.

Lemma frame_gap_nonneg call key c c' :
  dict_wf (Cache.store c) → dict_wf (Cache.store c') →
  call_frame call key c c' → mem_nonneg c →
  Cache.currentMemoryUsed c ≤ mem_sum c → Cache.currentMemoryUsed c' ≤ mem_sum c'.
Proof.
  intros Hwf Hwf' Hf Hn Hg.
  pose proof (mem_sum_nonneg c' (frame_nonneg _ _ _ _ Hf Hn)) as Hs'.
  destruct Hf as (Hlk & _ & _ & [Hb|[_ (delta & Hd & He & Hm)]] & _);
    pose proof (mem_sum_update c c' key Hwf Hwf' Hlk).
  - unfold mem_balanced in Hb. lia.
  - lia.
Qed.

Lemma counted_start call c :
  Cache.store (if counted call then Cache.count_operation c else c) = Cache.store c ∧
  Cache.currentMemoryUsed (if counted call then Cache.count_operation c else c)
  = Cache.currentMemoryUsed c ∧
  mem_sum (if counted call then Cache.count_operation c else c) = mem_sum c.
Proof. by destruct (counted call). Qed.

Lemma cache_step_memory now tp call c c' tp' :
  cache_inv c → cache_step now tp call c = Some (c', tp') →
  (mem_nonneg c → mem_nonneg c') ∧
  (is_zrem call = false →
   mem_sum c' - Cache.currentMemoryUsed c' = mem_sum c - Cache.currentMemoryUsed c) ∧
  (mem_nonneg c → Cache.currentMemoryUsed c ≤ mem_sum c →
   Cache.currentMemoryUsed c' ≤ mem_sum c').
Proof.
  intros Hinv E. pose proof (cache_step_inv _ _ _ _ _ _ Hinv E) as Hinv'.
  destruct (cache_step_frame _ _ _ _ _ _ Hinv E) as (c1 & H1 & Hf).
  set (key := default "" (call_key call)) in *.
  destruct (counted_start call c) as (Hs0 & Hm0 & Hsum0).
  set (c0 := if counted call then Cache.count_operation c else c) in *.
  assert (Hwf0 : dict_wf (Cache.store c0)) by (rewrite Hs0; apply Hinv).
  pose proof (purge_steps_wf _ _ Hwf0 H1) as Hwf1.
  pose proof (purge_steps_gap _ _ Hwf0 H1) as Hg1.
  assert (Hn1 : mem_nonneg c → mem_nonneg c1).
  { intros Hn. apply (purge_steps_nonneg c0); [done..|].
    intros k e. unfold store_lookup. rewrite Hs0. apply Hn. }
  split; [|split].
  - intros Hn. by apply (frame_nonneg call key c1), Hn1.
  - intros Hz. rewrite (frame_gap_balanced call key c1 c') by (done || apply Hinv').
    lia.
  - intros Hn Hg. apply (frame_gap_nonneg call key c1); [done|apply Hinv'|done|auto|].
    lia.
Qed.

Lemma mem_new (options : CacheOptions) :
  mem_nonneg (Cache.new options) ∧
  mem_sum (Cache.new options) = Cache.currentMemoryUsed (Cache.new options).
Proof. split; [|done]. intros k e. unfold store_lookup. by cbn. Qed.

Lemma cache_reachable_nonneg (allowed : cache_call → Prop) c :
  cache_reachable_by allowed c →
  mem_nonneg c ∧ Cache.currentMemoryUsed c ≤ mem_sum c.
Proof.
  induction 1 as [options|c now tp call c' tp' Hr [IH1 IH2] _ E].
  - destruct (mem_new options) as [H1 H2]. split; [done|]. rewrite H2. lia.
  - pose proof (cache_reachable_inv _ _ Hr) as Hinv.
    destruct (cache_step_memory _ _ _ _ _ _ Hinv E) as (H1 & _ & H3). auto.
Qed.

(** What a call counts. *)
Lemma cache_step_stats now tp call c c' tp' :
  cache_inv c → cache_step now tp call c = Some (c', tp') →
  Cache.operations (Cache.stats c')
  = Cache.operations (Cache.stats c) + (if counted call then 1 else 0) ∧
  (Cache.hits (Cache.stats c') = Cache.hits (Cache.stats c) ∧
   Cache.misses (Cache.stats c') = Cache.misses (Cache.stats c) ∨
   is_read call = true ∧
   (Cache.hits (Cache.stats c') = Cache.hits (Cache.stats c) + 1 ∧
    Cache.misses (Cache.stats c') = Cache.misses (Cache.stats c) ∨
    Cache.hits (Cache.stats c') = Cache.hits (Cache.stats c) ∧
    Cache.misses (Cache.stats c') = Cache.misses (Cache.stats c) + 1)) ∧
  Cache.evictions (Cache.stats c) ≤ Cache.evictions (Cache.stats c') ∧
  Cache.expirations (Cache.stats c) ≤ Cache.expirations (Cache.stats c').
Proof.
  intros Hinv E.
  destruct (cache_step_frame _ _ _ _ _ _ Hinv E) as (c1 & H1 & _ & Hst & _).
  pose proof (purge_steps_stats _ _ H1) as (A1 & A2 & A3 & A4 & A5).
  assert (H0 : Cache.hits (Cache.stats (if counted call then Cache.count_operation c
                                        else c)) = Cache.hits (Cache.stats c) ∧
               Cache.misses (Cache.stats (if counted call then Cache.count_operation c
                                          else c)) = Cache.misses (Cache.stats c) ∧
               Cache.evictions (Cache.stats (if counted call then Cache.count_operation c
                                             else c)) = Cache.evictions (Cache.stats c) ∧
               Cache.expirations (Cache.stats (if counted call
                                               then Cache.count_operation c else c))
               = Cache.expirations (Cache.stats c) ∧
               Cache.operations (Cache.stats (if counted call
                                              then Cache.count_operation c else c))
               = Cache.operations (Cache.stats c) + (if counted call then 1 else 0)).
  { destruct (counted call); cbn; repeat split; lia. }
  destruct H0 as (B1 & B2 & B3 & B4 & B5).
  rewrite B1 in A1. rewrite B2 in A2. rewrite B3 in A4. rewrite B4 in A5.
  rewrite B5 in A3.
  destruct Hst as [->|[Hrd [->| ->]]]; cbn.
  - split; [done|]. split; [by left|]. done.
  - split; [done|]. split; [|done]. right. split; [done|]. left. lia.
  - split; [done|]. split; [|done]. right. split; [done|]. right. lia.
Qed.

Lemma cache_run_reachable (allowed : cache_call → Prop) calls tp c c' tp' :
  cache_reachable_by allowed c → Forall (λ nc, allowed nc.2) calls →
  cache_run calls tp c = Some (c', tp') → cache_reachable_by allowed c'.
Proof.
  revert tp c. induction calls as [|[now call] calls IH]; intros tp c Hr Ha.
  - by intros [= <- <-].
  - cbn [cache_run]. destruct (cache_step now tp call c) as [[c1 tp1]|] eqn:E; [|done].
    cbn [mbind option_bind]. apply IH; [|by inversion Ha].
    apply (reachable_cache_step allowed c now tp call c1 tp1); [done| |done].
    by inversion Ha.
Qed.
End memory.

(** X20: as long as [zrem] is not called, the counter that
    [approxMemoryUsed()] returns is the sum of the [memoryUsed] of the
    entries of the store, whatever the other operations and the timers
    have set, evicted and expired; it is then not negative. *)
Theorem X20_memory_counter_exact (c : Cache.t) :
  cache_reachable_by (λ call, is_zrem call = false) c →
  Cache.approxMemoryUsed c = mem_sum c ∧ 0 ≤ Cache.approxMemoryUsed c.
Proof.
  intros Hr. unfold Cache.approxMemoryUsed.
  assert (H : Cache.currentMemoryUsed c = mem_sum c).
  { induction Hr as [options|c now tp call c' tp' Hr IH Hz E].
    - by destruct (mem_new options) as [_ ->].
    - pose proof (cache_reachable_inv _ _ Hr) as Hinv.
      destruct (cache_step_memory _ _ _ _ _ _ Hinv E) as (_ & H2 & _).
      specialize (H2 Hz). lia. }
  split; [done|]. rewrite H. apply mem_sum_nonneg.
  by destruct (cache_reachable_nonneg _ _ Hr).
Qed.

Lemma X20_memory_counter_exact_witness :
  cache_reachable_by (λ call, is_zrem call = false) cache_reads ∧
  Cache.approxMemoryUsed cache_reads = mem_sum cache_reads ∧
  0 ≤ Cache.approxMemoryUsed cache_reads.
Proof.
  assert (H : cache_reachable_by (λ call, is_zrem call = false) cache_reads).
  { apply (cache_run_reachable _ calls_reads [] cache0 cache_reads []).
    - apply reachable_cache_new.
    - repeat constructor.
    - vm_compute. reflexivity. }
  exact (conj H (X20_memory_counter_exact cache_reads H)).
Defined.

(** X21: in every state that the operations and the timers make from a
    new cache, no entry has a negative [memoryUsed], and the counter
    that [approxMemoryUsed()] returns is at most the sum of the
    [memoryUsed] of the entries. *)
Theorem X21_memory_counter_bound (c : Cache.t) :
  cache_reachable c →
  (∀ key e, store_lookup c key = Some e → 0 ≤ memoryUsed e) ∧
  Cache.approxMemoryUsed c ≤ mem_sum c.
Proof. apply cache_reachable_nonneg. Qed.

Lemma X21_memory_counter_bound_witness :
  cache_reachable cache_zrem_del ∧
  Cache.approxMemoryUsed cache_zrem_del = -6 ∧ mem_sum cache_zrem_del = 0 ∧
  (∀ key e, store_lookup cache_zrem_del key = Some e → 0 ≤ memoryUsed e) ∧
  Cache.approxMemoryUsed cache_zrem_del ≤ mem_sum cache_zrem_del.
Proof.
  assert (H : cache_reachable cache_zrem_del).
  { apply (cache_run_reachable _ calls_zrem_del [(1 # 2)%Q] cache0 cache_zrem_del []).
    - apply reachable_cache_new.
    - repeat constructor.
    - vm_compute. reflexivity. }
  assert (H1 : Cache.approxMemoryUsed cache_zrem_del = -6) by (vm_compute; reflexivity).
  assert (H2 : mem_sum cache_zrem_del = 0) by (vm_compute; reflexivity).
  exact (conj H (conj H1 (conj H2 (X21_memory_counter_bound cache_zrem_del H)))).
Defined.

(** X22: a call that returns on a state that the operations and the
    timers make from a new cache adds 1 to the counter of operations
    when it is a public operation other than [shutdown], and nothing
    otherwise.  A read adds 1 to the hits, 1 to the misses or nothing;
    the other calls leave both as they are.  No call takes from the
    counters of evictions and expirations. *)
Theorem X22_call_statistics (c : Cache.t) (now : Z) (tp : tape) (call : cache_call)
    (c' : Cache.t) (tp' : tape) :
  cache_reachable c → cache_step now tp call c = Some (c', tp') →
  Cache.operations (Cache.stats c')
  = Cache.operations (Cache.stats c) + (if counted call then 1 else 0) ∧
  (Cache.hits (Cache.stats c') = Cache.hits (Cache.stats c) ∧
   Cache.misses (Cache.stats c') = Cache.misses (Cache.stats c) ∨
   is_read call = true ∧
   (Cache.hits (Cache.stats c') = Cache.hits (Cache.stats c) + 1 ∧
    Cache.misses (Cache.stats c') = Cache.misses (Cache.stats c) ∨
    Cache.hits (Cache.stats c') = Cache.hits (Cache.stats c) ∧
    Cache.misses (Cache.stats c') = Cache.misses (Cache.stats c) + 1)) ∧
  Cache.evictions (Cache.stats c) ≤ Cache.evictions (Cache.stats c') ∧
  Cache.expirations (Cache.stats c) ≤ Cache.expirations (Cache.stats c').
Proof.
  intros Hr%cache_reachable_inv E. by apply (cache_step_stats now tp call c c' tp').
Qed.

Lemma X22_call_statistics_witness :
  cache_reachable cache_k ∧
  cache_step 5 [] (CallGetKey "k") cache_k = Some (cache_k_read, []) ∧
  Cache.stats cache_k = Cache.mkStats 0 0 0 0 1 ∧
  Cache.stats cache_k_read = Cache.mkStats 1 0 0 0 2 ∧
  Cache.operations (Cache.stats cache_k_read)
  = Cache.operations (Cache.stats cache_k)
    + (if counted (CallGetKey "k") then 1 else 0) ∧
  (Cache.hits (Cache.stats cache_k_read) = Cache.hits (Cache.stats cache_k) ∧
   Cache.misses (Cache.stats cache_k_read) = Cache.misses (Cache.stats cache_k) ∨
   is_read (CallGetKey "k") = true ∧
   (Cache.hits (Cache.stats cache_k_read) = Cache.hits (Cache.stats cache_k) + 1 ∧
    Cache.misses (Cache.stats cache_k_read) = Cache.misses (Cache.stats cache_k) ∨
    Cache.hits (Cache.stats cache_k_read) = Cache.hits (Cache.stats cache_k) ∧
    Cache.misses (Cache.stats cache_k_read) = Cache.misses (Cache.stats cache_k) + 1)) ∧
  Cache.evictions (Cache.stats cache_k) ≤ Cache.evictions (Cache.stats cache_k_read) ∧
  Cache.expirations (Cache.stats cache_k) ≤ Cache.expirations (Cache.stats cache_k_read).
Proof.
  assert (H : cache_reachable cache_k).
  { apply (cache_run_reachable _ [(0, CallSetKey "k" "v" (Some 10))] [] cache0 cache_k []).
    - apply reachable_cache_new.
    - repeat constructor.
    - vm_compute. reflexivity. }
  assert (E : cache_step 5 [] (CallGetKey "k") cache_k = Some (cache_k_read, []))
    by (vm_compute; reflexivity).
  assert (H1 : Cache.stats cache_k = Cache.mkStats 0 0 0 0 1)
    by (vm_compute; reflexivity).
  assert (H2 : Cache.stats cache_k_read = Cache.mkStats 1 0 0 0 2)
    by (vm_compute; reflexivity).
  exact (conj H (conj E (conj H1 (conj H2
           (X22_call_statistics cache_k 5 [] (CallGetKey "k") cache_k_read [] H E))))).
Defined.

(** X23: in every state that the operations and the timers make from a
    new cache, the five counters of the statistics are not negative,
    and the hits and the misses together are at most the operations. *)
Theorem X23_statistics_consistent (c : Cache.t) :
  cache_reachable c →
  0 ≤ Cache.hits (Cache.stats c) ∧ 0 ≤ Cache.misses (Cache.stats c) ∧
  0 ≤ Cache.evictions (Cache.stats c) ∧ 0 ≤ Cache.expirations (Cache.stats c) ∧
  Cache.hits (Cache.stats c) + Cache.misses (Cache.stats c)
  ≤ Cache.operations (Cache.stats c).
Proof.
  induction 1 as [options|c now tp call c' tp' Hr IH _ E].
  - cbn. lia.
  - pose proof (cache_reachable_inv _ _ Hr) as Hinv.
    destruct (cache_step_stats _ _ _ _ _ _ Hinv E) as (H1 & H2 & H3 & H4).
    assert (Hc : is_read call = true → counted call = true) by (by destruct call).
    destruct H2 as [[H2 H2']|[Hrd H2]].
    + destruct (counted call); lia.
    + rewrite (Hc Hrd) in H1. lia.
Qed.

Lemma X23_statistics_consistent_witness :
  cache_reachable cache_reads ∧
  Cache.stats cache_reads = Cache.mkStats 1 1 0 0 4 ∧
  0 ≤ Cache.hits (Cache.stats cache_reads) ∧
  0 ≤ Cache.misses (Cache.stats cache_reads) ∧
  0 ≤ Cache.evictions (Cache.stats cache_reads) ∧
  0 ≤ Cache.expirations (Cache.stats cache_reads) ∧
  Cache.hits (Cache.stats cache_reads) + Cache.misses (Cache.stats cache_reads)
  ≤ Cache.operations (Cache.stats cache_reads).
Proof.
  assert (H : cache_reachable cache_reads).
  { apply (cache_run_reachable _ calls_reads [] cache0 cache_reads []).
    - apply reachable_cache_new.
    - repeat constructor.
    - vm_compute. reflexivity. }
  assert (H1 : Cache.stats cache_reads = Cache.mkStats 1 1 0 0 4)
    by (vm_compute; reflexivity).
  exact (conj H (conj H1 (X23_statistics_consistent cache_reads H))).
Defined.

(** ** The eviction before a write *)
Section eviction.
Implicit Types (c : Cache.t) (key k : string) (e : CacheEntry) (tp : tape).
Implicit Types (call : cache_call).

Lemma deleteKey_pool key c :
  Cache.evictionPool (Cache._deleteKey key c) = Cache.evictionPool c.
Proof.
  unfold Cache._deleteKey.
  by rewrite (surjective_pairing (Dictionary.get (Cache.store c) key)).
Qed.

Lemma purge_step_no_empty c c' :
  dict_wf (Cache.store c) → purge_step c c' → no_empty_key c → no_empty_key c'.
Proof.
  intros Hwf Hs [Hp Hl]. split.
  - destruct Hs as [key c0|c0|c0 c1 Hb].
    + by rewrite deleteKey_pool.
    + done.
    + destruct Hb as (_ & _ & _ & _ & _ & _ & _ & Hpool & _).
      intros [?|[e He]]%Hpool; [done|congruence].
  - destruct (purge_step_key c c' "" Hwf Hs) as [(H1 & _)|(H1 & _)]; congruence.
Qed.

Lemma purge_steps_no_empty c c' :
  dict_wf (Cache.store c) → purge_steps c c' → no_empty_key c → no_empty_key c'.
Proof.
  intros Hwf Hs. induction Hs as [|c1 c2 c3 H12 _ IH]; [done|].
  intros Hn. apply IH; [by apply (purge_step_wf c1)|by apply (purge_step_no_empty c1)].
Qed.

Lemma frame_no_empty call key c c' :
  key ≠ "" → call_frame call key c c' → no_empty_key c → no_empty_key c'.
Proof.
  intros Hk (Hlk & _ & _ & _ & (Hpool & _) & _) [Hp Hl]. split; [by rewrite Hpool|].
  rewrite Hlk; [done|]. by intros <-.
Qed.

Lemma cache_reachable_no_empty c :
  cache_reachable_by (λ call, call_key call ≠ Some "") c → no_empty_key c.
Proof.
  induction 1 as [options|c now tp call c' tp' Hr IH Hk E].
  - split; [|done]. cbn. apply not_elem_of_nil.
  - pose proof (cache_reachable_inv _ _ Hr) as Hinv.
    destruct (call_key call) as [key|] eqn:Ek.
    + destruct (cache_step_frame _ _ _ _ _ _ Hinv E) as (c1 & H1 & Hf).
      rewrite Ek in Hf. change (default "" (Some key)) with key in Hf.
      apply (frame_no_empty call key c1); [congruence|done|].
      destruct (counted call).
      * apply (purge_steps_no_empty (Cache.count_operation c) c1); [apply Hinv|done..].
      * apply (purge_steps_no_empty c c1); [apply Hinv|done..].
    + destruct call; try done; revert E; cbn [cache_step]; intros [= <- <-].
      * apply (purge_steps_no_empty c); [apply Hinv|apply shutdown_steps|done].
      * apply (purge_steps_no_empty c); [apply Hinv|apply tick_steps|done].
      * unfold Cache.decayTick. by destruct (UsageTracker.decayTimer _).
Qed.

(** A pool that is not empty and does not hold the empty string gives
    a victim. *)
Lemma evictVictim_continue c :
  ("" ∉ Cache.evictionPool c) → Cache.evictionPool c ≠ [] →
  (Cache.evictVictim c).2 = Cache.Continue.
Proof.
  unfold Cache.evictVictim. intros Hp Hne.
  destruct (Cache.evictionPool c) as [|victim pool]; [done|].
  rewrite bool_decide_true; [|intros ->; apply Hp; by left].
  rewrite (surjective_pairing (Dictionary.has _ victim)).
  by destruct (Dictionary.has _ victim).2.
Qed.

Lemma dynamicPoolSize_pos c : (1 ≤ Cache.dynamicPoolSize c)%nat.
Proof. unfold Cache.dynamicPoolSize. repeat case_bool_decide; lia. Qed.

(** A refill leaves the loop on an empty store, and fills the pool
    otherwise. *)
Lemma refillPool_budget tp c c1 tp1 (fl : Cache.flow) :
  1 ≤ Cache.evictionSampleSize c →
  Cache.refillPool tp c = Some (c1, tp1, fl) →
  (fl = Cache.Break ∧ Cache.overBudget c1 = false) ∨
  (fl = Cache.Continue ∧ Cache.evictionPool c1 ≠ []).
Proof.
  intros Hess. unfold Cache.refillPool.
  rewrite (surjective_pairing (Dictionary.keys _)), Dictionary_keys_fst,
    Dictionary_keys_snd.
  case_bool_decide as Hlen.
  - intros [= <- <- <-]. left. split; [done|]. unfold Cache.overBudget. cbn.
    rewrite Dictionary_size_keys, Hlen. apply andb_false_r.
  - destruct (Cache.sampleKeys _ _ _ _) as [[sampled tp2]|] eqn:Es; [|done].
    cbn [mbind option_bind]. intros [= <- <- <-]. right. split; [done|].
    destruct (sampleKeys_spec _ _ _ _ _ _ Es) as [_ Hsz];
      [intros k []%elem_of_nil|].
    cbn [Cache.evictionPool Cache.with_pool]. intros Hnil.
    apply (f_equal length) in Hnil. rewrite length_take in Hnil.
    destruct (sort_spec (Cache.evictionOrder
                           (Cache.with_store (Dictionary.step (Cache.store c)) c))
                sampled) as [_ Hl].
    rewrite Hl in Hnil. cbn [length] in Hnil.
    pose proof (dynamicPoolSize_pos (Cache.with_store (Dictionary.step (Cache.store c)) c)).
    cbn [Cache.evictionSampleSize Cache.with_store] in Hsz. lia.
Qed.

(** The loop of the eviction ends within the budget or on an empty
    store. *)
Lemma evictLoop_budget (fuel : nat) tp c c' tp' :
  dict_wf (Cache.store c) → no_empty_key c → 1 ≤ Cache.evictionSampleSize c →
  Cache.evictLoop fuel tp c = Some (c', tp') → Cache.overBudget c' = false.
Proof.
  revert tp c. induction fuel as [|fuel IH]; intros tp c Hwf Hne Hess;
    cbn [Cache.evictLoop].
  - destruct (Cache.overBudget c) eqn:Ho; [done|]. by intros [= <- <-].
  - destruct (Cache.overBudget c) eqn:Ho; [|by intros [= <- <-]].
    assert (Hre : ∀ c1 tp1 fl,
              (if bool_decide (length (Cache.evictionPool c) = 0%nat)
               then Cache.refillPool tp c
               else Some (c, tp, Cache.Continue)) = Some (c1, tp1, fl) →
              purge_steps c c1 ∧
              ((fl = Cache.Break ∧ Cache.overBudget c1 = false) ∨
               (fl = Cache.Continue ∧ Cache.evictionPool c1 ≠ []))).
    { intros c1 tp1 fl. case_bool_decide as Hlen.
      - intros Er. split; [by apply (refillPool_steps tp c c1 tp1 fl)|].
        by apply (refillPool_budget tp c c1 tp1).
      - intros [= <- <- <-]. split; [apply purge_steps_refl|]. right. split; [done|].
        intros Hnil. by rewrite Hnil in Hlen. }
    destruct (if bool_decide _ then _ else _) as [[[c1 tp1] fl]|]; [|done].
    destruct (Hre _ _ _ eq_refl) as [H1 Hfl]. cbn [mbind option_bind].
    destruct Hfl as [[-> Hb]|[-> Hpool]]; [by intros [= <- <-]|].
    pose proof (purge_steps_wf _ _ Hwf H1) as Hwf1.
    pose proof (purge_steps_no_empty _ _ Hwf H1 Hne) as Hne1.
    pose proof (purge_steps_options _ _ H1) as (_ & _ & Hess1 & _).
    pose proof (evictVictim_continue c1 (proj1 Hne1) Hpool) as Hv.
    pose proof (evictVictim_steps c1) as H2.
    destruct (Cache.evictVictim c1) as [c2 fl2]. cbn [fst snd] in Hv, H2. subst fl2.
    apply IH.
    + by apply (purge_steps_wf c1).
    + by apply (purge_steps_no_empty c1).
    + pose proof (purge_steps_options _ _ H2) as (_ & _ & Hess2 & _). lia.
Qed.

Lemma evictIfNeeded_budget tp c c' tp' :
  dict_wf (Cache.store c) → no_empty_key c → 1 ≤ Cache.evictionSampleSize c →
  Cache._evictIfNeeded tp c = Some (c', tp') → Cache.overBudget c' = false.
Proof.
  intros Hwf Hne Hess. unfold Cache._evictIfNeeded. case_bool_decide as Hm.
  - intros [= <- <-]. unfold Cache.overBudget.
    rewrite (bool_decide_false (Cache.maxmemory c < Cache.currentMemoryUsed c)) by lia.
    done.
  - by apply evictLoop_budget.
Qed.

(** A cache that is not over its budget counts no more memory than
    its budget. *)
Lemma within_budget c :
  Cache.overBudget c = false → Cache.currentMemoryUsed c ≤ mem_sum c →
  0 ≤ Cache.maxmemory c → Cache.currentMemoryUsed c ≤ Cache.maxmemory c.
Proof.
  unfold Cache.overBudget. intros Ho Hs Hmax.
  apply andb_false_iff in Ho as [Ho|Ho]; apply bool_decide_eq_false in Ho; [lia|].
  rewrite Dictionary_size_keys in Ho. unfold mem_sum in Hs.
  destruct (dict_keys (Cache.store c)); [cbn in Hs; lia|cbn in Ho; lia].
Qed.
End eviction.

(** X24: when the empty string has never been a key, the sample size
    of the eviction is at least 1 and [maxmemory] is not negative, a
    [set], [zadd] or [sadd] that returns leaves the counter that
    [approxMemoryUsed()] returns at most at [maxmemory] and the
    [memoryUsed] of the entry of its key: the eviction before the write
    has brought the cache within its budget. *)
Theorem X24_write_within_budget (c : Cache.t) (now : Z) (tp : tape)
    (call : cache_call) (key : string) (c' : Cache.t) (tp' : tape) :
  cache_reachable_by (λ call, call_key call ≠ Some "") c →
  1 ≤ Cache.evictionSampleSize c → 0 ≤ Cache.maxmemory c →
  is_write call = true → call_key call = Some key →
  cache_step now tp call c = Some (c', tp') →
  Cache.maxmemory c' = Cache.maxmemory c ∧
  Cache.approxMemoryUsed c' ≤ Cache.maxmemory c + entry_memory c' key.
Proof.
  intros Hr Hess Hmax Hw Hkey E. unfold Cache.approxMemoryUsed.
  pose proof (cache_reachable_inv _ _ Hr) as Hinv.
  pose proof (cache_reachable_no_empty _ Hr) as Hne.
  destruct (cache_reachable_nonneg _ _ Hr) as [Hnn Hgap].
  destruct (write_step_frame _ _ _ _ _ _ Hinv Hw E)
    as (c0 & tp0 & c1 & tp1 & H0 & Eev & Hf).
  rewrite Hkey in Hf. change (default "" (Some key)) with key in Hf.
  assert (Hwf00 : dict_wf (Cache.store (Cache.count_operation c))) by apply Hinv.
  pose proof (purge_steps_wf _ _ Hwf00 H0) as Hwf0.
  pose proof (purge_steps_no_empty _ _ Hwf00 H0 Hne) as Hne0.
  pose proof (purge_steps_options _ _ H0) as (Hmax0 & _ & Hess0 & _).
  pose proof (purge_steps_gap _ _ Hwf00 H0) as Hg0.
  pose proof (purge_steps_nonneg _ _ Hwf00 H0 Hnn) as Hnn0.
  cbn [Cache.maxmemory Cache.evictionSampleSize Cache.count_operation Cache.with_stats]
    in Hmax0, Hess0.
  change (mem_sum (Cache.count_operation c)) with (mem_sum c) in Hg0.
  change (Cache.currentMemoryUsed (Cache.count_operation c))
    with (Cache.currentMemoryUsed c) in Hg0.
  pose proof (evictIfNeeded_steps _ _ _ _ Eev) as H1.
  pose proof (purge_steps_wf _ _ Hwf0 H1) as Hwf1.
  pose proof (purge_steps_options _ _ H1) as (Hmax1 & _).
  pose proof (purge_steps_gap _ _ Hwf0 H1) as Hg1.
  pose proof (purge_steps_nonneg _ _ Hwf0 H1 Hnn0) as Hnn1.
  assert (Hb1 : Cache.overBudget c1 = false).
  { apply (evictIfNeeded_budget tp0 c0 c1 tp1); [done|done|lia|done]. }
  pose proof (within_budget c1 Hb1 ltac:(lia) ltac:(lia)) as Hin.
  set (c3 := Cache.with_store (Dictionary.step (Cache.store c1)) c1) in *.
  assert (Hnn3 : mem_nonneg c3).
  { apply (purge_steps_nonneg c1); [done|apply purge_steps_rehash|done]. }
  assert (Hk3 : 0 ≤ entry_memory c3 key).
  { unfold entry_memory. destruct (store_lookup c3 key) as [e|] eqn:He; [|done].
    by apply (Hnn3 key). }
  destruct Hf as (_ & _ & _ & [Hb|[Hz _]] & (_ & Hmax' & _) & _).
  - unfold mem_balanced in Hb. change (Cache.currentMemoryUsed c3)
      with (Cache.currentMemoryUsed c1) in Hb.
    change (Cache.maxmemory c3) with (Cache.maxmemory c1) in Hmax'.
    split; lia.
  - by destruct call.
Qed.

Lemma X24_write_within_budget_witness :
  cache_reachable_by (λ call, call_key call ≠ Some "") cache_full ∧
  1 ≤ Cache.evictionSampleSize cache_full ∧ 0 ≤ Cache.maxmemory cache_full ∧
  cache_step 2 tape_sample (CallSetKey "c" "z" None) cache_full
  = Some (cache_evicted, []) ∧
  Cache.approxMemoryUsed cache_full = 104 ∧
  store_lookup cache_evicted "a" = None ∧
  Cache.approxMemoryUsed cache_evicted = 104 ∧
  entry_memory cache_evicted "c" = 52 ∧
  Cache.maxmemory cache_evicted = Cache.maxmemory cache_full ∧
  Cache.approxMemoryUsed cache_evicted
  ≤ Cache.maxmemory cache_full + entry_memory cache_evicted "c".
Proof.
  assert (H : cache_reachable_by (λ call, call_key call ≠ Some "") cache_full).
  { apply (cache_run_reachable _ calls_fill [] cache_small cache_full []).
    - apply reachable_cache_new.
    - by repeat constructor.
    - vm_compute. reflexivity. }
  assert (H1 : 1 ≤ Cache.evictionSampleSize cache_full) by (vm_compute; discriminate).
  assert (H2 : 0 ≤ Cache.maxmemory cache_full) by (vm_compute; discriminate).
  assert (E : cache_step 2 tape_sample (CallSetKey "c" "z" None) cache_full
              = Some (cache_evicted, [])) by (vm_compute; reflexivity).
  assert (H3 : Cache.approxMemoryUsed cache_full = 104) by (vm_compute; reflexivity).
  assert (H4 : store_lookup cache_evicted "a" = None) by (vm_compute; reflexivity).
  assert (H5 : Cache.approxMemoryUsed cache_evicted = 104) by (vm_compute; reflexivity).
  assert (H6 : entry_memory cache_evicted "c" = 52) by (vm_compute; reflexivity).
  exact (conj H (conj H1 (conj H2 (conj E (conj H3 (conj H4 (conj H5 (conj H6
           (X24_write_within_budget cache_full 2 tape_sample
              (CallSetKey "c" "z" None) "c" cache_evicted [] H H1 H2 eq_refl eq_refl
              E))))))))).
Defined.

(** ** The queue of the active expiration *)
Section tick_queue.
Implicit Types (c : Cache.t) (key k : string) (m : TTLManager.t).

Lemma with_ttl_id c : Cache.with_ttl (Cache.ttl c) c = c.
Proof. by destruct c. Qed.

(** Below 100 pending keys [sampleAndPurge] queues and does not
    flush. *)
Lemma sampleAndPurge_queues (n : Z) now c :
  Z.of_nat (length (TTLManager.pendingDeletes (Cache.ttl c))) + Z.max 0 n < 100 →
  ∃ m' queued,
    (TTLManager.sampleAndPurge Cache.ttl Cache.with_ttl n Cache.onExpire now c).1
    = Cache.with_ttl m' c ∧
    TTLManager.expirations m' = TTLManager.expirations (Cache.ttl c) ∧
    TTLManager.interval m' = TTLManager.interval (Cache.ttl c) ∧
    TTLManager.pendingDeletes m'
    = TTLManager.pendingDeletes (Cache.ttl c) ++ queued ∧
    Forall (λ x, TTLManager.sampled_expired (Cache.ttl c) now x = true) queued ∧
    Z.of_nat (length queued) ≤ Z.max 0 n.
Proof.
  intros Hlen. unfold TTLManager.sampleAndPurge. case_bool_decide.
  - exists (Cache.ttl c), []. cbn [fst]. rewrite with_ttl_id, app_nil_r.
    repeat split; [done|cbn; lia].
  - pose proof (sampleLoop_expirations (Z.to_nat n) (Cache.ttl c) now
                  (default 0%nat (TTLManager.keyIterator (Cache.ttl c))) 0) as He.
    destruct (sampleLoop_pending (Z.to_nat n) (Cache.ttl c) now
                (default 0%nat (TTLManager.keyIterator (Cache.ttl c))) 0)
      as (pushed & L1 & L2 & _ & L4 & L5).
    destruct (TTLManager.sampleLoop _ _ _ _ _) as [m' cnt]. cbn [fst] in *.
    rewrite bool_decide_false; [|rewrite L1, length_app; lia].
    exists m', pushed. cbn [fst]. repeat split; [done..|lia].
Qed.

Lemma tickLoop_queues (fuel : nat) (sampleSize maxRounds : Z) now (rounds : Z) c :
  Z.of_nat (length (TTLManager.pendingDeletes (Cache.ttl c)))
  + (Z.max (rounds + 1) maxRounds - rounds) * Z.max 0 sampleSize < 100 →
  ∃ m' queued,
    (TTLManager.tickLoop Cache.ttl Cache.with_ttl fuel sampleSize maxRounds
       Cache.onExpire now rounds c).1 = Cache.with_ttl m' c ∧
    TTLManager.expirations m' = TTLManager.expirations (Cache.ttl c) ∧
    TTLManager.interval m' = TTLManager.interval (Cache.ttl c) ∧
    TTLManager.pendingDeletes m'
    = TTLManager.pendingDeletes (Cache.ttl c) ++ queued ∧
    Forall (λ x, TTLManager.sampled_expired (Cache.ttl c) now x = true) queued ∧
    Z.of_nat (length queued)
    ≤ (Z.max (rounds + 1) maxRounds - rounds) * Z.max 0 sampleSize.
Proof.
  revert rounds c. induction fuel as [|fuel IH]; intros rounds c Hlen;
    rewrite tickLoop_unfold; unfold TTLManager.round; cbv zeta.
  all: set (sampled := Z.min sampleSize
                         (Z.of_nat (JsMap.size (TTLManager.expirations (Cache.ttl c))))).
  all: assert (Hsm : Z.max 0 sampled ≤ Z.max 0 sampleSize) by (unfold sampled; lia).
  all: case_bool_decide as Hz;
    [exists (Cache.ttl c), []; cbn [fst]; rewrite with_ttl_id, app_nil_r;
     repeat split; [done|cbn; nia]|].
  all: destruct (sampleAndPurge_queues sampled now c ltac:(nia))
    as (m1 & q1 & E1 & X1 & I1 & P1 & F1 & N1).
  all: destruct (TTLManager.sampleAndPurge _ _ _ _ _ c) as [c1 cnt];
    cbn [fst] in E1; subst c1.
  all: destruct (TTLManager.continue maxRounds (rounds + 1) _) eqn:Hc; cbn [fst];
    try (exists m1, q1; repeat split; [done..|nia]).
  unfold TTLManager.continue in Hc. apply andb_true_iff in Hc as [_ Hc].
  apply bool_decide_eq_true in Hc. cbn [fst snd] in Hc.
  destruct (IH (rounds + 1) (Cache.with_ttl m1 c)) as (m2 & q2 & E2 & X2 & I2 & P2 & F2 & N2).
  { cbn [Cache.ttl Cache.with_ttl]. rewrite P1, length_app. nia. }
  cbn [Cache.ttl Cache.with_ttl] in X2, I2, P2, F2.
  exists m2, (q1 ++ q2). rewrite E2. split; [done|]. split; [congruence|].
  split; [congruence|]. split; [by rewrite P2, P1, app_assoc|]. split.
  - apply Forall_app. split; [done|]. eapply Forall_impl; [exact F2|].
    intros x Hx. cbn beta in Hx. by rewrite <- (sampled_expired_ext (Cache.ttl c) m1).
  - rewrite length_app. nia.
Qed.
End tick_queue.

(** X25: a tick of the expiration timer on a cache whose queue of
    pending deletes holds fewer than 100 keys, even with the keys that
    its rounds can add, changes the TTL manager only: it adds to the
    queue keys whose deadline has passed, at most [sampleSize] in each
    of at most [max(1, maxRounds)] rounds, and purges nothing.  The
    entries, the deadlines, the usage metadata, the memory counter and
    the statistics stay as they are. *)
Theorem X25_tick_only_queues (c : Cache.t) (now : Z) (tm : TTLManager.Timer) :
  TTLManager.interval (Cache.ttl c) = Some tm →
  Z.of_nat (length (TTLManager.pendingDeletes (Cache.ttl c)))
  + Z.max 1 (TTLManager.maxRounds tm) * Z.max 0 (TTLManager.sampleSize tm) < 100 →
  ∃ m' queued,
    (Cache.activeExpirationTick now c).1 = Cache.with_ttl m' c ∧
    TTLManager.expirations m' = TTLManager.expirations (Cache.ttl c) ∧
    TTLManager.interval m' = Some tm ∧
    TTLManager.pendingDeletes m'
    = TTLManager.pendingDeletes (Cache.ttl c) ++ queued ∧
    Forall (λ key, ∃ deadline, ttl_lookup c key = Some deadline ∧
                               deadline ≠ 0 ∧ deadline ≤ now) queued ∧
    Z.of_nat (length queued)
    ≤ Z.max 1 (TTLManager.maxRounds tm) * Z.max 0 (TTLManager.sampleSize tm).
Proof.
  intros Hi Hlen. unfold Cache.activeExpirationTick, TTLManager.tick. rewrite Hi.
  destruct (tickLoop_queues (Z.to_nat (TTLManager.maxRounds tm))
              (TTLManager.sampleSize tm) (TTLManager.maxRounds tm) now 0 c)
    as (m' & queued & E & X & I & P & F & N).
  { rewrite Z.add_0_l, Z.sub_0_r. done. }
  rewrite Z.add_0_l, Z.sub_0_r in N.
  exists m', queued. split; [done|]. split; [done|]. split; [congruence|].
  split; [done|]. split; [|done].
  eapply Forall_impl; [exact F|]. intros key Hk. cbn beta in Hk.
  unfold TTLManager.sampled_expired in Hk. unfold ttl_lookup.
  destruct (JsMap.get _ key) as [deadline|]; [|done].
  apply andb_true_iff in Hk as [H1%bool_decide_eq_true H2%bool_decide_eq_true].
  by exists deadline.
Qed.

Lemma X25_tick_only_queues_witness :
  TTLManager.interval (Cache.ttl cache_k) = Some (TTLManager.mkTimer 200 10 2) ∧
  Z.of_nat (length (TTLManager.pendingDeletes (Cache.ttl cache_k)))
  + Z.max 1 2 * Z.max 0 10 < 100 ∧
  TTLManager.pendingDeletes (Cache.ttl (Cache.activeExpirationTick 20 cache_k).1)
  = ["k"; "k"] ∧
  store_lookup (Cache.activeExpirationTick 20 cache_k).1 "k"
  = store_lookup cache_k "k" ∧
  ∃ m' queued,
    (Cache.activeExpirationTick 20 cache_k).1 = Cache.with_ttl m' cache_k ∧
    TTLManager.expirations m' = TTLManager.expirations (Cache.ttl cache_k) ∧
    TTLManager.interval m' = Some (TTLManager.mkTimer 200 10 2) ∧
    TTLManager.pendingDeletes m'
    = TTLManager.pendingDeletes (Cache.ttl cache_k) ++ queued ∧
    Forall (λ key, ∃ deadline, ttl_lookup cache_k key = Some deadline ∧
                               deadline ≠ 0 ∧ deadline ≤ 20) queued ∧
    Z.of_nat (length queued) ≤ Z.max 1 2 * Z.max 0 10.
Proof.
  assert (H1 : TTLManager.interval (Cache.ttl cache_k)
               = Some (TTLManager.mkTimer 200 10 2)) by (vm_compute; reflexivity).
  assert (H2 : Z.of_nat (length (TTLManager.pendingDeletes (Cache.ttl cache_k)))
               + Z.max 1 2 * Z.max 0 10 < 100) by (vm_compute; reflexivity).
  assert (H3 : TTLManager.pendingDeletes
                 (Cache.ttl (Cache.activeExpirationTick 20 cache_k).1)
               = ["k"; "k"]) by (vm_compute; reflexivity).
  assert (H4 : store_lookup (Cache.activeExpirationTick 20 cache_k).1 "k"
               = store_lookup cache_k "k") by (vm_compute; reflexivity).
  exact (conj H1 (conj H2 (conj H3 (conj H4
           (X25_tick_only_queues cache_k 20 (TTLManager.mkTimer 200 10 2) H1 H2))))).
Defined.

(** ** The forced end of a rehash *)
Section force_rehash.
Context {K V : Type} `{EqDecision K}.
Implicit Types (d : Dictionary.t K V) (m : JsMap.t K V) (k : K) (v : V).

(** The loop of a migration step ends the rehash or moves the iterator
    by the size of the step. *)
Lemma rehashLoop_progress n (h0 h1 : JsMap.t K V) idx it stp :
  0 ≤ idx →
  let d' := (Dictionary._rehashLoop n h0 h1 idx it stp).1 in
  Dictionary.isRehashing d' = false ∨
  (∃ it', Dictionary.rehashIterator d' = Some it' ∧ (it + n ≤ it')%nat ∧
          length (Dictionary.ht0 d') = length h0 ∧
          ((1 ≤ n)%nat → (it' ≤ length h0)%nat)).
Proof.
  revert h0 h1 idx it. induction n as [|n IH]; intros h0 h1 idx it Hidx;
    cbn [Dictionary._rehashLoop].
  - right. exists it. cbn. split; [done|]. split; [lia|]. split; [done|lia].
  - destruct (JsMap.next h0 it) as [[[key val] it1]|] eqn:Hnext; [|by left].
    apply JsMap_next_Some in Hnext as (Hit & _).
    destruct (IH (JsMap.delete h0 key).1 (JsMap.set h1 key val) (idx + 1) it1)
      as [Hd|(it' & E1 & E2 & E3 & E4)]; [lia|by left|].
    right. exists it'. rewrite JsMap_length_delete in E3, E4.
    split; [done|]. split; [lia|]. split; [done|]. intros _.
    destruct n as [|n]; [|apply E4; lia].
    cbn [Dictionary._rehashLoop Dictionary.rehashIterator fst] in E1.
    injection E1 as <-. lia.
Qed.

Lemma rehashStep_spec d (n : nat) :
  dict_wf d →
  dict_wf (Dictionary._rehashStep d n).1 ∧
  ∀ k, dict_lookup (Dictionary._rehashStep d n).1 k = dict_lookup d k.
Proof.
  intros Hwf. pose proof (rehashing_ht1_wf d Hwf) as Hr.
  unfold Dictionary._rehashStep. unfold dict_lookup at 2.
  unfold Dictionary.rehashing_ht1 in *.
  destruct (Dictionary.isRehashing d) eqn:Hre; simpl.
  2:{ split; [done|]. intros k. unfold dict_lookup, Dictionary.rehashing_ht1.
      by rewrite Hre. }
  destruct (Dictionary.ht1 d) as [h1|] eqn:E1.
  2:{ destruct Hr as (_ & _ & Hidx). unfold Dictionary.isRehashing in Hre.
      rewrite Hidx in Hre. done. }
  destruct Hr as (_ & [it Hit] & Hidx).
  rewrite Hit. unfold dict_wf in Hwf. rewrite E1, Hit in Hwf.
  destruct Hwf as (_ & Hnd & Hdead).
  destruct (rehashLoop_spec n (Dictionary.ht0 d) h1 (Dictionary.rehashidx d) it
              (Dictionary.rehashStepSize d) Hidx Hnd Hdead) as (H1 & _ & H2).
  done.
Qed.

(** What is left of the slots of [ht0] for the iterator. *)
Lemma rehashStep_progress d (n : nat) :
  dict_wf d → (1 ≤ n)%nat → Dictionary.isRehashing d = true →
  Dictionary.isRehashing (Dictionary._rehashStep d n).1 = false ∨
  (length (Dictionary.ht0 (Dictionary._rehashStep d n).1)
   - default 0%nat (Dictionary.rehashIterator (Dictionary._rehashStep d n).1)
   < length (Dictionary.ht0 d) - default 0%nat (Dictionary.rehashIterator d))%nat.
Proof.
  intros Hwf Hn Hre. pose proof (rehashing_ht1_wf d Hwf) as Hr.
  unfold Dictionary._rehashStep. unfold Dictionary.rehashing_ht1 in Hr.
  rewrite Hre in Hr |- *. cbn [negb].
  destruct (Dictionary.ht1 d) as [h1|] eqn:E1.
  2:{ destruct Hr as (_ & _ & Hidx). unfold Dictionary.isRehashing in Hre.
      rewrite Hidx in Hre. done. }
  destruct Hr as (_ & [it Hit] & Hidx). rewrite Hit.
  destruct (rehashLoop_progress n (Dictionary.ht0 d) h1 (Dictionary.rehashidx d) it
              (Dictionary.rehashStepSize d) Hidx) as [Hd|(it' & E2 & E3 & E4 & E5)];
    [by left|].
  right. rewrite E2, E4. specialize (E5 Hn).
  change (default 0%nat (Some it)) with it. change (default 0%nat (Some it')) with it'.
  lia.
Qed.

Lemma forceRehashLoop_spec (fuel : nat) d :
  dict_wf d →
  (length (Dictionary.ht0 d) - default 0%nat (Dictionary.rehashIterator d) < fuel)%nat →
  ∃ d', Dictionary._forceRehashLoop fuel d = Some d' ∧
        Dictionary.isRehashing d' = false ∧ dict_wf d' ∧
        ∀ k, dict_lookup d' k = dict_lookup d k.
Proof.
  revert d. induction fuel as [|fuel IH]; intros d Hwf Hfuel; [lia|].
  cbn [Dictionary._forceRehashLoop].
  destruct (Dictionary.isRehashing d) eqn:Hre; [|by exists d].
  destruct (rehashStep_spec d 100 Hwf) as [Hwf1 Hlk1].
  destruct (rehashStep_progress d 100 Hwf ltac:(lia) Hre) as [Hd|Hlt].
  - exists (Dictionary._rehashStep d 100).1. split; [|done].
    destruct fuel; cbn [Dictionary._forceRehashLoop]; by rewrite Hd.
  - destruct (IH (Dictionary._rehashStep d 100).1 Hwf1 ltac:(lia))
      as (d' & E & H1 & H2 & H3).
    exists d'. split; [done|]. split; [done|]. split; [done|].
    intros k. by rewrite H3.
Qed.

Lemma dict_lookup_size d d' :
  dict_wf d → dict_wf d' → (∀ k, dict_lookup d' k = dict_lookup d k) →
  Dictionary.size d' = Dictionary.size d.
Proof.
  intros Hwf Hwf' Hlk. rewrite !Dictionary_size_keys. apply Permutation_length.
  apply NoDup_Permutation; [by apply dict_keys_NoDup..|].
  intros k. by rewrite !dict_keys_spec, Hlk.
Qed.

Lemma Dictionary_run_wf (n : nat) (cs : list (dict_call K V)) :
  dict_wf (Dictionary_run (Dictionary.new n) cs).
Proof.
  cut (∀ d m, dict_refines d m → dict_wf (Dictionary_run d cs)).
  { intros H. apply (H _ JsMap.empty). apply dict_refines_new. }
  induction cs as [|c cs IH]; intros d m HR; [apply HR|].
  cbn [Dictionary_run foldl]. destruct (dict_refines_call d m c HR) as [HR' _].
  by apply (IH _ _ HR').
Qed.
End force_rehash.

(** X26: on a dictionary that [set], [get], [delete], [has], [keys]
    and [size] calls have made from a new one, [_forceRehashComplete()]
    returns, and leaves a dictionary that is not rehashing, in which
    [get] returns for every key what it returned before, and of the
    same size. *)
Theorem X26_forceRehashComplete {K V : Type} `{EqDecision K}
    (n : nat) (cs : list (dict_call K V)) :
  ∃ d', Dictionary._forceRehashComplete (Dictionary_run (Dictionary.new n) cs)
        = Some d' ∧
        Dictionary.isRehashing d' = false ∧
        (∀ k, (Dictionary.get d' k).2
              = (Dictionary.get (Dictionary_run (Dictionary.new n) cs) k).2) ∧
        Dictionary.size d' = Dictionary.size (Dictionary_run (Dictionary.new n) cs).
Proof.
  pose proof (Dictionary_run_wf n cs) as Hwf.
  destruct (forceRehashLoop_spec
              (S (length (Dictionary.ht0 (Dictionary_run (Dictionary.new n) cs))))
              _ Hwf ltac:(lia)) as (d' & E & H1 & H2 & H3).
  exists d'. split; [done|]. split; [done|]. split.
  - intros k. rewrite !Dictionary_get_snd.
    destruct (step_spec _ Hwf) as (_ & _ & ->).
    destruct (step_spec _ H2) as (_ & _ & ->). done.
  - by apply dict_lookup_size.
Qed.

(** ** The side tables and the store *)
Section side_tables.
Implicit Types (c : Cache.t) (key k : string).

Lemma purge_steps_consistent c c' k :
  dict_wf (Cache.store c) → purge_steps c c' →
  key_consistent c k → key_consistent c' k.
Proof.
  intros Hwf Hs. unfold key_consistent.
  destruct (purge_steps_key c c' k Hwf Hs) as [(H1 & H2 & H3)|(H1 & H2 & H3)].
  - by rewrite H1, H2, H3.
  - rewrite H1, H2, H3. intros _. split; [done|]. by intros [? ?].
Qed.

Lemma frame_consistent (call : cache_call) key c c' k :
  call_frame call key c c' → key_consistent c k → key_consistent c' k.
Proof.
  intros (Hlk & _ & _ & _ & _ & Hside & Hkey).
  destruct (decide (k = key)) as [->|Hne]; [done|].
  destruct (Hside k Hne) as [Hu Ht]. unfold key_consistent.
  by rewrite Hu, Ht, (Hlk k Hne).
Qed.

Lemma cache_step_consistent now tp (call : cache_call) c c' tp' k :
  cache_inv c → cache_step now tp call c = Some (c', tp') →
  key_consistent c k → key_consistent c' k.
Proof.
  intros Hinv E Hk.
  destruct (cache_step_frame _ _ _ _ _ _ Hinv E) as (c1 & H1 & Hf).
  apply (frame_consistent call _ c1 c' k Hf).
  destruct (counted call).
  - apply (purge_steps_consistent (Cache.count_operation c) c1); [apply Hinv|done..].
  - apply (purge_steps_consistent c c1); [apply Hinv|done..].
Qed.

Lemma cache_reachable_consistent (allowed : cache_call → Prop) c k :
  cache_reachable_by allowed c → key_consistent c k.
Proof.
  induction 1 as [options|c now tp call c' tp' Hr IH _ E].
  - split; [|by intros [? ?]]. unfold usage_lookup, store_lookup.
    assert (Hm : UsageTracker.metadata (Cache.usage (Cache.new options)) = ∅).
    { cbn. by destruct (opt_evictionPolicy options) as [[]|]. }
    rewrite Hm, lookup_empty. cbn. split; by intros [? ?].
  - pose proof (cache_reachable_inv _ _ Hr) as Hinv.
    by apply (cache_step_consistent now tp call c c' tp').
Qed.
End side_tables.

(** X27: in every state that the operations and the timers make from a
    new cache, a key has usage metadata exactly when it has an entry in
    the store, and a key that has a deadline has an entry: no record of
    the TTL manager or of the usage tracker outlives its entry. *)
Theorem X27_side_tables_consistent (c : Cache.t) (key : string) :
  cache_reachable c →
  (is_Some (usage_lookup c key) ↔ is_Some (store_lookup c key)) ∧
  (is_Some (ttl_lookup c key) → is_Some (store_lookup c key)).
Proof. apply cache_reachable_consistent. Qed.

Lemma X27_side_tables_consistent_witness :
  cache_reachable cache_evicted ∧
  usage_lookup cache_evicted "a" = None ∧
  (is_Some (usage_lookup cache_evicted "a") ↔ is_Some (store_lookup cache_evicted "a")) ∧
  (is_Some (ttl_lookup cache_evicted "a") → is_Some (store_lookup cache_evicted "a")).
Proof.
  assert (H : cache_reachable cache_evicted).
  { apply (cache_run_reachable _ (calls_fill ++ [(2, CallSetKey "c" "z" None)])
             tape_sample cache_small cache_evicted []).
    - apply reachable_cache_new.
    - by repeat constructor.
    - vm_compute. reflexivity. }
  assert (H1 : usage_lookup cache_evicted "a" = None) by (vm_compute; reflexivity).
  exact (conj H (conj H1 (X27_side_tables_consistent cache_evicted "a" H))).
Defined.

(** ** The order of the eviction pool *)
Section pool_order.
Implicit Types (c : Cache.t) (key k : string) (l : list string).

Lemma rank_le_trans (a b d : Z * Z) : rank_le a b → rank_le b d → rank_le a d.
Proof. unfold rank_le. lia. Qed.

Lemma rank_le_total (a b : Z * Z) : rank_le a b ∨ rank_le b a.
Proof. unfold rank_le. lia. Qed.

(** On keys with usage metadata the comparison of the sort is the
    strict order of the ranks. *)
Lemma evictionOrder_rank c a b :
  is_Some (usage_lookup c a) → is_Some (usage_lookup c b) →
  Cache.evictionOrder c a b < 0 ↔ ¬ rank_le (usage_rank c b) (usage_rank c a).
Proof.
  intros [ma Ha] [mb Hb]. unfold Cache.evictionOrder, usage_rank, rank_le,
    UsageTracker.getMetadata. unfold usage_lookup in Ha, Hb. rewrite Ha, Hb.
  unfold usage_lookup. rewrite Ha, Hb.
  destruct (Cache.evictionPolicy c); cbn [fst snd]; [lia|].
  case_bool_decide; lia.
Qed.

Lemma sort_insert_perm (cmp : string → string → Z) (x : string) l :
  Cache.sort_insert cmp x l ≡ₚ x :: l.
Proof.
  induction l as [|y l IH]; cbn [Cache.sort_insert]; [done|].
  case_bool_decide; [done|]. rewrite IH. apply Permutation_swap.
Qed.

Lemma sort_perm (cmp : string → string → Z) l : Cache.sort cmp l ≡ₚ l.
Proof.
  unfold Cache.sort.
  cut (∀ acc, foldl (λ acc x, Cache.sort_insert cmp x acc) acc l ≡ₚ acc ++ l).
  { intros H. apply (H []). }
  induction l as [|x l IH]; intros acc; cbn [foldl]; [by rewrite app_nil_r|].
  rewrite IH, sort_insert_perm. by rewrite <- Permutation_middle.
Qed.

Lemma sort_insert_sorted c (x : string) l :
  is_Some (usage_lookup c x) → Forall (λ k, is_Some (usage_lookup c k)) l →
  StronglySorted (λ a b, rank_le (usage_rank c a) (usage_rank c b)) l →
  StronglySorted (λ a b, rank_le (usage_rank c a) (usage_rank c b))
    (Cache.sort_insert (Cache.evictionOrder c) x l).
Proof.
  intros Hx Hl Hs. induction Hs as [|y l Hs IH Hy]; cbn [Cache.sort_insert].
  - repeat constructor.
  - apply Forall_cons in Hl as [Hmy Hl].
    pose proof (evictionOrder_rank c x y Hx Hmy) as Hc. case_bool_decide as Hlt.
    + assert (Hxy : rank_le (usage_rank c x) (usage_rank c y)).
      { destruct (rank_le_total (usage_rank c x) (usage_rank c y)); [done|].
        by apply Hc in Hlt. }
      constructor; [by constructor|]. constructor; [done|].
      eapply Forall_impl; [exact Hy|]. intros z Hz. cbn beta in Hz.
      by apply (rank_le_trans _ (usage_rank c y)).
    + constructor; [by apply IH|].
      rewrite (sort_insert_perm (Cache.evictionOrder c) x l).
      constructor; [|done].
      destruct (decide (rank_le (usage_rank c y) (usage_rank c x))); [done|].
      by apply Hc in n.
Qed.

Lemma sort_sorted c l :
  Forall (λ k, is_Some (usage_lookup c k)) l →
  StronglySorted (λ a b, rank_le (usage_rank c a) (usage_rank c b))
    (Cache.sort (Cache.evictionOrder c) l).
Proof.
  unfold Cache.sort.
  cut (∀ acc, Forall (λ k, is_Some (usage_lookup c k)) acc →
              StronglySorted (λ a b, rank_le (usage_rank c a) (usage_rank c b)) acc →
              Forall (λ k, is_Some (usage_lookup c k)) l →
              StronglySorted (λ a b, rank_le (usage_rank c a) (usage_rank c b))
                (foldl (λ acc x, Cache.sort_insert (Cache.evictionOrder c) x acc) acc l)).
  { intros H Hl. apply H; [done|constructor|done]. }
  induction l as [|x l IH]; intros acc Hacc Hs Hl; cbn [foldl]; [done|].
  apply Forall_cons in Hl as [Hx Hl]. apply IH; [|by apply sort_insert_sorted|done].
  rewrite sort_insert_perm. by constructor.
Qed.

(** The sample holds distinct keys, as many as were asked for. *)
Lemma sampleKeys_NoDup (tp : tape) (allKeys : list string) (sampleSize : Z)
    (sampled sampled' : list string) (tp' : tape) :
  Cache.sampleKeys tp allKeys sampleSize sampled = Some (sampled', tp') →
  NoDup sampled →
  NoDup sampled' ∧
  Z.of_nat (length sampled') = Z.max sampleSize (Z.of_nat (length sampled)).
Proof.
  revert sampled. induction tp as [|r tp IH]; intros sampled; cbn [Cache.sampleKeys].
  - case_bool_decide; [done|]. intros [= <- <-] Hs. split; [done|lia].
  - case_bool_decide; [|intros [= <- <-] Hs; split; [done|lia]].
    destruct (if bool_decide (0 ≤ _) then _ else _) as [k0|] eqn:Ek; [|done].
    cbn [mbind option_bind]. intros E Hs.
    destruct (decide (k0 ∈ sampled)) as [Hin|Hin].
    + rewrite (bool_decide_true (k0 ∈ sampled)) in E by done. by apply (IH _ E).
    + rewrite (bool_decide_false (k0 ∈ sampled)) in E by done.
      destruct (IH _ E) as [H1 H2].
      { apply NoDup_app. split; [done|]. split; [|apply NoDup_singleton].
        by intros x Hx ->%list_elem_of_singleton. }
      split; [done|]. rewrite H2, length_app. cbn [length]. lia.
Qed.
End pool_order.

(** X28: a refill of the eviction pool on a state that the operations
    and the timers make from a new cache samples
    [min(2 * evictionSampleSize, number of keys)] distinct keys of the
    store, orders them by the time of their last access (under LFU by
    their frequency first), and makes the pool of the first
    [dynamicPoolSize] of them: the victims are taken in this order. *)
Theorem X28_refill_pool_sorted (c : Cache.t) (tp : tape) (c' : Cache.t) (tp' : tape) :
  cache_reachable c →
  Cache.refillPool tp c = Some (c', tp', Cache.Continue) →
  ∃ rest,
    NoDup (Cache.evictionPool c' ++ rest) ∧
    (∀ k, k ∈ Cache.evictionPool c' ++ rest → is_Some (store_lookup c k)) ∧
    StronglySorted (λ a b, rank_le (usage_rank c a) (usage_rank c b))
      (Cache.evictionPool c' ++ rest) ∧
    Z.of_nat (length (Cache.evictionPool c' ++ rest))
    = Z.max 0 (Z.min (Cache.evictionSampleSize c * 2)
                 (Z.of_nat (Dictionary.size (Cache.store c')))) ∧
    length (Cache.evictionPool c')
    = (Cache.dynamicPoolSize c' `min` length (Cache.evictionPool c' ++ rest))%nat.
Proof.
  intros Hr. pose proof (cache_reachable_inv _ _ Hr) as Hinv.
  unfold Cache.refillPool.
  rewrite (surjective_pairing (Dictionary.keys _)), Dictionary_keys_fst,
    Dictionary_keys_snd.
  case_bool_decide as Hlen; [done|].
  destruct (Cache.sampleKeys _ _ _ _) as [[sampled tp2]|] eqn:Es; [|done].
  cbn [mbind option_bind]. intros [= <- <-].
  set (c1 := Cache.with_store (Dictionary.step (Cache.store c)) c) in *.
  destruct (sampleKeys_spec _ _ _ _ _ _ Es) as [Hsub _]; [intros k []%elem_of_nil|].
  destruct (sampleKeys_NoDup _ _ _ _ _ _ Es) as [Hnd Hsz]; [constructor|].
  destruct (step_spec _ (proj1 Hinv)) as (Hwf1 & _ & Hlk1).
  assert (Hstore : ∀ k, k ∈ sampled → is_Some (store_lookup c k)).
  { intros k Hk%Hsub. apply dict_keys_lookup in Hk. unfold store_lookup.
    by rewrite <- Hlk1. }
  assert (Hmeta : Forall (λ k, is_Some (usage_lookup c k)) sampled).
  { apply Forall_forall. intros k Hk.
    by apply (cache_reachable_consistent _ c k Hr), Hstore. }
  pose proof (sort_perm (Cache.evictionOrder c1) sampled) as Hperm.
  pose proof (sort_sorted c sampled Hmeta) as Hsorted.
  change (Cache.evictionOrder c) with (Cache.evictionOrder c1) in Hsorted.
  set (samples := Cache.sort (Cache.evictionOrder c1) sampled) in *.
  exists (drop (Cache.dynamicPoolSize c1) samples).
  cbn [Cache.evictionPool Cache.with_pool]. rewrite take_drop.
  split; [by rewrite Hperm|]. split; [intros k Hk; apply Hstore; by rewrite <- Hperm|].
  split; [done|]. split.
  - rewrite (Permutation_length Hperm), Hsz.
    cbn [length Cache.evictionSampleSize Cache.with_store].
    cbn [Cache.store Cache.with_pool Cache.with_store].
    rewrite Dictionary_size_keys. unfold c1.
    cbn [Cache.evictionSampleSize Cache.store Cache.with_store length]. lia.
  - rewrite length_take. done.
Qed.

Lemma X28_refill_pool_sorted_witness :
  cache_reachable cache_full ∧
  Cache.refillPool tape_sample cache_full = Some (cache_refilled, [], Cache.Continue) ∧
  Cache.evictionPool cache_refilled = ["a"; "b"] ∧
  ∃ rest,
    NoDup (Cache.evictionPool cache_refilled ++ rest) ∧
    (∀ k, k ∈ Cache.evictionPool cache_refilled ++ rest →
          is_Some (store_lookup cache_full k)) ∧
    StronglySorted (λ a b, rank_le (usage_rank cache_full a) (usage_rank cache_full b))
      (Cache.evictionPool cache_refilled ++ rest) ∧
    Z.of_nat (length (Cache.evictionPool cache_refilled ++ rest))
    = Z.max 0 (Z.min (Cache.evictionSampleSize cache_full * 2)
                 (Z.of_nat (Dictionary.size (Cache.store cache_refilled)))) ∧
    length (Cache.evictionPool cache_refilled)
    = (Cache.dynamicPoolSize cache_refilled
       `min` length (Cache.evictionPool cache_refilled ++ rest))%nat.
Proof.
  assert (H : cache_reachable cache_full).
  { apply (cache_run_reachable _ calls_fill [] cache_small cache_full []).
    - apply reachable_cache_new.
    - by repeat constructor.
    - vm_compute. reflexivity. }
  assert (E : Cache.refillPool tape_sample cache_full
              = Some (cache_refilled, [], Cache.Continue)) by (vm_compute; reflexivity).
  assert (H1 : Cache.evictionPool cache_refilled = ["a"; "b"])
    by (vm_compute; reflexivity).
  exact (conj H (conj E (conj H1
           (X28_refill_pool_sorted cache_full tape_sample cache_refilled [] H E)))).
Defined.

(** ** The count of the evictions *)
Section eviction_count.
Implicit Types (c : Cache.t) (key k : string) (tp : tape).

Lemma Dictionary_size_step (d : Dictionary.t string CacheEntry) :
  dict_wf d → Dictionary.size (Dictionary.step d) = Dictionary.size d.
Proof.
  intros Hwf. destruct (step_spec d Hwf) as (Hwf1 & _ & Hlk).
  by apply dict_lookup_size.
Qed.

Lemma Dictionary_size_delete (d : Dictionary.t string CacheEntry) k :
  dict_wf d → is_Some (dict_lookup d k) →
  S (Dictionary.size (Dictionary.delete d k).1) = Dictionary.size d.
Proof.
  intros Hwf Hk. destruct (Dictionary_delete_spec d k Hwf) as (Hwf' & Hlk & _).
  rewrite !Dictionary_size_keys.
  change (S (length (dict_keys (Dictionary.delete d k).1)))
    with (length (k :: dict_keys (Dictionary.delete d k).1)).
  apply Permutation_length, NoDup_Permutation.
  - constructor; [|by apply dict_keys_NoDup].
    rewrite dict_keys_spec, Hlk by done. rewrite decide_True by done. by intros [? ?].
  - by apply dict_keys_NoDup.
  - intros x. rewrite elem_of_cons, !dict_keys_spec, Hlk by done.
    destruct (decide (k = x)) as [->|Hne].
    + split; [done|by left].
    + split; [by intros [->|?]|by right].
Qed.

(** An eviction takes one entry and counts 1. *)
Lemma evictVictim_counts c :
  dict_wf (Cache.store c) →
  Cache.evictions (Cache.stats (Cache.evictVictim c).1)
  - Cache.evictions (Cache.stats c)
  = Z.of_nat (Dictionary.size (Cache.store c))
    - Z.of_nat (Dictionary.size (Cache.store (Cache.evictVictim c).1)) ∧
  Cache.expirations (Cache.stats (Cache.evictVictim c).1)
  = Cache.expirations (Cache.stats c).
Proof.
  intros Hwf. unfold Cache.evictVictim.
  destruct (Cache.evictionPool c) as [|victim pool]; cbn [fst]; [split; [lia|done]|].
  case_bool_decide; cbn [fst]; [|cbn; split; [lia|done]].
  rewrite (surjective_pairing (Dictionary.has _ victim)), Dictionary_has_fst,
    Dictionary_has_snd.
  cbn [Cache.store Cache.with_pool].
  pose proof (Dictionary_size_step _ Hwf) as Hsz.
  destruct (step_spec _ Hwf) as (Hwf1 & _ & Hlk1).
  destruct (dict_lookup (Dictionary.step (Cache.store c)) victim) as [e|] eqn:He;
    cbn [fst].
  - set (c1 := Cache.with_store _ _).
    change (Cache.stats (Cache.count_eviction (Cache._deleteKey victim c1)))
      with (Cache.stats (Cache.count_eviction
                           (Cache.with_stats (Cache.stats (Cache._deleteKey victim c1))
                              c1))).
    rewrite deleteKey_stats.
    change (Cache.store (Cache.count_eviction (Cache._deleteKey victim c1)))
      with (Cache.store (Cache._deleteKey victim c1)).
    rewrite deleteKey_store.
    change (Cache.store c1) with (Dictionary.step (Cache.store c)).
    pose proof (Dictionary_size_step _ Hwf1) as Hsz2.
    destruct (step_spec _ Hwf1) as (Hwf2 & _ & Hlk2).
    pose proof (Dictionary_size_delete (Dictionary.step (Dictionary.step (Cache.store c)))
                  victim Hwf2 ltac:(rewrite Hlk2, He; by eexists)) as Hd.
    cbn. split; [lia|done].
  - cbn. split; [lia|done].
Qed.

Lemma refillPool_counts tp c c1 tp1 (fl : Cache.flow) :
  dict_wf (Cache.store c) → Cache.refillPool tp c = Some (c1, tp1, fl) →
  Cache.stats c1 = Cache.stats c ∧
  Dictionary.size (Cache.store c1) = Dictionary.size (Cache.store c).
Proof.
  intros Hwf. unfold Cache.refillPool.
  rewrite (surjective_pairing (Dictionary.keys _)), Dictionary_keys_fst.
  pose proof (Dictionary_size_step _ Hwf) as Hsz.
  case_bool_decide; [by intros [= <- <- <-]|].
  destruct (Cache.sampleKeys _ _ _ _) as [[sampled tp2]|]; [|done].
  cbn [mbind option_bind]. by intros [= <- <- <-].
Qed.

Lemma evictLoop_counts (fuel : nat) tp c c' tp' :
  dict_wf (Cache.store c) → Cache.evictLoop fuel tp c = Some (c', tp') →
  Cache.evictions (Cache.stats c') - Cache.evictions (Cache.stats c)
  = Z.of_nat (Dictionary.size (Cache.store c))
    - Z.of_nat (Dictionary.size (Cache.store c')) ∧
  Cache.expirations (Cache.stats c') = Cache.expirations (Cache.stats c).
Proof.
  revert tp c. induction fuel as [|fuel IH]; intros tp c Hwf; cbn [Cache.evictLoop].
  - destruct (Cache.overBudget c); [done|]. intros [= <- <-]. split; [lia|done].
  - destruct (Cache.overBudget c); [|intros [= <- <-]; split; [lia|done]].
    assert (Hre : ∀ c1 tp1 fl,
              (if bool_decide (length (Cache.evictionPool c) = 0%nat)
               then Cache.refillPool tp c
               else Some (c, tp, Cache.Continue)) = Some (c1, tp1, fl) →
              purge_steps c c1 ∧ Cache.stats c1 = Cache.stats c ∧
              Dictionary.size (Cache.store c1) = Dictionary.size (Cache.store c)).
    { intros c1 tp1 fl. case_bool_decide.
      - intros Er. split; [by apply (refillPool_steps tp c c1 tp1 fl)|].
        by apply (refillPool_counts tp c c1 tp1 fl).
      - intros [= <- <- <-]. split; [apply purge_steps_refl|done]. }
    destruct (if bool_decide _ then _ else _) as [[[c1 tp1] fl]|]; [|done].
    destruct (Hre _ _ _ eq_refl) as (H1 & Hst1 & Hsz1). cbn [mbind option_bind].
    destruct fl; [|intros [= <- <-]; rewrite Hst1, Hsz1; split; [lia|done]].
    pose proof (purge_steps_wf _ _ Hwf H1) as Hwf1.
    destruct (evictVictim_counts c1 Hwf1) as [Hv Hx].
    pose proof (evictVictim_steps c1) as H2.
    destruct (Cache.evictVictim c1) as [c2 fl2]. cbn [fst] in Hv, Hx, H2.
    rewrite Hst1, Hsz1 in *.
    destruct fl2; [|intros [= <- <-]; split; [lia|done]].
    intros E. destruct (IH _ _ (purge_steps_wf _ _ Hwf1 H2) E) as [IH1 IH2].
    split; [lia|congruence].
Qed.
End eviction_count.

(** X29: when [_evictIfNeeded()] returns on a state that the operations
    and the timers make from a new cache, the counter of evictions has
    grown by the number of entries that have left the store; every key
    has kept its entry, its deadline and its usage metadata or has lost
    all three, and the other counters of the statistics are as they
    were. *)
Theorem X29_evictions_counted (c : Cache.t) (tp : tape) (c' : Cache.t) (tp' : tape) :
  cache_reachable c → Cache._evictIfNeeded tp c = Some (c', tp') →
  Cache.evictions (Cache.stats c') - Cache.evictions (Cache.stats c)
  = Z.of_nat (Dictionary.size (Cache.store c))
    - Z.of_nat (Dictionary.size (Cache.store c')) ∧
  (∀ key, kept_or_purged c c' key) ∧
  Cache.hits (Cache.stats c') = Cache.hits (Cache.stats c) ∧
  Cache.misses (Cache.stats c') = Cache.misses (Cache.stats c) ∧
  Cache.operations (Cache.stats c') = Cache.operations (Cache.stats c) ∧
  Cache.expirations (Cache.stats c') = Cache.expirations (Cache.stats c).
Proof.
  intros Hinv%cache_reachable_inv E.
  pose proof (evictIfNeeded_steps _ _ _ _ E) as Hs.
  pose proof (purge_steps_stats _ _ Hs) as (S1 & S2 & S3 & _).
  assert (Hc : Cache.evictions (Cache.stats c') - Cache.evictions (Cache.stats c)
               = Z.of_nat (Dictionary.size (Cache.store c))
                 - Z.of_nat (Dictionary.size (Cache.store c')) ∧
               Cache.expirations (Cache.stats c') = Cache.expirations (Cache.stats c)).
  { revert E. unfold Cache._evictIfNeeded. case_bool_decide.
    - intros [= <- <-]. split; [lia|done].
    - apply evictLoop_counts, Hinv. }
  destruct Hc as [Hc1 Hc2]. split; [done|]. split; [|done].
  intros key. apply purge_steps_key; [apply Hinv|done].
Qed.

Lemma X29_evictions_counted_witness :
  cache_reachable cache_full ∧
  Cache._evictIfNeeded tape_sample cache_full = Some (cache_after_evict, []) ∧
  Dictionary.size (Cache.store cache_full) = 2%nat ∧
  Dictionary.size (Cache.store cache_after_evict) = 1%nat ∧
  Cache.evictions (Cache.stats cache_after_evict)
  - Cache.evictions (Cache.stats cache_full)
  = Z.of_nat (Dictionary.size (Cache.store cache_full))
    - Z.of_nat (Dictionary.size (Cache.store cache_after_evict)) ∧
  (∀ key, kept_or_purged cache_full cache_after_evict key) ∧
  Cache.hits (Cache.stats cache_after_evict) = Cache.hits (Cache.stats cache_full) ∧
  Cache.misses (Cache.stats cache_after_evict) = Cache.misses (Cache.stats cache_full) ∧
  Cache.operations (Cache.stats cache_after_evict)
  = Cache.operations (Cache.stats cache_full) ∧
  Cache.expirations (Cache.stats cache_after_evict)
  = Cache.expirations (Cache.stats cache_full).
Proof.
  assert (H : cache_reachable cache_full).
  { apply (cache_run_reachable _ calls_fill [] cache_small cache_full []).
    - apply reachable_cache_new.
    - by repeat constructor.
    - vm_compute. reflexivity. }
  assert (E : Cache._evictIfNeeded tape_sample cache_full
              = Some (cache_after_evict, [])) by (vm_compute; reflexivity).
  assert (H1 : Dictionary.size (Cache.store cache_full) = 2%nat)
    by (vm_compute; reflexivity).
  assert (H2 : Dictionary.size (Cache.store cache_after_evict) = 1%nat)
    by (vm_compute; reflexivity).
  exact (conj H (conj E (conj H1 (conj H2
           (X29_evictions_counted cache_full tape_sample cache_after_evict [] H E))))).
Defined.

(** ** The progress of the incremental rehash *)
Section rehash_progress.
Context {K V : Type} `{EqDecision K}.
Implicit Types (d : Dictionary.t K V) (m : JsMap.t K V) (k : K) (v : V).

Lemma JsMap_size_delete_lt m k :
  k ∈ JsMap.keys m → (JsMap.size (JsMap.delete m k).1 < JsMap.size m)%nat.
Proof.
  intros Hk. rewrite !JsMap_size_keys, JsMap_keys_delete.
  induction (JsMap.keys m) as [|x l IH]; [by apply elem_of_nil in Hk|].
  rewrite filter_cons. destruct (decide (x ≠ k)) as [Hne|Heq]; cbn [length].
  - apply elem_of_cons in Hk as [->|Hk]; [done|]. specialize (IH Hk). lia.
  - pose proof (length_filter (λ k', k' ≠ k) l). lia.
Qed.

(** The loop of a migration step ends the rehash or takes as many
    entries from [ht0] as the step is long. *)
Lemma rehashLoop_live n (h0 h1 : JsMap.t K V) idx it stp :
  0 ≤ idx →
  let d' := (Dictionary._rehashLoop n h0 h1 idx it stp).1 in
  Dictionary.isRehashing d' = false ∨
  (JsMap.size (Dictionary.ht0 d') + n ≤ JsMap.size h0)%nat.
Proof.
  revert h0 h1 idx it. induction n as [|n IH]; intros h0 h1 idx it Hidx;
    cbn [Dictionary._rehashLoop].
  - right. cbn [Dictionary.ht0 fst]. lia.
  - destruct (JsMap.next h0 it) as [[[key val] it1]|] eqn:Hnext; [|by left].
    apply JsMap_next_Some in Hnext as (_ & Hslot & _).
    assert (Hk : key ∈ JsMap.keys h0).
    { unfold JsMap.keys. apply list_elem_of_fmap. exists (key, val). split; [done|].
      by apply (JsMap_lookup_entries h0 (it1 - 1)). }
    pose proof (JsMap_size_delete_lt h0 key Hk) as Hlt.
    destruct (IH (JsMap.delete h0 key).1 (JsMap.set h1 key val) (idx + 1) it1)
      as [Hd|Hle]; [lia|by left|]. right. lia.
Qed.

Lemma step_live d :
  dict_wf d → Dictionary.isRehashing d = true →
  Dictionary.isRehashing (Dictionary.step d) = false ∨
  (JsMap.size (Dictionary.ht0 (Dictionary.step d)) + Dictionary.rehashStepSize d
   ≤ JsMap.size (Dictionary.ht0 d))%nat.
Proof.
  intros Hwf Hre. pose proof (rehashing_ht1_wf d Hwf) as Hr.
  unfold Dictionary.step, Dictionary._rehashStep.
  unfold Dictionary.rehashing_ht1 in Hr. rewrite Hre in Hr |- *. cbn [negb].
  destruct (Dictionary.ht1 d) as [h1|] eqn:E1.
  2:{ destruct Hr as (_ & _ & Hidx). unfold Dictionary.isRehashing in Hre.
      rewrite Hidx in Hre. done. }
  destruct Hr as (_ & [it Hit] & Hidx). rewrite Hit.
  by apply rehashLoop_live.
Qed.

Lemma step_idle d : Dictionary.isRehashing d = false → Dictionary.step d = d.
Proof.
  intros Hre. unfold Dictionary.step, Dictionary._rehashStep. by rewrite Hre.
Qed.

Lemma Dictionary_run_gets d k (ks : list K) :
  Dictionary_run d (CallGet <$> (k :: ks))
  = Dictionary_run (Dictionary.step d) (CallGet <$> ks).
Proof.
  cbn [fmap list_fmap Dictionary_run foldl Dictionary_call].
  rewrite (surjective_pairing (Dictionary.get d k)). cbn [fst].
  by rewrite Dictionary_get_fst.
Qed.

Lemma gets_idle d (ks : list K) :
  Dictionary.isRehashing d = false → Dictionary_run d (CallGet <$> ks) = d.
Proof.
  intros Hre. induction ks as [|k ks IH]; [done|].
  by rewrite Dictionary_run_gets, step_idle.
Qed.

(** Reads end a rehash: each of them moves [rehashStepSize] entries. *)
Lemma gets_finish (ks : list K) d :
  dict_wf d → (1 ≤ Dictionary.rehashStepSize d)%nat →
  (JsMap.size (Dictionary.ht0 d) < length ks)%nat →
  Dictionary.isRehashing (Dictionary_run d (CallGet <$> ks)) = false.
Proof.
  revert d. induction ks as [|k ks IH]; intros d Hwf Hst Hlen; [cbn in Hlen; lia|].
  rewrite Dictionary_run_gets.
  destruct (Dictionary.isRehashing d) eqn:Hre.
  2:{ rewrite step_idle by done. by rewrite gets_idle. }
  destruct (step_spec d Hwf) as (Hwf1 & Hst1 & _).
  destruct (step_live d Hwf Hre) as [Hd|Hle]; [by rewrite gets_idle|].
  apply IH; [done|lia|]. cbn [length] in Hlen. lia.
Qed.

Lemma ht0_size_le d :
  (JsMap.size (Dictionary.ht0 d) ≤ Dictionary.size d)%nat.
Proof. unfold Dictionary.size. destruct (Dictionary.rehashing_ht1 d); lia. Qed.

Lemma Dictionary_call_stepSize d (c : dict_call K V) :
  dict_wf d →
  Dictionary.rehashStepSize (Dictionary_call d c).1 = Dictionary.rehashStepSize d.
Proof.
  intros Hwf. destruct (step_spec d Hwf) as (_ & Hst & _).
  destruct c as [k v|k|k|k| |]; unfold Dictionary_call; cbn [fst].
  - unfold Dictionary.set. fold (Dictionary.step d).
    destruct (Dictionary.rehashing_ht1 (Dictionary.step d)); cbn; [done|].
    destruct (_ && _); [|done]. unfold Dictionary._startRehash.
    by destruct (Dictionary.isRehashing _).
  - rewrite (surjective_pairing (Dictionary.get d k)). cbn [fst].
    by rewrite Dictionary_get_fst.
  - rewrite (surjective_pairing (Dictionary.delete d k)). cbn [fst].
    unfold Dictionary.delete. fold (Dictionary.step d).
    destruct (Dictionary.rehashing_ht1 (Dictionary.step d)).
    + by destruct (JsMap.delete _ k), (JsMap.delete _ k).
    + by destruct (JsMap.delete _ k).
  - rewrite (surjective_pairing (Dictionary.has d k)). cbn [fst].
    by rewrite Dictionary_has_fst.
  - rewrite (surjective_pairing (Dictionary.keys d)). cbn [fst].
    by rewrite Dictionary_keys_fst.
  - done.
Qed.

Lemma Dictionary_run_stepSize (n : nat) (cs : list (dict_call K V)) :
  Dictionary.rehashStepSize (Dictionary_run (Dictionary.new n) cs) = n.
Proof.
  cut (∀ d m, dict_refines d m →
              Dictionary.rehashStepSize (Dictionary_run d cs)
              = Dictionary.rehashStepSize d).
  { intros H. rewrite (H _ JsMap.empty); [done|apply dict_refines_new]. }
  induction cs as [|c cs IH]; intros d m HR; [done|].
  cbn [Dictionary_run foldl]. destruct (dict_refines_call d m c HR) as [HR' _].
  fold (Dictionary_run (Dictionary_call d c).1 cs).
  rewrite (IH _ _ HR'). apply Dictionary_call_stepSize, HR.
Qed.
End rehash_progress.

(** X30: on a dictionary with a step size of at least 1 that [set],
    [get], [delete], [has], [keys] and [size] calls have made from a
    new one, a rehash that is under way has ended after more [get]
    calls than the dictionary has entries. *)
Theorem X30_reads_finish_rehash {K V : Type} `{EqDecision K}
    (n : nat) (cs : list (dict_call K V)) (ks : list K) :
  (1 ≤ n)%nat →
  (Dictionary.size (Dictionary_run (Dictionary.new n) cs) < length ks)%nat →
  Dictionary.isRehashing
    (Dictionary_run (Dictionary_run (Dictionary.new n) cs) (CallGet <$> ks)) = false.
Proof.
  intros Hn Hlen. apply gets_finish.
  - apply Dictionary_run_wf.
  - by rewrite Dictionary_run_stepSize.
  - pose proof (ht0_size_le (Dictionary_run (Dictionary.new n) cs)). lia.
Qed.

Lemma X30_reads_finish_rehash_witness :
  (1 ≤ 1)%nat ∧
  (Dictionary.size (Dictionary_run (Dictionary.new 1) sets_1001) < length keys_1002)%nat ∧
  Dictionary.isRehashing (Dictionary_run (Dictionary.new 1) sets_1001) = true ∧
  Dictionary.isRehashing
    (Dictionary_run (Dictionary_run (Dictionary.new 1) sets_1001)
       (CallGet <$> keys_1002)) = false.
Proof.
  assert (H1 : (1 ≤ 1)%nat) by lia.
  assert (H2 : (Dictionary.size (Dictionary_run (Dictionary.new 1) sets_1001)
                < length keys_1002)%nat).
  { apply Nat.ltb_lt. vm_compute. reflexivity. }
  assert (H3 : Dictionary.isRehashing (Dictionary_run (Dictionary.new 1) sets_1001)
               = true) by (vm_compute; reflexivity).
  exact (conj H1 (conj H2 (conj H3
           (X30_reads_finish_rehash 1 sets_1001 keys_1002 H1 H2)))).
Defined.

(** ** [zadd] as its caller sees it *)
Section zadd_caller.
Implicit Types (c : Cache.t) (key member : string) (now : Z) (tp : tape).
Implicit Types (score : number).

End zadd_caller.




